(** * SproutCore root responder: touch dispatch core and scroll deceleration

    A shallow embedding of the touch support of [SC.RootResponder]
    (frameworks/foundation/system/renderer.js) and of the deceleration
    integrator of [SC.ScrollView] (frameworks/desktop/views/scroll.js),
    with the properties the specification states about them. *)

From Stdlib Require Import ZArith List Bool Lia Reals Lra.
From stdpp Require Import base decidable option list gmap functions.

Set Default Proof Using "Type".

(** ** JavaScript values *)

(** Views are identified by their guid: [SC.guidFor(view)] is injective. *)
Definition View := positive.

(** The identity of an [SC.Touch] object (a JavaScript reference). *)
Definition TouchRef := positive.

(** A variable that holds a view, [null] or [undefined]. *)
Inductive ref : Type :=
| Undefined
| Null
| Obj (v : View).

#[global] Instance ref_eq_dec : EqDecision ref.
Proof. solve_decision. Defined.

(** [a === b] *)
Definition strict_eq (a b : ref) : bool := bool_decide (a = b).

(** The truth value of a reference in a condition. *)
Definition truthy (r : ref) : bool :=
  match r with Obj _ => true | _ => false end.

(** [stack[idx]]: [undefined] out of range, also for a negative index. *)
Definition at_index (stack : list View) (idx : Z) : ref :=
  if (idx <? 0)%Z then Undefined
  else match stack !! Z.to_nat idx with
       | Some v => Obj v
       | None => Undefined
       end.

(** [stack.indexOf(r) > -1]; the stack holds views only. *)
Definition in_stack (r : ref) (stack : list View) : bool :=
  match r with
  | Obj v => bool_decide (v ∈ stack)
  | _ => false
  end.

(** [stack.pop()] *)
Definition pop (stack : list View) : list View := removelast stack.

(** [stack.length] as a JavaScript number. *)
Definition len (stack : list View) : Z := Z.of_nat (length stack).

(** Modelled from the spec: [SC.CoreSet] is not among the sources; the spec
    calls a view's touches "a set of touch identifiers".  A set kept as a
    list without repetition: [add] of a member changes nothing, [remove]
    deletes the member. *)
Module CoreSet.
Abbreviation t := (list TouchRef).
Definition create : t := [].
Definition contains (x : TouchRef) (s : t) : bool := bool_decide (x ∈ s).
Definition add (x : TouchRef) (s : t) : t :=
  if contains x s then s else s ++ [x].
Definition remove (x : TouchRef) (s : t) : t :=
  filter (λ y, y ≠ x) s.
End CoreSet.

(** ** Data model *)

Inductive action : Type :=
| CaptureTouch
| TouchStart
| TouchEnd
| TouchCancelled.

#[global] Instance action_eq_dec : EqDecision action.
Proof. solve_decision. Defined.

(** What the outside world observes, in order. *)
Inductive event : Type :=
| Performed (a : action) (v : View) (t : TouchRef)
    (** [v.tryToPerform(a, t)] *)
| SentTouchStart (t : TouchRef) (target : ref)
    (** [this.sendEvent("touchStart", t, target)] *)
| SetHasTouch (v : View) (b : bool)
    (** [v.set("hasTouch", b)] *)
| Warned.
    (** [SC.Logger.warn(...)] *)

#[global] Instance event_eq_dec : EqDecision event.
Proof. solve_decision. Defined.

(** The answer of a callback: a value, or an exception. *)
Inductive reply (A : Type) : Type :=
| Returns (a : A)
| Throws.
Arguments Returns {A} a.
Arguments Throws {A}.

(** An entry of [_touchedViews]. *)
Record ViewEntry : Type := mkViewEntry {
  ve_view : ref;
  touches : CoreSet.t;
  touchCount : Z
}.

(** The outcome of a call: a value, an exception, or no answer within
    the fuel given to a loop whose end the code does not bound. *)
Inductive outcome (A : Type) : Type :=
| Ret (a : A)
| Thrown
| OutOfFuel.
Arguments Ret {A} a.
Arguments Thrown {A}.
Arguments OutOfFuel {A}.

Section Dispatch.

(** The type of page coordinates and time stamps; the dispatch core only
    copies them. *)
Context {num : Type}.

(** An [SC.Touch]. [touchResponders] is [None] once [touchend] has set it
    to [null]. *)
Record Touch : Type := mkTouch {
  identifier : Z;
  targetView : ref;
  view : ref;
  touchResponder : ref;
  nextTouchResponder : ref;
  touchResponders : option (list View);
  pageX : num;
  pageY : num;
  timeStamp : num
}.

(** The root responder, the touch objects it refers to, the [hasTouch]
    property of the views, and the trace of observable events. *)
Record World : Type := mkWorld {
  _touchedViews : gmap View ViewEntry;
  _touches : gmap Z TouchRef;
  heap : TouchRef → Touch;
  hasTouch : View → bool;
  touchViewsCleared : bool;
  runLoopDepth : Z;
  log : list event
}.

(** The view tree and the views' handlers: collaborators outside the core.
    A handler may read the state; it is assumed not to call back into the
    root responder. [sendTouchStart] is the answer of
    [pane.sendEvent("touchStart", touch, target)]: the view that accepted
    the touch, or [null]/[undefined]. *)
Record ViewEnv : Type := mkViewEnv {
  acceptsMultitouch : View → bool;
  nextResponder : View → ref;
  perform : World → action → View → TouchRef → reply bool;
  sendTouchStart : World → TouchRef → ref → reply ref
}.

(** ** A state monad with exceptions *)

Definition M (A : Type) : Type := World → outcome A * World.

Definition ret {A} (a : A) : M A := λ w, (Ret a, w).

Definition bind {A B} (m : M A) (k : A → M B) : M B :=
  λ w, match m w with
       | (Ret a, w') => k a w'
       | (Thrown, w') => (Thrown, w')
       | (OutOfFuel, w') => (OutOfFuel, w')
       end.

Definition throw {A} : M A := λ w, (Thrown, w).
Definition out_of_fuel {A} : M A := λ w, (OutOfFuel, w).
Definition get : M World := λ w, (Ret w, w).
Definition gets {A} (f : World → A) : M A := λ w, (Ret (f w), w).
Definition modify (f : World → World) : M unit := λ w, (Ret tt, f w).

(** [try { m } catch (e) { h }] *)
Definition try_catch {A} (m : M A) (h : M A) : M A :=
  λ w, match m w with
       | (Thrown, w') => h w'
       | r => r
       end.

Definition when (b : bool) (m : M unit) : M unit :=
  if b then m else ret tt.

End Dispatch.

Arguments Touch : clear implicits.
Arguments World : clear implicits.
Arguments ViewEnv : clear implicits.
Arguments M : clear implicits.
Arguments bind : simpl never.
Arguments try_catch : simpl never.

Declare Scope js_scope.
Delimit Scope js_scope with js.
Notation "x <- c1 ;; c2" := (bind c1 (λ x, c2))
  (at level 20, c1 at level 99, c2 at level 200) : js_scope.
Notation "c1 ;; c2" := (bind c1 (λ _, c2))
  (at level 100, c2 at level 200, right associativity) : js_scope.

Local Open Scope js_scope.
Local Open Scope Z_scope.

Section RootResponder.

Context {num : Type}.
Variable env : ViewEnv num.

Local Abbreviation World := (World num).
Local Abbreviation Touch := (Touch num).
Local Abbreviation M := (M num).

(** *** Field updates *)

Definition with_view (r : ref) (t : Touch) : Touch :=
  mkTouch (identifier t) (targetView t) r (touchResponder t)
          (nextTouchResponder t) (touchResponders t)
          (pageX t) (pageY t) (timeStamp t).

Definition with_responders (tr next : ref) (stack : option (list View))
    (t : Touch) : Touch :=
  mkTouch (identifier t) (targetView t) (view t) tr next stack
          (pageX t) (pageY t) (timeStamp t).

Definition with_position (x y ts : num) (t : Touch) : Touch :=
  mkTouch (identifier t) (targetView t) (view t) (touchResponder t)
          (nextTouchResponder t) (touchResponders t) x y ts.

Definition with_touchedViews (f : gmap View ViewEntry → gmap View ViewEntry)
    (w : World) : World :=
  mkWorld (f (_touchedViews w)) (_touches w) (heap w) (hasTouch w)
          (touchViewsCleared w) (runLoopDepth w) (log w).

Definition with_touches (f : gmap Z TouchRef → gmap Z TouchRef)
    (w : World) : World :=
  mkWorld (_touchedViews w) (f (_touches w)) (heap w) (hasTouch w)
          (touchViewsCleared w) (runLoopDepth w) (log w).

Definition with_heap (t : TouchRef) (f : Touch → Touch) (w : World) : World :=
  mkWorld (_touchedViews w) (_touches w) (<[t := f (heap w t)]> (heap w))
          (hasTouch w) (touchViewsCleared w) (runLoopDepth w) (log w).

Definition with_hasTouch (v : View) (b : bool) (w : World) : World :=
  mkWorld (_touchedViews w) (_touches w) (heap w) (<[v := b]> (hasTouch w))
          (touchViewsCleared w) (runLoopDepth w) (log w).

Definition with_touchViewsCleared (w : World) : World :=
  mkWorld (_touchedViews w) (_touches w) (heap w) (hasTouch w)
          true (runLoopDepth w) (log w).

Definition with_runLoop (d : Z) (w : World) : World :=
  mkWorld (_touchedViews w) (_touches w) (heap w) (hasTouch w)
          (touchViewsCleared w) (runLoopDepth w + d) (log w).

Definition with_log (e : event) (w : World) : World :=
  mkWorld (_touchedViews w) (_touches w) (heap w) (hasTouch w)
          (touchViewsCleared w) (runLoopDepth w) (log w ++ [e]).

(** [new SC.Touch(touch, touchContext)]; [touchstart] sets the time stamp
    right after. *)
Definition SC_Touch (ident : Z) (target : ref) (x y ts : num) : Touch :=
  mkTouch ident target Undefined Undefined Undefined (Some []) x y ts.

(** The root responder before any touch: [_touchedViews: {}],
    [_touches: {}], no view with [hasTouch]. *)
Definition RootResponder_create (objects : TouchRef → Touch) : World :=
  mkWorld ∅ ∅ objects (λ _, false) false 0 [].

(** *** Collaborators *)

Definition emit (e : event) : M unit := modify (with_log e).

(** [view.set("hasTouch", b)] *)
Definition set_hasTouch (v : View) (b : bool) : M unit :=
  modify (with_hasTouch v b) ;; emit (SetHasTouch v b).

(** [view.tryToPerform(a, touch)] *)
Definition tryToPerform (a : action) (v : View) (t : TouchRef) : M bool :=
  emit (Performed a v t) ;;
  w <- get ;;
  match perform env w a v t with
  | Returns b => ret b
  | Throws => throw
  end.

(** [this.sendEvent("touchStart", touch, target)]: the root responder hands
    the event to the target's pane (or to the key or main pane), whose
    answer it returns; the run loop it opens is closed again. *)
Definition sendEvent_touchStart (t : TouchRef) (target : ref) : M ref :=
  emit (SentTouchStart t target) ;;
  w <- get ;;
  match sendTouchStart env w t target with
  | Returns r => ret r
  | Throws => throw
  end.

Definition RunLoop_begin : M unit := modify (with_runLoop 1).
Definition RunLoop_end : M unit := modify (with_runLoop (-1)).

(** *** The view-touch index *)

(** [touchesForView(view)]: the view's touches, [undefined] ([None]) when
    the view has no entry. *)
Definition touchesForView (v : View) (w : World) : option CoreSet.t :=
  touches <$> (_touchedViews w !! v).

Definition assignTouch (t : TouchRef) (v : View) : M unit :=
  (* create view entry if needed *)
  tv <- gets _touchedViews ;;
  when (bool_decide (tv !! v = None))
    (modify (with_touchedViews
               (insert v (mkViewEntry (Obj v) CoreSet.create 0))) ;;
     set_hasTouch v true) ;;
  (* add touch *)
  modify (with_heap t (with_view (Obj v))) ;;
  modify (with_touchedViews
            (alter (λ e, mkViewEntry (ve_view e) (CoreSet.add t (touches e))
                                     (touchCount e)) v)) ;;
  modify (with_touchedViews
            (alter (λ e, mkViewEntry (ve_view e) (touches e)
                                     (touchCount e + 1)) v)).

Definition unassignTouch (t : TouchRef) : M unit :=
  tview <- gets (λ w, view (heap w t)) ;;
  match tview with
  | Obj v =>
      (* get view entry *)
      entry <- gets (λ w, _touchedViews w !! v) ;;
      match entry with
      | None => throw   (* viewEntry is undefined: TypeError *)
      | Some e =>
          let e' := mkViewEntry (ve_view e) (CoreSet.remove t (touches e))
                                (touchCount e - 1) in
          modify (with_touchedViews (insert v e')) ;;
          (* remove view entry if needed *)
          when (touchCount e' <? 1)
            (set_hasTouch v false ;;
             modify (with_touchedViews
                       (insert v (mkViewEntry Null (touches e')
                                              (touchCount e')))) ;;
             modify (with_touchedViews (delete v))) ;;
          (* clear view *)
          modify (with_heap t (with_view Undefined))
      end
  | _ => ret tt   (* if (!touch.view) return; *)
  end.

(** *** makeTouchResponder *)

(** The loop that pops the responders above [responder]:
    [while (last && last !== responder) { ... }].  [stack] is the array the
    local variable refers to, which is the touch's [touchResponders]; the
    loop answers the array it leaves. *)
Fixpoint pop_responders (fuel : nat) (t : TouchRef) (responder : ref)
    (stack : list View) (idx : Z) (last : ref) : M (list View) :=
  match last with
  | Obj l =>
      if strict_eq last responder then ret stack
      else
        match fuel with
        | O => out_of_fuel
        | S fuel' =>
            (* unassign the touch *)
            tfv <- gets (touchesForView l) ;;
            (* send touchCancelled *)
            when (acceptsMultitouch env l || negb (bool_decide (is_Some tfv)))
              (_ <- tryToPerform TouchCancelled l t ;; ret tt) ;;
            (* go to next *)
            let idx := idx - 1 in
            let last := at_index stack idx in
            (* update responders *)
            let stack := pop stack in
            modify (with_heap t (with_responders (at_index stack idx)
                                                 (at_index stack (idx - 1))
                                                 (Some stack))) ;;
            pop_responders fuel' t responder stack idx last
        end
  | _ => ret stack
  end.

Definition makeTouchResponder (t : TouchRef) (responder : ref)
    (shouldStack : bool) : M unit :=
  stack <- gets (λ w, touchResponders (heap w t)) ;;
  cur <- gets (λ w, touchResponder (heap w t)) ;;
  if strict_eq cur responder then ret tt
  else
    (* send touchStart *)
    responder <- sendEvent_touchStart t responder ;;
    (* and again, now that we have more detail. *)
    cur <- gets (λ w, touchResponder (heap w t)) ;;
    if strict_eq cur responder then ret tt
    else
      unassignTouch t ;;
      match stack with
      | None => throw   (* stack is null: TypeError *)
      | Some stack =>
          stack <-
            (if negb shouldStack
                || (in_stack responder stack
                    && negb (strict_eq (at_index stack (len stack - 1))
                                       responder))
             then
               (* pop all other items *)
               let idx := len stack - 1 in
               pop_responders (length stack) t responder stack idx
                              (at_index stack idx)
             else ret stack) ;;
          (* now that we've popped off, we can push on *)
          match responder with
          | Obj r =>
              assignTouch t r ;;
              let stack := stack ++ [r] in
              modify (with_heap t (with_responders
                                     (Obj r)
                                     (at_index stack (len stack - 2))
                                     (Some stack)))
          | _ => ret tt
          end
      end.

(** *** captureTouch *)

(** [view !== startingPoint], where a missing starting point stands for the
    root responder itself, which is no view. *)
Definition differs_from (view startingPoint : ref) : bool :=
  if truthy startingPoint then negb (strict_eq view startingPoint) else true.

(** [while (view && (view !== startingPoint)) { chain.push(view); ... }] *)
Fixpoint responder_chain (fuel : nat) (view startingPoint : ref)
    (chain : list View) : option (list View) :=
  match view with
  | Obj v =>
      if differs_from view startingPoint then
        match fuel with
        | O => None
        | S fuel' =>
            responder_chain fuel' (nextResponder env v) startingPoint
                            (chain ++ [v])
        end
      else Some chain
  | _ => Some chain
  end.

(** [for (len = chain.length, idx = 0; idx < len; idx++) { ... }]; answers
    whether a view captured the touch, in which case the function returns. *)
Fixpoint capture_loop (t : TouchRef) (shouldStack : bool)
    (chain : list View) : M bool :=
  match chain with
  | [] => ret false
  | v :: rest =>
      captured <- tryToPerform CaptureTouch v t ;;
      if captured then
        makeTouchResponder t (Obj v) shouldStack ;; ret true
      else capture_loop t shouldStack rest
  end.

Definition captureTouch (fuel : nat) (t : TouchRef) (startingPoint : ref)
    (shouldStack : bool) : M unit :=
  target <- gets (λ w, targetView (heap w t)) ;;
  (* work up the chain until we get the root *)
  match responder_chain fuel target startingPoint [] with
  | None => out_of_fuel
  | Some chain =>
      (* work down the chain *)
      captured <- capture_loop t shouldStack chain ;;
      if captured then ret tt
      else makeTouchResponder t target shouldStack
  end.

(** *** touchend and touchcancel *)

Record RawTouch : Type := mkRawTouch {
  raw_identifier : Z;
  raw_pageX : num;
  raw_pageY : num
}.

Record TouchEvent : Type := mkTouchEvent {
  changedTouches : list RawTouch;
  evt_timeStamp : num;
  isCancel : bool
}.

(** [while (responder) { ... }]; answers the value of [action], a variable
    of the whole function. *)
Fixpoint end_responders (fuel : nat) (te : TouchRef) (responders : list View)
    (responderIdx : Z) (responder : ref) (act : action) : M action :=
  match responder with
  | Obj r =>
      match fuel with
      | O => out_of_fuel
      | S fuel' =>
          (* tell it *)
          _ <- tryToPerform act r te ;;
          (* next *)
          let responderIdx := responderIdx - 1 in
          end_responders fuel' te responders responderIdx
                         (at_index responders responderIdx)
                         TouchCancelled
      end
  | _ => ret act
  end.

(** The body of the loop over the changed touches. *)
Definition end_touch (evt : TouchEvent) (touch : RawTouch) (act : action)
    : M action :=
  entry <- gets (λ w, _touches w !! raw_identifier touch) ;;
  match entry with
  | None => throw   (* touchEntry is undefined: TypeError *)
  | Some te =>
      modify (with_heap te (with_position (raw_pageX touch) (raw_pageY touch)
                                          (evt_timeStamp evt))) ;;
      (* unassign *)
      unassignTouch te ;;
      (* call end for all items in chain *)
      cur <- gets (λ w, touchResponder (heap w te)) ;;
      act <-
        (if truthy cur then
           responders <- gets (λ w, touchResponders (heap w te)) ;;
           match responders with
           | None => throw   (* responders is null: TypeError *)
           | Some rs =>
               let responderIdx := len rs - 1 in
               end_responders (length rs) te rs responderIdx
                              (at_index rs responderIdx) act
           end
         else ret act) ;;
      (* clear responders *)
      modify (with_heap te (with_responders Null Null None)) ;;
      (* and remove from our set *)
      ident <- gets (λ w, identifier (heap w te)) ;;
      modify (with_touches (delete ident)) ;;
      ret act
  end.

Fixpoint end_touches (evt : TouchEvent) (touches : list RawTouch)
    (act : action) : M unit :=
  match touches with
  | [] => ret tt
  | touch :: rest =>
      act <- end_touch evt touch act ;;
      end_touches evt rest act
  end.

Definition touchend (evt : TouchEvent) : M bool :=
  RunLoop_begin ;;
  completed <-
    try_catch
      (end_touches evt (changedTouches evt)
                   (if isCancel evt then TouchCancelled else TouchEnd) ;;
       ret true)
      (emit Warned ;;
       modify with_touchViewsCleared ;;
       RunLoop_end ;;
       ret false) ;;
  if completed then RunLoop_end ;; ret false
  else ret false.

Definition touchcancel (evt : TouchEvent) : M unit :=
  _ <- touchend (mkTouchEvent (changedTouches evt) (evt_timeStamp evt) true) ;;
  ret tt.

End RootResponder.

(** ** The view-touch index: what is stated about it *)

Section IndexSpec.

Context {num : Type}.

Local Abbreviation World := (World num).
Local Abbreviation M := (M num).

(** The view has a non-empty touch set. *)
Definition has_touches (v : View) (w : World) : Prop :=
  ∃ s, touchesForView v w = Some s ∧ s ≠ [].

(** *** The invariant of the index *)

Record index_inv (w : World) : Prop := mkIndexInv {
  inv_flag : ∀ v, hasTouch w v = true ↔ is_Some (_touchedViews w !! v);
  inv_nodup : ∀ v e, _touchedViews w !! v = Some e → NoDup (touches e);
  inv_count : ∀ v e, _touchedViews w !! v = Some e →
                     touchCount e = Z.of_nat (length (touches e));
  inv_nonempty : ∀ v e, _touchedViews w !! v = Some e → touches e ≠ [];
  inv_member : ∀ v e t, _touchedViews w !! v = Some e →
                        (t ∈ touches e ↔ view (heap w t) = Obj v);
  inv_assigned : ∀ t v, view (heap w t) = Obj v →
                        is_Some (_touchedViews w !! v)
}.

(** Nothing is assigned: no entry, no flag, no touch with a view. *)
Definition index_empty (w : World) : Prop :=
  _touchedViews w = ∅
  ∧ (∀ v, hasTouch w v = false)
  ∧ (∀ t, truthy (view (heap w t)) = false).

(** *** Sequences of calls *)

Inductive index_op : Type :=
| Assign (t : TouchRef) (v : View)
| Unassign (t : TouchRef).

Definition run_op (op : index_op) : M unit :=
  match op with
  | Assign t v => assignTouch t v
  | Unassign t => unassignTouch t
  end.

Fixpoint run_ops (ops : list index_op) (w : World) : World :=
  match ops with
  | [] => w
  | op :: rest => run_ops rest (run_op op w).2
  end.

(** The discipline of [makeTouchResponder], the caller of [assignTouch]:
    a touch is assigned only while it has no view, that is, after
    [unassignTouch]. *)
Definition op_allowed (op : index_op) (w : World) : Prop :=
  match op with
  | Assign t _ => truthy (view (heap w t)) = false
  | Unassign _ => True
  end.

Inductive index_reachable : World → Prop :=
| reach_empty w : index_empty w → index_reachable w
| reach_step w op :
    index_reachable w → op_allowed op w → index_reachable (run_op op w).2.

(** Between [w] and [w'] the [hasTouch] property was set at most once, and
    if so, to the opposite of what it was. *)
Definition toggled_once (w w' : World) : Prop :=
  (log w' = log w ∧ ∀ v, hasTouch w' v = hasTouch w v)
  ∨ (∃ v b, log w' = log w ++ [SetHasTouch v b]
       ∧ hasTouch w v = negb b ∧ hasTouch w' v = b
       ∧ ∀ v', v' ≠ v → hasTouch w' v' = hasTouch w v').

End IndexSpec.

(** ** The responder stack: what is stated about it *)

(** The views above [responder] in a stack, the top first: those the
    popping phase of [makeTouchResponder] removes.  [rstack] is the stack
    from the top down. *)
Fixpoint popped_from_top (responder : ref) (rstack : list View) : list View :=
  match rstack with
  | [] => []
  | v :: below =>
      if strict_eq (Obj v) responder then []
      else v :: popped_from_top responder below
  end.

Definition popped (responder : ref) (stack : list View) : list View :=
  popped_from_top responder (rev stack).

(** What the popping phase leaves of the stack. *)
Definition kept (responder : ref) (stack : list View) : list View :=
  take (length stack - length (popped responder stack))%nat stack.

(** The top of a stack and the element below it, as [makeTouchResponder]
    reads them. *)
Definition top (stack : list View) : ref := at_index stack (len stack - 1).
Definition below_top (stack : list View) : ref :=
  at_index stack (len stack - 2).

(** The [touchCancelled] notifications in a trace. *)
Definition is_cancellation (e : event) : bool :=
  match e with
  | Performed TouchCancelled _ _ => true
  | _ => false
  end.

Definition cancellations (evs : list event) : list event :=
  List.filter is_cancellation evs.

(** The events of [w'] that [w] does not have yet. *)
Definition new_events {num} (w w' : World num) : list event :=
  drop (length (log w)) (log w').

Section StackSpec.

Context {num : Type}.
Variable env : ViewEnv num.

(** The condition under which the popping phase tells a view that the
    touch is cancelled: [last.get("acceptsMultitouch") || !touchesForView]. *)
Definition notified (w : World num) (v : View) : bool :=
  acceptsMultitouch env v || negb (bool_decide (is_Some (touchesForView v w))).

(** No [touchCancelled] handler throws. *)
Definition cancel_safe (t : TouchRef) : Prop :=
  ∀ w v, perform env w TouchCancelled v t ≠ Throws.

(** The two pointers of a touch agree with its stack: [touchResponder] is
    the last element and [nextTouchResponder] the one before it,
    [undefined] where the stack is too short. *)
Definition pointers_follow_stack (x : Touch num) : Prop :=
  ∀ stack, touchResponders x = Some stack →
    touchResponder x = top stack ∧ nextTouchResponder x = below_top stack.

(** No handler of any view throws for the touch. *)
Definition handlers_safe (t : TouchRef) : Prop :=
  ∀ w a v, perform env w a v t ≠ Throws.

(** What a walk over the stack [rs] sends, from the innermost frame out:
    [act] to the first frame, [touchCancelled] to every other. *)
Definition end_notifications (t : TouchRef) (act : action)
    (rs : list View) : list event :=
  match rev rs with
  | [] => []
  | v :: outer =>
      Performed act v t :: map (λ v', Performed TouchCancelled v' t) outer
  end.

(** Two touch objects that differ in the responder fields at most. *)
Definition same_but_responders (x y : Touch num) : Prop :=
  identifier x = identifier y ∧ targetView x = targetView y
  ∧ view x = view y ∧ pageX x = pageX y ∧ pageY x = pageY y
  ∧ timeStamp x = timeStamp y.

End StackSpec.

(** ** Concrete views, touches and handlers *)

Module Scenario.

Definition Root : View := 1%positive.
Definition A : View := 2%positive.
Definition B : View := 3%positive.

Definition t1 : TouchRef := 1%positive.
Definition t2 : TouchRef := 2%positive.

(** The touch objects: every touch starts on [B]. *)
Definition objects : TouchRef → Touch Z :=
  λ t, SC_Touch (Z.pos t) (Obj B) 0 0 0.

Definition fresh : World Z := RootResponder_create objects.

(** The chain [Root] <- [A] <- [B]. *)
Definition chain (v : View) : ref :=
  if decide (v = B) then Obj A
  else if decide (v = A) then Obj Root
  else Null.

(** Views that accept every touch offered to them, capture every touch,
    never throw, and do not accept multitouch. *)
Definition willing : ViewEnv Z :=
  mkViewEnv (λ _, false) chain
            (λ _ _ _ _, Returns true)
            (λ _ _ target, Returns target).

(** The same views, except that [B] accepts multitouch. *)
Definition multitouch : ViewEnv Z :=
  mkViewEnv (λ v, bool_decide (v = B)) chain
            (λ _ _ _ _, Returns true)
            (λ _ _ target, Returns target).

(** The same views, except that nobody takes a touch offered to [B]:
    the pane answers [null]. *)
Definition B_declines : ViewEnv Z :=
  mkViewEnv (λ _, false) chain
            (λ _ _ _ _, Returns true)
            (λ _ _ target, if decide (target = Obj B) then Returns Null
                           else Returns target).

(** Touch [t1] with the stack [[A, B]]:
    [makeTouchResponder(t1, A, true)], [makeTouchResponder(t1, B, true)]. *)
Definition stacked (env : ViewEnv Z) : World Z :=
  ((makeTouchResponder env t1 (Obj A) true ;;
    makeTouchResponder env t1 (Obj B) true) fresh).2.

(** The same, and a second touch [t2] on [B]:
    [makeTouchResponder(t2, B, true)]. *)
Definition two_on_B (env : ViewEnv Z) : World Z :=
  (makeTouchResponder env t2 (Obj B) true (stacked env)).2.

(** The same views as [willing], except that the [touchEnd] handler of
    [A] throws. *)
Definition A_throws : ViewEnv Z :=
  mkViewEnv (λ _, false) chain
            (λ _ a v _, if decide (a = TouchEnd ∧ v = A) then Throws
                        else Returns true)
            (λ _ _ target, Returns target).

(** Two touches down, as [touchstart] registers them, [t1] held by [A]
    and [t2] held by [B]. *)
Definition both_down (env : ViewEnv Z) : World Z :=
  ((makeTouchResponder env t1 (Obj A) false ;;
    makeTouchResponder env t2 (Obj B) false)
     (with_touches (λ _, {[ 1 := t1; 2 := t2 ]}) fresh)).2.

(** A [touchend] for both touches at once. *)
Definition lift_both : TouchEvent (num := Z) :=
  mkTouchEvent [mkRawTouch 1 0 0; mkRawTouch 2 0 0] 0 false.

End Scenario.

(** ** averagedTouchesForView *)

(** A JavaScript value that arithmetic meets here: [undefined], [NaN], or a
    number, taken as a real. *)
Inductive jsval : Type :=
| JUndefined
| JNaN
| JNum (r : R).

(** [a + b] on such values: [undefined] becomes [NaN], and [NaN] stays. *)
Definition js_add (a b : jsval) : jsval :=
  match a, b with
  | JNum x, JNum y => JNum (x + y)
  | _, _ => JNaN
  end.

(** [a / len] for a positive length. *)
Definition js_div (a : jsval) (n : nat) : jsval :=
  match a with
  | JNum x => JNum (x / INR n)
  | _ => JNaN
  end.

Record Averaged : Type := mkAveraged {
  avg_x : jsval;
  avg_y : jsval;
  avg_d : jsval;
  avg_touchCount : nat
}.

Section Averaging.

Local Open Scope R_scope.

(** [averagedTouchesForView(view)].  [Math.pow(s, 0.5)] is the square root
    for the sums of squares it is applied to. *)
Definition averagedTouchesForView (v : View) (w : World R) : Averaged :=
  match touchesForView v w with
  | None => mkAveraged (JNum 0) (JNum 0) (JNum 0) 0
  | Some t =>
      if (length t =? 0)%nat then mkAveraged (JNum 0) (JNum 0) (JNum 0) 0
      else
        let touches := map (heap w) t in
        let len := length touches in
        (* first, add *)
        let ax := fold_left (λ ax touch, ax + pageX touch) touches 0 in
        let ay := fold_left (λ ay touch, ay + pageY touch) touches 0 in
        (* now, average *)
        let ax := ax / INR len in
        let ay := ay / INR len in
        (* distance; [ad] is declared and not initialised *)
        let ad :=
          fold_left
            (λ ad touch,
               let dx := Rabs (pageX touch - ax) in
               let dy := Rabs (pageY touch - ay) in
               js_add ad (JNum (sqrt (dx * dx + dy * dy))))
            touches JUndefined in
        (* average *)
        let ad := js_div ad len in
        mkAveraged (JNum ax) (JNum ay) ad len
  end.

(** What the claim says of [d]: the mean distance of the touches from
    their centroid. *)
Definition centroid_x (touches : list (Touch R)) : R :=
  fold_right (λ touch s, pageX touch + s) 0 touches / INR (length touches).

Definition centroid_y (touches : list (Touch R)) : R :=
  fold_right (λ touch s, pageY touch + s) 0 touches / INR (length touches).

Definition mean_distance (touches : list (Touch R)) : R :=
  fold_right
    (λ touch s,
       sqrt ((pageX touch - centroid_x touches) * (pageX touch - centroid_x touches)
             + (pageY touch - centroid_y touches) * (pageY touch - centroid_y touches))
       + s)
    0 touches
  / INR (length touches).

(** A view [A] holding one touch, at page position (3, 4). *)
Definition one_touch_at_3_4 : World R :=
  mkWorld {[ Scenario.A := mkViewEntry (Obj Scenario.A) [Scenario.t1] 1 ]}
          {[ 1%Z := Scenario.t1 ]}
          (λ _, mkTouch 1 (Obj Scenario.A) (Obj Scenario.A) (Obj Scenario.A)
                        Undefined (Some [Scenario.A]) 3 4 0)
          (λ v, bool_decide (v = Scenario.A)) false 0 [].

End Averaging.

(** ** The deceleration of the scroll view *)

Module Scroll.

Local Open Scope R_scope.

(** [this.touch], as far as [decelerateAnimation] uses it; [timeout] is
    the handle of the pending timer, [None] for [null]. *)
Record TouchStatus : Type := mkTouchStatus {
  scrollVelocityY : R;
  decelerationVelocity_y : R;
  lastEventTime : R;
  timeout : option unit;
  decelerationFromEdge : R;
  accelerationFromEdge : R
}.

(** The scroll view: the offset of the fast path and the transform it
    writes, the maximum offset, the gesture state, and the values set
    through the property-change path:
    [this.set("verticalScrollOffset", ...)]. *)
Record ScrollView : Type := mkScrollView {
  _scroll_verticalScrollOffset : R;
  webkitTransform_y : R;
  maximumVerticalScrollOffset : R;
  touch : TouchStatus;
  committed : list R
}.

Definition Rltb (a b : R) : bool := if Rlt_dec a b then true else false.

(** One tick; [now] and [now'] are what the two calls of [Date.now()]
    answer. *)
Definition decelerateAnimation (now now' : R) (s : ScrollView) : ScrollView :=
  let touch := touch s in
  let maxOffset := maximumVerticalScrollOffset s in
  let newY := _scroll_verticalScrollOffset s + decelerationVelocity_y touch in
  let t := Rmax (now - lastEventTime touch) 1 in
  (* update scroll *)
  let offset := newY in
  let transform := - offset in
  (* update velocity *)
  let decay := 0.950 in
  let vy := decelerationVelocity_y touch * Rpower decay (t / 10) in
  let vy :=
    if Rltb newY 0 then
      if Rltb vy 0 then vy + (- newY * decelerationFromEdge touch)
      else - newY * accelerationFromEdge touch
    else if Rltb maxOffset newY then
      if Rltb 0 vy then vy - ((newY - maxOffset) * decelerationFromEdge touch)
      else - ((newY - maxOffset) * accelerationFromEdge touch)
    else vy in
  (* if we ain't got no velocity... then we must be finished *)
  let absYVelocity := Rabs vy in
  if Rltb absYVelocity 1 && Rltb 0 newY && Rltb newY maxOffset then
    mkScrollView offset transform maxOffset
                 (mkTouchStatus (scrollVelocityY touch) vy
                                (lastEventTime touch) None
                                (decelerationFromEdge touch)
                                (accelerationFromEdge touch))
                 (committed s ++ [offset])
  else
    (* next round *)
    mkScrollView offset transform maxOffset
                 (mkTouchStatus (scrollVelocityY touch) vy now' (Some tt)
                                (decelerationFromEdge touch)
                                (accelerationFromEdge touch))
                 (committed s).

(** [startDecelerationAnimation]: the first tick, on release. *)
Definition startDecelerationAnimation (now now' : R) (s : ScrollView)
    : ScrollView :=
  let touch := touch s in
  decelerateAnimation now now'
    (mkScrollView (_scroll_verticalScrollOffset s) (webkitTransform_y s)
                  (maximumVerticalScrollOffset s)
                  (mkTouchStatus (scrollVelocityY touch)
                                 (scrollVelocityY touch * 10)
                                 (lastEventTime touch) (timeout touch)
                                 (decelerationFromEdge touch)
                                 (accelerationFromEdge touch))
                  (committed s)).

(** The integrator is idle when no timer is pending. *)
Definition idle (s : ScrollView) : Prop := timeout (touch s) = None.

(** Ticks in a row, one per pair of clock readings, as long as a timer is
    pending. *)
Fixpoint run_ticks (clock : list (R * R)) (s : ScrollView) : ScrollView :=
  match clock with
  | [] => s
  | (now, now') :: later =>
      match timeout (touch s) with
      | Some _ => run_ticks later (decelerateAnimation now now' s)
      | None => s
      end
  end.

(** A view whose content rests at the offset [y] when the touch is
    released: the velocities are 0, no timer is pending, and the
    coefficients are those [beginTouchTracking] sets. *)
Definition at_rest (y maxOffset lastTime : R) : ScrollView :=
  mkScrollView y (- y) maxOffset
               (mkTouchStatus 0 0 lastTime None 0.05 0.08) [].

End Scroll.

(** * More of the root responder, of the renderer and of the scroll view *)

(** ** The index under the whole dispatch engine *)

Section IndexMore.

Context {num : Type}.

(** Two states with the same index: the same entries, the same flags, and
    every touch with the same view. *)
Definition index_same (w w' : World num) : Prop :=
  _touchedViews w' = _touchedViews w
  ∧ hasTouch w' = hasTouch w
  ∧ ∀ t, view (heap w' t) = view (heap w t).

(** The calls that drive the engine. *)
Inductive engine_op : Type :=
| DoMakeTouchResponder (t : TouchRef) (responder : ref) (shouldStack : bool)
| DoCaptureTouch (fuel : nat) (t : TouchRef) (startingPoint : ref)
                 (shouldStack : bool)
| DoTouchEnd (evt : TouchEvent (num := num))
| DoTouchCancel (evt : TouchEvent (num := num)).

(** The state a call leaves, however it ends. *)
Definition run_engine_op (env : ViewEnv num) (op : engine_op)
    (w : World num) : World num :=
  match op with
  | DoMakeTouchResponder t responder shouldStack =>
      (makeTouchResponder env t responder shouldStack w).2
  | DoCaptureTouch fuel t startingPoint shouldStack =>
      (captureTouch env fuel t startingPoint shouldStack w).2
  | DoTouchEnd evt => (touchend env evt w).2
  | DoTouchCancel evt => (touchcancel env evt w).2
  end.

(** The states the engine reaches from an empty index, whatever the views
    answer. *)
Inductive engine_reachable (env : ViewEnv num) : World num → Prop :=
| engine_start w : index_empty w → engine_reachable env w
| engine_step w op :
    engine_reachable env w → engine_reachable env (run_engine_op env op w).

End IndexMore.

(** ** touchend, as a whole *)

(** A call that ended within its fuel, with the run loop at depth [d]. *)
Definition settles {num A} (d : Z) (r : outcome A * World num) : Prop :=
  r.1 ≠ OutOfFuel ∧ runLoopDepth r.2 = d.

(** The handler calls in a trace. *)
Definition is_performed (e : event) : bool :=
  match e with
  | Performed _ _ _ => true
  | _ => false
  end.

Definition performed (evs : list event) : list event :=
  List.filter is_performed evs.

(** A state of the engine for the examples: touch [t1] captured on a new
    root responder, every view willing. *)
Definition captured_once : World Z :=
  run_engine_op Scenario.willing
                (DoCaptureTouch 3 Scenario.t1 Undefined false) Scenario.fresh.

(** Touches [t1] and [t2] registered under the identifiers 1 and 2, as
    [touchstart] registers them, and [t1] captured. *)
Definition registered : World Z :=
  with_touches (λ _, {[ 1 := Scenario.t1; 2 := Scenario.t2 ]}) Scenario.fresh.

Definition one_down : World Z :=
  run_engine_op Scenario.willing
                (DoCaptureTouch 3 Scenario.t1 Undefined false) registered.

(** A [touchend] for the touch with the identifier 1, and one for a touch
    that is not registered. *)
Definition lift_first : TouchEvent (num := Z) :=
  mkTouchEvent [mkRawTouch 1 0 0] 0 false.

Definition lift_unknown : TouchEvent (num := Z) :=
  mkTouchEvent [mkRawTouch 7 0 0; mkRawTouch 1 0 0] 0 false.

(** ** The averages a touch computes for a view *)

Module Touch_prototype.

Local Open Scope R_scope.

(** [a * n] on the values of [jsval], for a count [n]. *)
Definition js_mul (a : jsval) (n : nat) : jsval :=
  match a with
  | JNum x => JNum (x * INR n)
  | _ => JNaN
  end.

(** [Math.pow(a, b)] for a base and an exponent that are not negative, as
    the absolute values and the squares it is applied to here: a power of
    0 is 0, but for the exponent 0, where it is 1. *)
Definition Math_pow (a b : R) : R :=
  if Req_dec_T a 0 then (if Req_dec_T b 0 then 1 else 0) else Rpower a b.

(** [Math.pow(Math.pow(Math.abs(pageX - x), 2),
             Math.pow(Math.abs(pageY - y), 2), 0.5)]: [Math.pow] reads two
    arguments, the third is dropped. *)
Definition self_distance (px py : R) (x y : jsval) : jsval :=
  match x, y with
  | JNum x, JNum y =>
      JNum (Math_pow (Math_pow (Rabs (px - x)) 2) (Math_pow (Rabs (py - y)) 2))
  | _, _ => JNaN
  end.

(** [touch.averagedTouchesForView(view, addSelf)], for the touch [t]. *)
Definition averagedTouchesForView (t : TouchRef) (v : View) (addSelf : bool)
    (w : World R) : Averaged :=
  let ret := averagedTouchesForView v w in
  if addSelf then
    let this := heap w t in
    let touchCount := avg_touchCount ret in
    (* reaverage x *)
    let x := js_mul (avg_x ret) touchCount in
    let y := js_mul (avg_y ret) touchCount in
    let x := js_add x (JNum (pageX this)) in
    let y := js_add y (JNum (pageY this)) in
    let x := js_div x (touchCount + 1) in
    let y := js_div y (touchCount + 1) in
    (* reaverage distance *)
    let d := js_mul (avg_d ret) touchCount in
    let d := js_add d (self_distance (pageX this) (pageY this) x y) in
    let d := js_div d (touchCount + 1) in
    (* update touch count *)
    mkAveraged x y d (touchCount + 1)
  else ret.

End Touch_prototype.

(** ** The scroll view under the finger *)

(** The numbers of the scroll view are taken as real numbers, where the
    code computes on floating-point numbers, which round.  The bounds on
    the offsets beyond an edge are therefore stated with their ends
    included: rounding can reach them. *)
Module ScrollTouch.

Local Open Scope R_scope.

Definition Rleb (a b : R) : bool := if Rle_dec a b then true else false.

(** [_adjustForEdgeResistance].  [Math.pow] of a positive coefficient is
    [Rpower]; the coefficient the view uses is 0.998. *)
Definition _adjustForEdgeResistance
    (offset maxOffset resistanceCoefficient asymptote : R) : R :=
  match (if Scroll.Rltb offset 0 then Some offset
         else if Scroll.Rltb maxOffset offset then Some (maxOffset - offset)
         else None) with
  | None => offset
  | Some distanceFromEdge =>
      let distanceFromEdge :=
        Rpower resistanceCoefficient (Rabs distanceFromEdge) * asymptote in
      let distanceFromEdge :=
        if Scroll.Rltb offset 0 then distanceFromEdge - asymptote
        else - distanceFromEdge + asymptote in
      Rmin (Rmax 0 offset) maxOffset + distanceFromEdge
  end.

(** [this.touch], the state of the gesture, on the vertical axis:
    [startScrollOffset.y], [lastScrollOffset.y], [startTouchOffset.y] and
    [decelerationVelocity.y] are the fields [..._y]; [firstDrag] and
    [timeout] are not set when the object is made, which reads as [false]
    and as no timer. *)
Record Gesture : Type := mkGesture {
  startScrollOffset_y : R;
  lastScrollOffset_y : R;
  startTime : R;
  startTimePosition : R;
  startTouchOffset_y : R;
  decelerationVelocity_y : R;
  lastEventTime : R;
  scrollVelocityY : R;
  maximumVerticalScroll : R;
  resistanceCoefficientY : R;
  resistanceAsymptoteY : R;
  decelerationFromEdge : R;
  accelerationFromEdge : R;
  tracking : bool;
  dragging : bool;
  decelerating : bool;
  firstDrag : bool;
  lastRawScrollY : option R;
  timeout : option unit
}.

(** The scroll view: the offset of the fast path, [None] until it is
    written; the [y] of the transform written to the layer; what
    [maximumVerticalScrollOffset] answers; the gesture; [this.tracking] and
    [this.dragging]; the generation counter; and the values passed to
    [this.set("verticalScrollOffset", ...)]. *)
Record ScrollView : Type := mkScrollView {
  _scroll_verticalScrollOffset : option R;
  webkitTransform_y : option R;
  maximumVerticalScrollOffset : R;
  touch : option Gesture;
  this_tracking : bool;
  this_dragging : bool;
  touchGeneration : Z;
  committed : list R
}.

Definition with_offset (y : option R) (s : ScrollView) : ScrollView :=
  mkScrollView y (webkitTransform_y s) (maximumVerticalScrollOffset s)
               (touch s) (this_tracking s) (this_dragging s)
               (touchGeneration s) (committed s).

Definition with_transform (y : option R) (s : ScrollView) : ScrollView :=
  mkScrollView (_scroll_verticalScrollOffset s) y
               (maximumVerticalScrollOffset s) (touch s) (this_tracking s)
               (this_dragging s) (touchGeneration s) (committed s).

Definition with_touch (g : option Gesture) (s : ScrollView) : ScrollView :=
  mkScrollView (_scroll_verticalScrollOffset s) (webkitTransform_y s)
               (maximumVerticalScrollOffset s) g (this_tracking s)
               (this_dragging s) (touchGeneration s) (committed s).

Definition with_flags (tracking dragging : bool) (s : ScrollView)
    : ScrollView :=
  mkScrollView (_scroll_verticalScrollOffset s) (webkitTransform_y s)
               (maximumVerticalScrollOffset s) (touch s) tracking dragging
               (touchGeneration s) (committed s).

(** [this.set("verticalScrollOffset", value)]: the setter of the property
    clamps the value into the scrolling range; [undefined] is no value to
    set. *)
Definition set_verticalScrollOffset (value : option R) (s : ScrollView)
    : ScrollView :=
  match value with
  | Some value =>
      mkScrollView
        (Some (Rmax 0 (Rmin (maximumVerticalScrollOffset s) value)))
        (webkitTransform_y s) (maximumVerticalScrollOffset s) (touch s)
        (this_tracking s) (this_dragging s) (touchGeneration s)
        (committed s ++ [value])
  | None => s
  end.

Definition start_drag (g : Gesture) : Gesture :=
  mkGesture (startScrollOffset_y g) (lastScrollOffset_y g) (startTime g)
            (startTimePosition g) (startTouchOffset_y g)
            (decelerationVelocity_y g) (lastEventTime g) (scrollVelocityY g)
            (maximumVerticalScroll g) (resistanceCoefficientY g)
            (resistanceAsymptoteY g) (decelerationFromEdge g)
            (accelerationFromEdge g) (tracking g) true (decelerating g)
            true (lastRawScrollY g) (timeout g).

Definition with_firstDrag (b : bool) (g : Gesture) : Gesture :=
  mkGesture (startScrollOffset_y g) (lastScrollOffset_y g) (startTime g)
            (startTimePosition g) (startTouchOffset_y g)
            (decelerationVelocity_y g) (lastEventTime g) (scrollVelocityY g)
            (maximumVerticalScroll g) (resistanceCoefficientY g)
            (resistanceAsymptoteY g) (decelerationFromEdge g)
            (accelerationFromEdge g) (tracking g) (dragging g)
            (decelerating g) b (lastRawScrollY g) (timeout g).

Definition with_lastRawScrollY (y : R) (g : Gesture) : Gesture :=
  mkGesture (startScrollOffset_y g) (lastScrollOffset_y g) (startTime g)
            (startTimePosition g) (startTouchOffset_y g)
            (decelerationVelocity_y g) (lastEventTime g) (scrollVelocityY g)
            (maximumVerticalScroll g) (resistanceCoefficientY g)
            (resistanceAsymptoteY g) (decelerationFromEdge g)
            (accelerationFromEdge g) (tracking g) (dragging g)
            (decelerating g) (firstDrag g) (Some y) (timeout g).

(** The velocity sample: [scrollVelocityY], [lastScrollOffset.y] and
    [lastEventTime] are written. *)
Definition with_sample (velocity offset time : R) (g : Gesture) : Gesture :=
  mkGesture (startScrollOffset_y g) offset (startTime g)
            (startTimePosition g) (startTouchOffset_y g)
            (decelerationVelocity_y g) time velocity
            (maximumVerticalScroll g) (resistanceCoefficientY g)
            (resistanceAsymptoteY g) (decelerationFromEdge g)
            (accelerationFromEdge g) (tracking g) (dragging g)
            (decelerating g) (firstDrag g) (lastRawScrollY g) (timeout g).

(** [beginTouchTracking(touch)], for a touch at [pageY] with the time
    stamp [timeStamp]. *)
Definition beginTouchTracking (pageY timeStamp : R) (s : ScrollView)
    : ScrollView :=
  let verticalScrollOffset := default 0 (_scroll_verticalScrollOffset s) in
  let s :=
    match touch s with
    | Some g =>
        match timeout g with
        | Some _ =>
            (* first, finish up the hack to boost deceleration *)
            set_verticalScrollOffset (_scroll_verticalScrollOffset s) s
            (* the timer is cleared with the gesture replaced below *)
        | None => s
        end
    | None => s
    end in
  let s :=
    with_touch
      (Some (mkGesture verticalScrollOffset verticalScrollOffset timeStamp
                       verticalScrollOffset pageY 0 0 0
                       (maximumVerticalScrollOffset s) 0.998 320 0.05 0.08
                       true false false false None None)) s in
  with_flags true false s.

(** [touchStart(touch)]; the call of [beginTouchesInContent] it schedules
    150 ms later is not part of it. *)
Definition touchStart (pageY timeStamp : R) (s : ScrollView) : ScrollView :=
  let s := mkScrollView (_scroll_verticalScrollOffset s)
                        (webkitTransform_y s) (maximumVerticalScrollOffset s)
                        (touch s) (this_tracking s) (this_dragging s)
                        (touchGeneration s + 1)%Z (committed s) in
  beginTouchTracking pageY timeStamp s.

(** [touchesDragged(evt, touches)], for an event at [pageY] with the time
    stamp [timeStamp]; [None] is the [TypeError] of reading a field of
    [this.touch] when there is no gesture. *)
Definition touchesDragged (pageY timeStamp : R) (s : ScrollView)
    : option ScrollView :=
  match touch s with
  | None => None
  | Some touch =>
      let touchY := pageY in
      let offsetY := startScrollOffset_y touch in
      let maxOffset := maximumVerticalScroll touch in
      let deltaY := touchY - startTouchOffset_y touch in
      if negb (dragging touch) && negb (Scroll.Rltb 1 (Rabs deltaY)) then
        Some s
      else
        let touch := if negb (dragging touch) then start_drag touch
                     else touch in
        let offsetY := if dragging touch then offsetY - deltaY else offsetY in
        if dragging touch && firstDrag touch then
          Some (with_touch (Some (with_firstDrag false touch)) s)
        else
          let touch := with_lastRawScrollY offsetY touch in
          (* update immediately first *)
          let y := _adjustForEdgeResistance offsetY maxOffset
                     (resistanceCoefficientY touch)
                     (resistanceAsymptoteY touch) in
          let s := with_transform (Some (- y)) (with_offset (Some y) s) in
          (* now update the "proper" way *)
          if Rleb 10 (timeStamp - lastEventTime touch) then
            let verticalOffset := y in
            let velocity :=
              (verticalOffset - lastScrollOffset_y touch)
              / Rmax 1 (timeStamp - lastEventTime touch) in
            Some (with_touch
                    (Some (with_sample velocity verticalOffset timeStamp
                                       touch)) s)
          else Some (with_touch (Some touch) s)
  end.

(** Samples in a row, as long as none fails. *)
Fixpoint drag (samples : list (R * R)) (s : ScrollView) : option ScrollView :=
  match samples with
  | [] => Some s
  | (pageY, timeStamp) :: later =>
      match touchesDragged pageY timeStamp s with
      | Some s' => drag later s'
      | None => None
      end
  end.


(** [touchCancelled(touch)]. *)
Definition touchCancelled (s : ScrollView) : ScrollView :=
  with_touch None (with_flags false false s).

(** A view that has not been scrolled, with a scrolling range of 100. *)
Definition untouched : ScrollView :=
  mkScrollView None None 100 None false false 0 [].

End ScrollTouch.

(** ** Scrolling by program and by the mouse wheel *)

Module ScrollAPI.

Local Open Scope R_scope.

(** An argument of the scrolling calls: [undefined], [null] or a number.
    The form of [scrollTo] and [scrollBy] with one hash [{x, y}], which
    the calls unpack into these two arguments first, is left out. *)
Inductive coord : Type :=
| CUndefined
| CNull
| CNum (r : R).

(** [SC.none(x)]: the argument is [null] or [undefined]. *)
Definition none_or_null (x : coord) : Prop :=
  match x with
  | CNum _ => False
  | _ => True
  end.

Record Frame : Type := mkFrame {
  width : R;
  height : R
}.

(** The content view: its [frame], [None] for [null], and the
    [calculatedWidth] and [calculatedHeight] of a collection, [None] where
    the field is not there. *)
Record ContentView : Type := mkContentView {
  cv_frame : option Frame;
  calculatedWidth : option R;
  calculatedHeight : option R
}.

(** The scroll view, as far as scrolling by program reads and writes it:
    [containerFrame] is [this.get('containerView').get('frame')], [pending]
    counts the calls of [_scroll_mouseWheel] that [invokeLater] has
    scheduled. *)
Record ScrollView : Type := mkScrollView {
  canScrollHorizontal : bool;
  canScrollVertical : bool;
  contentView : option ContentView;
  containerFrame : Frame;
  frame : Frame;
  verticalLineScroll : R;
  horizontalLineScroll : R;
  _scroll_horizontalScrollOffset : option R;
  _scroll_verticalScrollOffset : option R;
  _scroll_wheelDeltaX : R;
  _scroll_wheelDeltaY : R;
  pending : nat
}.

(** How a call ends: normally, or with a [TypeError] thrown; either way
    with the view as the call left it. *)
Inductive completion : Type :=
| Normal (s : ScrollView)
| TypeError (s : ScrollView).

Definition state_of (c : completion) : ScrollView :=
  match c with
  | Normal s => s
  | TypeError s => s
  end.

Definition with_horizontal (x : option R) (s : ScrollView) : ScrollView :=
  mkScrollView (canScrollHorizontal s) (canScrollVertical s) (contentView s)
               (containerFrame s) (frame s) (verticalLineScroll s)
               (horizontalLineScroll s) x (_scroll_verticalScrollOffset s)
               (_scroll_wheelDeltaX s) (_scroll_wheelDeltaY s) (pending s).

Definition with_vertical (y : option R) (s : ScrollView) : ScrollView :=
  mkScrollView (canScrollHorizontal s) (canScrollVertical s) (contentView s)
               (containerFrame s) (frame s) (verticalLineScroll s)
               (horizontalLineScroll s) (_scroll_horizontalScrollOffset s) y
               (_scroll_wheelDeltaX s) (_scroll_wheelDeltaY s) (pending s).

Definition with_wheel (dx dy : R) (n : nat) (s : ScrollView) : ScrollView :=
  mkScrollView (canScrollHorizontal s) (canScrollVertical s) (contentView s)
               (containerFrame s) (frame s) (verticalLineScroll s)
               (horizontalLineScroll s) (_scroll_horizontalScrollOffset s)
               (_scroll_verticalScrollOffset s) dx dy n.

(** A completion with the wheel fields written over. *)
Definition lift_wheel (a b : R) (n : nat) (c : completion) : completion :=
  match c with
  | Normal s => Normal (with_wheel a b n s)
  | TypeError s => TypeError (with_wheel a b n s)
  end.

(** [maximumHorizontalScrollOffset]; [None] is the [TypeError] of reading
    [view.calculatedWidth] when there is no content view, or [.width] when
    the content view has no frame. *)
Definition maximumHorizontalScrollOffset (s : ScrollView) : option R :=
  if negb (canScrollHorizontal s) then Some 0
  else
    match contentView s with
    | None => None
    | Some view =>
        match cv_frame view with
        | None => None
        | Some f =>
            let contentWidth := width f in
            let contentWidth :=
              match calculatedWidth view with
              | Some cw => if Req_dec_T cw 0 then contentWidth else cw
              | None => contentWidth
              end in
            let containerWidth := width (containerFrame s) in
            Some (Rmax 0 (contentWidth - containerWidth))
        end
    end.

(** [maximumVerticalScrollOffset]; a content view without a frame counts
    as one of height 0 here. *)
Definition maximumVerticalScrollOffset (s : ScrollView) : option R :=
  if negb (canScrollVertical s) then Some 0
  else
    match contentView s with
    | None => None
    | Some view =>
        let contentHeight :=
          match cv_frame view with
          | Some f => height f
          | None => 0
          end in
        let contentHeight :=
          match calculatedHeight view with
          | Some ch => if Req_dec_T ch 0 then contentHeight else ch
          | None => contentHeight
          end in
        let containerHeight := height (containerFrame s) in
        Some (Rmax 0 (contentHeight - containerHeight))
    end.

(** The property [horizontalScrollOffset]: read, and set to a number.
    [this.get('horizontalScrollOffset')] and
    [this.set('horizontalScrollOffset', value)] call the function of the
    property, without and with a value. *)
Definition horizontalScrollOffset (s : ScrollView) : R :=
  default 0 (_scroll_horizontalScrollOffset s).

Definition set_horizontalScrollOffset (value : R) (s : ScrollView)
    : completion :=
  match maximumHorizontalScrollOffset s with
  | Some m => Normal (with_horizontal (Some (Rmax 0 (Rmin m value))) s)
  | None => TypeError s
  end.

(** The property [verticalScrollOffset]. *)
Definition verticalScrollOffset (s : ScrollView) : R :=
  default 0 (_scroll_verticalScrollOffset s).

Definition set_verticalScrollOffset (value : R) (s : ScrollView)
    : completion :=
  match maximumVerticalScrollOffset s with
  | Some m => Normal (with_vertical (Some (Rmax 0 (Rmin m value))) s)
  | None => TypeError s
  end.

(** [scrollTo(x, y)]; an argument that is [null] or [undefined], for
    which [SC.none] holds, leaves its axis alone. *)
Definition scrollTo (x y : coord) (s : ScrollView) : completion :=
  let after_x :=
    match x with
    | CNum x =>
        match maximumHorizontalScrollOffset s with
        | Some m =>
            let x := Rmax 0 (Rmin m x) in
            set_horizontalScrollOffset x s
        | None => TypeError s
        end
    | _ => Normal s
    end in
  match after_x with
  | Normal s =>
      match y with
      | CNum y =>
          match maximumVerticalScrollOffset s with
          | Some m =>
              let y := Rmax 0 (Rmin m y) in
              set_verticalScrollOffset y s
          | None => TypeError s
          end
      | _ => Normal s
      end
  | TypeError s => TypeError s
  end.

(** [(x) ? offset + x : null]: a number other than 0 is added to the
    offset; [undefined], [null] and 0 give [null]. *)
Definition shifted (offset : R) (x : coord) : coord :=
  match x with
  | CNum x => if Req_dec_T x 0 then CNull else CNum (offset + x)
  | _ => CNull
  end.

(** [scrollBy(x, y)]. *)
Definition scrollBy (x y : coord) (s : ScrollView) : completion :=
  let x := shifted (horizontalScrollOffset s) x in
  let y := shifted (verticalScrollOffset s) y in
  scrollTo x y s.

(** The number of lines or pages of a call: 1 when it is not given. *)
Definition or_one (lines : option R) : R := default 1 lines.

Definition scrollDownLine (lines : option R) (s : ScrollView) : completion :=
  scrollBy CNull (CNum (verticalLineScroll s * or_one lines)) s.

Definition scrollUpLine (lines : option R) (s : ScrollView) : completion :=
  scrollBy CNull (CNum (0 - verticalLineScroll s * or_one lines)) s.

Definition scrollRightLine (lines : option R) (s : ScrollView) : completion :=
  scrollTo (CNum (horizontalLineScroll s * or_one lines)) CNull s.

Definition scrollLeftLine (lines : option R) (s : ScrollView) : completion :=
  scrollTo (CNum (0 - horizontalLineScroll s * or_one lines)) CNull s.

Definition verticalPageScroll (s : ScrollView) : R := height (frame s).

Definition horizontalPageScroll (s : ScrollView) : R := width (frame s).

Definition scrollDownPage (pages : option R) (s : ScrollView) : completion :=
  scrollBy CNull (CNum (verticalPageScroll s * or_one pages)) s.

Definition scrollUpPage (pages : option R) (s : ScrollView) : completion :=
  scrollBy CNull (CNum (0 - verticalPageScroll s * or_one pages)) s.

Definition scrollRightPage (pages : option R) (s : ScrollView) : completion :=
  scrollBy (CNum (horizontalPageScroll s * or_one pages)) CNull s.

Definition scrollLeftPage (pages : option R) (s : ScrollView) : completion :=
  scrollBy (CNum (0 - horizontalPageScroll s * or_one pages)) CNull s.

(** [mouseWheel(evt)]: the deltas are saved and the scrolling is
    scheduled; the answer is whether the view can scroll at all. *)
Definition mouseWheel (wheelDeltaX wheelDeltaY : R) (s : ScrollView)
    : bool * ScrollView :=
  (canScrollHorizontal s || canScrollVertical s,
   with_wheel (_scroll_wheelDeltaX s + wheelDeltaX)
              (_scroll_wheelDeltaY s + wheelDeltaY) (S (pending s)) s).

(** [Math.floor] and [Math.ceil]. *)
Definition Math_floor (x : R) : R := IZR (Int_part x).

Definition Math_ceil (x : R) : R := - IZR (Int_part (- x)).

(** [_scroll_mouseWheel], with [SC.WHEEL_MOMENTUM] as [momentum]. *)
Definition _scroll_mouseWheel (momentum : bool) (s : ScrollView)
    : completion :=
  match scrollBy (CNum (_scroll_wheelDeltaX s)) (CNum (_scroll_wheelDeltaY s))
                 s with
  | TypeError s => TypeError s
  | Normal s =>
      if momentum && Scroll.Rltb 0 (_scroll_wheelDeltaY s) then
        let dy := Math_floor (_scroll_wheelDeltaY s * 0.950) in
        let dy := Rmax dy 0 in
        Normal (with_wheel (_scroll_wheelDeltaX s) dy (S (pending s)) s)
      else if momentum && Scroll.Rltb (_scroll_wheelDeltaY s) 0 then
        let dy := Math_ceil (_scroll_wheelDeltaY s * 0.950) in
        let dy := Rmin dy 0 in
        Normal (with_wheel (_scroll_wheelDeltaX s) dy (S (pending s)) s)
      else Normal (with_wheel 0 0 (pending s) s)
  end.

(** The run loop runs one of the scheduled calls, if there is one. *)
Definition fire (momentum : bool) (s : ScrollView) : completion :=
  match pending s with
  | O => Normal s
  | S n =>
      _scroll_mouseWheel momentum
        (with_wheel (_scroll_wheelDeltaX s) (_scroll_wheelDeltaY s) n s)
  end.

(** Calls in a row, as long as none throws. *)
Fixpoint fire_n (momentum : bool) (n : nat) (s : ScrollView) : completion :=
  match n with
  | O => Normal s
  | S n =>
      match fire momentum s with
      | Normal s => fire_n momentum n s
      | TypeError s => TypeError s
      end
  end.

(** Wheel events in a row. *)
Fixpoint wheel_events (events : list (R * R)) (s : ScrollView) : ScrollView :=
  match events with
  | [] => s
  | (dx, dy) :: later => wheel_events later (mouseWheel dx dy s).2
  end.

(** The geometry of a view: what the scrolling calls read and do not
    write. *)
Definition same_geometry (s s' : ScrollView) : Prop :=
  canScrollHorizontal s' = canScrollHorizontal s
  ∧ canScrollVertical s' = canScrollVertical s
  ∧ contentView s' = contentView s
  ∧ containerFrame s' = containerFrame s
  ∧ frame s' = frame s
  ∧ verticalLineScroll s' = verticalLineScroll s
  ∧ horizontalLineScroll s' = horizontalLineScroll s.

(** The offsets that are set lie in the scrolling range. *)
Definition in_range (s : ScrollView) : Prop :=
  (∀ x, _scroll_horizontalScrollOffset s = Some x →
        ∃ m, maximumHorizontalScrollOffset s = Some m ∧ 0 <= x <= m)
  ∧ (∀ y, _scroll_verticalScrollOffset s = Some y →
          ∃ m, maximumVerticalScrollOffset s = Some m ∧ 0 <= y <= m).

(** A view whose geometry can be read: both maxima are there. *)
Definition sound (s : ScrollView) : Prop :=
  (∃ m, maximumHorizontalScrollOffset s = Some m)
  ∧ (∃ m, maximumVerticalScrollOffset s = Some m).

(** No wheel delta is saved and no call is scheduled. *)
Definition wheel_idle (s : ScrollView) : Prop :=
  _scroll_wheelDeltaX s = 0 ∧ _scroll_wheelDeltaY s = 0 ∧ pending s = O.

(** The sums of the deltas of wheel events. *)
Definition total_x (events : list (R * R)) : R :=
  fold_right (λ e a, e.1 + a) 0 events.

Definition total_y (events : list (R * R)) : R :=
  fold_right (λ e a, e.2 + a) 0 events.

(** The calls that scroll by program. *)
Inductive call : Type :=
| ScrollTo (x y : coord)
| ScrollBy (x y : coord)
| ScrollDownLine (lines : option R)
| ScrollUpLine (lines : option R)
| ScrollRightLine (lines : option R)
| ScrollLeftLine (lines : option R)
| ScrollDownPage (pages : option R)
| ScrollUpPage (pages : option R)
| ScrollRightPage (pages : option R)
| ScrollLeftPage (pages : option R).

Definition run_call (c : call) (s : ScrollView) : completion :=
  match c with
  | ScrollTo x y => scrollTo x y s
  | ScrollBy x y => scrollBy x y s
  | ScrollDownLine lines => scrollDownLine lines s
  | ScrollUpLine lines => scrollUpLine lines s
  | ScrollRightLine lines => scrollRightLine lines s
  | ScrollLeftLine lines => scrollLeftLine lines s
  | ScrollDownPage pages => scrollDownPage pages s
  | ScrollUpPage pages => scrollUpPage pages s
  | ScrollRightPage pages => scrollRightPage pages s
  | ScrollLeftPage pages => scrollLeftPage pages s
  end.

(** A view of 100 by 100 over a content of 300 by 500, scrolling both
    ways, not scrolled yet. *)
Definition example : ScrollView :=
  mkScrollView true true
               (Some (mkContentView (Some (mkFrame 300 500)) None None))
               (mkFrame 100 100) (mkFrame 100 100) 20 20 None None 0 0 0.

(** The same view without a content view. *)
Definition no_content : ScrollView :=
  mkScrollView true true None (mkFrame 100 100) (mkFrame 100 100) 20 20
               None None 0 0 0.

End ScrollAPI.

(** ** The main pane and the key pane *)

Module Panes.

(** What the root responder tells the panes, in order: the pane told,
    and the pane it loses to or gains from. *)
Inductive notice : Type :=
| WillLoseKeyPaneTo (pane : View) (newKeyPane : ref)
| WillBecomeKeyPaneFrom (pane : View) (previousKeyPane : ref)
| DidBecomeKeyPaneFrom (pane : View) (previousKeyPane : ref)
| DidLoseKeyPaneTo (pane : View) (newKeyPane : ref)
| BlurMainTo (pane : View) (newMain : ref)
| FocusMainFrom (pane : View) (oldMain : ref).

(** What the panes answer when asked: [pane.get('acceptsKeyPane')] and
    [pane.get('isPaneAttached')]. *)
Record PaneEnv : Type := mkPaneEnv {
  acceptsKeyPane : View → bool;
  isPaneAttached : View → bool
}.

(** The root responder, as far as the panes go: [previousKeyPanes] is the
    array, the top of the stack last. *)
Record Responder : Type := mkResponder {
  mainPane : ref;
  keyPane : ref;
  previousKeyPanes : list View;
  told : list notice
}.

Definition tell (n : notice) (r : Responder) : Responder :=
  mkResponder (mainPane r) (keyPane r) (previousKeyPanes r) (told r ++ [n]).

Definition when_obj (x : ref) (f : View → Responder → Responder)
    (r : Responder) : Responder :=
  match x with
  | Obj p => f p r
  | _ => r
  end.

(** [while (previousKeyPanes.length > 0) { candidate = previousKeyPanes.pop(); ... }],
    on the stack read from the top: the pane found, [null] if none, and
    what is left of the stack. *)
Fixpoint pop_candidate (env : PaneEnv) (from_top : list View)
    : ref * list View :=
  match from_top with
  | [] => (Null, [])
  | candidate :: below =>
      if isPaneAttached env candidate && acceptsKeyPane env candidate
      then (Obj candidate, below)
      else pop_candidate env below
  end.

(** The end of [makeKeyPane], once the new key pane is chosen. *)
Definition install (env : PaneEnv) (newKeyPane previousKeyPane : ref)
    (stack : list View) (r : Responder) : Responder :=
  (* If we found an appropriate candidate, make it the new key pane.
     Otherwise, make the main pane the key pane (if it accepts it). *)
  let newKeyPane :=
    if truthy newKeyPane then newKeyPane
    else match mainPane r with
         | Obj m => if acceptsKeyPane env m then Obj m else newKeyPane
         | _ => newKeyPane
         end in
  let r := mkResponder (mainPane r) (keyPane r) stack (told r) in
  (* now notify old and new key views of change after edit *)
  let r := when_obj previousKeyPane
             (λ p, tell (WillLoseKeyPaneTo p newKeyPane)) r in
  let r := when_obj newKeyPane
             (λ p, tell (WillBecomeKeyPaneFrom p previousKeyPane)) r in
  let r := mkResponder (mainPane r) newKeyPane (previousKeyPanes r)
                       (told r) in
  let r := when_obj newKeyPane
             (λ p, tell (DidBecomeKeyPaneFrom p previousKeyPane)) r in
  when_obj previousKeyPane (λ p, tell (DidLoseKeyPaneTo p newKeyPane)) r.

(** [makeKeyPane(pane)]. *)
Definition makeKeyPane (env : PaneEnv) (pane : ref) (r : Responder)
    : Responder :=
  match pane with
  | Obj p =>
      (* Does the specified pane accept being the key pane? *)
      if negb (acceptsKeyPane env p) then r
      else
        let previousKeyPane := keyPane r in
        if strict_eq previousKeyPane pane then r
        else
          let stack :=
            match previousKeyPane with
            | Obj k => previousKeyPanes r ++ [k]
            | _ => previousKeyPanes r
            end in
          install env pane previousKeyPane stack r
  | _ =>
      (* No pane was specified? *)
      let previousKeyPane := keyPane r in
      let found := pop_candidate env (rev (previousKeyPanes r)) in
      install env found.1 previousKeyPane (rev found.2) r
  end.

(** [makeMainPane(pane)]. *)
Definition makeMainPane (env : PaneEnv) (pane : ref) (r : Responder)
    : Responder :=
  let currentMain := mainPane r in
  if strict_eq currentMain pane then r
  else
    (* change key focus if needed. *)
    let r := if strict_eq (keyPane r) currentMain then makeKeyPane env pane r
             else r in
    (* change setting *)
    let r := mkResponder pane (keyPane r) (previousKeyPanes r) (told r) in
    (* notify panes. *)
    let r := when_obj currentMain (λ p, tell (BlurMainTo p pane)) r in
    when_obj pane (λ p, tell (FocusMainFrom p currentMain)) r.

(** The new notices of a call. *)
Definition new_notices (r r' : Responder) : list notice :=
  drop (length (told r)) (told r').

(** A root responder before any pane, and panes that all accept and are
    attached. *)
Definition start : Responder := mkResponder Null Null [] [].

Definition all_willing : PaneEnv := mkPaneEnv (λ _, true) (λ _, true).

End Panes.

(** ** touchstart and touchmove *)

(** What a call about the touch [t] leaves alone: the other touch
    objects, the registry and the run loop; and it logs no warning. *)
Definition only_touch {num : Type} (t : TouchRef) (w w' : World num) : Prop :=
  (∀ t', t' ≠ t → heap w' t' = heap w t')
  ∧ _touches w' = _touches w
  ∧ runLoopDepth w' = runLoopDepth w
  ∧ touchViewsCleared w' = touchViewsCleared w
  ∧ ∃ evs, log w' = log w ++ evs ∧ (Warned ∉ evs).

Section TouchStartMove.

Context {num : Type}.
Variable env : ViewEnv num.

Local Abbreviation World := (World num).
Local Abbreviation M := (M num).

(** A changed touch of a [touchstart] event: the touch of the browser,
    the view that [SC.$(touch.targetNode).view()[0]] finds for it, [null]
    without a target node, and the [SC.Touch] object that
    [SC.Touch.create] makes for it. *)
Record NewTouch : Type := mkNewTouch {
  nt_touch : RawTouch (num := num);
  nt_targetView : ref;
  nt_entry : TouchRef
}.

(** The body of the loop of [touchstart].  The starting point of the
    capture is the root responder itself, which is no view: a missing
    starting point stands for it. *)
Definition start_touch (fuel : nat) (timeStamp : num) (nt : NewTouch)
    : M unit :=
  let touch := nt_touch nt in
  let touchEntry := nt_entry nt in
  (* prepare a touch entry (our internal representation) *)
  modify (with_heap touchEntry
            (λ _, SC_Touch (raw_identifier touch) (nt_targetView nt)
                           (raw_pageX touch) (raw_pageY touch) timeStamp)) ;;
  (* map touch *)
  modify (with_touches (insert (raw_identifier touch) touchEntry)) ;;
  (* send out event thing *)
  captureTouch env fuel touchEntry Undefined false.

Fixpoint start_touches (fuel : nat) (timeStamp : num)
    (touches : list NewTouch) : M unit :=
  match touches with
  | [] => ret tt
  | nt :: rest =>
      start_touch fuel timeStamp nt ;;
      start_touches fuel timeStamp rest
  end.

(** [touchstart(evt)], for the changed touches and the time stamp of the
    event. *)
Definition touchstart (fuel : nat) (touches : list NewTouch)
    (timeStamp : num) : M bool :=
  try_catch
    (start_touches fuel timeStamp touches ;;
     ret false)
    (emit Warned ;;
     modify with_touchViewsCleared ;;
     RunLoop_end ;;
     ret false).

(** The registry once the touches are mapped. *)
Definition mapped (touches : list NewTouch) (registry : gmap Z TouchRef)
    : gmap Z TouchRef :=
  fold_left (λ m nt, <[raw_identifier (nt_touch nt) := nt_entry nt]> m)
            touches registry.

(** The touch object of a changed touch as [touchstart] makes it: the
    identifier and the position of the touch of the browser, its target
    view, and the time stamp of the event. *)
Definition created (nt : NewTouch) (ts : num) (t : Touch num) : Prop :=
  identifier t = raw_identifier (nt_touch nt)
  ∧ targetView t = nt_targetView nt
  ∧ pageX t = raw_pageX (nt_touch nt)
  ∧ pageY t = raw_pageY (nt_touch nt)
  ∧ timeStamp t = ts.

(** The responder fields of a touch object after its first offer, to
    which the pane answered [a]: a view that took the touch is its
    responder, the one frame of its stack, and its view; when the answer
    is [null] or [undefined] the touch has no responder. *)
Definition offered_once (a : ref) (t : Touch num) : Prop :=
  match a with
  | Obj r =>
      touchResponder t = Obj r
      ∧ touchResponders t = Some [r]
      ∧ nextTouchResponder t = Undefined
      ∧ view t = Obj r
  | _ =>
      touchResponder t = Undefined
      ∧ touchResponders t = Some []
      ∧ nextTouchResponder t = Undefined
      ∧ view t = Undefined
  end.

(** The index counts the touch for the view that took it. *)
Definition held_by (a : ref) (te : TouchRef) (w : World) : Prop :=
  match a with
  | Obj r => te ∈ default [] (touchesForView r w) ∧ hasTouch w r = true
  | _ => True
  end.

(** [view.tryToPerform("touchesDragged", evt, viewTouches)]: the view
    told, [evt.viewChangedTouches], and the touches of the view as they
    are when it is told.  The position of the first touch of the set goes
    into the event as well; which touch that is, is the set's affair. *)
Record Dragged : Type := mkDragged {
  dr_view : View;
  dr_viewChangedTouches : list TouchRef;
  dr_viewTouches : CoreSet.t
}.

(** What a call of [touchmove] writes to the console and to the logger,
    and the views it tells, in the order of the call. *)
Inductive move_note : Type :=
| Console_log
    (* console.log("Received a touchmove for a touch we don't know about.
       This is bad.") *)
| Told (d : Dragged)
| Logger_warn.
    (* SC.Logger.warn('Exception during touchMove: ...') *)

(** What a view does when it is told: it returns or throws, and it
    leaves a world of its own making, since it may call back into the
    root responder before it comes back, as the view that gives the touch
    back with [touch.makeTouchResponder(touch.nextTouchResponder)]. *)
Variable touchesDragged : Dragged → World → reply unit * World.

(** A callback that leaves the registry and the positions of the touch
    objects as they are; the responders and the index it may change. *)
Definition keeps_positions (w w' : World) : Prop :=
  _touches w' = _touches w
  ∧ ∀ t, pageX (heap w' t) = pageX (heap w t)
         ∧ pageY (heap w' t) = pageY (heap w t)
         ∧ timeStamp (heap w' t) = timeStamp (heap w t).

(** Two touch objects that differ in the position and the time stamp at
    most. *)
Definition same_but_position (t t' : Touch num) : Prop :=
  identifier t' = identifier t
  ∧ targetView t' = targetView t
  ∧ view t' = view t
  ∧ touchResponder t' = touchResponder t
  ∧ nextTouchResponder t' = nextTouchResponder t
  ∧ touchResponders t' = touchResponders t.

(** What the first loop of [touchmove] keeps of the world. *)
Definition moved (w w' : World) : Prop :=
  _touches w' = _touches w
  ∧ _touchedViews w' = _touchedViews w
  ∧ hasTouch w' = hasTouch w
  ∧ log w' = log w
  ∧ runLoopDepth w' = runLoopDepth w
  ∧ touchViewsCleared w' = touchViewsCleared w
  ∧ ∀ t, same_but_position (heap w t) (heap w' t).

(** [changedViews], an object used as a map from the guid of a view: the
    entries in the order in which they were made. *)
Definition add_changed (view : View) (touchEntry : TouchRef)
    (changedViews : list (View * list TouchRef))
    : list (View * list TouchRef) :=
  (* create a view entry *)
  let changedViews :=
    if bool_decide (view ∈ changedViews.*1) then changedViews
    else changedViews ++ [(view, [])] in
  (* add touch *)
  map (λ entry, if bool_decide (entry.1 = view)
                then (entry.1, entry.2 ++ [touchEntry])
                else entry) changedViews.

(** The state of the first loop of [touchmove]: the world; the [event]
    field of the touch objects, which no other function of the root
    responder writes, [true] where it refers to an event; [changedViews];
    the variable [touchEntry], [None] while it is [undefined]; and what
    was written to the console. *)
Record MoveState : Type := mkMoveState {
  ms_world : World;
  ms_event : TouchRef → bool;
  ms_changedViews : list (View * list TouchRef);
  ms_touchEntry : option TouchRef;
  ms_notes : list move_note
}.

(** The body of the first loop of [touchmove]. *)
Definition move_touch (evt : TouchEvent (num := num)) (st : MoveState)
    (touch : RawTouch (num := num)) : MoveState :=
  let w := ms_world st in
  (* get our touch *)
  match _touches w !! raw_identifier touch with
  | None =>
      (* sanity-check: console.log and continue *)
      mkMoveState w (ms_event st) (ms_changedViews st) None
                  (ms_notes st ++ [Console_log])
  | Some touchEntry =>
      (* update touch *)
      let w := with_heap touchEntry
                 (with_position (raw_pageX touch) (raw_pageY touch)
                                (evt_timeStamp evt)) w in
      let event := <[touchEntry := true]> (ms_event st) in
      (* if the touch entry has a view *)
      let changedViews :=
        match touchResponder (heap w touchEntry) with
        | Obj view => add_changed view touchEntry (ms_changedViews st)
        | _ => ms_changedViews st
        end in
      mkMoveState w event changedViews (Some touchEntry) (ms_notes st)
  end.

(** The second loop: the views told, whether the loop came to its end,
    and the world the views leave.  The loop does not come to its end
    when a view has no touches in the index, where reading the first
    touch is a [TypeError], or when a view throws. *)
Fixpoint drag_views (changedViews : list (View * list TouchRef)) (w : World)
    : list move_note * bool * World :=
  match changedViews with
  | [] => ([], true, w)
  | (view, changedTouches) :: rest =>
      (* the first VIEW touch should be the touch info sent *)
      match touchesForView view w with
      | Some (firstTouch :: later) =>
          let told := mkDragged view changedTouches (firstTouch :: later) in
          (* and go *)
          match touchesDragged told w with
          | (Returns _, w) =>
              let '(notes, completed, w) := drag_views rest w in
              (Told told :: notes, completed, w)
          | (Throws, w) => ([Told told], false, w)
          end
      | _ => ([], false, w)
      end
  end.

(** What a call of [touchmove] leaves: its answer, the world, the [event]
    field of the touch objects, and its notes. *)
Record Moved : Type := mkMoved {
  mv_answer : bool;
  mv_world : World;
  mv_event : TouchRef → bool;
  mv_notes : list move_note
}.

(** [touchmove(evt)].  The last loop clears the event of the touch entry
    that the first loop read last, once for every changed touch: a
    [TypeError] when that one was not known.  An exception is caught and
    logged, and the run loop is ended in either case. *)
Definition touchmove (evt : TouchEvent (num := num))
    (event : TouchRef → bool) (w : World) : Moved :=
  let w := with_runLoop 1 w in
  let st := fold_left (move_touch evt) (changedTouches evt)
                      (mkMoveState w event [] None []) in
  let '(told, completed, w) :=
    drag_views (ms_changedViews st) (ms_world st) in
  (* clear references to event *)
  let cleared :=
    if completed then
      match changedTouches evt, ms_touchEntry st with
      | [], _ => Some (ms_event st)
      | _ :: _, Some touchEntry => Some (<[touchEntry := false]> (ms_event st))
      | _ :: _, None => None
      end
    else None in
  match cleared with
  | Some event =>
      mkMoved false (with_runLoop (-1) w) event (ms_notes st ++ told)
  | None =>
      mkMoved false (with_runLoop (-1) w) (ms_event st)
              (ms_notes st ++ told ++ [Logger_warn])
  end.

End TouchStartMove.

(** ** States and events for the examples of touchstart and touchmove *)

(** Views that capture no touch; the pane answers an offer with its
    target, and throws when it is offered the touch [t2]. *)
Definition second_throws : ViewEnv Z :=
  mkViewEnv (λ _, false) Scenario.chain
            (λ _ _ _ _, Returns false)
            (λ _ t target, if decide (t = Scenario.t2) then Throws
                           else Returns target).

(** Two fingers that come down in one event, the first on [B] and the
    second on [A]. *)
Definition finger_1 : NewTouch (num := Z) :=
  mkNewTouch (mkRawTouch 1 10 20) (Obj Scenario.B) Scenario.t1.

Definition finger_2 : NewTouch (num := Z) :=
  mkNewTouch (mkRawTouch 2 30 40) (Obj Scenario.A) Scenario.t2.

(** Both touches down on [B], as [touchstart] leaves them. *)
Definition two_down : World Z :=
  run_engine_op Scenario.willing
                (DoCaptureTouch 3 Scenario.t2 Undefined false) one_down.

(** The fingers 1 and 2 move, and with them a finger 7 that the root
    responder does not know. *)
Definition drag_three : TouchEvent (num := Z) :=
  mkTouchEvent [mkRawTouch 1 30 40; mkRawTouch 7 1 1; mkRawTouch 2 50 60]
               5 false.

(** A view that does nothing when it is told, and one that gives the
    touch [t1] to [A] from within its handler. *)
Definition view_idle (d : Dragged) (w : World Z) : reply unit * World Z :=
  (Returns tt, w).

Definition view_gives_back (d : Dragged) (w : World Z)
    : reply unit * World Z :=
  match makeTouchResponder Scenario.willing Scenario.t1 (Obj Scenario.A)
                           false w with
  | (Ret _, w') => (Returns tt, w')
  | (_, w') => (Throws, w')
  end.
(** * Properties *)

(** ** Running the monad *)

Section MonadFacts.

Context {num : Type}.

Local Abbreviation World := (World num).
Local Abbreviation M := (M num).

Lemma bind_run {A B} (m : M A) (k : A → M B) (w w1 : World) (a : A) :
  m w = (Ret a, w1) → bind m k w = k a w1.
Proof. intros H. unfold bind. rewrite H. reflexivity. Qed.

Lemma bind_thrown {A B} (m : M A) (k : A → M B) (w w1 : World) :
  m w = (Thrown, w1) → bind m k w = (Thrown, w1).
Proof. intros H. unfold bind. rewrite H. reflexivity. Qed.

Lemma bind_gets {A B} (f : World → A) (k : A → M B) (w : World) :
  bind (gets f) k w = k (f w) w.
Proof. reflexivity. Qed.

Lemma bind_get {B} (k : World → M B) (w : World) :
  bind get k w = k w w.
Proof. reflexivity. Qed.

Lemma bind_modify {B} (f : World → World) (k : unit → M B) (w : World) :
  bind (modify f) k w = k tt (f w).
Proof. reflexivity. Qed.

Lemma bind_ret {A B} (a : A) (k : A → M B) (w : World) :
  bind (ret a) k w = k a w.
Proof. reflexivity. Qed.

Lemma bind_assoc {A B C} (m : M A) (k : A → M B) (h : B → M C) (w : World) :
  bind (bind m k) h w = bind m (λ a, bind (k a) h) w.
Proof. unfold bind. destruct (m w) as [[a| |] w1]; reflexivity. Qed.

End MonadFacts.

(** ** The view-touch index: assignTouch and unassignTouch *)

Section IndexFacts.

Context {num : Type}.

Local Abbreviation World := (World num).
Local Abbreviation M := (M num).


(** What [assignTouch] leaves behind, field by field. *)
Lemma assignTouch_run (t : TouchRef) (v : View) (w : World) :
  ∃ w', assignTouch t v w = (Ret tt, w')
    ∧ _touchedViews w' =
        <[v := match _touchedViews w !! v with
               | None => mkViewEntry (Obj v) (CoreSet.add t []) 1
               | Some e => mkViewEntry (ve_view e) (CoreSet.add t (touches e))
                                       (touchCount e + 1)
               end]> (_touchedViews w)
    ∧ heap w' = <[t := with_view (Obj v) (heap w t)]> (heap w)
    ∧ hasTouch w' = match _touchedViews w !! v with
                    | None => <[v := true]> (hasTouch w)
                    | Some _ => hasTouch w
                    end
    ∧ log w' = log w ++ match _touchedViews w !! v with
                        | None => [SetHasTouch v true]
                        | Some _ => []
                        end
    ∧ _touches w' = _touches w.
Proof.
  unfold assignTouch, bind, gets, when, modify, set_hasTouch, emit, ret.
  destruct (_touchedViews w !! v) as [e|] eqn:E; simpl.
  - eexists; split; [reflexivity|]. simpl.
    rewrite app_nil_r. repeat split.
    rewrite alter_alter_eq. apply map_eq; intros i.
    destruct (decide (i = v)) as [->|Hne].
    + rewrite lookup_alter_eq, E, lookup_insert_eq. reflexivity.
    + rewrite lookup_alter_ne, lookup_insert_ne by congruence. reflexivity.
  - eexists; split; [reflexivity|]. simpl. repeat split.
    rewrite !alter_insert_eq. reflexivity.
Qed.

(** What [unassignTouch] leaves behind for a touch that has no view. *)
Lemma unassignTouch_no_view (t : TouchRef) (w : World) :
  truthy (view (heap w t)) = false → unassignTouch t w = (Ret tt, w).
Proof.
  unfold unassignTouch, bind, gets, ret. simpl.
  destruct (view (heap w t)); simpl; intros; congruence.
Qed.

(** What [unassignTouch] leaves behind for a touch of view [v], whose entry
    is [e]. *)
Lemma unassignTouch_run (t : TouchRef) (v : View) (e : ViewEntry) (w : World) :
  view (heap w t) = Obj v →
  _touchedViews w !! v = Some e →
  ∃ w', unassignTouch t w = (Ret tt, w')
    ∧ _touchedViews w' =
        (if touchCount e - 1 <? 1 then delete v (_touchedViews w)
         else <[v := mkViewEntry (ve_view e) (CoreSet.remove t (touches e))
                                 (touchCount e - 1)]> (_touchedViews w))
    ∧ heap w' = <[t := with_view Undefined (heap w t)]> (heap w)
    ∧ hasTouch w' = (if touchCount e - 1 <? 1 then <[v := false]> (hasTouch w)
                     else hasTouch w)
    ∧ log w' = log w ++ (if touchCount e - 1 <? 1 then [SetHasTouch v false]
                         else [])
    ∧ _touches w' = _touches w.
Proof.
  intros Hv He.
  unfold unassignTouch, bind, gets, when, modify, set_hasTouch, emit, ret.
  simpl. rewrite Hv, He. simpl.
  destruct (touchCount e - 1 <? 1) eqn:Hc; simpl.
  - eexists; split; [reflexivity|]. simpl. repeat split.
    rewrite insert_insert_eq, delete_insert_eq. reflexivity.
  - eexists; split; [reflexivity|]. simpl.
    rewrite app_nil_r. repeat split.
Qed.

(** [unassignTouch] fails only when the touch names a view without entry. *)
Lemma unassignTouch_throws (t : TouchRef) (v : View) (w : World) :
  view (heap w t) = Obj v →
  _touchedViews w !! v = None →
  unassignTouch t w = (Thrown, w).
Proof.
  intros Hv He. unfold unassignTouch, bind, gets, throw. simpl.
  rewrite Hv, He. reflexivity.
Qed.


Lemma index_inv_empty (w : World) : index_empty w → index_inv w.
Proof.
  intros (Htv & Hflag & Hview).
  split; intros; try (rewrite Htv in *; simplify_map_eq; fail).
  - rewrite Htv, lookup_empty, Hflag. split; [discriminate|].
    intros [? ?]; discriminate.
  - match goal with H : view _ = Obj _ |- _ =>
      specialize (Hview t); rewrite H in Hview; discriminate end.
Qed.

Lemma CoreSet_add_fresh (t : TouchRef) (s : CoreSet.t) :
  t ∉ s → CoreSet.add t s = s ++ [t].
Proof.
  intros H. unfold CoreSet.add, CoreSet.contains.
  rewrite bool_decide_eq_false_2; auto.
Qed.

Lemma CoreSet_add_member (t : TouchRef) (s : CoreSet.t) :
  t ∈ s → CoreSet.add t s = s.
Proof.
  intros H. unfold CoreSet.add, CoreSet.contains.
  rewrite bool_decide_eq_true_2; auto.
Qed.

Lemma CoreSet_remove_elem (t x : TouchRef) (s : CoreSet.t) :
  x ∈ CoreSet.remove t s ↔ x ∈ s ∧ x ≠ t.
Proof. unfold CoreSet.remove. rewrite list_elem_of_filter. tauto. Qed.

Lemma CoreSet_remove_length (t : TouchRef) (s : CoreSet.t) :
  NoDup s → t ∈ s → S (length (CoreSet.remove t s)) = length s.
Proof.
  unfold CoreSet.remove. induction 1 as [|x s Hx Hnd IH]; intros Hin.
  - inversion Hin.
  - rewrite filter_cons. destruct (decide (x = t)) as [->|Hne].
    + rewrite decide_False by tauto.
      assert (Hid : filter (λ y, y ≠ t) s = s).
      { clear IH Hin. induction s as [|y s IHs]; [reflexivity|].
        rewrite filter_cons, decide_True.
        - f_equal. apply IHs.
          + intros H; apply Hx; right; exact H.
          + inversion Hnd; assumption.
        - intros ->. apply Hx. left. }
      rewrite Hid. reflexivity.
    + rewrite decide_True by assumption. simpl. f_equal. apply IH.
      inversion Hin; subst; [congruence | assumption].
Qed.

Lemma falsy_not_obj (r : ref) (v : View) : truthy r = false → r ≠ Obj v.
Proof. intros H ->. discriminate. Qed.

Ltac heap_cases t' t :=
  destruct (decide (t' = t)) as [->|?];
  [rewrite ?fn_lookup_insert in * | rewrite ?fn_lookup_insert_ne in * by congruence].

Ltac map_cases v' v :=
  destruct (decide (v' = v)) as [->|?];
  [rewrite ?lookup_insert_eq, ?lookup_delete_eq in *
  |rewrite ?lookup_insert_ne, ?lookup_delete_ne in * by congruence].

(** [assignTouch] keeps the invariant when the touch is not assigned yet. *)
Lemma assignTouch_preserves (t : TouchRef) (v : View) (w : World) :
  index_inv w →
  truthy (view (heap w t)) = false →
  index_inv (assignTouch t v w).2.
Proof.
  intros [Hflag Hnd Hcnt Hne Hmem Hasg] Hfree.
  destruct (assignTouch_run t v w) as (w' & -> & Htv & Hheap & Hft & _).
  simpl.
  assert (Hnot : ∀ v' e, _touchedViews w !! v' = Some e → t ∉ touches e).
  { intros v' e He Hin. apply (Hmem _ _ t He) in Hin.
    eapply falsy_not_obj; eauto. }
  assert (Hnew : ∃ e', _touchedViews w' = <[v := e']> (_touchedViews w)
            ∧ NoDup (touches e') ∧ touchCount e' = Z.of_nat (length (touches e'))
            ∧ (∀ x, x ∈ touches e' ↔ x = t ∨
                 ∃ e, _touchedViews w !! v = Some e ∧ x ∈ touches e)).
  { rewrite Htv. destruct (_touchedViews w !! v) as [e|] eqn:E.
    - eexists; split; [reflexivity|]. simpl.
      rewrite CoreSet_add_fresh by eauto. repeat split.
      + apply list.NoDup_app. repeat split; eauto using NoDup_singleton.
        intros x Hx Hx'. apply list_elem_of_singleton in Hx'. subst.
        eapply Hnot; eauto.
      + rewrite length_app, (Hcnt _ _ E). simpl. lia.
      + rewrite elem_of_app, list_elem_of_singleton.
        intros [?|?]; eauto.
      + rewrite elem_of_app, list_elem_of_singleton.
        intros [?|(e0 & [= <-] & ?)]; eauto.
    - eexists; split; [reflexivity|]. simpl. repeat split.
      + apply NoDup_singleton.
      + cbv [CoreSet.add CoreSet.contains]. simpl.
        intros Hx. apply list_elem_of_singleton in Hx. eauto.
      + cbv [CoreSet.add CoreSet.contains]. simpl.
        intros [->|(e0 & [=] & _)]. apply list_elem_of_singleton. reflexivity. }
  destruct Hnew as (e' & Htv' & Hnd' & Hcnt' & Hmem').
  assert (Hflag' : ∀ v', hasTouch w' v' = true ↔ is_Some (_touchedViews w' !! v')).
  { intros v'. rewrite Hft, Htv'. map_cases v' v.
    - split; [eauto|]. intros _.
      destruct (_touchedViews w !! v) eqn:E.
      + apply Hflag. rewrite E. eauto.
      + apply fn_lookup_insert.
    - destruct (_touchedViews w !! v) eqn:E; [apply Hflag|].
      rewrite fn_lookup_insert_ne by congruence. apply Hflag. }
  split; try assumption.
  - intros v' e. rewrite Htv'. map_cases v' v; [intros [= <-]|]; eauto.
  - intros v' e. rewrite Htv'. map_cases v' v; [intros [= <-]|]; eauto.
  - intros v' e. rewrite Htv'. map_cases v' v; [intros [= <-]|]; eauto.
    intros Hnil. specialize (Hmem' t). rewrite Hnil in Hmem'.
    destruct Hmem' as [_ Hm]. specialize (Hm (or_introl eq_refl)).
    inversion Hm.
  - intros v' e t'. rewrite Htv', Hheap. map_cases v' v.
    + intros [= <-]. rewrite Hmem'. heap_cases t' t; simpl.
      * split; eauto.
      * split.
        -- intros [?|(e0 & He0 & Hin)]; [congruence|].
           eapply Hmem; eauto.
        -- intros Hv. right. destruct (Hasg _ _ Hv) as [e0 He0].
           exists e0. split; [assumption|]. eapply Hmem; eauto.
    + intros He. heap_cases t' t; simpl.
      * split; [intros Hin; exfalso; eapply Hnot; eauto | congruence].
      * eapply Hmem; eauto.
  - intros t' v'. rewrite Htv', Hheap. heap_cases t' t; simpl.
    + intros [= <-]. rewrite lookup_insert_eq. eauto.
    + intros Hv. map_cases v' v; eauto.
Qed.

(** [unassignTouch] returns and keeps the invariant. *)
Lemma unassignTouch_preserves (t : TouchRef) (w : World) :
  index_inv w →
  (unassignTouch t w).1 = Ret tt ∧ index_inv (unassignTouch t w).2.
Proof.
  intros Hinv.
  destruct (truthy (view (heap w t))) eqn:Hv.
  2:{ rewrite unassignTouch_no_view by assumption. split; [reflexivity|exact Hinv]. }
  destruct (view (heap w t)) as [| |v] eqn:Hview; try discriminate.
  destruct Hinv as [Hflag Hnd Hcnt Hne Hmem Hasg].
  destruct (Hasg _ _ Hview) as [e He].
  destruct (unassignTouch_run t v e w Hview He)
    as (w' & -> & Htv & Hheap & Hft & _).
  simpl. split; [reflexivity|].
  assert (Hin : t ∈ touches e) by (eapply Hmem; eauto).
  pose proof (CoreSet_remove_length t (touches e) (Hnd _ _ He) Hin) as Hlen.
  pose proof (Hcnt _ _ He) as Hc.
  destruct (touchCount e - 1 <? 1) eqn:Hlast.
  - (* the last touch of the view *)
    apply Z.ltb_lt in Hlast.
    assert (Hrm : CoreSet.remove t (touches e) = []).
    { destruct (CoreSet.remove t (touches e)); [reflexivity|]. simpl in Hlen. lia. }
    assert (Honly : ∀ x, x ∈ touches e → x = t).
    { intros x Hx. destruct (decide (x = t)); [assumption|].
      assert (x ∈ CoreSet.remove t (touches e))
        by (apply CoreSet_remove_elem; eauto).
      rewrite Hrm in *. inversion H. }
    split.
    + intros v'. rewrite Hft, Htv. map_cases v' v.
      * rewrite fn_lookup_insert. split; [discriminate|]. intros [? [=]].
      * rewrite fn_lookup_insert_ne by congruence. apply Hflag.
    + intros v' e0. rewrite Htv. map_cases v' v; [discriminate|]. eauto.
    + intros v' e0. rewrite Htv. map_cases v' v; [discriminate|]. eauto.
    + intros v' e0. rewrite Htv. map_cases v' v; [discriminate|]. eauto.
    + intros v' e0 t'. rewrite Htv, Hheap. map_cases v' v; [discriminate|].
      intros He0. heap_cases t' t; simpl.
      * split; [|discriminate]. intros Hx.
        apply (Hmem _ _ _ He0) in Hx. congruence.
      * eapply Hmem; eauto.
    + intros t' v'. rewrite Htv, Hheap. heap_cases t' t; simpl; [discriminate|].
      intros Hv'. map_cases v' v; eauto.
      exfalso. apply (Hmem _ _ _ He) in Hv'. apply Honly in Hv'. congruence.
  - (* other touches remain *)
    apply Z.ltb_ge in Hlast.
    split.
    + intros v'. rewrite Hft, Htv. map_cases v' v.
      * split; [eauto|]. intros _. apply Hflag. eauto.
      * apply Hflag.
    + intros v' e0. rewrite Htv. map_cases v' v; [intros [= <-]; simpl|]; eauto.
      unfold CoreSet.remove. apply list.NoDup_filter. eauto.
    + intros v' e0. rewrite Htv. map_cases v' v; [intros [= <-]; simpl|]; eauto.
      lia.
    + intros v' e0. rewrite Htv. map_cases v' v; [intros [= <-]; simpl|]; eauto.
      intros Hnil. rewrite Hnil in Hlen. simpl in Hlen. lia.
    + intros v' e0 t'. rewrite Htv, Hheap. map_cases v' v.
      * intros [= <-]. simpl. rewrite CoreSet_remove_elem.
        heap_cases t' t; simpl.
        -- split; [tauto|discriminate].
        -- rewrite (Hmem _ _ t' He). tauto.
      * intros He0. heap_cases t' t; simpl.
        -- split; [|discriminate]. intros Hx.
           apply (Hmem _ _ _ He0) in Hx. congruence.
        -- eapply Hmem; eauto.
    + intros t' v'. rewrite Htv, Hheap. heap_cases t' t; simpl; [discriminate|].
      intros Hv'. map_cases v' v; eauto.
Qed.


Lemma index_reachable_inv (w : World) : index_reachable w → index_inv w.
Proof.
  induction 1 as [w Hempty | w op Hreach IH Hallowed].
  - apply index_inv_empty, Hempty.
  - destruct op as [t v | t]; simpl in *.
    + apply assignTouch_preserves; assumption.
    + apply unassignTouch_preserves; assumption.
Qed.

Lemma index_inv_has_touches (w : World) (v : View) :
  index_inv w → (is_Some (_touchedViews w !! v) ↔ has_touches v w).
Proof.
  intros Hinv. unfold has_touches, touchesForView. split.
  - intros [e He]. rewrite He. simpl. eexists; split; [reflexivity|].
    eapply inv_nonempty; eauto.
  - intros (s & Hs & _). destruct (_touchedViews w !! v); [eauto|discriminate].
Qed.

Lemma run_op_toggles (op : index_op) (w : World) :
  index_inv w → op_allowed op w →
  (run_op op w).1 = Ret tt ∧ toggled_once w (run_op op w).2.
Proof.
  intros Hinv Hallowed. destruct op as [t v | t]; simpl in *.
  - destruct (assignTouch_run t v w) as (w' & -> & _ & _ & Hft & Hlog & _).
    simpl. split; [reflexivity|].
    destruct (_touchedViews w !! v) as [e|] eqn:E.
    + left. rewrite Hlog, Hft, app_nil_r. auto.
    + right. exists v, true. rewrite Hlog, Hft. repeat split.
      * simpl. destruct (hasTouch w v) eqn:Hf; [|reflexivity].
        apply (inv_flag w Hinv) in Hf. rewrite E in Hf.
        destruct Hf; discriminate.
      * apply fn_lookup_insert.
      * intros v' Hne. apply fn_lookup_insert_ne. congruence.
  - destruct (unassignTouch_preserves t w Hinv) as [Hret _].
    split; [assumption|].
    destruct (view (heap w t)) as [| |v] eqn:Hview.
    1,2: rewrite unassignTouch_no_view by (rewrite Hview; reflexivity);
         left; auto.
    destruct (inv_assigned w Hinv _ _ Hview) as [e He].
    destruct (unassignTouch_run t v e w Hview He)
      as (w' & -> & _ & _ & Hft & Hlog & _).
    simpl. destruct (touchCount e - 1 <? 1).
    + right. exists v, false. rewrite Hlog, Hft. repeat split.
      * simpl. apply (inv_flag w Hinv). eauto.
      * apply fn_lookup_insert.
      * intros v' Hne. apply fn_lookup_insert_ne. congruence.
    + left. rewrite Hlog, Hft, app_nil_r. auto.
Qed.

(** C3 (amended): in every state reached from the empty index by calls of
    [assignTouch] and [unassignTouch] in which a touch is assigned only while
    it has no view (what [makeTouchResponder] does), a view's [hasTouch] is
    true exactly when its touch set is not empty; a view keeps an entry only
    while its set is not empty; and every further call returns and sets
    [hasTouch] at most once, then to the opposite value: with the first
    part, once exactly when a view's set becomes empty or stops being
    empty, and not otherwise. *)
Theorem index_flag_iff_touches (w : World) :
  index_reachable w →
  (∀ v, hasTouch w v = true ↔ has_touches v w)
  ∧ (∀ v, is_Some (touchesForView v w) → has_touches v w)
  ∧ (∀ op, op_allowed op w →
       (run_op op w).1 = Ret tt ∧ toggled_once w (run_op op w).2).
Proof.
  intros Hreach. pose proof (index_reachable_inv w Hreach) as Hinv.
  split; [|split].
  - intros v. rewrite (inv_flag w Hinv). apply index_inv_has_touches, Hinv.
  - intros v Hsome. apply index_inv_has_touches; [exact Hinv|].
    unfold touchesForView in Hsome.
    destruct (_touchedViews w !! v); [eauto|].
    destruct Hsome; discriminate.
  - intros op Hop. apply run_op_toggles; assumption.
Qed.

End IndexFacts.

Lemma index_flag_iff_touches_witness :
  let w := (run_op (Assign Scenario.t1 Scenario.A) Scenario.fresh).2 in
  index_reachable w
  ∧ (∀ v, hasTouch w v = true ↔ has_touches v w)
  ∧ (∀ v, is_Some (touchesForView v w) → has_touches v w)
  ∧ (∀ op, op_allowed op w →
       (run_op op w).1 = Ret tt ∧ toggled_once w (run_op op w).2).
Proof.
  assert (H : index_reachable
                (run_op (Assign Scenario.t1 Scenario.A) Scenario.fresh).2).
  { apply reach_step.
    - apply reach_empty. repeat split.
    - reflexivity. }
  split; [exact H|].
  exact (index_flag_iff_touches _ H).
Defined.

(** C3 as stated fails: after [assignTouch(t, A)], [assignTouch(t, A)],
    [unassignTouch(t)] the touch set of [A] is empty (the set holds the
    touch once, the count is 2 and drops to 1), its entry is still there
    and [hasTouch] is still true. *)
Lemma index_flag_without_touches :
  let w := run_ops [Assign Scenario.t1 Scenario.A;
                    Assign Scenario.t1 Scenario.A;
                    Unassign Scenario.t1] Scenario.fresh in
  hasTouch w Scenario.A = true
  ∧ touchesForView Scenario.A w = Some []
  ∧ ¬ has_touches Scenario.A w.
Proof.
  assert (Hset : touchesForView Scenario.A
            (run_ops [Assign Scenario.t1 Scenario.A;
                      Assign Scenario.t1 Scenario.A;
                      Unassign Scenario.t1] Scenario.fresh) = Some [])
    by (vm_compute; reflexivity).
  split; [vm_compute; reflexivity|]. split; [exact Hset|].
  intros (s & Hs & Hne). rewrite Hset in Hs. congruence.
Qed.

(** ** makeTouchResponder *)

Section StackFacts.

Context {num : Type}.
Variable env : ViewEnv num.

Local Abbreviation World := (World num).
Local Abbreviation M := (M num).

Lemma len_app_one (pre : list View) (x : View) : len (pre ++ [x]) = len pre + 1.
Proof. unfold len. rewrite length_app. simpl. lia. Qed.

Lemma at_index_top (pre : list View) (x : View) :
  at_index (pre ++ [x]) (len (pre ++ [x]) - 1) = Obj x.
Proof.
  rewrite len_app_one. unfold at_index, len.
  replace (Z.of_nat (length pre) + 1 - 1) with (Z.of_nat (length pre)) by lia.
  destruct (Z.ltb_spec (Z.of_nat (length pre)) 0); [lia|].
  rewrite Nat2Z.id, lookup_app_r by lia.
  rewrite Nat.sub_diag. reflexivity.
Qed.

Lemma at_index_app_l (pre rest : list View) (i : Z) :
  i < len pre → at_index (pre ++ rest) i = at_index pre i.
Proof.
  unfold at_index, len. intros Hi.
  destruct (Z.ltb_spec i 0); [reflexivity|].
  rewrite lookup_app_l by lia. reflexivity.
Qed.

Lemma at_index_nil (i : Z) : at_index [] i = Undefined.
Proof. unfold at_index. destruct (i <? 0); reflexivity. Qed.

Lemma pop_app_one (pre : list View) (x : View) : pop (pre ++ [x]) = pre.
Proof. apply removelast_last. Qed.

Lemma popped_app_one (responder : ref) (pre : list View) (x : View) :
  popped responder (pre ++ [x]) =
  if strict_eq (Obj x) responder then [] else x :: popped responder pre.
Proof. unfold popped. rewrite rev_app_distr. reflexivity. Qed.

Lemma popped_length (responder : ref) (stack : list View) :
  (length (popped responder stack) ≤ length stack)%nat.
Proof.
  unfold popped. rewrite <- (length_rev stack).
  induction (rev stack) as [|v r IH]; simpl; [lia|].
  destruct (strict_eq (Obj v) responder); simpl; lia.
Qed.

Lemma kept_app_one (responder : ref) (pre : list View) (x : View) :
  kept responder (pre ++ [x]) =
  if strict_eq (Obj x) responder then pre ++ [x] else kept responder pre.
Proof.
  unfold kept. rewrite popped_app_one.
  destruct (strict_eq (Obj x) responder).
  - simpl. rewrite Nat.sub_0_r. apply firstn_all.
  - pose proof (popped_length responder pre).
    rewrite length_app. simpl.
    replace (length pre + 1 - S (length (popped responder pre)))%nat
      with (length pre - length (popped responder pre))%nat by lia.
    rewrite take_app_le by lia. reflexivity.
Qed.

Lemma kept_popped (responder : ref) (stack : list View) :
  stack = kept responder stack ++ rev (popped responder stack).
Proof.
  induction stack as [|x pre IH] using rev_ind; [reflexivity|].
  rewrite kept_app_one, popped_app_one.
  destruct (strict_eq (Obj x) responder); simpl.
  - rewrite app_nil_r. reflexivity.
  - rewrite app_assoc, <- IH. reflexivity.
Qed.

Lemma notified_same_index (w w' : World) (v : View) :
  _touchedViews w' = _touchedViews w → notified env w' v = notified env w v.
Proof. intros H. unfold notified, touchesForView. rewrite H. reflexivity. Qed.

Lemma same_but_responders_refl (x : Touch num) : same_but_responders x x.
Proof. repeat split. Qed.

(** The popping loop, as [makeTouchResponder] starts it: it returns, leaves
    [kept responder stack], and tells exactly the popped views for which
    [notified] holds, from the top down. *)
Lemma pop_responders_run (t : TouchRef) (responder : ref) (stack : list View) :
  cancel_safe env t →
  ∀ fuel w, (length stack ≤ fuel)%nat →
  ∃ w', pop_responders env fuel t responder stack (len stack - 1) (top stack) w
        = (Ret (kept responder stack), w')
    ∧ log w' = log w ++ map (λ v, Performed TouchCancelled v t)
                            (List.filter (notified env w)
                                         (popped responder stack))
    ∧ _touchedViews w' = _touchedViews w
    ∧ hasTouch w' = hasTouch w
    ∧ _touches w' = _touches w
    ∧ (∀ t', t' ≠ t → heap w' t' = heap w t')
    ∧ same_but_responders (heap w' t) (heap w t)
    ∧ (popped responder stack = [] → heap w' t = heap w t)
    ∧ (popped responder stack ≠ [] →
         touchResponders (heap w' t) = Some (kept responder stack)
         ∧ touchResponder (heap w' t) = top (kept responder stack)
         ∧ nextTouchResponder (heap w' t) = below_top (kept responder stack)).
Proof.
  intros Hsafe.
  induction stack as [|x pre IH] using rev_ind; intros fuel w Hfuel.
  - exists w. unfold top. rewrite at_index_nil.
    destruct fuel; simpl; rewrite app_nil_r;
      repeat split; try reflexivity;
      exfalso; match goal with H : _ ≠ _ |- _ => apply H; reflexivity end.
  - unfold top. rewrite at_index_top, kept_app_one, popped_app_one.
    destruct fuel as [|fuel]; [rewrite length_app in Hfuel; simpl in Hfuel; lia|].
    simpl. destruct (strict_eq (Obj x) responder) eqn:Heq.
    + exists w. simpl. rewrite app_nil_r.
      repeat split; try reflexivity;
      exfalso; match goal with H : _ ≠ _ |- _ => apply H; reflexivity end.
    + replace (len (pre ++ [x]) - 1 - 1) with (len pre - 1)
        by (rewrite len_app_one; lia).
      rewrite pop_app_one.
      rewrite (at_index_app_l pre [x] (len pre - 1)) by lia.
      assert (Hf : (length pre ≤ fuel)%nat)
        by (rewrite length_app in Hfuel; simpl in Hfuel; lia).
      set (upd := with_heap t (with_responders
                    (at_index pre (len pre - 1))
                    (at_index pre (len pre - 1 - 1)) (Some pre))).
      assert (Hstep : ∃ w1,
        when (notified env w x)
          (_ <- tryToPerform env TouchCancelled x t ;; ret ()) w = (Ret tt, w1)
        ∧ log w1 = log w ++ (if notified env w x
                             then [Performed TouchCancelled x t] else [])
        ∧ _touchedViews w1 = _touchedViews w ∧ hasTouch w1 = hasTouch w
        ∧ _touches w1 = _touches w ∧ heap w1 = heap w).
      { unfold when, tryToPerform, emit.
        destruct (notified env w x).
        - rewrite bind_assoc, bind_modify, bind_assoc, bind_get.
          destruct (perform env (with_log (Performed TouchCancelled x t) w)
                      TouchCancelled x t) as [b|] eqn:Hp.
          + eexists; split; [reflexivity|]. simpl. repeat split.
          + exfalso. eapply Hsafe; eauto.
        - exists w. rewrite app_nil_r. repeat split. }
      destruct Hstep as (w1 & Hrun1 & Hlog1 & Htv1 & Hft1 & Hts1 & Hheap1).
      destruct (IH fuel (upd w1) Hf)
        as (w' & Hrun & Hlog & Htv & Hft & Hts & Hother & Hsame & _ & _).
      exists w'. split.
      { rewrite bind_gets. fold (notified env w x).
        rewrite (bind_run _ _ _ _ _ Hrun1), bind_modify. exact Hrun. }
      split.
      { rewrite Hlog. unfold upd at 1. simpl log. rewrite Hlog1.
        rewrite <- app_assoc. f_equal.
        rewrite (List.filter_ext (notified env (upd w1)) (notified env w)).
        2:{ intros v. apply notified_same_index. simpl. exact Htv1. }
        simpl. destruct (notified env w x); reflexivity. }
      split; [rewrite Htv; simpl; exact Htv1|].
      split; [rewrite Hft; simpl; exact Hft1|].
      split; [rewrite Hts; simpl; exact Hts1|].
      split.
      { intros t' Hne. rewrite Hother by assumption. unfold upd. simpl.
        rewrite fn_lookup_insert_ne by congruence. rewrite Hheap1. reflexivity. }
      split.
      { destruct Hsame as (H1 & H2 & H3 & H4 & H5 & H6).
        unfold upd in *. simpl in *. rewrite fn_lookup_insert in *.
        simpl in *. rewrite Hheap1 in *. repeat split; assumption. }
      split; [discriminate|]. intros _.
      destruct (IH fuel (upd w1) Hf)
        as (w'' & Hrun' & _ & _ & _ & _ & _ & _ & Hnil & Hcons).
      rewrite Hrun in Hrun'. inversion Hrun'; subst w''.
      destruct (popped responder pre) as [|p ps] eqn:Hpop.
      * rewrite Hnil by reflexivity. unfold upd. simpl.
        rewrite fn_lookup_insert. simpl.
        assert (Hk : kept responder pre = pre).
        { pose proof (kept_popped responder pre) as Hkp.
          rewrite Hpop in Hkp. simpl in Hkp. rewrite app_nil_r in Hkp.
          symmetry. exact Hkp. }
        rewrite Hk. unfold top, below_top.
        replace (len pre - 2) with (len pre - 1 - 1) by lia. auto.
      * apply Hcons. discriminate.
Qed.

Lemma new_events_app (w w' : World) (evs : list event) :
  log w' = log w ++ evs → new_events w w' = evs.
Proof. intros H. unfold new_events. rewrite H. apply drop_app_length. Qed.

(** C5 (amended): the popping phase of [makeTouchResponder] returns (when
    no [touchCancelled] handler throws), pops the views above the confirmed
    responder, and sends [touchCancelled] to every popped view, from the top
    down, except to a popped view that does NOT accept multitouch and still
    has touches assigned (an entry in the index, [w] being the state in
    which the phase starts, the touch itself already unassigned). *)
Theorem popped_views_notified (t : TouchRef) (responder : ref)
    (stack : list View) (w : World) :
  cancel_safe env t →
  ∃ w', pop_responders env (length stack) t responder stack
                       (len stack - 1) (top stack) w
        = (Ret (kept responder stack), w')
    ∧ new_events w w' =
        map (λ v, Performed TouchCancelled v t)
            (List.filter
               (λ v, negb (negb (acceptsMultitouch env v)
                          && bool_decide (is_Some (touchesForView v w))))
               (popped responder stack))
    ∧ ∀ v, v ∈ popped responder stack →
        (Performed TouchCancelled v t ∈ new_events w w'
         ↔ ¬ (acceptsMultitouch env v = false
              ∧ is_Some (touchesForView v w))).
Proof.
  intros Hsafe.
  destruct (pop_responders_run t responder stack Hsafe (length stack) w
              (le_n _)) as (w' & Hrun & Hlog & _).
  exists w'. split; [exact Hrun|].
  apply new_events_app in Hlog.
  assert (Hext : ∀ v, notified env w v =
             negb (negb (acceptsMultitouch env v)
                   && bool_decide (is_Some (touchesForView v w)))).
  { intros v. unfold notified.
    destruct (acceptsMultitouch env v), (bool_decide _); reflexivity. }
  rewrite (List.filter_ext _ _ Hext) in Hlog.
  split; [exact Hlog|].
  intros v Hv. rewrite Hlog, list_elem_of_fmap. split.
  - intros (v' & [= <-] & Hin) [Hmt Hsome].
    apply list_elem_of_In, List.filter_In in Hin. destruct Hin as [_ Hn].
    rewrite Hmt, bool_decide_eq_true_2 in Hn by assumption. discriminate.
  - intros Hnot. exists v. split; [reflexivity|].
    apply list_elem_of_In, List.filter_In. split; [apply list_elem_of_In, Hv|].
    destruct (acceptsMultitouch env v) eqn:Hmt; [reflexivity|]. simpl.
    destruct (bool_decide (is_Some (touchesForView v w))) eqn:Hs; [|reflexivity].
    apply bool_decide_eq_true_1 in Hs. exfalso. auto.
Qed.

Lemma cancellations_app (l1 l2 : list event) :
  cancellations (l1 ++ l2) = cancellations l1 ++ cancellations l2.
Proof. apply List.filter_app. Qed.

(** Handing a touch back to the view [A] stacked beneath its responder
    [B]: everything the call leaves behind. *)
Lemma hand_back_run (t : TouchRef) (A B : View) (e : ViewEntry) (w : World) :
  touchResponders (heap w t) = Some [A; B] →
  touchResponder (heap w t) = Obj B →
  A ≠ B →
  (∀ w0, sendTouchStart env w0 t (Obj A) = Returns (Obj A)) →
  view (heap w t) = Obj B →
  _touchedViews w !! B = Some e →
  cancel_safe env t →
  ∃ w', makeTouchResponder env t (Obj A) true w = (Ret tt, w')
    ∧ cancellations (new_events w w') =
        (if acceptsMultitouch env B || (touchCount e - 1 <? 1)
         then [Performed TouchCancelled B t] else [])
    ∧ touchResponders (heap w' t) = Some [A; A]
    ∧ touchResponder (heap w' t) = Obj A
    ∧ nextTouchResponder (heap w' t) = Obj A
    ∧ view (heap w' t) = Obj A.
Proof.
  intros Hstack Hcur HAB Hacc Hview He Hsafe.
  assert (HBA : strict_eq (Obj B) (Obj A) = false)
    by (apply bool_decide_eq_false_2; congruence).
  unfold makeTouchResponder.
  rewrite bind_gets, bind_gets, Hcur, HBA, Hstack.
  unfold sendEvent_touchStart, emit.
  rewrite bind_assoc, bind_modify, bind_assoc, bind_get, Hacc, bind_ret.
  set (w1 := with_log (SentTouchStart t (Obj A)) w).
  rewrite bind_gets.
  change (touchResponder (heap w1 t)) with (touchResponder (heap w t)).
  rewrite Hcur, HBA.
  destruct (unassignTouch_run t B e w1 Hview He)
    as (w2 & Hrun2 & Htv2 & Hheap2 & Hft2 & Hlog2 & _).
  rewrite (bind_run _ _ _ _ _ Hrun2).
  assert (Hcond : negb true
            || in_stack (Obj A) [A; B]
               && negb (strict_eq (at_index [A; B] (len [A; B] - 1)) (Obj A))
            = true).
  { simpl. rewrite bool_decide_eq_true_2 by (left). simpl.
    change (at_index [A; B] (len [A; B] - 1)) with (Obj B).
    rewrite HBA. reflexivity. }
  rewrite Hcond.
  destruct (pop_responders_run t (Obj A) [A; B] Hsafe 2%nat w2 (le_n _))
    as (w3 & Hrun3 & Hlog3 & Htv3 & Hft3 & _ & Hother3 & Hsame3 & _ & Hpop3).
  assert (Hpopped : popped (Obj A) [A; B] = [B]).
  { unfold popped. simpl. rewrite HBA.
    unfold strict_eq. rewrite bool_decide_eq_true_2 by reflexivity.
    reflexivity. }
  assert (Hkept : kept (Obj A) [A; B] = [A]).
  { unfold kept. rewrite Hpopped. reflexivity. }
  rewrite Hpopped in *. rewrite Hkept in *.
  change (pop_responders env (length [A; B]) t (Obj A) [A; B]
            (len [A; B] - 1) (at_index [A; B] (len [A; B] - 1)))
    with (pop_responders env 2 t (Obj A) [A; B] (len [A; B] - 1)
            (top [A; B])).
  rewrite (bind_run _ _ _ _ _ Hrun3).
  destruct (assignTouch_run t A w3)
    as (w4 & Hrun4 & Htv4 & Hheap4 & Hft4 & Hlog4 & _).
  rewrite (bind_run _ _ _ _ _ Hrun4).
  eexists. split; [reflexivity|].
  simpl. rewrite fn_lookup_insert. simpl.
  split; [|repeat split].
  - erewrite new_events_app.
    2:{ simpl. rewrite Hlog4, Hlog3, Hlog2. unfold w1. simpl.
        rewrite <- !app_assoc. reflexivity. }
    rewrite !cancellations_app.
    assert (Hnot : notified env w2 B
                   = acceptsMultitouch env B || (touchCount e - 1 <? 1)).
    { unfold notified, touchesForView. rewrite Htv2. f_equal.
      destruct (touchCount e - 1 <? 1).
      - rewrite lookup_delete_eq. reflexivity.
      - rewrite lookup_insert_eq. reflexivity. }
    rewrite Hnot.
    destruct (touchCount e - 1 <? 1), (_touchedViews w3 !! A),
      (acceptsMultitouch env B); reflexivity.
  - rewrite Hheap4, fn_lookup_insert. reflexivity.
Qed.

(** [makeTouchResponder] keeps the two pointers in step with the stack,
    whatever it does to the stack. *)
Lemma makeTouchResponder_pointers (t : TouchRef) (responder r : ref)
    (shouldStack : bool) (stack : list View) (w : World) :
  touchResponders (heap w t) = Some stack →
  pointers_follow_stack (heap w t) →
  (∀ w0, sendTouchStart env w0 t responder = Returns r) →
  (∀ v, view (heap w t) = Obj v → is_Some (_touchedViews w !! v)) →
  cancel_safe env t →
  ∃ w', makeTouchResponder env t responder shouldStack w = (Ret tt, w')
    ∧ pointers_follow_stack (heap w' t).
Proof.
  intros Hstack Hptr Hsend Hentry Hsafe.
  unfold makeTouchResponder.
  rewrite bind_gets, bind_gets, Hstack.
  destruct (strict_eq (touchResponder (heap w t)) responder);
    [exists w; split; [reflexivity|exact Hptr]|].
  unfold sendEvent_touchStart, emit.
  rewrite bind_assoc, bind_modify, bind_assoc, bind_get, Hsend, bind_ret.
  set (w1 := with_log (SentTouchStart t responder) w).
  rewrite bind_gets.
  change (touchResponder (heap w1 t)) with (touchResponder (heap w t)).
  destruct (strict_eq (touchResponder (heap w t)) r);
    [exists w1; split; [reflexivity|exact Hptr]|].
  assert (Hrun2 : ∃ w2, unassignTouch t w1 = (Ret tt, w2)
            ∧ touchResponder (heap w2 t) = touchResponder (heap w t)
            ∧ nextTouchResponder (heap w2 t) = nextTouchResponder (heap w t)
            ∧ touchResponders (heap w2 t) = Some stack).
  { destruct (view (heap w1 t)) as [| |v] eqn:Hview.
    1,2: exists w1; rewrite unassignTouch_no_view
           by (rewrite Hview; reflexivity); repeat split; exact Hstack.
    destruct (Hentry v Hview) as [e He].
    destruct (unassignTouch_run t v e w1 Hview He)
      as (w2 & Hrun & _ & Hheap & _).
    exists w2. rewrite Hheap, fn_lookup_insert. repeat split; assumption. }
  destruct Hrun2 as (w2 & Hrun2 & Hcur2 & Hnext2 & Hstack2).
  rewrite (bind_run _ _ _ _ _ Hrun2).
  assert (Hpopped : ∃ w3 stack3,
    (if negb shouldStack
        || in_stack r stack
           && negb (strict_eq (at_index stack (len stack - 1)) r)
     then pop_responders env (length stack) t r stack (len stack - 1)
                         (at_index stack (len stack - 1))
     else ret stack) w2 = (Ret stack3, w3)
    ∧ touchResponders (heap w3 t) = Some stack3
    ∧ pointers_follow_stack (heap w3 t)).
  { destruct (negb shouldStack || _).
    - destruct (pop_responders_run t r stack Hsafe (length stack) w2 (le_n _))
        as (w3 & Hrun3 & _ & _ & _ & _ & _ & _ & Hnil & Hcons).
      exists w3, (kept r stack). split; [exact Hrun3|].
      destruct (popped r stack) as [|p ps] eqn:Hpop.
      + rewrite Hnil by reflexivity.
        assert (Hk : kept r stack = stack).
        { pose proof (kept_popped r stack) as Hkp.
          rewrite Hpop in Hkp. simpl in Hkp. rewrite app_nil_r in Hkp.
          symmetry. exact Hkp. }
        rewrite Hk. split; [exact Hstack2|].
        intros s Hs. rewrite Hstack2 in Hs. injection Hs as <-.
        rewrite Hcur2, Hnext2. apply Hptr, Hstack.
      + destruct Hcons as (H1 & H2 & H3); [discriminate|].
        split; [exact H1|].
        intros s Hs. rewrite H1 in Hs. injection Hs as <-. auto.
    - exists w2, stack. split; [reflexivity|]. split; [exact Hstack2|].
      intros s Hs. rewrite Hstack2 in Hs. injection Hs as <-.
      rewrite Hcur2, Hnext2. apply Hptr, Hstack. }
  destruct Hpopped as (w3 & stack3 & Hrun3 & Hstack3 & Hptr3).
  rewrite (bind_run _ _ _ _ _ Hrun3).
  destruct r as [| |v].
  1,2: exists w3; split; [reflexivity|exact Hptr3].
  destruct (assignTouch_run t v w3) as (w4 & Hrun4 & _).
  rewrite (bind_run _ _ _ _ _ Hrun4).
  eexists. split; [reflexivity|]. simpl. rewrite fn_lookup_insert. simpl.
  intros s [= <-]. split; [|reflexivity].
  unfold top. symmetry. apply at_index_top.
Qed.

(** C1 (amended): when a touch with the stack [[A, B]] and the responder
    [B] is handed back to [A] by [makeTouchResponder(t, A, true)], and [A]
    accepts, the call returns with [touchResponder = A]; [B] is told
    [touchCancelled] exactly once, and nobody else is, if [B] accepts
    multitouch or has no other touch; [B] is not told if it does not accept
    multitouch and still has other touches. *)
Theorem hand_back_cancels_responder (t : TouchRef) (A B : View)
    (e : ViewEntry) (w : World) :
  touchResponders (heap w t) = Some [A; B] →
  touchResponder (heap w t) = Obj B →
  A ≠ B →
  (∀ w0, sendTouchStart env w0 t (Obj A) = Returns (Obj A)) →
  view (heap w t) = Obj B →
  _touchedViews w !! B = Some e →
  cancel_safe env t →
  ∃ w', makeTouchResponder env t (Obj A) true w = (Ret tt, w')
    ∧ touchResponder (heap w' t) = Obj A
    ∧ (acceptsMultitouch env B = true ∨ touchCount e ≤ 1 →
       cancellations (new_events w w') = [Performed TouchCancelled B t])
    ∧ (acceptsMultitouch env B = false ∧ 1 < touchCount e →
       cancellations (new_events w w') = []).
Proof.
  intros Hstack Hcur HAB Hacc Hview He Hsafe.
  destruct (hand_back_run t A B e w Hstack Hcur HAB Hacc Hview He Hsafe)
    as (w' & Hrun & Hcancel & _ & Htr & _).
  exists w'. split; [exact Hrun|]. split; [exact Htr|].
  rewrite Hcancel. split.
  - intros [-> | Hle]; [reflexivity|].
    replace (touchCount e - 1 <? 1) with true by (symmetry; apply Z.ltb_lt; lia).
    rewrite orb_true_r. reflexivity.
  - intros [-> Hlt].
    replace (touchCount e - 1 <? 1) with false by (symmetry; apply Z.ltb_ge; lia).
    reflexivity.
Qed.

(** What a declined offer does in the code.  When the [touchStart] offer
    is declined (the answer [r] is [null] or [undefined]) for a touch that
    has a responder and is assigned to the view [v0], the call returns,
    pushes and assigns nothing, and takes the touch from [v0] in the
    index.  With [shouldStack] the stack and the two pointers stay as they
    were and no [touchCancelled] is sent, so that the touch keeps a
    responder that no longer counts it; without it every view of the stack
    is popped, from the top, told [touchCancelled] under the rule of the
    popping phase, and the touch is left with an empty stack and no
    responder. *)
Theorem declined_offer (t : TouchRef) (responder r : ref) (shouldStack : bool)
    (stack : list View) (v0 : View) (e : ViewEntry) (w : World) :
  touchResponders (heap w t) = Some stack →
  touchResponder (heap w t) ≠ responder →
  (∀ w0, sendTouchStart env w0 t responder = Returns r) →
  truthy r = false →
  touchResponder (heap w t) ≠ r →
  view (heap w t) = Obj v0 →
  _touchedViews w !! v0 = Some e →
  cancel_safe env t →
  ∃ w', makeTouchResponder env t responder shouldStack w = (Ret tt, w')
    ∧ view (heap w' t) = Undefined
    ∧ _touchedViews w' =
        (if touchCount e - 1 <? 1 then delete v0 (_touchedViews w)
         else <[v0 := mkViewEntry (ve_view e) (CoreSet.remove t (touches e))
                                  (touchCount e - 1)]> (_touchedViews w))
    ∧ (shouldStack = true →
         touchResponders (heap w' t) = Some stack
         ∧ touchResponder (heap w' t) = touchResponder (heap w t)
         ∧ nextTouchResponder (heap w' t) = nextTouchResponder (heap w t)
         ∧ cancellations (new_events w w') = [])
    ∧ (shouldStack = false → stack ≠ [] →
         touchResponders (heap w' t) = Some []
         ∧ touchResponder (heap w' t) = Undefined
         ∧ nextTouchResponder (heap w' t) = Undefined
         ∧ cancellations (new_events w w') =
             map (λ v, Performed TouchCancelled v t)
                 (List.filter (notified env w') (rev stack))).
Proof.
  intros Hstack Hne1 Hdecl Hfalsy Hne2 Hview He Hsafe.
  assert (Hs1 : strict_eq (touchResponder (heap w t)) responder = false)
    by (apply bool_decide_eq_false_2; assumption).
  assert (Hs2 : strict_eq (touchResponder (heap w t)) r = false)
    by (apply bool_decide_eq_false_2; assumption).
  unfold makeTouchResponder.
  rewrite bind_gets, bind_gets, Hs1, Hstack.
  unfold sendEvent_touchStart, emit.
  rewrite bind_assoc, bind_modify, bind_assoc, bind_get, Hdecl, bind_ret.
  set (w1 := with_log (SentTouchStart t responder) w).
  rewrite bind_gets.
  change (touchResponder (heap w1 t)) with (touchResponder (heap w t)).
  rewrite Hs2.
  destruct (unassignTouch_run t v0 e w1 Hview He)
    as (w2 & Hrun2 & Htv2 & Hheap2 & Hft2 & Hlog2 & _).
  rewrite (bind_run _ _ _ _ _ Hrun2).
  assert (Hin : in_stack r stack = false) by (destruct r; [reflexivity..|discriminate]).
  rewrite Hin. simpl andb. rewrite orb_false_r.
  assert (Hc2 : ∀ b : bool,
            cancellations (if b then [SetHasTouch v0 false] else []) = [])
    by (intros []; reflexivity).
  destruct shouldStack; simpl negb; cbv iota.
  - (* stacked: nothing is popped *)
    rewrite bind_ret.
    exists w2. split; [destruct r; [reflexivity..|discriminate]|].
    rewrite Hheap2, fn_lookup_insert. simpl.
    split; [reflexivity|]. split; [exact Htv2|]. split; [|discriminate].
    intros _. repeat split; try assumption.
    erewrite new_events_app.
    2:{ rewrite Hlog2. unfold w1. simpl. rewrite <- app_assoc. reflexivity. }
    rewrite cancellations_app. simpl. apply Hc2.
  - (* not stacked: the whole stack is popped *)
    destruct (pop_responders_run t r stack Hsafe (length stack) w2 (le_n _))
      as (w3 & Hrun3 & Hlog3 & Htv3 & _ & _ & _ & Hsame3 & _ & Hpop3).
    assert (Hpopped : popped r stack = rev stack).
    { unfold popped. induction (rev stack) as [|v l IH]; [reflexivity|].
      simpl. replace (strict_eq (Obj v) r) with false.
      - rewrite IH. reflexivity.
      - symmetry. apply bool_decide_eq_false_2. intros <-. discriminate. }
    assert (Hkept : kept r stack = []).
    { unfold kept. rewrite Hpopped, length_rev, Nat.sub_diag. reflexivity. }
    rewrite Hpopped, Hkept in *.
    change (pop_responders env (length stack) t r stack (len stack - 1)
              (at_index stack (len stack - 1)))
      with (pop_responders env (length stack) t r stack (len stack - 1)
              (top stack)).
    rewrite (bind_run _ _ _ _ _ Hrun3).
    exists w3. split; [destruct r; [reflexivity..|discriminate]|].
    destruct Hsame3 as (_ & _ & Hv3 & _).
    split; [rewrite Hv3, Hheap2, fn_lookup_insert; reflexivity|].
    split; [rewrite Htv3; exact Htv2|]. split; [discriminate|].
    intros _ Hnonempty.
    assert (Hrev : rev stack ≠ []).
    { intros Hnil. apply Hnonempty. rewrite <- (rev_involutive stack), Hnil.
      reflexivity. }
    destruct (Hpop3 Hrev) as (H1 & H2 & H3).
    repeat split; try assumption.
    erewrite new_events_app.
    2:{ rewrite Hlog3, Hlog2. unfold w1. simpl. rewrite <- !app_assoc.
        reflexivity. }
    rewrite !cancellations_app, Hc2. simpl.
    rewrite (List.filter_ext (notified env w3) (notified env w2))
      by (intros v; apply notified_same_index; exact Htv3).
    generalize (List.filter (notified env w2) (rev stack)). intros l.
    induction l as [|v l IH]; [reflexivity|]. simpl. f_equal. exact IH.
Qed.

End StackFacts.

Lemma popped_views_notified_witness :
  let w := Scenario.two_on_B Scenario.willing in
  let t := Scenario.t1 in
  let stack := [Scenario.A; Scenario.B] in
  cancel_safe Scenario.willing t
  ∧ ∃ w', pop_responders Scenario.willing (length stack) t (Obj Scenario.A)
                         stack (len stack - 1) (top stack) w
          = (Ret (kept (Obj Scenario.A) stack), w')
      ∧ new_events w w' =
          map (λ v, Performed TouchCancelled v t)
              (List.filter
                 (λ v, negb (negb (acceptsMultitouch Scenario.willing v)
                            && bool_decide (is_Some (touchesForView v w))))
                 (popped (Obj Scenario.A) stack))
      ∧ ∀ v, v ∈ popped (Obj Scenario.A) stack →
          (Performed TouchCancelled v t ∈ new_events w w'
           ↔ ¬ (acceptsMultitouch Scenario.willing v = false
                ∧ is_Some (touchesForView v w))).
Proof.
  assert (H : cancel_safe Scenario.willing Scenario.t1)
    by (intros w v; discriminate).
  split; [exact H|].
  exact (popped_views_notified Scenario.willing Scenario.t1 (Obj Scenario.A)
           [Scenario.A; Scenario.B] (Scenario.two_on_B Scenario.willing) H).
Defined.

(** C5 as stated fails: [B] accepts multitouch and still has the touch [t2]
    when [t1] is handed back to [A]; the claim has [B] not told, the code
    tells it. *)
Lemma multitouch_view_is_notified :
  let w := Scenario.two_on_B Scenario.multitouch in
  let w' := (makeTouchResponder Scenario.multitouch Scenario.t1
               (Obj Scenario.A) true w).2 in
  touchResponders (heap w Scenario.t1) = Some [Scenario.A; Scenario.B]
  ∧ acceptsMultitouch Scenario.multitouch Scenario.B = true
  ∧ touchesForView Scenario.B w' = Some [Scenario.t2]
  ∧ cancellations (new_events w w')
    = [Performed TouchCancelled Scenario.B Scenario.t1].
Proof. vm_compute. repeat split. Qed.

Lemma hand_back_cancels_responder_witness :
  let w := Scenario.stacked Scenario.willing in
  let t := Scenario.t1 in
  let e := mkViewEntry (Obj Scenario.B) [Scenario.t1] 1 in
  (touchResponders (heap w t) = Some [Scenario.A; Scenario.B]
   ∧ touchResponder (heap w t) = Obj Scenario.B
   ∧ Scenario.A ≠ Scenario.B
   ∧ (∀ w0, sendTouchStart Scenario.willing w0 t (Obj Scenario.A)
            = Returns (Obj Scenario.A))
   ∧ view (heap w t) = Obj Scenario.B
   ∧ _touchedViews w !! Scenario.B = Some e
   ∧ cancel_safe Scenario.willing t)
  ∧ ∃ w', makeTouchResponder Scenario.willing t (Obj Scenario.A) true w
          = (Ret tt, w')
      ∧ touchResponder (heap w' t) = Obj Scenario.A
      ∧ (acceptsMultitouch Scenario.willing Scenario.B = true
         ∨ touchCount e ≤ 1 →
         cancellations (new_events w w')
         = [Performed TouchCancelled Scenario.B t])
      ∧ (acceptsMultitouch Scenario.willing Scenario.B = false
         ∧ 1 < touchCount e →
         cancellations (new_events w w') = []).
Proof.
  assert (H1 : touchResponders (heap (Scenario.stacked Scenario.willing)
                                     Scenario.t1)
               = Some [Scenario.A; Scenario.B]) by reflexivity.
  assert (H2 : touchResponder (heap (Scenario.stacked Scenario.willing)
                                    Scenario.t1) = Obj Scenario.B)
    by reflexivity.
  assert (H3 : Scenario.A ≠ Scenario.B) by discriminate.
  assert (H4 : ∀ w0, sendTouchStart Scenario.willing w0 Scenario.t1
                       (Obj Scenario.A) = Returns (Obj Scenario.A))
    by reflexivity.
  assert (H5 : view (heap (Scenario.stacked Scenario.willing) Scenario.t1)
               = Obj Scenario.B) by reflexivity.
  assert (H6 : _touchedViews (Scenario.stacked Scenario.willing) !! Scenario.B
               = Some (mkViewEntry (Obj Scenario.B) [Scenario.t1] 1))
    by (vm_compute; reflexivity).
  assert (H7 : cancel_safe Scenario.willing Scenario.t1)
    by (intros w v; discriminate).
  split; [repeat split; assumption|].
  exact (hand_back_cancels_responder Scenario.willing Scenario.t1
           Scenario.A Scenario.B _ _ H1 H2 H3 H4 H5 H6 H7).
Defined.

(** C1 as stated fails: with a second touch on [B], which does not accept
    multitouch, handing [t1] back to [A] tells [B] nothing; and the stack
    is left as [[A, A]] with [nextTouchResponder = A]. *)
Lemma hand_back_without_cancellation :
  let w := Scenario.two_on_B Scenario.willing in
  let w' := (makeTouchResponder Scenario.willing Scenario.t1
               (Obj Scenario.A) true w).2 in
  touchResponders (heap w Scenario.t1) = Some [Scenario.A; Scenario.B]
  ∧ touchResponder (heap w Scenario.t1) = Obj Scenario.B
  ∧ cancellations (new_events w w') = []
  ∧ touchResponders (heap w' Scenario.t1) = Some [Scenario.A; Scenario.A]
  ∧ nextTouchResponder (heap w' Scenario.t1) = Obj Scenario.A.
Proof. vm_compute. repeat split. Qed.

(** C2, at the failing input: [makeTouchResponder(t1, A, true)],
    [makeTouchResponder(t1, B, true)], [makeTouchResponder(t1, A, true)] on
    a new touch, every view accepting: the popping loop stops at [A], which
    is then pushed again; the stack holds [A] twice and
    [nextTouchResponder] is [A]. *)
Theorem stack_holds_view_twice :
  let w := Scenario.stacked Scenario.willing in
  let r := makeTouchResponder Scenario.willing Scenario.t1
             (Obj Scenario.A) true w in
  touchResponders (heap w Scenario.t1) = Some [Scenario.A; Scenario.B]
  ∧ r.1 = Ret tt
  ∧ touchResponders (heap r.2 Scenario.t1) = Some [Scenario.A; Scenario.A]
  ∧ touchResponder (heap r.2 Scenario.t1) = Obj Scenario.A
  ∧ nextTouchResponder (heap r.2 Scenario.t1) = Obj Scenario.A
  ∧ ¬ NoDup [Scenario.A; Scenario.A].
Proof.
  repeat split; try (vm_compute; reflexivity).
  intros H. inversion H as [|x l Hnin _]; subst.
  apply Hnin. left.
Qed.

Lemma declined_offer_witness :
  let w := (makeTouchResponder Scenario.B_declines Scenario.t1
              (Obj Scenario.A) false Scenario.fresh).2 in
  let t := Scenario.t1 in
  let e := mkViewEntry (Obj Scenario.A) [Scenario.t1] 1 in
  (touchResponders (heap w t) = Some [Scenario.A]
   ∧ touchResponder (heap w t) ≠ Obj Scenario.B
   ∧ (∀ w0, sendTouchStart Scenario.B_declines w0 t (Obj Scenario.B)
            = Returns Null)
   ∧ truthy Null = false
   ∧ touchResponder (heap w t) ≠ Null
   ∧ view (heap w t) = Obj Scenario.A
   ∧ _touchedViews w !! Scenario.A = Some e
   ∧ cancel_safe Scenario.B_declines t)
  ∧ ∃ w', makeTouchResponder Scenario.B_declines t (Obj Scenario.B) false w
          = (Ret tt, w')
      ∧ view (heap w' t) = Undefined
      ∧ _touchedViews w' =
          (if touchCount e - 1 <? 1 then delete Scenario.A (_touchedViews w)
           else <[Scenario.A :=
                    mkViewEntry (ve_view e) (CoreSet.remove t (touches e))
                                (touchCount e - 1)]> (_touchedViews w))
      ∧ (false = true →
           touchResponders (heap w' t) = Some [Scenario.A]
           ∧ touchResponder (heap w' t) = touchResponder (heap w t)
           ∧ nextTouchResponder (heap w' t) = nextTouchResponder (heap w t)
           ∧ cancellations (new_events w w') = [])
      ∧ (false = false → [Scenario.A] ≠ [] →
           touchResponders (heap w' t) = Some []
           ∧ touchResponder (heap w' t) = Undefined
           ∧ nextTouchResponder (heap w' t) = Undefined
           ∧ cancellations (new_events w w') =
               map (λ v, Performed TouchCancelled v t)
                   (List.filter (notified Scenario.B_declines w')
                                (rev [Scenario.A]))).
Proof.
  set (w := (makeTouchResponder Scenario.B_declines Scenario.t1
               (Obj Scenario.A) false Scenario.fresh).2).
  assert (H1 : touchResponders (heap w Scenario.t1) = Some [Scenario.A])
    by reflexivity.
  assert (H2 : touchResponder (heap w Scenario.t1) ≠ Obj Scenario.B)
    by discriminate.
  assert (H3 : ∀ w0, sendTouchStart Scenario.B_declines w0 Scenario.t1
                       (Obj Scenario.B) = Returns Null) by reflexivity.
  assert (H4 : truthy Null = false) by reflexivity.
  assert (H5 : touchResponder (heap w Scenario.t1) ≠ Null) by discriminate.
  assert (H6 : view (heap w Scenario.t1) = Obj Scenario.A) by reflexivity.
  assert (H7 : _touchedViews w !! Scenario.A
               = Some (mkViewEntry (Obj Scenario.A) [Scenario.t1] 1))
    by (vm_compute; reflexivity).
  assert (H8 : cancel_safe Scenario.B_declines Scenario.t1)
    by (intros w0 v; discriminate).
  split; [repeat split; assumption|].
  exact (declined_offer Scenario.B_declines Scenario.t1 (Obj Scenario.B)
           Null false [Scenario.A] Scenario.A _ w H1 H2 H3 H4 H5 H6 H7 H8).
Defined.

(** C7, at the failing input: [A] holds the touch [t1] and the pane
    answers [null] to the offer to [B].  Without [shouldStack] the call
    takes the touch from [A] in the index, pops [A] with a
    [touchCancelled], and leaves the touch without responder: the old
    responder is cancelled although no view accepted the touch.  With
    [shouldStack] the stack and the pointers stay, and the touch is taken
    from [A] in the index all the same: [A] remains the responder of a
    touch that it no longer has, and [touch.view] differs from
    [touch.touchResponder]. *)
Lemma declined_offer_changes_state :
  let w := (makeTouchResponder Scenario.B_declines Scenario.t1
              (Obj Scenario.A) false Scenario.fresh).2 in
  let w' := (makeTouchResponder Scenario.B_declines Scenario.t1
               (Obj Scenario.B) false w).2 in
  let w'' := (makeTouchResponder Scenario.B_declines Scenario.t1
                (Obj Scenario.B) true w).2 in
  sendTouchStart Scenario.B_declines w Scenario.t1 (Obj Scenario.B)
  = Returns Null
  ∧ touchResponders (heap w Scenario.t1) = Some [Scenario.A]
  ∧ touchResponder (heap w Scenario.t1) = Obj Scenario.A
  ∧ view (heap w Scenario.t1) = Obj Scenario.A
  ∧ touchesForView Scenario.A w = Some [Scenario.t1]
  ∧ hasTouch w Scenario.A = true
  (* shouldStack false *)
  ∧ touchResponders (heap w' Scenario.t1) = Some []
  ∧ touchResponder (heap w' Scenario.t1) = Undefined
  ∧ view (heap w' Scenario.t1) = Undefined
  ∧ touchesForView Scenario.A w' = None
  ∧ hasTouch w' Scenario.A = false
  ∧ cancellations (new_events w w')
    = [Performed TouchCancelled Scenario.A Scenario.t1]
  (* shouldStack true *)
  ∧ touchResponders (heap w'' Scenario.t1) = Some [Scenario.A]
  ∧ touchResponder (heap w'' Scenario.t1) = Obj Scenario.A
  ∧ view (heap w'' Scenario.t1) = Undefined
  ∧ touchesForView Scenario.A w'' = None
  ∧ hasTouch w'' Scenario.A = false
  ∧ new_events w w''
    = [SentTouchStart Scenario.t1 (Obj Scenario.B);
       SetHasTouch Scenario.A false].
Proof. vm_compute. repeat split. Qed.

(** ** captureTouch *)

Section CaptureFacts.

Context {num : Type}.
Variable env : ViewEnv num.

Local Abbreviation World := (World num).

(** The chain grows at its end: what was collected stays in front. *)
Lemma responder_chain_extends (fuel : nat) (view sp : ref)
    (acc chain : list View) :
  responder_chain env fuel view sp acc = Some chain →
  ∃ up, chain = acc ++ up.
Proof.
  revert view acc. induction fuel as [|fuel IH]; intros view acc; simpl.
  - destruct view as [| |v]; try (intros [= <-]; exists []; symmetry; apply app_nil_r).
    destruct (differs_from (Obj v) sp); [discriminate|].
    intros [= <-]. exists []. symmetry. apply app_nil_r.
  - destruct view as [| |v]; try (intros [= <-]; exists []; symmetry; apply app_nil_r).
    destruct (differs_from (Obj v) sp).
    + intros H. apply IH in H. destruct H as [up ->].
      exists (v :: up). rewrite <- app_assoc. reflexivity.
    + intros [= <-]. exists []. symmetry. apply app_nil_r.
Qed.

(** The chain starts with the raw target view: it is in bottom-up order. *)
Lemma responder_chain_target_first (fuel : nat) (v : View) (sp : ref)
    (chain : list View) :
  differs_from (Obj v) sp = true →
  responder_chain env fuel (Obj v) sp [] = Some chain →
  ∃ rest, chain = v :: rest.
Proof.
  intros Hd. destruct fuel as [|fuel]; simpl; rewrite Hd; [discriminate|].
  intros H. apply responder_chain_extends in H. destruct H as [up ->].
  exists up. reflexivity.
Qed.

(** When the raw target view captures the touch, it is made the responder
    and no ancestor is asked. *)
Lemma captureTouch_target_captures (fuel : nat) (t : TouchRef) (v : View)
    (sp : ref) (shouldStack : bool) (chain : list View) (w : World) :
  targetView (heap w t) = Obj v →
  differs_from (Obj v) sp = true →
  responder_chain env fuel (Obj v) sp [] = Some chain →
  (∀ w0, perform env w0 CaptureTouch v t = Returns true) →
  captureTouch env fuel t sp shouldStack w =
  makeTouchResponder env t (Obj v) shouldStack
                     (with_log (Performed CaptureTouch v t) w).
Proof.
  intros Htarget Hd Hchain Hcap.
  destruct (responder_chain_target_first fuel v sp chain Hd Hchain)
    as [rest ->].
  unfold captureTouch. rewrite bind_gets, Htarget, Hchain.
  simpl capture_loop. unfold tryToPerform, emit.
  rewrite !bind_assoc, bind_modify, bind_assoc, bind_get, Hcap, bind_ret.
  rewrite bind_assoc. unfold bind.
  destruct (makeTouchResponder env t (Obj v) shouldStack _) as [[[]| |] w'];
    reflexivity.
Qed.

(** When no view of the chain captures the touch, every view of the chain
    was asked, in the order of the chain, and the raw target view is
    offered the touch. *)
Lemma capture_loop_declined (t : TouchRef) (shouldStack : bool)
    (chain : list View) (w : World) :
  (∀ w0 v, v ∈ chain → perform env w0 CaptureTouch v t = Returns false) →
  ∃ w', capture_loop env t shouldStack chain w = (Ret false, w')
    ∧ log w' = log w ++ map (λ v, Performed CaptureTouch v t) chain
    ∧ heap w' = heap w
    ∧ _touchedViews w' = _touchedViews w
    ∧ _touches w' = _touches w
    ∧ hasTouch w' = hasTouch w.
Proof.
  revert w. induction chain as [|v rest IH]; intros w Hno.
  - exists w. simpl. rewrite app_nil_r. repeat split.
  - simpl capture_loop. unfold tryToPerform, emit.
    rewrite !bind_assoc, bind_modify, bind_assoc, bind_get.
    rewrite (Hno _ v) by left. rewrite bind_ret.
    destruct (IH (with_log (Performed CaptureTouch v t) w))
      as (w' & Hrun & Hlog & Hrest).
    { intros w0 v' Hv'. apply Hno. right. exact Hv'. }
    exists w'. split; [exact Hrun|]. split; [|exact Hrest].
    rewrite Hlog. simpl. rewrite <- app_assoc. reflexivity.
Qed.

Lemma captureTouch_fallback (fuel : nat) (t : TouchRef) (sp : ref)
    (shouldStack : bool) (chain : list View) (w : World) :
  responder_chain env fuel (targetView (heap w t)) sp [] = Some chain →
  (∀ w0 v, v ∈ chain → perform env w0 CaptureTouch v t = Returns false) →
  ∃ w', captureTouch env fuel t sp shouldStack w
        = makeTouchResponder env t (targetView (heap w t)) shouldStack w'
    ∧ log w' = log w ++ map (λ v, Performed CaptureTouch v t) chain
    ∧ heap w' = heap w
    ∧ _touchedViews w' = _touchedViews w.
Proof.
  intros Hchain Hno.
  destruct (capture_loop_declined t shouldStack chain w Hno)
    as (w' & Hrun & Hlog & Hheap & Htv & _).
  exists w'. unfold captureTouch. rewrite bind_gets, Hchain.
  rewrite (bind_run _ _ _ _ _ Hrun). repeat split; assumption.
Qed.

End CaptureFacts.

(** C4, at the failing input: the chain is [Root] <- [A] <- [B], the touch
    starts on [B], every view would capture it.  The chain is collected
    bottom-up ([chain.push]) and walked from its first element: the only
    view asked is [B], the innermost, which becomes the responder; [Root],
    the outermost ancestor, is never asked. *)
Theorem capture_asks_innermost_first :
  let r := captureTouch Scenario.willing 3 Scenario.t1 Undefined false
                        Scenario.fresh in
  responder_chain Scenario.willing 3 (Obj Scenario.B) Undefined []
  = Some [Scenario.B; Scenario.A; Scenario.Root]
  ∧ (∀ v, perform Scenario.willing Scenario.fresh CaptureTouch v Scenario.t1
          = Returns true)
  ∧ r.1 = Ret tt
  ∧ new_events Scenario.fresh r.2
    = [Performed CaptureTouch Scenario.B Scenario.t1;
       SentTouchStart Scenario.t1 (Obj Scenario.B);
       SetHasTouch Scenario.B true]
  ∧ touchResponder (heap r.2 Scenario.t1) = Obj Scenario.B.
Proof. vm_compute. repeat split. Qed.

(** ** touchend *)

Section EndFacts.

Context {num : Type}.
Variable env : ViewEnv num.

Local Abbreviation World := (World num).

Lemma tryToPerform_safe (a : action) (v : View) (t : TouchRef) (w : World) :
  handlers_safe env t →
  ∃ b, tryToPerform env a v t w = (Ret b, with_log (Performed a v t) w).
Proof.
  intros Hsafe. unfold tryToPerform, emit. rewrite bind_modify, bind_get.
  destruct (perform env (with_log (Performed a v t) w) a v t) as [b|] eqn:Hp.
  - exists b. reflexivity.
  - exfalso. eapply Hsafe; eauto.
Qed.

Lemma tryToPerform_throws (a : action) (v : View) (t : TouchRef) (w : World) :
  (∀ w0, perform env w0 a v t = Throws) →
  tryToPerform env a v t w = (Thrown, with_log (Performed a v t) w).
Proof.
  intros Hp. unfold tryToPerform, emit.
  rewrite bind_modify, bind_get, Hp. reflexivity.
Qed.

Lemma end_notifications_app_one (t : TouchRef) (act : action)
    (pre : list View) (x : View) :
  end_notifications t act (pre ++ [x]) =
  Performed act x t :: end_notifications t TouchCancelled pre.
Proof.
  unfold end_notifications. rewrite rev_app_distr. simpl.
  destruct (rev pre); reflexivity.
Qed.

(** The walk over the responder stack, from the frame below [outer] down:
    it returns, tells the innermost frame [act] and every other frame
    [touchCancelled], and leaves [action] at [touchCancelled] as soon as
    one frame was told. *)
Lemma end_responders_run (te : TouchRef) (rs outer : list View) :
  handlers_safe env te →
  ∀ act fuel w, (length rs ≤ fuel)%nat →
  ∃ w', end_responders env fuel te (rs ++ outer) (len rs - 1) (top rs) act w
        = (Ret (match rs with [] => act | _ => TouchCancelled end), w')
    ∧ log w' = log w ++ end_notifications te act rs
    ∧ _touchedViews w' = _touchedViews w
    ∧ _touches w' = _touches w
    ∧ heap w' = heap w
    ∧ hasTouch w' = hasTouch w.
Proof.
  intros Hsafe. revert outer.
  induction rs as [|x pre IH] using rev_ind; intros outer act fuel w Hfuel.
  - exists w. unfold top. rewrite at_index_nil.
    destruct fuel; simpl; rewrite app_nil_r; repeat split.
  - unfold top. rewrite at_index_top.
    destruct fuel as [|fuel]; [rewrite length_app in Hfuel; simpl in Hfuel; lia|].
    simpl end_responders.
    destruct (tryToPerform_safe act x te w Hsafe) as [b Hb].
    rewrite (bind_run _ _ _ _ _ Hb).
    replace (len (pre ++ [x]) - 1 - 1) with (len pre - 1)
      by (rewrite len_app_one; lia).
    rewrite <- app_assoc.
    rewrite (at_index_app_l pre ([x] ++ outer) (len pre - 1)) by lia.
    assert (Hf : (length pre ≤ fuel)%nat)
      by (rewrite length_app in Hfuel; simpl in Hfuel; lia).
    destruct (IH ([x] ++ outer) TouchCancelled fuel
                 (with_log (Performed act x te) w) Hf)
      as (w' & Hrun & Hlog & Htv & Hts & Hheap & Hft).
    exists w'. split.
    { fold (top pre). rewrite Hrun. destruct pre; reflexivity. }
    rewrite end_notifications_app_one, Hlog. simpl.
    rewrite <- app_assoc. repeat split; assumption.
Qed.

Lemma cancel_notification_first (te : TouchRef) (act : action)
    (rs : list View) (x : View) (w : World) (fuel : nat) :
  (∀ w0, perform env w0 act x te = Throws) →
  end_responders env (S fuel) te (rs ++ [x]) (len (rs ++ [x]) - 1)
                 (top (rs ++ [x])) act w
  = (Thrown, with_log (Performed act x te) w).
Proof.
  intros Hp. unfold top. rewrite at_index_top. simpl end_responders.
  rewrite (bind_thrown _ _ _ _ (tryToPerform_throws act x te w Hp)).
  reflexivity.
Qed.

(** [touchend] catches what the loop over the touches throws: it logs a
    warning, closes the run loop and answers [NO]; the registry stays as
    the loop left it. *)
Lemma touchend_catches (evt : TouchEvent) (w w1 : World) :
  end_touches env evt (changedTouches evt)
              (if isCancel evt then TouchCancelled else TouchEnd)
              (with_runLoop 1 w) = (Thrown, w1) →
  ∃ w', touchend env evt w = (Ret false, w')
    ∧ _touches w' = _touches w1
    ∧ _touchedViews w' = _touchedViews w1
    ∧ heap w' = heap w1
    ∧ log w' = log w1 ++ [Warned].
Proof.
  intros H. unfold touchend, RunLoop_begin, RunLoop_end, emit.
  rewrite bind_modify. unfold try_catch at 1.
  unfold bind at 1. unfold bind at 1. rewrite H.
  eexists. split; [reflexivity|]. repeat split.
Qed.

(** [unassignTouch] on a touch whose view, if any, has an entry: it
    returns and touches neither the registry nor the responder fields. *)
Lemma unassignTouch_fields (t : TouchRef) (w : World) :
  (∀ v, view (heap w t) = Obj v → is_Some (_touchedViews w !! v)) →
  ∃ w', unassignTouch t w = (Ret tt, w')
    ∧ _touches w' = _touches w
    ∧ truthy (view (heap w' t)) = false
    ∧ identifier (heap w' t) = identifier (heap w t)
    ∧ touchResponder (heap w' t) = touchResponder (heap w t)
    ∧ touchResponders (heap w' t) = touchResponders (heap w t)
    ∧ ∃ evs, log w' = log w ++ evs.
Proof.
  intros Hentry. destruct (view (heap w t)) as [| |v] eqn:Hview.
  1,2: exists w; rewrite unassignTouch_no_view by (rewrite Hview; reflexivity);
       rewrite Hview; repeat split; exists []; symmetry; apply app_nil_r.
  destruct (Hentry v eq_refl) as [e He].
  destruct (unassignTouch_run t v e w Hview He)
    as (w' & Hrun & _ & Hheap & _ & Hlog & Hts).
  exists w'. rewrite Hheap, fn_lookup_insert.
  repeat split; try assumption. eexists. exact Hlog.
Qed.

(** The body of the loop for one touch, when no handler throws: it returns
    and the record is gone from the registry. *)
Lemma end_touch_safe (evt : TouchEvent) (touch : RawTouch) (act : action)
    (te : TouchRef) (rs : list View) (w : World) :
  _touches w !! raw_identifier touch = Some te →
  identifier (heap w te) = raw_identifier touch →
  (∀ v, view (heap w te) = Obj v → is_Some (_touchedViews w !! v)) →
  touchResponders (heap w te) = Some rs →
  handlers_safe env te →
  ∃ act' w', end_touch env evt touch act w = (Ret act', w')
    ∧ _touches w' = delete (raw_identifier touch) (_touches w).
Proof.
  intros Hreg Hid Hentry Hrs Hsafe.
  unfold end_touch. rewrite bind_gets, Hreg, bind_modify.
  set (w1 := with_heap te _ w).
  assert (Hentry1 : ∀ v, view (heap w1 te) = Obj v
                         → is_Some (_touchedViews w1 !! v)).
  { intros v. unfold w1. simpl. rewrite fn_lookup_insert. simpl. apply Hentry. }
  destruct (unassignTouch_fields te w1 Hentry1)
    as (w2 & Hrun2 & Hts2 & _ & Hid2 & Hcur2 & Hrs2 & _).
  rewrite (bind_run _ _ _ _ _ Hrun2), bind_gets.
  assert (Hrs1 : touchResponders (heap w1 te) = Some rs).
  { unfold w1. simpl. rewrite fn_lookup_insert. exact Hrs. }
  assert (Hid1 : identifier (heap w1 te) = raw_identifier touch).
  { unfold w1. simpl. rewrite fn_lookup_insert. exact Hid. }
  assert (Hwalk : ∃ act' w3,
    (if truthy (touchResponder (heap w2 te))
     then responders <- gets (λ w0, touchResponders (heap w0 te)) ;;
          match responders with
          | Some rs0 =>
              end_responders env (length rs0) te rs0 (len rs0 - 1)
                             (at_index rs0 (len rs0 - 1)) act
          | None => throw
          end
     else ret act) w2 = (Ret act', w3)
    ∧ _touches w3 = _touches w2 ∧ heap w3 = heap w2).
  { destruct (truthy (touchResponder (heap w2 te))).
    - rewrite bind_gets, Hrs2, Hrs1.
      destruct (end_responders_run te rs [] Hsafe act (length rs) w2 (le_n _))
        as (w3 & Hrun3 & _ & _ & Hts3 & Hheap3 & _).
      rewrite app_nil_r in Hrun3. unfold top in Hrun3.
      eexists _, w3. repeat split; eassumption.
    - exists act, w2. repeat split. }
  destruct Hwalk as (act' & w3 & Hrun3 & Hts3 & Hheap3).
  rewrite (bind_run _ _ _ _ _ Hrun3), bind_modify, bind_gets, bind_modify.
  eexists _, _. split; [reflexivity|]. simpl.
  rewrite fn_lookup_insert. simpl. rewrite Hheap3, Hid2, Hid1, Hts3, Hts2.
  reflexivity.
Qed.

(** The body of the loop for one touch, when the handler of its innermost
    responder throws: the touch was unassigned, and its record is still in
    the registry. *)
Lemma end_touch_throws (evt : TouchEvent) (touch : RawTouch) (act : action)
    (te : TouchRef) (below : list View) (x : View) (w : World) :
  _touches w !! raw_identifier touch = Some te →
  (∀ v, view (heap w te) = Obj v → is_Some (_touchedViews w !! v)) →
  touchResponders (heap w te) = Some (below ++ [x]) →
  truthy (touchResponder (heap w te)) = true →
  (∀ w0, perform env w0 act x te = Throws) →
  ∃ w', end_touch env evt touch act w = (Thrown, w')
    ∧ _touches w' = _touches w
    ∧ truthy (view (heap w' te)) = false
    ∧ ∃ evs, log w' = log w ++ evs.
Proof.
  intros Hreg Hentry Hrs Hcur Hthrows.
  unfold end_touch. rewrite bind_gets, Hreg, bind_modify.
  set (w1 := with_heap te _ w).
  assert (Hentry1 : ∀ v, view (heap w1 te) = Obj v
                         → is_Some (_touchedViews w1 !! v)).
  { intros v. unfold w1. simpl. rewrite fn_lookup_insert. simpl. apply Hentry. }
  destruct (unassignTouch_fields te w1 Hentry1)
    as (w2 & Hrun2 & Hts2 & Hview2 & _ & Hcur2 & Hrs2 & evs & Hlog2).
  rewrite (bind_run _ _ _ _ _ Hrun2), bind_gets.
  assert (Hrs1 : touchResponders (heap w1 te) = Some (below ++ [x])).
  { unfold w1. simpl. rewrite fn_lookup_insert. exact Hrs. }
  assert (Hcur1 : touchResponder (heap w1 te) = touchResponder (heap w te)).
  { unfold w1. simpl. rewrite fn_lookup_insert. reflexivity. }
  rewrite Hcur2, Hcur1, Hcur.
  rewrite bind_assoc, bind_gets, Hrs2, Hrs1.
  assert (Hlen : length (below ++ [x]) = S (length below))
    by (rewrite length_app; simpl; lia).
  rewrite Hlen.
  erewrite bind_thrown.
  2:{ apply (cancel_notification_first te act below x w2 (length below)
               Hthrows). }
  eexists. split; [reflexivity|]. simpl. repeat split; try assumption.
  rewrite Hlog2. unfold w1. simpl. eexists. rewrite <- app_assoc. reflexivity.
Qed.

(** What [touchend] does with the record of a touch of the batch that is
    registered.  The record is removed from [_touches] at the end of the
    touch's processing when no handler throws.  When the handler of its
    innermost responder throws, the exception is caught for the whole
    batch: [touchend] logs a warning and answers [NO], and the registry is
    left as it was, the record of this touch included; the touch has been
    unassigned from the index before the handler ran. *)
Theorem record_removed_unless_thrown (evt : TouchEvent) (touch : RawTouch)
    (others : list RawTouch) (te : TouchRef) (below : list View) (x : View)
    (w : World) :
  changedTouches evt = touch :: others →
  _touches w !! raw_identifier touch = Some te →
  identifier (heap w te) = raw_identifier touch →
  (∀ v, view (heap w te) = Obj v → is_Some (_touchedViews w !! v)) →
  touchResponders (heap w te) = Some (below ++ [x]) →
  touchResponder (heap w te) = Obj x →
  let act := if isCancel evt then TouchCancelled else TouchEnd in
  (handlers_safe env te →
   ∃ act' w', end_touch env evt touch act w = (Ret act', w')
     ∧ _touches w' !! raw_identifier touch = None)
  ∧ ((∀ w0, perform env w0 act x te = Throws) →
     ∃ w', touchend env evt w = (Ret false, w')
       ∧ _touches w' = _touches w
       ∧ _touches w' !! raw_identifier touch = Some te
       ∧ truthy (view (heap w' te)) = false
       ∧ Warned ∈ new_events w w').
Proof.
  intros Hbatch Hreg Hid Hentry Hrs Hcur act. split.
  - intros Hsafe.
    destruct (end_touch_safe evt touch act te _ w Hreg Hid Hentry Hrs Hsafe)
      as (act' & w' & Hrun & Hts).
    exists act', w'. split; [exact Hrun|].
    rewrite Hts. apply lookup_delete_eq.
  - intros Hthrows.
    assert (Hcur' : truthy (touchResponder (heap w te)) = true)
      by (rewrite Hcur; reflexivity).
    destruct (end_touch_throws evt touch act te below x (with_runLoop 1 w)
                Hreg Hentry Hrs Hcur' Hthrows)
      as (w1 & Hrun1 & Hts1 & Hview1 & Hgrow).
    assert (Hloop : end_touches env evt (changedTouches evt) act
                      (with_runLoop 1 w) = (Thrown, w1)).
    { rewrite Hbatch. simpl end_touches.
      apply bind_thrown. exact Hrun1. }
    destruct (touchend_catches evt w w1 Hloop)
      as (w' & Hrun & Hts & _ & Hheap & Hlog).
    exists w'. split; [exact Hrun|].
    rewrite Hts, Hts1, Hheap. simpl.
    repeat split; try assumption.
    unfold new_events. rewrite Hlog.
    destruct Hgrow as [evs Hevs]. simpl in Hevs. rewrite Hevs, <- app_assoc.
    rewrite drop_app_length. apply elem_of_app. right.
    apply list_elem_of_singleton. reflexivity.
Qed.

End EndFacts.

(** C6, at the failing input: one [touchend] (not a cancellation) for two
    touches, [t1] held by [A] and [t2] held by [B].  [action] is set to
    ["touchCancelled"] in the walk for [t1] and is not set back for [t2]:
    the innermost and only frame of [t2] is told [touchCancelled]. *)
Theorem second_touch_is_cancelled :
  let w := Scenario.both_down Scenario.willing in
  let r := touchend Scenario.willing Scenario.lift_both w in
  touchResponders (heap w Scenario.t1) = Some [Scenario.A]
  ∧ touchResponders (heap w Scenario.t2) = Some [Scenario.B]
  ∧ isCancel Scenario.lift_both = false
  ∧ r.1 = Ret false
  ∧ new_events w r.2
    = [SetHasTouch Scenario.A false;
       Performed TouchEnd Scenario.A Scenario.t1;
       SetHasTouch Scenario.B false;
       Performed TouchCancelled Scenario.B Scenario.t2].
Proof. vm_compute. repeat split. Qed.

Lemma record_removed_unless_thrown_witness :
  let env := Scenario.A_throws in
  let evt := Scenario.lift_both in
  let touch := mkRawTouch 1 0 0 in
  let others := [mkRawTouch 2 0 0] in
  let te := Scenario.t1 in
  let x := Scenario.A in
  let w := Scenario.both_down Scenario.A_throws in
  let act := if isCancel evt then TouchCancelled else TouchEnd in
  (changedTouches evt = touch :: others
   ∧ _touches w !! raw_identifier touch = Some te
   ∧ identifier (heap w te) = raw_identifier touch
   ∧ (∀ v, view (heap w te) = Obj v → is_Some (_touchedViews w !! v))
   ∧ touchResponders (heap w te) = Some ([] ++ [x])
   ∧ touchResponder (heap w te) = Obj x)
  ∧ (handlers_safe env te →
     ∃ act' w', end_touch env evt touch act w = (Ret act', w')
       ∧ _touches w' !! raw_identifier touch = None)
  ∧ ((∀ w0, perform env w0 act x te = Throws) →
     ∃ w', touchend env evt w = (Ret false, w')
       ∧ _touches w' = _touches w
       ∧ _touches w' !! raw_identifier touch = Some te
       ∧ truthy (view (heap w' te)) = false
       ∧ Warned ∈ new_events w w').
Proof.
  set (w := Scenario.both_down Scenario.A_throws).
  assert (H1 : changedTouches Scenario.lift_both
               = mkRawTouch 1 0 0 :: [mkRawTouch 2 0 0]) by reflexivity.
  assert (H2 : _touches w !! raw_identifier (mkRawTouch (num := Z) 1 0 0)
               = Some Scenario.t1) by (vm_compute; reflexivity).
  assert (H3 : identifier (heap w Scenario.t1)
               = raw_identifier (mkRawTouch (num := Z) 1 0 0)) by reflexivity.
  assert (H4 : ∀ v, view (heap w Scenario.t1) = Obj v
                    → is_Some (_touchedViews w !! v)).
  { intros v Hv. assert (Hv' : Obj Scenario.A = Obj v) by exact Hv.
    injection Hv' as <-. exists (mkViewEntry (Obj Scenario.A) [Scenario.t1] 1).
    vm_compute. reflexivity. }
  assert (H5 : touchResponders (heap w Scenario.t1) = Some ([] ++ [Scenario.A]))
    by reflexivity.
  assert (H6 : touchResponder (heap w Scenario.t1) = Obj Scenario.A)
    by reflexivity.
  split; [repeat split; assumption|].
  exact (record_removed_unless_thrown Scenario.A_throws Scenario.lift_both
           (mkRawTouch 1 0 0) [mkRawTouch 2 0 0] Scenario.t1 [] Scenario.A w
           H1 H2 H3 H4 H5 H6).
Defined.

(** C8, at the failing input: the [touchEnd] handler of [A] throws while
    the batch for [t1] and [t2] is processed.  [touchend] catches the
    exception, warns, resets [_touchViews] and returns [NO]; the record of
    [t1] is still registered, although [t1] has been taken from [A] in the
    index, and so is that of [t2], which was never reached and still
    counts as a touch of [B]. *)
Lemma record_survives_exception :
  let w := Scenario.both_down Scenario.A_throws in
  let r := touchend Scenario.A_throws Scenario.lift_both w in
  perform Scenario.A_throws w TouchEnd Scenario.A Scenario.t1 = Throws
  ∧ r.1 = Ret false
  ∧ _touches r.2 !! 1 = Some Scenario.t1
  ∧ _touches r.2 !! 2 = Some Scenario.t2
  ∧ touchesForView Scenario.A r.2 = None
  ∧ touchResponder (heap r.2 Scenario.t1) = Obj Scenario.A
  ∧ touchesForView Scenario.B r.2 = Some [Scenario.t2]
  ∧ hasTouch r.2 Scenario.B = true
  ∧ touchViewsCleared w = false
  ∧ touchViewsCleared r.2 = true
  ∧ new_events w r.2
    = [SetHasTouch Scenario.A false;
       Performed TouchEnd Scenario.A Scenario.t1; Warned].
Proof. vm_compute. repeat split. Qed.

(** ** averagedTouchesForView *)

Section AveragingFacts.

Local Open Scope R_scope.

Lemma js_add_NaN (b : jsval) : js_add JNaN b = JNaN.
Proof. reflexivity. Qed.

Lemma js_add_undefined (b : jsval) : js_add JUndefined b = JNaN.
Proof. reflexivity. Qed.

(** Once [ad] is not a number, the loop leaves it so. *)
Lemma distance_loop_NaN (f : Touch R → R) (touches : list (Touch R)) :
  fold_left (λ ad touch, js_add ad (JNum (f touch))) touches JNaN = JNaN.
Proof. induction touches as [|x l IH]; simpl; [reflexivity|exact IH]. Qed.

(** The distance [d] that [averagedTouchesForView] answers for a view with
    touches is [NaN], whatever the touches: [ad] starts [undefined]. *)
Lemma averaged_distance_NaN (v : View) (w : World R) (t : TouchRef)
    (ts : list TouchRef) :
  touchesForView v w = Some (t :: ts) →
  avg_d (averagedTouchesForView v w) = JNaN
  ∧ avg_touchCount (averagedTouchesForView v w) = S (length ts).
Proof.
  intros H. unfold averagedTouchesForView. rewrite H. simpl.
  split.
  - match goal with
    | |- js_div (fold_left ?g _ _) _ = _ =>
        change (js_div (fold_left g (map (heap w) ts) JNaN)
                       (S (length (map (heap w) ts))) = JNaN)
    end.
    rewrite (distance_loop_NaN
               (λ touch, sqrt (Rabs (pageX touch - _) * Rabs (pageX touch - _)
                               + Rabs (pageY touch - _) * Rabs (pageY touch - _)))).
    reflexivity.
  - rewrite length_map. reflexivity.
Qed.

(** A view without entry, or with an empty set: the zeroed record. *)
Lemma averaged_no_touches (v : View) (w : World R) :
  touchesForView v w = None ∨ touchesForView v w = Some [] →
  averagedTouchesForView v w = mkAveraged (JNum 0) (JNum 0) (JNum 0) 0.
Proof.
  intros [H|H]; unfold averagedTouchesForView; rewrite H; reflexivity.
Qed.

End AveragingFacts.

(** C9, at the failing input: the view [A] holds one touch, at (3, 4).
    The centroid is the touch itself and its mean distance from it is 0;
    the code answers [x = 3], [y = 4], [touchCount = 1] and [d = NaN],
    because [ad] is never initialised before [ad += ...]. *)
Theorem averaged_distance_of_one_touch :
  touchesForView Scenario.A one_touch_at_3_4 = Some [Scenario.t1]
  ∧ mean_distance (map (heap one_touch_at_3_4) [Scenario.t1]) = 0%R
  ∧ avg_x (averagedTouchesForView Scenario.A one_touch_at_3_4) = JNum 3
  ∧ avg_y (averagedTouchesForView Scenario.A one_touch_at_3_4) = JNum 4
  ∧ avg_touchCount (averagedTouchesForView Scenario.A one_touch_at_3_4) = 1%nat
  ∧ avg_d (averagedTouchesForView Scenario.A one_touch_at_3_4) = JNaN
  ∧ avg_d (averagedTouchesForView Scenario.A one_touch_at_3_4) ≠ JNum 0.
Proof.
  assert (Hset : touchesForView Scenario.A one_touch_at_3_4
                 = Some [Scenario.t1]).
  { unfold touchesForView, one_touch_at_3_4. simpl.
    rewrite lookup_singleton_eq. reflexivity. }
  split; [exact Hset|].
  split.
  { unfold mean_distance, centroid_x, centroid_y. simpl.
    replace (3 + 0)%R with 3%R by lra. replace (4 + 0)%R with 4%R by lra.
    replace (3 / 1)%R with 3%R by lra. replace (4 / 1)%R with 4%R by lra.
    replace ((3 - 3) * (3 - 3) + (4 - 4) * (4 - 4))%R with 0%R by lra.
    rewrite sqrt_0. lra. }
  unfold averagedTouchesForView. rewrite Hset. simpl.
  repeat split.
  - f_equal. lra.
  - f_equal. lra.
  - discriminate.
Qed.

(** ** The deceleration of the scroll view *)

Module ScrollFacts.

Import Scroll.
Local Open Scope R_scope.

Lemma Rltb_true (a b : R) : a < b → Rltb a b = true.
Proof. intros H. unfold Rltb. destruct (Rlt_dec a b); [reflexivity|lra]. Qed.

Lemma Rltb_false (a b : R) : b <= a → Rltb a b = false.
Proof. intros H. unfold Rltb. destruct (Rlt_dec a b); [lra|reflexivity]. Qed.

(** A tick at velocity 0, at the offset [y] within the bounds: the
    velocity stays 0 and the offset stays [y]; the integrator stops, and
    commits [y], exactly when [y] is strictly inside the bounds. *)
Lemma tick_at_rest (now now' y maxOffset lastTime sv dfe afe : R)
    (timer : option unit) (done : list R) :
  0 <= y <= maxOffset →
  decelerateAnimation now now'
    (mkScrollView y (- y) maxOffset
                  (mkTouchStatus sv 0 lastTime timer dfe afe) done)
  = if Rltb 0 y && Rltb y maxOffset
    then mkScrollView y (- y) maxOffset
                      (mkTouchStatus sv 0 lastTime None dfe afe) (done ++ [y])
    else mkScrollView y (- y) maxOffset
                      (mkTouchStatus sv 0 now' (Some tt) dfe afe) done.
Proof.
  intros [Hlo Hhi]. unfold decelerateAnimation. simpl.
  rewrite Rplus_0_r, Rmult_0_l.
  rewrite (Rltb_false y 0) by lra.
  rewrite (Rltb_false maxOffset y) by lra.
  rewrite Rabs_R0, (Rltb_true 0 1) by lra. simpl.
  destruct (Rltb 0 y && Rltb y maxOffset); reflexivity.
Qed.

(** Strictly inside the bounds the first tick is the last. *)
Lemma rest_inside_stops (now now' y maxOffset lastTime : R) :
  0 < y < maxOffset →
  let s := startDecelerationAnimation now now' (at_rest y maxOffset lastTime) in
  idle s ∧ committed s = [y] ∧ _scroll_verticalScrollOffset s = y.
Proof.
  intros [Hlo Hhi]. unfold startDecelerationAnimation, at_rest. simpl.
  rewrite Rmult_0_l, tick_at_rest by lra.
  rewrite (Rltb_true 0 y), (Rltb_true y maxOffset) by lra.
  repeat split.
Qed.

(** At the upper or the lower bound the integrator never stops: after any
    number of ticks the timer is pending again, nothing was committed, and
    the view has not moved. *)
Lemma rest_at_bound_never_stops (clock : list (R * R))
    (now now' y maxOffset lastTime : R) :
  0 <= maxOffset → y = 0 ∨ y = maxOffset →
  let s := run_ticks clock
             (startDecelerationAnimation now now' (at_rest y maxOffset lastTime)) in
  timeout (touch s) = Some tt
  ∧ committed s = []
  ∧ _scroll_verticalScrollOffset s = y
  ∧ decelerationVelocity_y (touch s) = 0.
Proof.
  intros Hmax Hy.
  assert (Hbounds : 0 <= y <= maxOffset) by (destruct Hy; subst; lra).
  assert (Hcond : Rltb 0 y && Rltb y maxOffset = false).
  { destruct Hy; subst.
    - rewrite (Rltb_false 0 0) by lra. reflexivity.
    - rewrite (Rltb_false maxOffset maxOffset) by lra. apply andb_false_r. }
  unfold startDecelerationAnimation, at_rest. simpl.
  rewrite Rmult_0_l, tick_at_rest, Hcond by assumption.
  generalize now'. clear now now'.
  induction clock as [|[now now'] later IH]; intros last.
  - simpl. repeat split.
  - simpl. rewrite tick_at_rest, Hcond by assumption. apply IH.
Qed.

End ScrollFacts.

(** C10, at the failing input: the content rests at the offset 0, the top,
    with 100 as the maximum offset, so the position is in [0, 100]; the
    velocity is 0.  The test [newY > 0 && newY < maxOffset] is strict: the
    first tick does not stop the integrator, it commits nothing and arms
    the timer again; one hundred ticks later nothing has changed. *)
Theorem rest_at_top_keeps_ticking :
  let s0 := Scroll.at_rest 0 100 0 in
  let s1 := Scroll.startDecelerationAnimation 5 6 s0 in
  (0 <= Scroll._scroll_verticalScrollOffset s0
        <= Scroll.maximumVerticalScrollOffset s0)%R
  ∧ Scroll.decelerationVelocity_y (Scroll.touch s1) = 0%R
  ∧ ¬ Scroll.idle s1
  ∧ Scroll.timeout (Scroll.touch s1) = Some tt
  ∧ Scroll.committed s1 = []
  ∧ ¬ Scroll.idle (Scroll.run_ticks (repeat (10%R, 11%R) 100) s1).
Proof.
  assert (H0 : (0 <= 100)%R) by lra.
  destruct (ScrollFacts.rest_at_bound_never_stops [] 5 6 0 100 0 H0
              (or_introl eq_refl)) as (Ht & Hc & _ & Hv).
  destruct (ScrollFacts.rest_at_bound_never_stops (repeat (10%R, 11%R) 100)
              5 6 0 100 0 H0 (or_introl eq_refl)) as (Ht' & _).
  simpl in Ht, Hc, Hv.
  split; [simpl; lra|]. split; [exact Hv|].
  split; [unfold Scroll.idle; rewrite Ht; discriminate|].
  split; [exact Ht|]. split; [exact Hc|].
  unfold Scroll.idle. rewrite Ht'. discriminate.
Qed.

(** * More properties *)

(** ** The index under the whole dispatch engine *)

Section EngineIndex.

Context {num : Type}.
Variable env : ViewEnv num.

Local Abbreviation World := (World num).
Local Abbreviation M := (M num).

(** A property of the state that holds however [m] ends, and however [k]
    ends after it, holds however [bind m k] ends. *)
Lemma bind_post {A B} (P : World → Prop) (m : M A) (k : A → M B) (w : World) :
  P (m w).2 →
  (∀ a w1, m w = (Ret a, w1) → P (k a w1).2) →
  P (bind m k w).2.
Proof.
  intros Hm Hk. unfold bind.
  destruct (m w) as [[a| |] w1] eqn:E; simpl in *; auto.
Qed.

Lemma index_same_refl (w : World) : index_same w w.
Proof. repeat split. Qed.

Lemma index_same_trans (w1 w2 w3 : World) :
  index_same w1 w2 → index_same w2 w3 → index_same w1 w3.
Proof.
  intros (H1 & H2 & H3) (H4 & H5 & H6). repeat split; congruence.
Qed.

Lemma index_inv_same (w w' : World) :
  index_same w w' → index_inv w → index_inv w'.
Proof.
  intros (Htv & Hft & Hview) [Hflag Hnd Hcnt Hne Hmem Hasg].
  split; intros; rewrite ?Htv, ?Hft, ?Hview in *; eauto.
Qed.

Lemma tryToPerform_state (a : action) (v : View) (t : TouchRef) (w : World) :
  (tryToPerform env a v t w).2 = with_log (Performed a v t) w.
Proof.
  unfold tryToPerform, emit. rewrite bind_modify, bind_get.
  destruct (perform env _ a v t); reflexivity.
Qed.

Lemma sendEvent_touchStart_state (t : TouchRef) (target : ref) (w : World) :
  (sendEvent_touchStart env t target w).2
  = with_log (SentTouchStart t target) w.
Proof.
  unfold sendEvent_touchStart, emit. rewrite bind_modify, bind_get.
  destruct (sendTouchStart env _ t target); reflexivity.
Qed.

(** Telling a view, or not, leaves the index alone. *)
Lemma notify_index (c : bool) (a : action) (v : View) (t : TouchRef)
    (w : World) :
  index_same w (when c (_ <- tryToPerform env a v t ;; ret ()) w).2.
Proof.
  destruct c; simpl; [|apply index_same_refl].
  unfold bind. pose proof (tryToPerform_state a v t w) as Hst.
  destruct (tryToPerform env a v t w) as [[b| |] w1]; simpl in *; subst;
    repeat split.
Qed.

(** The popping loop leaves the index alone, however it ends. *)
Lemma pop_responders_index (fuel : nat) (t : TouchRef) (responder : ref)
    (stack : list View) (idx : Z) (last : ref) (w : World) :
  index_same w (pop_responders env fuel t responder stack idx last w).2.
Proof.
  revert stack idx last w.
  induction fuel as [|fuel IH]; intros stack idx last w;
    destruct last as [| |l]; simpl; try apply index_same_refl;
    destruct (strict_eq (Obj l) responder); try apply index_same_refl.
  rewrite bind_gets.
  apply (bind_post (index_same w)); [apply notify_index|].
  intros [] w1 Hw1.
  assert (Hsame1 : index_same w w1).
  { pose proof (notify_index
                  (acceptsMultitouch env l
                   || negb (bool_decide (is_Some (touchesForView l w))))
                  TouchCancelled l t w) as Hn.
    rewrite Hw1 in Hn. exact Hn. }
  rewrite bind_modify.
  eapply index_same_trans; [|apply IH].
  eapply index_same_trans; [exact Hsame1|].
  repeat split. intros t'. simpl.
  destruct (decide (t' = t)) as [->|Hne].
  - rewrite fn_lookup_insert. reflexivity.
  - rewrite fn_lookup_insert_ne by congruence. reflexivity.
Qed.

Lemma unassignTouch_clears_view (t : TouchRef) (w w' : World) :
  unassignTouch t w = (Ret tt, w') → truthy (view (heap w' t)) = false.
Proof.
  unfold unassignTouch. rewrite bind_gets.
  destruct (view (heap w t)) as [| |v] eqn:Hview.
  1,2: intros [= <-]; rewrite Hview; reflexivity.
  rewrite bind_gets. destruct (_touchedViews w !! v) as [e|]; [|discriminate].
  rewrite bind_modify.
  intros H. unfold bind in H.
  destruct (when _ _ _) as [[[]| |] w1]; try discriminate.
  unfold modify in H. inversion H. simpl. rewrite fn_lookup_insert. reflexivity.
Qed.

(** [makeTouchResponder] keeps the invariant of the index, whatever the
    views answer and even when a handler throws. *)
Lemma makeTouchResponder_keeps_index (t : TouchRef) (responder : ref)
    (shouldStack : bool) (w : World) :
  index_inv w → index_inv (makeTouchResponder env t responder shouldStack w).2.
Proof.
  intros Hinv. unfold makeTouchResponder.
  rewrite bind_gets, bind_gets.
  destruct (strict_eq _ responder); [exact Hinv|].
  apply (bind_post index_inv).
  { rewrite sendEvent_touchStart_state.
    eapply index_inv_same; [|exact Hinv]. repeat split. }
  intros r w1 Hw1.
  assert (Hinv1 : index_inv w1).
  { pose proof (sendEvent_touchStart_state t responder w) as Hst.
    rewrite Hw1 in Hst. simpl in Hst. subst.
    eapply index_inv_same; [|exact Hinv]. repeat split. }
  rewrite bind_gets. destruct (strict_eq _ r); [exact Hinv1|].
  destruct (unassignTouch_preserves t w1 Hinv1) as [Hret Hinv2].
  apply (bind_post index_inv); [exact Hinv2|].
  intros [] w2 Hw2. rewrite Hw2 in Hinv2. simpl in Hinv2.
  pose proof (unassignTouch_clears_view t w1 w2 Hw2) as Hfree.
  destruct (touchResponders (heap w t)) as [stack|]; [|exact Hinv2].
  set (popping := if negb shouldStack || _ then _ else _).
  assert (Hpop : index_same w2 (popping w2).2).
  { unfold popping. destruct (negb shouldStack || _).
    - apply pop_responders_index.
    - apply index_same_refl. }
  apply (bind_post index_inv).
  { eapply index_inv_same; eauto. }
  intros stack3 w3 Hw3. rewrite Hw3 in Hpop. simpl in Hpop.
  assert (Hinv3 : index_inv w3) by (eapply index_inv_same; eauto).
  assert (Hfree3 : truthy (view (heap w3 t)) = false).
  { destruct Hpop as (_ & _ & Hv). rewrite Hv. exact Hfree. }
  destruct r as [| |v]; try exact Hinv3.
  pose proof (assignTouch_preserves t v w3 Hinv3 Hfree3) as Hinv4.
  apply (bind_post index_inv); [exact Hinv4|].
  intros [] w4 Hw4. rewrite Hw4 in Hinv4. simpl in Hinv4.
  eapply index_inv_same; [|exact Hinv4].
  repeat split. intros t'. simpl.
  destruct (decide (t' = t)) as [->|Hne].
  - rewrite fn_lookup_insert. reflexivity.
  - rewrite fn_lookup_insert_ne by congruence. reflexivity.
Qed.

Lemma with_heap_index_same (t : TouchRef) (f : Touch num → Touch num)
    (w : World) :
  (∀ x, view (f x) = view x) → index_same w (with_heap t f w).
Proof.
  intros Hf. repeat split. intros t'. simpl.
  destruct (decide (t' = t)) as [->|Hne].
  - rewrite fn_lookup_insert. apply Hf.
  - rewrite fn_lookup_insert_ne by congruence. reflexivity.
Qed.

(** [captureTouch] keeps the invariant of the index. *)
Lemma captureTouch_keeps_index (fuel : nat) (t : TouchRef) (sp : ref)
    (shouldStack : bool) (w : World) :
  index_inv w → index_inv (captureTouch env fuel t sp shouldStack w).2.
Proof.
  intros Hinv. unfold captureTouch. rewrite bind_gets.
  destruct (responder_chain env fuel _ sp []) as [chain|]; [|exact Hinv].
  assert (Hloop : ∀ w0, index_inv w0 →
            index_inv (capture_loop env t shouldStack chain w0).2
            ∧ ∀ w1, capture_loop env t shouldStack chain w0 = (Ret false, w1)
                    → index_same w0 w1).
  { induction chain as [|v rest IH]; intros w0 Hinv0; simpl.
    - split; [exact Hinv0|]. intros w1 [= <-]. apply index_same_refl.
    - pose proof (tryToPerform_state CaptureTouch v t w0) as Hst.
      unfold bind at 1. unfold bind at 2.
      destruct (tryToPerform env CaptureTouch v t w0) as [[b| |] w1];
        simpl in Hst; subst w1.
      + assert (Hinv1 : index_inv (with_log (Performed CaptureTouch v t) w0))
          by (eapply index_inv_same; [|exact Hinv0]; repeat split).
        destruct b.
        * split.
          -- apply (bind_post index_inv).
             ++ apply makeTouchResponder_keeps_index, Hinv1.
             ++ intros [] w2 Hw2.
                pose proof (makeTouchResponder_keeps_index t (Obj v)
                              shouldStack _ Hinv1) as H.
                rewrite Hw2 in H. exact H.
          -- intros w1 H. unfold bind in H.
             destruct (makeTouchResponder env t (Obj v) shouldStack _)
               as [[[]| |] w2]; discriminate.
        * destruct (IH _ Hinv1) as [H1 H2]. split; [exact H1|].
          intros w1 Hw1. eapply index_same_trans; [|apply H2, Hw1].
          repeat split.
      + split; [simpl; eapply index_inv_same; [|exact Hinv0]; repeat split|].
        discriminate.
      + split; [simpl; eapply index_inv_same; [|exact Hinv0]; repeat split|].
        discriminate. }
  destruct (Hloop w Hinv) as [Hinv1 Hsame].
  apply (bind_post index_inv); [exact Hinv1|].
  intros captured w1 Hw1. rewrite Hw1 in Hinv1. simpl in Hinv1.
  destruct captured; [exact Hinv1|].
  apply makeTouchResponder_keeps_index, Hinv1.
Qed.

(** The walk of [touchend] over the responders leaves the index alone. *)
Lemma end_responders_index (fuel : nat) (te : TouchRef) (rs : list View)
    (idx : Z) (responder : ref) (act : action) (w : World) :
  index_same w (end_responders env fuel te rs idx responder act w).2.
Proof.
  revert idx responder act w.
  induction fuel as [|fuel IH]; intros idx responder act w;
    destruct responder as [| |r]; simpl; try apply index_same_refl.
  pose proof (tryToPerform_state act r te w) as Hst.
  unfold bind. destruct (tryToPerform env act r te w) as [[b| |] w1];
    simpl in Hst; subst w1; try (repeat split; fail).
  eapply index_same_trans; [|apply IH]. repeat split.
Qed.

Lemma end_touch_keeps_index (evt : TouchEvent) (touch : RawTouch)
    (act : action) (w : World) :
  index_inv w → index_inv (end_touch env evt touch act w).2.
Proof.
  intros Hinv. unfold end_touch. rewrite bind_gets.
  destruct (_touches w !! raw_identifier touch) as [te|]; [|exact Hinv].
  rewrite bind_modify.
  set (w1 := with_heap te _ w).
  assert (Hinv1 : index_inv w1).
  { eapply index_inv_same; [|exact Hinv].
    apply with_heap_index_same. reflexivity. }
  destruct (unassignTouch_preserves te w1 Hinv1) as [_ Hinv2].
  apply (bind_post index_inv); [exact Hinv2|].
  intros [] w2 Hw2. rewrite Hw2 in Hinv2. simpl in Hinv2.
  rewrite bind_gets.
  set (walk := if truthy _ then _ else _).
  assert (Hwalk : index_same w2 (walk w2).2).
  { unfold walk. destruct (truthy _); [|apply index_same_refl].
    rewrite bind_gets. destruct (touchResponders (heap w2 te));
      [apply end_responders_index|apply index_same_refl]. }
  apply (bind_post index_inv); [eapply index_inv_same; eauto|].
  intros act' w3 Hw3. rewrite Hw3 in Hwalk. simpl in Hwalk.
  rewrite bind_modify, bind_gets, bind_modify. simpl.
  assert (Hclear : index_same w3 (with_heap te (with_responders Null Null None)
                                            w3))
    by (apply with_heap_index_same; reflexivity).
  eapply index_inv_same; [|exact Hinv2].
  eapply index_same_trans; [exact Hwalk|].
  eapply index_same_trans; [exact Hclear|].
  repeat split.
Qed.

Lemma end_touches_keeps_index (evt : TouchEvent) (touches : list RawTouch)
    (act : action) (w : World) :
  index_inv w → index_inv (end_touches env evt touches act w).2.
Proof.
  revert act w. induction touches as [|touch rest IH]; intros act w Hinv.
  - exact Hinv.
  - simpl. pose proof (end_touch_keeps_index evt touch act w Hinv) as H1.
    apply (bind_post index_inv); [exact H1|].
    intros act' w1 Hw1. rewrite Hw1 in H1. apply IH, H1.
Qed.

(** [touchend] keeps the invariant of the index, also when it catches an
    exception. *)
Lemma touchend_keeps_index (evt : TouchEvent) (w : World) :
  index_inv w → index_inv (touchend env evt w).2.
Proof.
  intros Hinv. unfold touchend, RunLoop_begin, RunLoop_end, emit.
  rewrite bind_modify.
  assert (Hinv0 : index_inv (with_runLoop 1 w))
    by (eapply index_inv_same; [|exact Hinv]; repeat split).
  set (act := if isCancel evt then TouchCancelled else TouchEnd).
  pose proof (end_touches_keeps_index evt (changedTouches evt) act _ Hinv0)
    as Hloop.
  unfold bind at 1. unfold try_catch. unfold bind at 1.
  destruct (end_touches env evt (changedTouches evt) act (with_runLoop 1 w))
    as [[[]| |] w1]; simpl in *;
    (eapply index_inv_same; [|exact Hloop]); repeat split.
Qed.

(** Every state the engine reaches keeps the invariant of the index. *)
Lemma engine_reachable_inv (w : World) :
  engine_reachable env w → index_inv w.
Proof.
  induction 1 as [w Hempty | w op Hreach IH].
  - apply index_inv_empty, Hempty.
  - destruct op; simpl.
    + apply makeTouchResponder_keeps_index, IH.
    + apply captureTouch_keeps_index, IH.
    + apply touchend_keeps_index, IH.
    + unfold touchcancel.
      apply (bind_post index_inv).
      * apply touchend_keeps_index, IH.
      * intros b w1 Hw1. simpl.
        pose proof (touchend_keeps_index
                      (mkTouchEvent (changedTouches evt) (evt_timeStamp evt)
                                    true) w IH) as H.
        rewrite Hw1 in H. exact H.
Qed.

End EngineIndex.

Lemma captured_once_reachable : engine_reachable Scenario.willing captured_once.
Proof. apply engine_step, engine_start. repeat split. Qed.

(** X1: in every state the engine reaches from an empty index by
    [makeTouchResponder], [captureTouch], [touchend] and [touchcancel],
    whatever the views answer and whether or not a handler throws, a
    view's [hasTouch] is true exactly when [touchesForView] gives it a
    non-empty set. *)
Theorem engine_flag_iff_touches {num : Type} (env : ViewEnv num)
    (w : World num) :
  engine_reachable env w →
  ∀ v, hasTouch w v = true ↔ has_touches v w.
Proof.
  intros Hreach v. pose proof (engine_reachable_inv env w Hreach) as Hinv.
  rewrite (inv_flag w Hinv). apply index_inv_has_touches, Hinv.
Qed.

Lemma engine_flag_iff_touches_witness :
  engine_reachable Scenario.willing captured_once
  ∧ ∀ v, hasTouch captured_once v = true ↔ has_touches v captured_once.
Proof.
  split; [exact captured_once_reachable|].
  exact (engine_flag_iff_touches Scenario.willing captured_once
           captured_once_reachable).
Defined.

(** X2: in every state the engine reaches, the set [touchesForView(view)]
    holds exactly the touches whose [view] is that view, each once, and
    is not empty; so no touch is in the sets of two views. *)
Theorem engine_touch_sets {num : Type} (env : ViewEnv num) (w : World num) :
  engine_reachable env w →
  (∀ v s, touchesForView v w = Some s →
     NoDup s ∧ s ≠ [] ∧ ∀ t, t ∈ s ↔ view (heap w t) = Obj v)
  ∧ (∀ v1 v2 s1 s2 t,
       touchesForView v1 w = Some s1 → touchesForView v2 w = Some s2 →
       t ∈ s1 → t ∈ s2 → v1 = v2).
Proof.
  intros Hreach. pose proof (engine_reachable_inv env w Hreach) as Hinv.
  assert (Hsets : ∀ v s, touchesForView v w = Some s →
            NoDup s ∧ s ≠ [] ∧ ∀ t, t ∈ s ↔ view (heap w t) = Obj v).
  { intros v s Hs. unfold touchesForView in Hs.
    destruct (_touchedViews w !! v) as [e|] eqn:He; [|discriminate].
    injection Hs as <-. repeat split.
    - eapply inv_nodup; eauto.
    - eapply inv_nonempty; eauto.
    - eapply inv_member; eauto.
    - eapply inv_member; eauto. }
  split; [exact Hsets|].
  intros v1 v2 s1 s2 t H1 H2 Hin1 Hin2.
  destruct (Hsets _ _ H1) as (_ & _ & Hm1).
  destruct (Hsets _ _ H2) as (_ & _ & Hm2).
  apply Hm1 in Hin1. apply Hm2 in Hin2. congruence.
Qed.

Lemma engine_touch_sets_witness :
  engine_reachable Scenario.willing captured_once
  ∧ (∀ v s, touchesForView v captured_once = Some s →
       NoDup s ∧ s ≠ [] ∧ ∀ t, t ∈ s ↔ view (heap captured_once t) = Obj v)
  ∧ (∀ v1 v2 s1 s2 t,
       touchesForView v1 captured_once = Some s1 →
       touchesForView v2 captured_once = Some s2 →
       t ∈ s1 → t ∈ s2 → v1 = v2).
Proof.
  split; [exact captured_once_reachable|].
  exact (engine_touch_sets Scenario.willing captured_once
           captured_once_reachable).
Defined.

(** In every state the engine reaches, the [touchCount] of an entry of
    [_touchedViews] is the number of touches in its set, and at least 1. *)
Theorem engine_touch_count {num : Type} (env : ViewEnv num) (w : World num) :
  engine_reachable env w →
  ∀ v e, _touchedViews w !! v = Some e →
    touchCount e = Z.of_nat (length (touches e)) ∧ 1 ≤ touchCount e.
Proof.
  intros Hreach v e He.
  pose proof (engine_reachable_inv env w Hreach) as Hinv.
  pose proof (inv_count w Hinv v e He) as Hc.
  pose proof (inv_nonempty w Hinv v e He) as Hne.
  split; [exact Hc|]. rewrite Hc.
  destruct (touches e); [congruence|]. simpl length. lia.
Qed.

Lemma engine_touch_count_witness :
  engine_reachable Scenario.willing captured_once
  ∧ ∀ v e, _touchedViews captured_once !! v = Some e →
      touchCount e = Z.of_nat (length (touches e)) ∧ 1 ≤ touchCount e.
Proof.
  split; [exact captured_once_reachable|].
  exact (engine_touch_count Scenario.willing captured_once
           captured_once_reachable).
Defined.

(** X3: in every state the engine reaches, [unassignTouch] returns for
    every touch: the entry of the touch's view is there, so the read of
    [viewEntry.touches] cannot fail; afterwards the touch has no view and
    is in no view's set. *)
Theorem engine_unassign_returns {num : Type} (env : ViewEnv num)
    (w : World num) :
  engine_reachable env w →
  ∀ t, ∃ w', unassignTouch t w = (Ret tt, w')
    ∧ truthy (view (heap w' t)) = false
    ∧ ∀ v s, touchesForView v w' = Some s → t ∉ s.
Proof.
  intros Hreach t.
  pose proof (engine_reachable_inv env w Hreach) as Hinv.
  destruct (unassignTouch_preserves t w Hinv) as [Hret Hinv'].
  destruct (unassignTouch t w) as [o w'] eqn:E. simpl in *. subst o.
  exists w'. split; [reflexivity|].
  pose proof (unassignTouch_clears_view t w w' E) as Hfree.
  split; [exact Hfree|].
  intros v s Hs Hin. unfold touchesForView in Hs.
  destruct (_touchedViews w' !! v) as [e|] eqn:He; [|discriminate].
  injection Hs as <-.
  apply (inv_member w' Hinv' v e t He) in Hin.
  rewrite Hin in Hfree. discriminate.
Qed.

Lemma engine_unassign_returns_witness :
  engine_reachable Scenario.willing captured_once
  ∧ ∀ t, ∃ w', unassignTouch t captured_once = (Ret tt, w')
      ∧ truthy (view (heap w' t)) = false
      ∧ ∀ v s, touchesForView v w' = Some s → t ∉ s.
Proof.
  split; [exact captured_once_reachable|].
  exact (engine_unassign_returns Scenario.willing captured_once
           captured_once_reachable).
Defined.

(** X4: in every state the engine reaches, assigning a touch that has no
    view and unassigning it again gives back the index: the same entries,
    the same [hasTouch] for every view, the same [touchesForView]. *)
Theorem assign_unassign_round_trip {num : Type} (env : ViewEnv num)
    (w : World num) (t : TouchRef) (v : View) :
  engine_reachable env w →
  truthy (view (heap w t)) = false →
  ∃ w1 w2, assignTouch t v w = (Ret tt, w1)
    ∧ unassignTouch t w1 = (Ret tt, w2)
    ∧ t ∈ default [] (touchesForView v w1)
    ∧ _touchedViews w2 = _touchedViews w
    ∧ (∀ v', hasTouch w2 v' = hasTouch w v')
    ∧ (∀ v', touchesForView v' w2 = touchesForView v' w)
    ∧ (∀ t', t' ≠ t → heap w2 t' = heap w t').
Proof.
  intros Hreach Hfree.
  pose proof (engine_reachable_inv env w Hreach) as Hinv.
  destruct (assignTouch_run t v w)
    as (w1 & Hrun1 & Htv1 & Hheap1 & Hft1 & _).
  assert (Hview1 : view (heap w1 t) = Obj v)
    by (rewrite Hheap1, fn_lookup_insert; reflexivity).
  assert (Hnot : ∀ e, _touchedViews w !! v = Some e → t ∉ touches e).
  { intros e He Hin. apply (inv_member w Hinv v e t He) in Hin.
    rewrite Hin in Hfree. discriminate. }
  set (e1 := match _touchedViews w !! v with
             | Some e => mkViewEntry (ve_view e) (CoreSet.add t (touches e))
                                     (touchCount e + 1)
             | None => mkViewEntry (Obj v) (CoreSet.add t []) 1
             end) in *.
  assert (He1 : _touchedViews w1 !! v = Some e1)
    by (rewrite Htv1; apply lookup_insert_eq).
  destruct (unassignTouch_run t v e1 w1 Hview1 He1)
    as (w2 & Hrun2 & Htv2 & Hheap2 & Hft2 & _).
  assert (Hback : _touchedViews w2 = _touchedViews w).
  { rewrite Htv2, Htv1. unfold e1.
    destruct (_touchedViews w !! v) as [e|] eqn:He; simpl.
    - pose proof (inv_count w Hinv v e He) as Hc.
      pose proof (inv_nonempty w Hinv v e He) as Hne.
      replace (touchCount e + 1 - 1 <? 1) with false.
      2:{ symmetry. apply Z.ltb_ge. destruct (touches e); [congruence|].
          simpl length in Hc. lia. }
      rewrite insert_insert_eq, CoreSet_add_fresh by auto.
      unfold CoreSet.remove. rewrite list.filter_app.
      assert (Hid : filter (λ y, y ≠ t) (touches e) = touches e).
      { specialize (Hnot e eq_refl). clear -Hnot.
        induction (touches e) as [|y l IH]; [reflexivity|].
        rewrite filter_cons, decide_True.
        - f_equal. apply IH. intros H. apply Hnot. right. exact H.
        - intros ->. apply Hnot. left. }
      rewrite Hid, filter_cons, decide_False, filter_nil, app_nil_r by tauto.
      replace (touchCount e + 1 - 1) with (touchCount e) by lia.
      destruct e. simpl. apply insert_id. exact He.
    - rewrite delete_insert_eq. apply delete_id. exact He. }
  exists w1, w2. split; [exact Hrun1|]. split; [exact Hrun2|].
  split.
  { unfold touchesForView. rewrite He1. simpl. unfold e1.
    destruct (_touchedViews w !! v) as [e|] eqn:He; simpl.
    - rewrite CoreSet_add_fresh by auto. apply elem_of_app. right. left.
    - left. }
  split; [exact Hback|].
  split.
  { intros v'. rewrite Hft2, Hft1. unfold e1.
    destruct (_touchedViews w !! v) as [e|] eqn:He; simpl.
    - pose proof (inv_count w Hinv v e He) as Hc.
      pose proof (inv_nonempty w Hinv v e He) as Hne.
      replace (touchCount e + 1 - 1 <? 1) with false; [reflexivity|].
      symmetry. apply Z.ltb_ge. destruct (touches e); [congruence|].
      simpl length in Hc. lia.
    - destruct (decide (v' = v)) as [->|Hne].
      + rewrite fn_lookup_insert.
        destruct (hasTouch w v) eqn:Hf; [|reflexivity].
        apply (inv_flag w Hinv) in Hf. rewrite He in Hf.
        destruct Hf; discriminate.
      + rewrite !fn_lookup_insert_ne by congruence. reflexivity. }
  split.
  { intros v'. unfold touchesForView. rewrite Hback. reflexivity. }
  intros t' Hne. rewrite Hheap2, fn_lookup_insert_ne, Hheap1,
    fn_lookup_insert_ne by congruence. reflexivity.
Qed.

Lemma assign_unassign_round_trip_witness :
  (engine_reachable Scenario.willing captured_once
   ∧ truthy (view (heap captured_once Scenario.t2)) = false)
  ∧ ∃ w1 w2, assignTouch Scenario.t2 Scenario.B captured_once = (Ret tt, w1)
      ∧ unassignTouch Scenario.t2 w1 = (Ret tt, w2)
      ∧ Scenario.t2 ∈ default [] (touchesForView Scenario.B w1)
      ∧ _touchedViews w2 = _touchedViews captured_once
      ∧ (∀ v', hasTouch w2 v' = hasTouch captured_once v')
      ∧ (∀ v', touchesForView v' w2 = touchesForView v' captured_once)
      ∧ (∀ t', t' ≠ Scenario.t2 → heap w2 t' = heap captured_once t').
Proof.
  assert (H : truthy (view (heap captured_once Scenario.t2)) = false)
    by reflexivity.
  split; [split; [exact captured_once_reachable|exact H]|].
  exact (assign_unassign_round_trip Scenario.willing captured_once
           Scenario.t2 Scenario.B captured_once_reachable H).
Defined.

(** ** touchend, as a whole *)

Section TouchEndFacts.

Context {num : Type}.
Variable env : ViewEnv num.

Local Abbreviation World := (World num).
Local Abbreviation M := (M num).


Lemma tryToPerform_settles (a : action) (v : View) (t : TouchRef) (w : World) :
  settles (runLoopDepth w) (tryToPerform env a v t w).
Proof.
  unfold tryToPerform, emit. rewrite bind_modify, bind_get.
  destruct (perform env _ a v t); split; simpl; congruence.
Qed.

Lemma unassignTouch_settles (t : TouchRef) (w : World) :
  settles (runLoopDepth w) (unassignTouch t w).
Proof.
  unfold unassignTouch. rewrite bind_gets.
  destruct (view (heap w t)) as [| |v]; try (split; simpl; congruence).
  rewrite bind_gets. destruct (_touchedViews w !! v) as [e|];
    [|split; simpl; congruence].
  rewrite bind_modify. unfold when, set_hasTouch, emit.
  destruct (touchCount _ <? 1);
    repeat (rewrite ?bind_assoc, ?bind_modify, ?bind_ret);
    split; simpl; congruence.
Qed.




End TouchEndFacts.


Section TouchEndRuns.

Context {num : Type}.
Variable env : ViewEnv num.

Local Abbreviation World := (World num).

(** [unassignTouch] under the invariant: it returns, logs nothing but a
    change of [hasTouch], and leaves the registry and the responder
    fields of the touch. *)
Lemma unassignTouch_log (t : TouchRef) (w : World) :
  (∀ v, view (heap w t) = Obj v → is_Some (_touchedViews w !! v)) →
  ∃ w' evs, unassignTouch t w = (Ret tt, w')
    ∧ log w' = log w ++ evs
    ∧ performed evs = [] ∧ (Warned ∉ evs)
    ∧ _touches w' = _touches w
    ∧ identifier (heap w' t) = identifier (heap w t)
    ∧ touchResponder (heap w' t) = touchResponder (heap w t)
    ∧ touchResponders (heap w' t) = touchResponders (heap w t)
    ∧ (∀ t', t' ≠ t → heap w' t' = heap w t').
Proof.
  intros Hentry. destruct (view (heap w t)) as [| |v] eqn:Hview.
  1,2: exists w, []; rewrite unassignTouch_no_view
         by (rewrite Hview; reflexivity);
       rewrite app_nil_r; repeat split; try reflexivity; inversion 1.
  destruct (Hentry v eq_refl) as [e He].
  destruct (unassignTouch_run t v e w Hview He)
    as (w' & Hrun & _ & Hheap & _ & Hlog & Hts).
  exists w'. eexists. split; [exact Hrun|]. split; [exact Hlog|].
  rewrite Hheap, fn_lookup_insert.
  repeat split; try assumption.
  - destruct (_ <? 1); reflexivity.
  - destruct (_ <? 1); intros Hin.
    + apply list_elem_of_singleton in Hin. discriminate.
    + inversion Hin.
  - intros t' Hne. rewrite fn_lookup_insert_ne by congruence. reflexivity.
Qed.

Lemma performed_app (l1 l2 : list event) :
  performed (l1 ++ l2) = performed l1 ++ performed l2.
Proof. apply List.filter_app. Qed.

Lemma performed_end_notifications (te : TouchRef) (act : action)
    (rs : list View) :
  performed (end_notifications te act rs) = end_notifications te act rs.
Proof.
  unfold end_notifications. destruct (rev rs) as [|v outer]; [reflexivity|].
  simpl. f_equal. induction outer as [|x l IH]; [reflexivity|].
  simpl. f_equal. exact IH.
Qed.

Lemma Warned_not_end_notification (te : TouchRef) (act : action)
    (rs : list View) :
  Warned ∉ end_notifications te act rs.
Proof.
  unfold end_notifications. destruct (rev rs) as [|v outer]; [inversion 1|].
  intros Hin. apply elem_of_cons in Hin. destruct Hin as [Hin|Hin];
    [discriminate|].
  apply list_elem_of_fmap in Hin. destruct Hin as (x & Hx & _). discriminate.
Qed.

(** A [touchend] for one registered touch, no handler throwing: all that
    the call leaves behind, the handlers being those that leave the
    responders of the touch alone while they run. *)
Lemma touchend_single_run (evt : TouchEvent) (touch : RawTouch)
    (te : TouchRef) (rs : list View) (w : World) :
  index_inv w →
  changedTouches evt = [touch] →
  _touches w !! raw_identifier touch = Some te →
  identifier (heap w te) = raw_identifier touch →
  touchResponders (heap w te) = Some rs →
  touchResponder (heap w te) = top rs →
  handlers_safe env te →
  ∃ w', touchend env evt w = (Ret false, w')
    ∧ performed (new_events w w')
      = end_notifications te (if isCancel evt then TouchCancelled
                              else TouchEnd) rs
    ∧ (Warned ∉ new_events w w')
    ∧ _touches w' = delete (raw_identifier touch) (_touches w)
    ∧ touchResponders (heap w' te) = None
    ∧ touchResponder (heap w' te) = Null
    ∧ nextTouchResponder (heap w' te) = Null
    ∧ (∀ v s, touchesForView v w' = Some s → te ∉ s).
Proof.
  intros Hinv Hbatch Hreg Hid Hrs Hcur Hsafe.
  set (act := if isCancel evt then TouchCancelled else TouchEnd).
  pose proof (touchend_keeps_index env evt w Hinv) as Hinv'.
  unfold touchend, RunLoop_begin, RunLoop_end, emit in *.
  rewrite bind_modify in *. rewrite Hbatch in *. simpl end_touches in *.
  set (w0 := with_runLoop 1 w) in *.
  assert (Hbody : ∃ act' w3, end_touch env evt touch act w0 = (Ret act', w3)
            ∧ performed (new_events w w3) = end_notifications te act rs
            ∧ (Warned ∉ new_events w w3)
            ∧ _touches w3 = delete (raw_identifier touch) (_touches w)
            ∧ touchResponders (heap w3 te) = None
            ∧ touchResponder (heap w3 te) = Null
            ∧ nextTouchResponder (heap w3 te) = Null
            ∧ truthy (view (heap w3 te)) = false).
  { unfold end_touch.
    change (_touches w0) with (_touches w). rewrite bind_gets.
    change (_touches w0) with (_touches w). rewrite Hreg, bind_modify.
    set (w1 := with_heap te _ w0).
    assert (Hentry1 : ∀ v, view (heap w1 te) = Obj v
                           → is_Some (_touchedViews w1 !! v)).
    { intros v. unfold w1. simpl. rewrite fn_lookup_insert. simpl.
      apply (inv_assigned w Hinv). }
    destruct (unassignTouch_log te w1 Hentry1)
      as (w2 & evs & Hrun2 & Hlog2 & Hperf2 & Hwarn2 & Hts2 & Hid2 & Hcur2
            & Hrs2 & _).
    rewrite (bind_run _ _ _ _ _ Hrun2), bind_gets.
    assert (Hview2 : truthy (view (heap w2 te)) = false)
      by (eapply unassignTouch_clears_view; eauto).
    assert (Hrs1 : touchResponders (heap w1 te) = Some rs)
      by (unfold w1; simpl; rewrite fn_lookup_insert; exact Hrs).
    assert (Hcur1 : touchResponder (heap w1 te) = top rs)
      by (unfold w1; simpl; rewrite fn_lookup_insert; exact Hcur).
    assert (Hid1 : identifier (heap w1 te) = raw_identifier touch)
      by (unfold w1; simpl; rewrite fn_lookup_insert; exact Hid).
    assert (Hwalk : ∃ act' w3,
      (if truthy (touchResponder (heap w2 te))
       then responders <- gets (λ w0, touchResponders (heap w0 te)) ;;
            match responders with
            | Some rs0 =>
                end_responders env (length rs0) te rs0 (len rs0 - 1)
                               (at_index rs0 (len rs0 - 1)) act
            | None => throw
            end
       else ret act) w2 = (Ret act', w3)
      ∧ log w3 = log w2 ++ end_notifications te act rs
      ∧ _touches w3 = _touches w2 ∧ heap w3 = heap w2).
    { rewrite Hcur2, Hcur1.
      destruct (truthy (top rs)) eqn:Htop.
      - rewrite bind_gets, Hrs2, Hrs1.
        destruct (end_responders_run env te rs [] Hsafe act (length rs) w2
                    (le_n _)) as (w3 & Hrun3 & Hlog3 & _ & Hts3 & Hheap3 & _).
        rewrite app_nil_r in Hrun3. unfold top in Hrun3.
        eexists _, w3. repeat split; eassumption.
      - exists act, w2. split; [reflexivity|].
        assert (rs = []) as ->.
        { destruct rs as [|x l] using rev_ind; [reflexivity|].
          unfold top in Htop. rewrite at_index_top in Htop. discriminate. }
        rewrite app_nil_r. repeat split. }
    destruct Hwalk as (act' & w3 & Hrun3 & Hlog3 & Hts3 & Hheap3).
    rewrite (bind_run _ _ _ _ _ Hrun3), bind_modify, bind_gets, bind_modify.
    eexists _, _. split; [reflexivity|]. simpl.
    rewrite fn_lookup_insert. simpl.
    assert (Hnew : new_events w
              (with_touches (delete (identifier (heap w3 te)))
                 (with_heap te (with_responders Null Null None) w3))
              = evs ++ end_notifications te act rs).
    { apply new_events_app. simpl. rewrite Hlog3, Hlog2.
      unfold w1, w0. simpl. rewrite app_assoc. reflexivity. }
    rewrite Hnew, performed_app, Hperf2, performed_end_notifications.
    repeat split; try reflexivity.
    - intros Hin. apply elem_of_app in Hin. destruct Hin as [Hin|Hin].
      + exact (Hwarn2 Hin).
      + exact (Warned_not_end_notification _ _ _ Hin).
    - rewrite Hheap3, Hid2, Hid1, Hts3, Hts2. reflexivity.
    - rewrite Hheap3. exact Hview2. }
  destruct Hbody as (act' & w3 & Hrun3 & Hperf & Hwarn & Hts & H1 & H2 & H3
                       & Hview).
  unfold bind at 1 in Hinv'. unfold bind at 1.
  unfold try_catch in *. unfold bind at 1 in Hinv'. unfold bind at 1.
  unfold bind at 1 in Hinv'. unfold bind at 1.
  fold act in Hinv' |- *.
  rewrite Hrun3 in Hinv' |- *. simpl in Hinv' |- *.
  eexists. split; [reflexivity|]. simpl.
  repeat split; try assumption.
  intros v s Hs Hin.
  unfold touchesForView in Hs. simpl in Hs.
  destruct (_touchedViews w3 !! v) as [e|] eqn:He; [|discriminate].
  injection Hs as <-.
  apply (inv_member _ Hinv' v e te He) in Hin. simpl in Hin.
  rewrite Hin in Hview. discriminate.
Qed.

End TouchEndRuns.

Lemma one_down_reachable : engine_reachable Scenario.willing one_down.
Proof. apply engine_step, engine_start. repeat split. Qed.

(** X6: a [touchend] whose first changed touch has no record in
    [_touches] abandons the whole batch: the failed read is caught, a
    warning is logged and [NO] is answered; no handler is called, and the
    registry, the index and the touch objects are as before, also for the
    registered touches later in the batch. *)
Theorem touchend_unknown_touch {num : Type} (env : ViewEnv num)
    (evt : TouchEvent) (touch : RawTouch) (others : list RawTouch)
    (w : World num) :
  changedTouches evt = touch :: others →
  _touches w !! raw_identifier touch = None →
  ∃ w', touchend env evt w = (Ret false, w')
    ∧ new_events w w' = [Warned]
    ∧ _touches w' = _touches w
    ∧ _touchedViews w' = _touchedViews w
    ∧ heap w' = heap w
    ∧ hasTouch w' = hasTouch w.
Proof.
  intros Hbatch Hreg.
  assert (Hloop : end_touches env evt (changedTouches evt)
                    (if isCancel evt then TouchCancelled else TouchEnd)
                    (with_runLoop 1 w) = (Thrown, with_runLoop 1 w)).
  { rewrite Hbatch. simpl end_touches. apply bind_thrown.
    unfold end_touch. rewrite bind_gets.
    change (_touches (with_runLoop 1 w)) with (_touches w).
    rewrite Hreg. reflexivity. }
  unfold touchend, RunLoop_begin, RunLoop_end, emit.
  rewrite bind_modify. unfold bind at 1. unfold try_catch. unfold bind at 1.
  rewrite Hloop. eexists. split; [reflexivity|]. simpl.
  repeat split. apply new_events_app. reflexivity.
Qed.

Lemma touchend_unknown_touch_witness :
  (changedTouches lift_unknown = mkRawTouch 7 0 0 :: [mkRawTouch 1 0 0]
   ∧ _touches one_down !! raw_identifier (mkRawTouch (num := Z) 7 0 0) = None)
  ∧ ∃ w', touchend Scenario.willing lift_unknown one_down = (Ret false, w')
      ∧ new_events one_down w' = [Warned]
      ∧ _touches w' = _touches one_down
      ∧ _touchedViews w' = _touchedViews one_down
      ∧ heap w' = heap one_down
      ∧ hasTouch w' = hasTouch one_down.
Proof.
  assert (H1 : changedTouches lift_unknown
               = mkRawTouch 7 0 0 :: [mkRawTouch 1 0 0]) by reflexivity.
  assert (H2 : _touches one_down
               !! raw_identifier (mkRawTouch (num := Z) 7 0 0) = None)
    by (vm_compute; reflexivity).
  split; [split; assumption|].
  exact (touchend_unknown_touch Scenario.willing lift_unknown
           (mkRawTouch 7 0 0) [mkRawTouch 1 0 0] one_down H1 H2).
Defined.

Lemma head_end_notifications (te : TouchRef) (act : action)
    (rs : list View) :
  head (end_notifications te act rs)
  = (λ v, Performed act v te) <$> list.last rs.
Proof.
  unfold end_notifications.
  destruct rs as [|x below _] using rev_ind; [reflexivity|].
  rewrite rev_app_distr, last_snoc. reflexivity.
Qed.

(** X7: a [touchend] for one registered touch, in a state the engine
    reaches and with no handler throwing, returns [NO]; the first handler
    called is that of the touch's responder, the top of its stack, with
    [touchEnd], or with [touchCancelled] if the event is a cancellation;
    no warning is logged; the record is removed from [_touches] and the
    responder fields of the touch are [null]. *)
Theorem touchend_single_touch {num : Type} (env : ViewEnv num)
    (evt : TouchEvent) (touch : RawTouch) (te : TouchRef) (rs : list View)
    (w : World num) :
  engine_reachable env w →
  changedTouches evt = [touch] →
  _touches w !! raw_identifier touch = Some te →
  identifier (heap w te) = raw_identifier touch →
  touchResponders (heap w te) = Some rs →
  touchResponder (heap w te) = top rs →
  handlers_safe env te →
  ∃ w', touchend env evt w = (Ret false, w')
    ∧ head (performed (new_events w w'))
      = (λ v, Performed (if isCancel evt then TouchCancelled else TouchEnd)
                        v te) <$> list.last rs
    ∧ (Warned ∉ new_events w w')
    ∧ _touches w' = delete (raw_identifier touch) (_touches w)
    ∧ touchResponders (heap w' te) = None
    ∧ touchResponder (heap w' te) = Null
    ∧ nextTouchResponder (heap w' te) = Null.
Proof.
  intros Hreach Hbatch Hreg Hid Hrs Hcur Hsafe.
  destruct (touchend_single_run env evt touch te rs w
              (engine_reachable_inv env w Hreach)
              Hbatch Hreg Hid Hrs Hcur Hsafe)
    as (w' & Hrun & Hperf & Hwarn & Hts & H1 & H2 & H3 & _).
  exists w'. split; [exact Hrun|].
  split; [rewrite Hperf; apply head_end_notifications|].
  repeat split; assumption.
Qed.

Lemma touchend_single_touch_witness :
  (engine_reachable Scenario.willing one_down
   ∧ changedTouches lift_first = [mkRawTouch 1 0 0]
   ∧ _touches one_down !! raw_identifier (mkRawTouch (num := Z) 1 0 0)
     = Some Scenario.t1
   ∧ identifier (heap one_down Scenario.t1)
     = raw_identifier (mkRawTouch (num := Z) 1 0 0)
   ∧ touchResponders (heap one_down Scenario.t1) = Some [Scenario.B]
   ∧ touchResponder (heap one_down Scenario.t1) = top [Scenario.B]
   ∧ handlers_safe Scenario.willing Scenario.t1)
  ∧ ∃ w', touchend Scenario.willing lift_first one_down = (Ret false, w')
      ∧ head (performed (new_events one_down w'))
        = (λ v, Performed (if isCancel lift_first then TouchCancelled
                           else TouchEnd) v Scenario.t1)
          <$> list.last [Scenario.B]
      ∧ (Warned ∉ new_events one_down w')
      ∧ _touches w' = delete (raw_identifier (mkRawTouch (num := Z) 1 0 0))
                             (_touches one_down)
      ∧ touchResponders (heap w' Scenario.t1) = None
      ∧ touchResponder (heap w' Scenario.t1) = Null
      ∧ nextTouchResponder (heap w' Scenario.t1) = Null.
Proof.
  assert (H2 : changedTouches lift_first = [mkRawTouch 1 0 0]) by reflexivity.
  assert (H3 : _touches one_down
               !! raw_identifier (mkRawTouch (num := Z) 1 0 0)
               = Some Scenario.t1) by (vm_compute; reflexivity).
  assert (H4 : identifier (heap one_down Scenario.t1)
               = raw_identifier (mkRawTouch (num := Z) 1 0 0)) by reflexivity.
  assert (H5 : touchResponders (heap one_down Scenario.t1)
               = Some [Scenario.B]) by reflexivity.
  assert (H6 : touchResponder (heap one_down Scenario.t1) = top [Scenario.B])
    by reflexivity.
  assert (H7 : handlers_safe Scenario.willing Scenario.t1)
    by (intros w a v; discriminate).
  split; [repeat split; try assumption; exact one_down_reachable|].
  exact (touchend_single_touch Scenario.willing lift_first (mkRawTouch 1 0 0)
           Scenario.t1 [Scenario.B] one_down one_down_reachable
           H2 H3 H4 H5 H6 H7).
Defined.

Lemma end_notifications_cancel (te : TouchRef) (rs : list View) :
  end_notifications te TouchCancelled rs
  = map (λ v, Performed TouchCancelled v te) (rev rs).
Proof. unfold end_notifications. destruct (rev rs); reflexivity. Qed.

(** A [touchcancel] for one registered touch, in a state the engine
    reaches and with no handler throwing, tells every frame of the
    touch's responder stack [touchCancelled], once each and from the
    innermost frame out, whatever [isCancel] the event came with, and
    removes the record.  The handlers here are those that leave the
    responders of the touch alone while they run. *)
Theorem touchcancel_single_touch {num : Type} (env : ViewEnv num)
    (evt : TouchEvent) (touch : RawTouch) (te : TouchRef) (rs : list View)
    (w : World num) :
  engine_reachable env w →
  changedTouches evt = [touch] →
  _touches w !! raw_identifier touch = Some te →
  identifier (heap w te) = raw_identifier touch →
  touchResponders (heap w te) = Some rs →
  touchResponder (heap w te) = top rs →
  handlers_safe env te →
  ∃ w', touchcancel env evt w = (Ret tt, w')
    ∧ performed (new_events w w')
      = map (λ v, Performed TouchCancelled v te) (rev rs)
    ∧ _touches w' !! raw_identifier touch = None.
Proof.
  intros Hreach Hbatch Hreg Hid Hrs Hcur Hsafe.
  destruct (touchend_single_run env
              (mkTouchEvent (changedTouches evt) (evt_timeStamp evt) true)
              touch te rs w (engine_reachable_inv env w Hreach)
              Hbatch Hreg Hid Hrs Hcur Hsafe)
    as (w' & Hrun & Hperf & _ & Hts & _).
  exists w'. unfold touchcancel. rewrite (bind_run _ _ _ _ _ Hrun).
  split; [reflexivity|]. split.
  - rewrite Hperf. apply end_notifications_cancel.
  - rewrite Hts. apply lookup_delete_eq.
Qed.

Lemma touchcancel_single_touch_witness :
  (engine_reachable Scenario.willing one_down
   ∧ changedTouches lift_first = [mkRawTouch 1 0 0]
   ∧ _touches one_down !! raw_identifier (mkRawTouch (num := Z) 1 0 0)
     = Some Scenario.t1
   ∧ identifier (heap one_down Scenario.t1)
     = raw_identifier (mkRawTouch (num := Z) 1 0 0)
   ∧ touchResponders (heap one_down Scenario.t1) = Some [Scenario.B]
   ∧ touchResponder (heap one_down Scenario.t1) = top [Scenario.B]
   ∧ handlers_safe Scenario.willing Scenario.t1)
  ∧ ∃ w', touchcancel Scenario.willing lift_first one_down = (Ret tt, w')
      ∧ performed (new_events one_down w')
        = map (λ v, Performed TouchCancelled v Scenario.t1) (rev [Scenario.B])
      ∧ _touches w' !! raw_identifier (mkRawTouch (num := Z) 1 0 0) = None.
Proof.
  assert (H2 : changedTouches lift_first = [mkRawTouch 1 0 0]) by reflexivity.
  assert (H3 : _touches one_down
               !! raw_identifier (mkRawTouch (num := Z) 1 0 0)
               = Some Scenario.t1) by (vm_compute; reflexivity).
  assert (H4 : identifier (heap one_down Scenario.t1)
               = raw_identifier (mkRawTouch (num := Z) 1 0 0)) by reflexivity.
  assert (H5 : touchResponders (heap one_down Scenario.t1)
               = Some [Scenario.B]) by reflexivity.
  assert (H6 : touchResponder (heap one_down Scenario.t1) = top [Scenario.B])
    by reflexivity.
  assert (H7 : handlers_safe Scenario.willing Scenario.t1)
    by (intros w a v; discriminate).
  split; [repeat split; try assumption; exact one_down_reachable|].
  exact (touchcancel_single_touch Scenario.willing lift_first
           (mkRawTouch 1 0 0) Scenario.t1 [Scenario.B] one_down
           one_down_reachable H2 H3 H4 H5 H6 H7).
Defined.

(** ** makeTouchResponder: an offer that is accepted *)

Section AcceptedOffer.

Context {num : Type}.
Variable env : ViewEnv num.

Local Abbreviation World := (World num).

Lemma cancellations_of_flags (evs : list event) :
  performed evs = [] → cancellations evs = [].
Proof.
  induction evs as [|e l IH]; [reflexivity|].
  unfold performed, cancellations in *. simpl.
  destruct e as [a v t| | |]; simpl; try exact IH.
  discriminate.
Qed.

Lemma cancellations_of_cancelled (t : TouchRef) (l : list View) :
  cancellations (map (λ v, Performed TouchCancelled v t) l)
  = map (λ v, Performed TouchCancelled v t) l.
Proof. induction l as [|x l IH]; [reflexivity|]. simpl. f_equal. exact IH. Qed.

Lemma popped_not_responder (v : View) (stack : list View) :
  ∀ l, l ∈ popped (Obj v) stack → l ≠ v.
Proof.
  unfold popped. induction (rev stack) as [|x r IH]; simpl; intros l Hl.
  - inversion Hl.
  - destruct (strict_eq (Obj x) (Obj v)) eqn:E; [inversion Hl|].
    apply elem_of_cons in Hl. destruct Hl as [->|Hl]; [|auto].
    apply bool_decide_eq_false_1 in E. congruence.
Qed.

Lemma popped_absent (v : View) (stack : list View) :
  v ∉ stack → popped (Obj v) stack = rev stack ∧ kept (Obj v) stack = [].
Proof.
  intros Hnot.
  assert (Hp : popped (Obj v) stack = rev stack).
  { unfold popped.
    assert (Hr : v ∉ rev stack).
    { intros H. apply Hnot. apply list_elem_of_In, in_rev, list_elem_of_In.
      exact H. }
    induction (rev stack) as [|x r IH]; [reflexivity|]. simpl.
    replace (strict_eq (Obj x) (Obj v)) with false.
    - rewrite IH; [reflexivity|]. intros H. apply Hr. right. exact H.
    - symmetry. apply bool_decide_eq_false_2. intros [= ->]. apply Hr. left. }
  split; [exact Hp|].
  unfold kept. rewrite Hp, length_rev, Nat.sub_diag. reflexivity.
Qed.

(** An offer that the view [v] accepts, for a touch whose responder is
    another view, or none: all that the call leaves behind. *)
Lemma accepted_offer_run (t : TouchRef) (responder : ref) (v : View)
    (shouldStack : bool) (stack : list View) (w : World) :
  index_inv w →
  touchResponders (heap w t) = Some stack →
  touchResponder (heap w t) = top stack →
  touchResponder (heap w t) ≠ responder →
  (∀ w0, sendTouchStart env w0 t responder = Returns (Obj v)) →
  touchResponder (heap w t) ≠ Obj v →
  cancel_safe env t →
  let popping := negb shouldStack || bool_decide (v ∈ stack) in
  let base := if popping then kept (Obj v) stack else stack in
  ∃ w', makeTouchResponder env t responder shouldStack w = (Ret tt, w')
    ∧ touchResponders (heap w' t) = Some (base ++ [v])
    ∧ touchResponder (heap w' t) = Obj v
    ∧ nextTouchResponder (heap w' t) = top base
    ∧ view (heap w' t) = Obj v
    ∧ t ∈ default [] (touchesForView v w')
    ∧ hasTouch w' v = true
    ∧ cancellations (new_events w w')
      = (if popping
         then map (λ l, Performed TouchCancelled l t)
                  (List.filter (notified env w') (popped (Obj v) stack))
         else []).
Proof.
  intros Hinv Hstack Hcur Hne1 Hsend Hne2 Hsafe popping base.
  assert (Hs1 : strict_eq (touchResponder (heap w t)) responder = false)
    by (apply bool_decide_eq_false_2; assumption).
  assert (Hs2 : strict_eq (touchResponder (heap w t)) (Obj v) = false)
    by (apply bool_decide_eq_false_2; assumption).
  unfold makeTouchResponder.
  rewrite bind_gets, bind_gets, Hs1, Hstack.
  unfold sendEvent_touchStart, emit.
  rewrite bind_assoc, bind_modify, bind_assoc, bind_get, Hsend, bind_ret.
  set (w1 := with_log (SentTouchStart t responder) w).
  rewrite bind_gets.
  change (touchResponder (heap w1 t)) with (touchResponder (heap w t)).
  rewrite Hs2.
  assert (Hinv1 : index_inv w1)
    by (eapply index_inv_same; [|exact Hinv]; repeat split).
  destruct (unassignTouch_log t w1 (inv_assigned w1 Hinv1 t))
    as (w2 & evs & Hrun2 & Hlog2 & Hperf2 & _ & _ & _ & Hcur2 & Hstack2 & _).
  destruct (unassignTouch_preserves t w1 Hinv1) as [_ Hinv2].
  rewrite Hrun2 in Hinv2. simpl in Hinv2.
  pose proof (unassignTouch_clears_view t w1 w2 Hrun2) as Hfree2.
  rewrite (bind_run _ _ _ _ _ Hrun2).
  assert (Hcond : negb shouldStack
                  || in_stack (Obj v) stack
                     && negb (strict_eq (at_index stack (len stack - 1))
                                        (Obj v)) = popping).
  { unfold popping. simpl in_stack. fold (top stack). rewrite <- Hcur, Hs2.
    simpl. rewrite andb_true_r. reflexivity. }
  rewrite Hcond.
  assert (Hpop : ∃ w3, (if popping
              then pop_responders env (length stack) t (Obj v) stack
                                  (len stack - 1) (at_index stack (len stack - 1))
              else ret stack) w2 = (Ret base, w3)
            ∧ log w3 = log w2
                ++ (if popping
                    then map (λ l, Performed TouchCancelled l t)
                             (List.filter (notified env w2)
                                          (popped (Obj v) stack))
                    else [])
            ∧ index_same w2 w3).
  { unfold base. destruct popping.
    - destruct (pop_responders_run env t (Obj v) stack Hsafe (length stack) w2
                  (le_n _)) as (w3 & Hrun3 & Hlog3 & _).
      exists w3. split; [exact Hrun3|]. split; [exact Hlog3|].
      pose proof (pop_responders_index env (length stack) t (Obj v) stack
                    (len stack - 1) (top stack) w2) as Hsame.
      rewrite Hrun3 in Hsame. exact Hsame.
    - exists w2. rewrite app_nil_r. repeat split. }
  destruct Hpop as (w3 & Hrun3 & Hlog3 & Hsame3).
  rewrite (bind_run _ _ _ _ _ Hrun3).
  assert (Hinv3 : index_inv w3) by (eapply index_inv_same; eauto).
  destruct (assignTouch_run t v w3)
    as (w4 & Hrun4 & Htv4 & Hheap4 & Hft4 & Hlog4 & _).
  rewrite (bind_run _ _ _ _ _ Hrun4).
  eexists. split; [reflexivity|]. simpl. rewrite fn_lookup_insert. simpl.
  split; [reflexivity|]. split; [reflexivity|].
  split.
  { unfold top. rewrite len_app_one.
    replace (len base + 1 - 2) with (len base - 1) by lia.
    destruct base as [|b0 bs] using rev_ind.
    - reflexivity.
    - apply at_index_app_l. rewrite len_app_one. lia. }
  split; [rewrite Hheap4, fn_lookup_insert; reflexivity|].
  assert (Hfree3 : truthy (view (heap w3 t)) = false).
  { destruct Hsame3 as (_ & _ & Hv). rewrite Hv. exact Hfree2. }
  split.
  { unfold touchesForView. simpl. rewrite Htv4, lookup_insert_eq. simpl.
    destruct (_touchedViews w3 !! v) as [e|] eqn:He; simpl.
    - rewrite CoreSet_add_fresh; [apply elem_of_app; right; left|].
      intros Hin. apply (inv_member w3 Hinv3 v e t He) in Hin.
      rewrite Hin in Hfree3. discriminate.
    - left. }
  split.
  { rewrite Hft4. destruct (_touchedViews w3 !! v) as [e|] eqn:He.
    - apply (inv_flag w3 Hinv3). rewrite He. eauto.
    - apply fn_lookup_insert. }
  erewrite new_events_app.
  2:{ simpl. rewrite Hlog4, Hlog3, Hlog2. unfold w1. simpl.
      rewrite <- !app_assoc. reflexivity. }
  rewrite !cancellations_app, (cancellations_of_flags evs Hperf2).
  assert (Hlast : cancellations
                    match _touchedViews w3 !! v with
                    | Some _ => []
                    | None => [SetHasTouch v true]
                    end = [])
    by (destruct (_touchedViews w3 !! v); reflexivity).
  rewrite Hlast, app_nil_r. simpl.
  destruct popping; [|reflexivity].
  rewrite cancellations_of_cancelled. f_equal.
  apply List.filter_ext_in. intros l Hl.
  apply list_elem_of_In, popped_not_responder in Hl.
  unfold notified, touchesForView. simpl. rewrite Htv4.
  rewrite lookup_insert_ne by congruence.
  destruct Hsame3 as (Htv3 & _). rewrite Htv3. reflexivity.
Qed.

End AcceptedOffer.

(** X8: when the view [v] accepts the [touchStart] offer for a touch
    whose responder is another view or none, in a state the engine
    reaches, [makeTouchResponder] returns with [v] as [touchResponder], on
    top of the stack, [nextTouchResponder] the frame below it, the touch
    assigned to [v] in the index and [v.hasTouch] true. *)
Theorem accepted_offer_becomes_responder {num : Type} (env : ViewEnv num)
    (t : TouchRef) (responder : ref) (v : View) (shouldStack : bool)
    (stack : list View) (w : World num) :
  engine_reachable env w →
  touchResponders (heap w t) = Some stack →
  touchResponder (heap w t) = top stack →
  touchResponder (heap w t) ≠ responder →
  (∀ w0, sendTouchStart env w0 t responder = Returns (Obj v)) →
  touchResponder (heap w t) ≠ Obj v →
  cancel_safe env t →
  ∃ w' base, makeTouchResponder env t responder shouldStack w = (Ret tt, w')
    ∧ touchResponders (heap w' t) = Some (base ++ [v])
    ∧ touchResponder (heap w' t) = Obj v
    ∧ nextTouchResponder (heap w' t) = top base
    ∧ view (heap w' t) = Obj v
    ∧ t ∈ default [] (touchesForView v w')
    ∧ hasTouch w' v = true.
Proof.
  intros Hreach Hstack Hcur Hne1 Hsend Hne2 Hsafe.
  destruct (accepted_offer_run env t responder v shouldStack stack w
              (engine_reachable_inv env w Hreach) Hstack Hcur Hne1 Hsend Hne2
              Hsafe) as (w' & Hrun & H1 & H2 & H3 & H4 & H5 & H6 & _).
  exists w'. eexists. repeat split; eassumption.
Qed.

(** X9: without [shouldStack], an offer accepted by a view that is not
    in the stack replaces the whole stack: every frame is popped, told
    [touchCancelled] from the top down unless it does not accept
    multitouch and still has touches, and the stack is left with the new
    responder alone. *)
Theorem handover_replaces_stack {num : Type} (env : ViewEnv num)
    (t : TouchRef) (responder : ref) (v : View) (stack : list View)
    (w : World num) :
  engine_reachable env w →
  touchResponders (heap w t) = Some stack →
  touchResponder (heap w t) = top stack →
  touchResponder (heap w t) ≠ responder →
  (∀ w0, sendTouchStart env w0 t responder = Returns (Obj v)) →
  v ∉ stack →
  cancel_safe env t →
  ∃ w', makeTouchResponder env t responder false w = (Ret tt, w')
    ∧ touchResponders (heap w' t) = Some [v]
    ∧ touchResponder (heap w' t) = Obj v
    ∧ nextTouchResponder (heap w' t) = Undefined
    ∧ cancellations (new_events w w')
      = map (λ l, Performed TouchCancelled l t)
            (List.filter (notified env w') (rev stack)).
Proof.
  intros Hreach Hstack Hcur Hne1 Hsend Hnot Hsafe.
  assert (Hne2 : touchResponder (heap w t) ≠ Obj v).
  { rewrite Hcur. destruct stack as [|x l] using rev_ind; [discriminate|].
    unfold top. rewrite at_index_top. intros [= ->].
    apply Hnot, elem_of_app. right. left. }
  destruct (popped_absent v stack Hnot) as [Hp Hk].
  destruct (accepted_offer_run env t responder v false stack w
              (engine_reachable_inv env w Hreach) Hstack Hcur Hne1 Hsend Hne2
              Hsafe) as (w' & Hrun & H1 & H2 & H3 & _ & _ & _ & H7).
  simpl in H1, H3, H7. rewrite Hk in H1, H3. rewrite Hp in H7.
  exists w'. repeat split; assumption.
Qed.

(** X10: with [shouldStack], an offer accepted by a view that is not in
    the stack pushes it: the stack keeps every frame, the former responder
    becomes [nextTouchResponder], and nobody is told [touchCancelled]. *)
Theorem stacked_offer_pushes {num : Type} (env : ViewEnv num)
    (t : TouchRef) (responder : ref) (v : View) (stack : list View)
    (w : World num) :
  engine_reachable env w →
  touchResponders (heap w t) = Some stack →
  touchResponder (heap w t) = top stack →
  touchResponder (heap w t) ≠ responder →
  (∀ w0, sendTouchStart env w0 t responder = Returns (Obj v)) →
  v ∉ stack →
  cancel_safe env t →
  ∃ w', makeTouchResponder env t responder true w = (Ret tt, w')
    ∧ touchResponders (heap w' t) = Some (stack ++ [v])
    ∧ touchResponder (heap w' t) = Obj v
    ∧ nextTouchResponder (heap w' t) = touchResponder (heap w t)
    ∧ cancellations (new_events w w') = [].
Proof.
  intros Hreach Hstack Hcur Hne1 Hsend Hnot Hsafe.
  assert (Hne2 : touchResponder (heap w t) ≠ Obj v).
  { rewrite Hcur. destruct stack as [|x l] using rev_ind; [discriminate|].
    unfold top. rewrite at_index_top. intros [= ->].
    apply Hnot, elem_of_app. right. left. }
  destruct (accepted_offer_run env t responder v true stack w
              (engine_reachable_inv env w Hreach) Hstack Hcur Hne1 Hsend Hne2
              Hsafe) as (w' & Hrun & H1 & H2 & H3 & _ & _ & _ & H7).
  simpl in H1, H3, H7.
  rewrite bool_decide_eq_false_2 in H1, H3, H7 by assumption.
  exists w'. rewrite Hcur. repeat split; assumption.
Qed.

(** Once a view has accepted a touch, offering the touch to that
    view again changes nothing: no [touchStart] is sent, no handler is
    called, the state and its trace are the same. *)
Theorem repeated_offer_is_idle {num : Type} (env : ViewEnv num)
    (t : TouchRef) (responder : ref) (v : View) (shouldStack again : bool)
    (stack : list View) (w : World num) :
  engine_reachable env w →
  touchResponders (heap w t) = Some stack →
  touchResponder (heap w t) = top stack →
  touchResponder (heap w t) ≠ responder →
  (∀ w0, sendTouchStart env w0 t responder = Returns (Obj v)) →
  touchResponder (heap w t) ≠ Obj v →
  cancel_safe env t →
  ∃ w', makeTouchResponder env t responder shouldStack w = (Ret tt, w')
    ∧ makeTouchResponder env t (Obj v) again w' = (Ret tt, w').
Proof.
  intros Hreach Hstack Hcur Hne1 Hsend Hne2 Hsafe.
  destruct (accepted_offer_run env t responder v shouldStack stack w
              (engine_reachable_inv env w Hreach) Hstack Hcur Hne1 Hsend Hne2
              Hsafe) as (w' & Hrun & _ & H2 & _).
  exists w'. split; [exact Hrun|].
  unfold makeTouchResponder. rewrite bind_gets, bind_gets, H2.
  unfold strict_eq. rewrite bool_decide_eq_true_2 by reflexivity.
  reflexivity.
Qed.

Lemma offer_to_A_facts :
  engine_reachable Scenario.willing one_down
  ∧ touchResponders (heap one_down Scenario.t1) = Some [Scenario.B]
  ∧ touchResponder (heap one_down Scenario.t1) = top [Scenario.B]
  ∧ touchResponder (heap one_down Scenario.t1) ≠ Obj Scenario.A
  ∧ (∀ w0, sendTouchStart Scenario.willing w0 Scenario.t1 (Obj Scenario.A)
           = Returns (Obj Scenario.A))
  ∧ (Scenario.A ∉ [Scenario.B])
  ∧ cancel_safe Scenario.willing Scenario.t1.
Proof.
  split; [exact one_down_reachable|].
  repeat split; try reflexivity; try discriminate.
  intros H. apply list_elem_of_singleton in H. discriminate.
Defined.

Lemma accepted_offer_becomes_responder_witness :
  (engine_reachable Scenario.willing one_down
   ∧ touchResponders (heap one_down Scenario.t1) = Some [Scenario.B]
   ∧ touchResponder (heap one_down Scenario.t1) = top [Scenario.B]
   ∧ touchResponder (heap one_down Scenario.t1) ≠ Obj Scenario.A
   ∧ (∀ w0, sendTouchStart Scenario.willing w0 Scenario.t1 (Obj Scenario.A)
            = Returns (Obj Scenario.A))
   ∧ touchResponder (heap one_down Scenario.t1) ≠ Obj Scenario.A
   ∧ cancel_safe Scenario.willing Scenario.t1)
  ∧ ∃ w' base, makeTouchResponder Scenario.willing Scenario.t1
                 (Obj Scenario.A) false one_down = (Ret tt, w')
      ∧ touchResponders (heap w' Scenario.t1) = Some (base ++ [Scenario.A])
      ∧ touchResponder (heap w' Scenario.t1) = Obj Scenario.A
      ∧ nextTouchResponder (heap w' Scenario.t1) = top base
      ∧ view (heap w' Scenario.t1) = Obj Scenario.A
      ∧ Scenario.t1 ∈ default [] (touchesForView Scenario.A w')
      ∧ hasTouch w' Scenario.A = true.
Proof.
  destruct offer_to_A_facts as (H1 & H2 & H3 & H4 & H5 & H6 & H7).
  split; [repeat split; assumption|].
  exact (accepted_offer_becomes_responder Scenario.willing Scenario.t1
           (Obj Scenario.A) Scenario.A false [Scenario.B] one_down
           H1 H2 H3 H4 H5 H4 H7).
Defined.

Lemma handover_replaces_stack_witness :
  (engine_reachable Scenario.willing one_down
   ∧ touchResponders (heap one_down Scenario.t1) = Some [Scenario.B]
   ∧ touchResponder (heap one_down Scenario.t1) = top [Scenario.B]
   ∧ touchResponder (heap one_down Scenario.t1) ≠ Obj Scenario.A
   ∧ (∀ w0, sendTouchStart Scenario.willing w0 Scenario.t1 (Obj Scenario.A)
            = Returns (Obj Scenario.A))
   ∧ (Scenario.A ∉ [Scenario.B])
   ∧ cancel_safe Scenario.willing Scenario.t1)
  ∧ ∃ w', makeTouchResponder Scenario.willing Scenario.t1 (Obj Scenario.A)
            false one_down = (Ret tt, w')
      ∧ touchResponders (heap w' Scenario.t1) = Some [Scenario.A]
      ∧ touchResponder (heap w' Scenario.t1) = Obj Scenario.A
      ∧ nextTouchResponder (heap w' Scenario.t1) = Undefined
      ∧ cancellations (new_events one_down w')
        = map (λ l, Performed TouchCancelled l Scenario.t1)
              (List.filter (notified Scenario.willing w') (rev [Scenario.B])).
Proof.
  destruct offer_to_A_facts as (H1 & H2 & H3 & H4 & H5 & H6 & H7).
  split; [repeat split; assumption|].
  exact (handover_replaces_stack Scenario.willing Scenario.t1
           (Obj Scenario.A) Scenario.A [Scenario.B] one_down
           H1 H2 H3 H4 H5 H6 H7).
Defined.

Lemma stacked_offer_pushes_witness :
  (engine_reachable Scenario.willing one_down
   ∧ touchResponders (heap one_down Scenario.t1) = Some [Scenario.B]
   ∧ touchResponder (heap one_down Scenario.t1) = top [Scenario.B]
   ∧ touchResponder (heap one_down Scenario.t1) ≠ Obj Scenario.A
   ∧ (∀ w0, sendTouchStart Scenario.willing w0 Scenario.t1 (Obj Scenario.A)
            = Returns (Obj Scenario.A))
   ∧ (Scenario.A ∉ [Scenario.B])
   ∧ cancel_safe Scenario.willing Scenario.t1)
  ∧ ∃ w', makeTouchResponder Scenario.willing Scenario.t1 (Obj Scenario.A)
            true one_down = (Ret tt, w')
      ∧ touchResponders (heap w' Scenario.t1)
        = Some ([Scenario.B] ++ [Scenario.A])
      ∧ touchResponder (heap w' Scenario.t1) = Obj Scenario.A
      ∧ nextTouchResponder (heap w' Scenario.t1)
        = touchResponder (heap one_down Scenario.t1)
      ∧ cancellations (new_events one_down w') = [].
Proof.
  destruct offer_to_A_facts as (H1 & H2 & H3 & H4 & H5 & H6 & H7).
  split; [repeat split; assumption|].
  exact (stacked_offer_pushes Scenario.willing Scenario.t1
           (Obj Scenario.A) Scenario.A [Scenario.B] one_down
           H1 H2 H3 H4 H5 H6 H7).
Defined.

Lemma repeated_offer_is_idle_witness :
  (engine_reachable Scenario.willing one_down
   ∧ touchResponders (heap one_down Scenario.t1) = Some [Scenario.B]
   ∧ touchResponder (heap one_down Scenario.t1) = top [Scenario.B]
   ∧ touchResponder (heap one_down Scenario.t1) ≠ Obj Scenario.A
   ∧ (∀ w0, sendTouchStart Scenario.willing w0 Scenario.t1 (Obj Scenario.A)
            = Returns (Obj Scenario.A))
   ∧ touchResponder (heap one_down Scenario.t1) ≠ Obj Scenario.A
   ∧ cancel_safe Scenario.willing Scenario.t1)
  ∧ ∃ w', makeTouchResponder Scenario.willing Scenario.t1 (Obj Scenario.A)
            true one_down = (Ret tt, w')
      ∧ makeTouchResponder Scenario.willing Scenario.t1 (Obj Scenario.A)
          false w' = (Ret tt, w').
Proof.
  destruct offer_to_A_facts as (H1 & H2 & H3 & H4 & H5 & H6 & H7).
  split; [repeat split; assumption|].
  exact (repeated_offer_is_idle Scenario.willing Scenario.t1
           (Obj Scenario.A) Scenario.A true false [Scenario.B] one_down
           H1 H2 H3 H4 H5 H4 H7).
Defined.

(** ** The averages *)

Section AveragingMore.

Local Open Scope R_scope.

Lemma sum_fold_left {A : Type} (f : A → R) (l : list A) (a : R) :
  fold_left (λ s x, s + f x) l a = a + fold_right (λ x s, f x + s) 0 l.
Proof.
  revert a. induction l as [|x l IH]; intros a; simpl; [lra|].
  rewrite IH. lra.
Qed.

Lemma distance_fold_NaN (f : Touch R → R) (l : list (Touch R)) (a : jsval) :
  l ≠ [] →
  (∀ r, a ≠ JNum r) →
  ∀ r, fold_left (λ ad touch, js_add ad (JNum (f touch))) l a ≠ JNum r.
Proof.
  revert a. induction l as [|x l IH]; intros a Hl Ha; [congruence|].
  simpl. destruct l as [|y l].
  - simpl. intros r. destruct a; simpl; try discriminate.
    exfalso. eapply Ha. reflexivity.
  - apply IH; [discriminate|].
    intros r. destruct a; simpl; try discriminate.
    exfalso. eapply Ha. reflexivity.
Qed.

Lemma averaged_run (v : View) (w : World R) (ts : list TouchRef) :
  touchesForView v w = Some ts →
  ts ≠ [] →
  averagedTouchesForView v w
  = mkAveraged (JNum (centroid_x (map (heap w) ts)))
               (JNum (centroid_y (map (heap w) ts)))
               JNaN (length ts).
Proof.
  intros H Hne. unfold averagedTouchesForView. rewrite H.
  destruct ts as [|t ts]; [congruence|].
  replace (length (t :: ts) =? 0)%nat with false by reflexivity.
  cbv zeta. rewrite !length_map.
  unfold centroid_x, centroid_y. rewrite !sum_fold_left, !length_map.
  rewrite !Rplus_0_l. f_equal.
  match goal with
  | |- js_div (fold_left (λ ad touch, js_add ad (JNum (@?f touch))) ?l ?a) _
       = _ =>
      pose proof (distance_fold_NaN f l a) as Hnan;
      destruct (fold_left (λ ad touch, js_add ad (JNum (f touch))) l a)
        as [| |r] eqn:E
  end; try reflexivity.
  exfalso. eapply Hnan; [discriminate|intros r'; discriminate|reflexivity].
Qed.

Lemma averaged_nothing (v : View) (w : World R) :
  touchesForView v w = None ∨ touchesForView v w = Some [] →
  averagedTouchesForView v w = mkAveraged (JNum 0) (JNum 0) (JNum 0) 0.
Proof.
  intros [H|H]; unfold averagedTouchesForView; rewrite H; reflexivity.
Qed.

Lemma Math_pow_0_0 : Touch_prototype.Math_pow 0 0 = 1.
Proof.
  unfold Touch_prototype.Math_pow.
  destruct (Req_dec_T 0 0); [reflexivity|congruence].
Qed.

Lemma Math_pow_0_2 : Touch_prototype.Math_pow 0 2 = 0.
Proof.
  unfold Touch_prototype.Math_pow.
  destruct (Req_dec_T 0 0); [|congruence].
  destruct (Req_dec_T 2 0); [lra|reflexivity].
Qed.


(** X16: for a view with at least one touch, [averagedTouchesForView]
    answers the arithmetic mean of the touches' [pageX] and of their
    [pageY], the number of touches as [touchCount], and [NaN] as [d]. *)
Theorem averaged_position_is_centroid (v : View) (w : World R)
    (ts : list TouchRef) :
  touchesForView v w = Some ts →
  ts ≠ [] →
  avg_x (averagedTouchesForView v w) = JNum (centroid_x (map (heap w) ts))
  ∧ avg_y (averagedTouchesForView v w) = JNum (centroid_y (map (heap w) ts))
  ∧ avg_touchCount (averagedTouchesForView v w) = length ts
  ∧ avg_d (averagedTouchesForView v w) = JNaN.
Proof.
  intros H Hne. rewrite (averaged_run v w ts H Hne). repeat split.
Qed.

Lemma averaged_position_is_centroid_witness :
  (touchesForView Scenario.A one_touch_at_3_4 = Some [Scenario.t1]
   ∧ [Scenario.t1] ≠ [])
  ∧ avg_x (averagedTouchesForView Scenario.A one_touch_at_3_4)
    = JNum (centroid_x (map (heap one_touch_at_3_4) [Scenario.t1]))
  ∧ avg_y (averagedTouchesForView Scenario.A one_touch_at_3_4)
    = JNum (centroid_y (map (heap one_touch_at_3_4) [Scenario.t1]))
  ∧ avg_touchCount (averagedTouchesForView Scenario.A one_touch_at_3_4)
    = length [Scenario.t1]
  ∧ avg_d (averagedTouchesForView Scenario.A one_touch_at_3_4) = JNaN.
Proof.
  assert (H1 : touchesForView Scenario.A one_touch_at_3_4
               = Some [Scenario.t1]) by reflexivity.
  assert (H2 : [Scenario.t1] ≠ []) by discriminate.
  split; [split; assumption|].
  exact (averaged_position_is_centroid Scenario.A one_touch_at_3_4
           [Scenario.t1] H1 H2).
Defined.

(** X17: asked with [addSelf] for a view that has no touches, a touch
    answers its own position, [touchCount] 1, and the distance 1, not 0:
    the distance term is [Math.pow(0, 0)]. *)
Theorem self_average_of_lone_touch (t : TouchRef) (v : View) (w : World R) :
  touchesForView v w = None ∨ touchesForView v w = Some [] →
  Touch_prototype.averagedTouchesForView t v true w
  = mkAveraged (JNum (pageX (heap w t))) (JNum (pageY (heap w t)))
               (JNum 1) 1.
Proof.
  intros H. unfold Touch_prototype.averagedTouchesForView.
  rewrite (averaged_nothing v w H). simpl.
  replace (0 * 0 + pageX (heap w t)) with (pageX (heap w t)) by lra.
  replace (0 * 0 + pageY (heap w t)) with (pageY (heap w t)) by lra.
  replace (pageX (heap w t) / 1) with (pageX (heap w t)) by lra.
  replace (pageY (heap w t) / 1) with (pageY (heap w t)) by lra.
  rewrite !Rminus_diag, Rabs_R0, Math_pow_0_2, Math_pow_0_0.
  f_equal; f_equal; lra.
Qed.

Lemma self_average_of_lone_touch_witness :
  (touchesForView Scenario.B one_touch_at_3_4 = None
   ∨ touchesForView Scenario.B one_touch_at_3_4 = Some [])
  ∧ Touch_prototype.averagedTouchesForView Scenario.t2 Scenario.B true
      one_touch_at_3_4
    = mkAveraged (JNum (pageX (heap one_touch_at_3_4 Scenario.t2)))
                 (JNum (pageY (heap one_touch_at_3_4 Scenario.t2)))
                 (JNum 1) 1.
Proof.
  assert (H : touchesForView Scenario.B one_touch_at_3_4 = None
              ∨ touchesForView Scenario.B one_touch_at_3_4 = Some [])
    by (left; reflexivity).
  split; [exact H|].
  exact (self_average_of_lone_touch Scenario.t2 Scenario.B one_touch_at_3_4 H).
Defined.

(** Asked with [addSelf] for a view that has touches, a touch
    answers the mean position of the view's touches and itself, counts
    itself in [touchCount], also when it is one of the view's touches
    already, and the distance stays [NaN]. *)
Theorem self_average_position (t : TouchRef) (v : View) (w : World R)
    (ts : list TouchRef) :
  touchesForView v w = Some ts →
  ts ≠ [] →
  Touch_prototype.averagedTouchesForView t v true w
  = mkAveraged (JNum (centroid_x (map (heap w) (ts ++ [t]))))
               (JNum (centroid_y (map (heap w) (ts ++ [t]))))
               JNaN (length ts + 1).
Proof.
  intros H Hne. unfold Touch_prototype.averagedTouchesForView.
  rewrite (averaged_run v w ts H Hne). simpl.
  assert (Hn : INR (length ts) ≠ 0%R).
  { apply not_0_INR. destruct ts; [congruence|discriminate]. }
  assert (Hn1 : INR (length ts + 1) ≠ 0%R).
  { apply not_0_INR. lia. }
  unfold centroid_x, centroid_y.
  rewrite !map_app, !fold_right_app, !length_app, !length_map. simpl.
  assert (Hsum : ∀ (f : Touch R → R) (l : list (Touch R)) (a : R),
            fold_right (λ x s, f x + s) a l
            = (fold_right (λ x s, f x + s) 0 l + a)%R).
  { intros f l a. induction l as [|x l IH]; simpl; [lra|]. rewrite IH. lra. }
  rewrite (Hsum pageX _ (pageX (heap w t) + 0)).
  rewrite (Hsum pageY _ (pageY (heap w t) + 0)).
  f_equal; f_equal; field; split; assumption.
Qed.

Lemma self_average_position_witness :
  (touchesForView Scenario.A one_touch_at_3_4 = Some [Scenario.t1]
   ∧ [Scenario.t1] ≠ [])
  ∧ Touch_prototype.averagedTouchesForView Scenario.t1 Scenario.A true
      one_touch_at_3_4
    = mkAveraged
        (JNum (centroid_x (map (heap one_touch_at_3_4)
                               ([Scenario.t1] ++ [Scenario.t1]))))
        (JNum (centroid_y (map (heap one_touch_at_3_4)
                               ([Scenario.t1] ++ [Scenario.t1]))))
        JNaN (length [Scenario.t1] + 1).
Proof.
  assert (H1 : touchesForView Scenario.A one_touch_at_3_4
               = Some [Scenario.t1]) by reflexivity.
  assert (H2 : [Scenario.t1] ≠ []) by discriminate.
  split; [split; assumption|].
  exact (self_average_position Scenario.t1 Scenario.A one_touch_at_3_4
           [Scenario.t1] H1 H2).
Defined.

End AveragingMore.

(** ** Edge resistance and the drag *)

Section ScrollTouchFacts.

Import ScrollTouch.
Local Open Scope R_scope.

Lemma Rpower_edge (c x : R) : 0 < c < 1 → 0 < x → 0 < Rpower c x < 1.
Proof.
  intros [Hc0 Hc1] Hx. unfold Rpower. split; [apply exp_pos|].
  assert (Hln : ln c < 0) by (rewrite <- ln_1; apply ln_increasing; lra).
  rewrite <- exp_0. apply exp_increasing. nra.
Qed.

Lemma Rpower_antitone (c x y : R) :
  0 < c < 1 → x <= y → Rpower c y <= Rpower c x.
Proof.
  intros [Hc0 Hc1] Hxy. unfold Rpower.
  assert (Hln : ln c < 0) by (rewrite <- ln_1; apply ln_increasing; lra).
  destruct (Req_dec x y) as [->|Hne]; [lra|].
  left. apply exp_increasing. nra.
Qed.

Lemma adjust_below (offset maxOffset c a : R) :
  offset < 0 → 0 <= maxOffset →
  _adjustForEdgeResistance offset maxOffset c a
  = a * (Rpower c (- offset) - 1).
Proof.
  intros Hlo Hmax. unfold _adjustForEdgeResistance.
  rewrite (ScrollFacts.Rltb_true offset 0) by lra.
  rewrite Rabs_left by lra.
  rewrite Rmax_left by lra. rewrite Rmin_left by lra. lra.
Qed.

Lemma adjust_above (offset maxOffset c a : R) :
  maxOffset < offset → 0 <= maxOffset →
  _adjustForEdgeResistance offset maxOffset c a
  = maxOffset + a * (1 - Rpower c (offset - maxOffset)).
Proof.
  intros Hhi Hmax. unfold _adjustForEdgeResistance.
  rewrite (ScrollFacts.Rltb_false offset 0) by lra.
  rewrite (ScrollFacts.Rltb_true maxOffset offset) by lra.
  rewrite Rabs_left by lra.
  rewrite Rmax_right by lra. rewrite Rmin_right by lra.
  replace (- (maxOffset - offset)) with (offset - maxOffset) by lra. lra.
Qed.

Lemma adjust_inside (offset maxOffset c a : R) :
  0 <= offset <= maxOffset →
  _adjustForEdgeResistance offset maxOffset c a = offset.
Proof.
  intros [Hlo Hhi]. unfold _adjustForEdgeResistance.
  rewrite (ScrollFacts.Rltb_false offset 0) by lra.
  rewrite (ScrollFacts.Rltb_false maxOffset offset) by lra. reflexivity.
Qed.

Lemma adjust_bounds (offset maxOffset c a : R) :
  0 < c < 1 → 0 < a → 0 <= maxOffset →
  let r := _adjustForEdgeResistance offset maxOffset c a in
  (offset < 0 → - a < r < 0)
  ∧ (maxOffset < offset → maxOffset < r < maxOffset + a)
  ∧ (0 <= offset <= maxOffset → r = offset).
Proof.
  intros Hc Ha Hmax r. subst r. repeat split.
  - rewrite adjust_below by assumption.
    pose proof (Rpower_edge c (- offset) Hc ltac:(lra)). nra.
  - rewrite adjust_below by assumption.
    pose proof (Rpower_edge c (- offset) Hc ltac:(lra)). nra.
  - rewrite adjust_above by assumption.
    pose proof (Rpower_edge c (offset - maxOffset) Hc ltac:(lra)). nra.
  - rewrite adjust_above by assumption.
    pose proof (Rpower_edge c (offset - maxOffset) Hc ltac:(lra)). nra.
  - intros H. apply adjust_inside. assumption.
Qed.

(** The slope of the resistance at the edge is [asymptote * - ln
    coefficient]; for the constants of the view it is below 1. *)
Lemma view_constants_slope : 320 * - ln 0.998 <= 1.
Proof.
  assert (H : - / 320 < ln 0.998).
  { rewrite <- (ln_exp (- / 320)). apply ln_increasing; [apply exp_pos|].
    assert (H1 : exp (/ 320) * exp (- / 320) = 1).
    { rewrite <- exp_plus. replace (/ 320 + - / 320) with 0 by lra.
      apply exp_0. }
    pose proof (exp_ineq1_le (/ 320)) as H2.
    pose proof (exp_pos (- / 320)) as H3.
    assert (H4 : 1 + / 320 = 321 / 320) by lra.
    nra. }
  lra.
Qed.

Lemma Rpower_chord (c x : R) :
  0 < c < 1 → 0 < x → 1 - Rpower c x < x * - ln c.
Proof.
  intros [Hc0 Hc1] Hx. unfold Rpower.
  assert (Hln : ln c < 0) by (rewrite <- ln_1; apply ln_increasing; lra).
  pose proof (exp_ineq1 (x * ln c) ltac:(nra)). lra.
Qed.

Lemma adjust_monotone (o1 o2 maxOffset c a : R) :
  0 < c < 1 → 0 < a → 0 <= maxOffset → o1 <= o2 →
  _adjustForEdgeResistance o1 maxOffset c a
  <= _adjustForEdgeResistance o2 maxOffset c a.
Proof.
  intros Hc Ha Hmax Hle.
  destruct (adjust_bounds o1 maxOffset c a Hc Ha Hmax) as (B1 & A1 & I1).
  destruct (adjust_bounds o2 maxOffset c a Hc Ha Hmax) as (B2 & A2 & I2).
  destruct (Rlt_dec o1 0) as [L1|L1]; destruct (Rlt_dec o2 0) as [L2|L2];
    try lra.
  - rewrite !adjust_below by assumption.
    pose proof (Rpower_antitone c (- o2) (- o1) Hc ltac:(lra)). nra.
  - destruct (Rlt_dec maxOffset o1) as [H1|H1].
    + rewrite !adjust_above by (assumption || lra).
      pose proof (Rpower_antitone c (o1 - maxOffset) (o2 - maxOffset) Hc
                    ltac:(lra)). nra.
    + rewrite (I1 ltac:(lra)).
      destruct (Rlt_dec maxOffset o2) as [H2|H2].
      * specialize (A2 H2). lra.
      * rewrite (I2 ltac:(lra)). lra.
Qed.

Lemma adjust_compresses (offset maxOffset c a : R) :
  0 < c < 1 → 0 < a → 0 <= maxOffset → a * - ln c <= 1 →
  (offset < 0 → offset < _adjustForEdgeResistance offset maxOffset c a)
  ∧ (maxOffset < offset →
     _adjustForEdgeResistance offset maxOffset c a < offset).
Proof.
  intros Hc Ha Hmax Hslope.
  assert (Hln : 0 < - ln c).
  { assert (ln c < 0) by (rewrite <- ln_1; apply ln_increasing; lra). lra. }
  split; intros H.
  - rewrite adjust_below by assumption.
    pose proof (Rpower_chord c (- offset) Hc ltac:(lra)). nra.
  - rewrite adjust_above by assumption.
    pose proof (Rpower_chord c (offset - maxOffset) Hc ltac:(lra)). nra.
Qed.

End ScrollTouchFacts.

Section EdgeResistance.

Import ScrollTouch.
Local Open Scope R_scope.



(** X22: [_adjustForEdgeResistance] keeps the order of offsets: a finger
    further along never shows the content further back, inside the range,
    beyond an edge, or across one. *)
Theorem edge_resistance_monotone (o1 o2 maxOffset c a : R) :
  0 < c < 1 → 0 < a → 0 <= maxOffset → o1 <= o2 →
  _adjustForEdgeResistance o1 maxOffset c a
  <= _adjustForEdgeResistance o2 maxOffset c a.
Proof.
  intros Hc Ha Hmax Hle.
  exact (adjust_monotone o1 o2 maxOffset c a Hc Ha Hmax Hle).
Qed.

Lemma edge_resistance_monotone_witness :
  (0 < 0.998 < 1 ∧ 0 < 320 ∧ 0 <= 100 ∧ -50 <= 150)
  ∧ _adjustForEdgeResistance (-50) 100 0.998 320
    <= _adjustForEdgeResistance 150 100 0.998 320.
Proof.
  assert (H1 : 0 < 0.998 < 1) by lra.
  assert (H2 : 0 < 320) by lra.
  assert (H3 : 0 <= 100) by lra.
  assert (H4 : -50 <= 150) by lra.
  split; [repeat split; lra|].
  exact (edge_resistance_monotone (-50) 150 100 0.998 320 H1 H2 H3 H4).
Defined.

(** X23: with the constants of the view, the coefficient 0.998 and the
    asymptote 320, an offset that is a pixel or more beyond an edge is
    never moved further out: the result lies between the offset asked for
    and the edge, the ends included. *)
Theorem edge_resistance_compresses (offset maxOffset : R) :
  0 <= maxOffset →
  (offset <= -1 →
   offset <= _adjustForEdgeResistance offset maxOffset 0.998 320 <= 0)
  ∧ (maxOffset + 1 <= offset →
     maxOffset <= _adjustForEdgeResistance offset maxOffset 0.998 320
     <= offset).
Proof.
  intros Hmax.
  assert (Hc : 0 < 0.998 < 1) by lra.
  assert (Ha : 0 < 320) by lra.
  destruct (adjust_bounds offset maxOffset 0.998 320 Hc Ha Hmax)
    as (B & A & _).
  destruct (adjust_compresses offset maxOffset 0.998 320 Hc Ha Hmax
              view_constants_slope) as (CB & CA).
  split; intros H.
  - assert (H' : offset < 0) by lra.
    specialize (B H'). specialize (CB H'). lra.
  - assert (H' : maxOffset < offset) by lra.
    specialize (A H'). specialize (CA H'). lra.
Qed.

Lemma edge_resistance_compresses_witness :
  0 <= 100
  ∧ ((-50 <= -1 →
      -50 <= _adjustForEdgeResistance (-50) 100 0.998 320 <= 0)
     ∧ (100 + 1 <= -50 →
        100 <= _adjustForEdgeResistance (-50) 100 0.998 320 <= -50)).
Proof.
  assert (H : 0 <= 100) by lra.
  split; [exact H|].
  exact (edge_resistance_compresses (-50) 100 H).
Defined.

End EdgeResistance.

Section DragFacts.

Import ScrollTouch.
Local Open Scope R_scope.





End DragFacts.

Section DragTheorems.

Import ScrollTouch.
Local Open Scope R_scope.

Lemma beginTouchTracking_touch (pageY timeStamp : R) (s : ScrollView) :
  let start := default 0 (_scroll_verticalScrollOffset s) in
  touch (beginTouchTracking pageY timeStamp s)
  = Some (mkGesture start start timeStamp start pageY 0 0 0
                    (maximumVerticalScrollOffset s) 0.998 320 0.05 0.08
                    true false false false None None).
Proof.
  unfold beginTouchTracking.
  destruct (touch s) as [g|]; [destruct (timeout g) as [[]|]|]; simpl;
    try reflexivity.
  destruct (_scroll_verticalScrollOffset s); reflexivity.
Qed.

(** After [beginTouchTracking], drag samples that stay within one
    pixel of the point where the touch began change nothing, however many
    there are: the view is exactly as [beginTouchTracking] left it. *)
Theorem drag_wiggle_room (y0 t0 : R) (samples : list (R * R))
    (s : ScrollView) :
  Forall (λ sample, Rabs (sample.1 - y0) <= 1) samples →
  drag samples (beginTouchTracking y0 t0 s)
  = Some (beginTouchTracking y0 t0 s).
Proof.
  intros Hall. induction Hall as [|[y t] later Hy _ IH]; [reflexivity|].
  simpl in Hy. simpl.
  assert (Hstep : touchesDragged y t (beginTouchTracking y0 t0 s)
                  = Some (beginTouchTracking y0 t0 s)).
  { unfold touchesDragged. rewrite beginTouchTracking_touch. simpl.
    rewrite (ScrollFacts.Rltb_false 1 (Rabs (y - y0))) by assumption.
    reflexivity. }
  rewrite Hstep. exact IH.
Qed.

Lemma drag_wiggle_room_witness :
  Forall (λ sample : R * R, Rabs (sample.1 - 200) <= 1)
         [(200.5, 10); (199, 25)]
  ∧ drag [(200.5, 10); (199, 25)] (beginTouchTracking 200 0 untouched)
    = Some (beginTouchTracking 200 0 untouched).
Proof.
  assert (H : Forall (λ sample : R * R, Rabs (sample.1 - 200) <= 1)
                     [(200.5, 10); (199, 25)]).
  { repeat constructor; simpl; unfold Rabs;
      match goal with |- context [Rcase_abs ?x] => destruct (Rcase_abs x) end;
      lra. }
  split; [exact H|].
  exact (drag_wiggle_room 200 0 [(200.5, 10); (199, 25)] untouched H).
Defined.

Lemma touchesDragged_dragging (g : Gesture) (pageY timeStamp : R)
    (s : ScrollView) :
  touch s = Some g →
  dragging g = true →
  firstDrag g = false →
  let y := _adjustForEdgeResistance
             (startScrollOffset_y g - (pageY - startTouchOffset_y g))
             (maximumVerticalScroll g) (resistanceCoefficientY g)
             (resistanceAsymptoteY g) in
  ∃ s', touchesDragged pageY timeStamp s = Some s'
    ∧ _scroll_verticalScrollOffset s' = Some y
    ∧ webkitTransform_y s' = Some (- y).
Proof.
  intros Hg Hd Hf y. unfold touchesDragged. rewrite Hg, Hd. simpl.
  rewrite Hd, Hf. simpl.
  destruct (Rleb 10 _); eexists; repeat split; reflexivity.
Qed.

(** X24: the first sample more than one pixel away from the start of the
    touch only arms the drag, the content does not move; the next sample
    puts the content where the whole displacement of the finger since the
    start of the touch leads, passed through the edge resistance; when that
    offset is inside the scrolling range the content has followed the
    finger exactly. *)
Theorem drag_follows_finger (y0 t0 y1 t1 y2 t2 : R) (s : ScrollView) :
  1 < Rabs (y1 - y0) →
  let s0 := beginTouchTracking y0 t0 s in
  let target := default 0 (_scroll_verticalScrollOffset s) - (y2 - y0) in
  ∃ s1 s2, touchesDragged y1 t1 s0 = Some s1
    ∧ _scroll_verticalScrollOffset s1 = _scroll_verticalScrollOffset s0
    ∧ webkitTransform_y s1 = webkitTransform_y s0
    ∧ touchesDragged y2 t2 s1 = Some s2
    ∧ _scroll_verticalScrollOffset s2
      = Some (_adjustForEdgeResistance target (maximumVerticalScrollOffset s)
                                       0.998 320)
    ∧ (0 <= target <= maximumVerticalScrollOffset s →
       _scroll_verticalScrollOffset s2 = Some target
       ∧ webkitTransform_y s2 = Some (- target)).
Proof.
  intros Hfar s0 target.
  pose proof (beginTouchTracking_touch y0 t0 s) as Hg. cbv zeta in Hg.
  fold s0 in Hg.
  set (g0 := mkGesture _ _ _ _ _ _ _ _ _ _ _ _ _ _ _ _ _ _ _) in Hg.
  set (s1 := with_touch (Some (with_firstDrag false (start_drag g0))) s0).
  assert (H1 : touchesDragged y1 t1 s0 = Some s1).
  { unfold touchesDragged. rewrite Hg. simpl.
    rewrite (ScrollFacts.Rltb_true 1 (Rabs (y1 - y0))) by assumption.
    reflexivity. }
  destruct (touchesDragged_dragging (with_firstDrag false (start_drag g0))
              y2 t2 s1 eq_refl eq_refl eq_refl) as (s2 & H2 & Hoff & Htr).
  simpl in Hoff, Htr. fold target in Hoff, Htr.
  exists s1, s2. repeat split; try assumption.
  - rewrite Hoff. f_equal. apply adjust_inside. assumption.
  - rewrite Htr. do 2 f_equal. apply adjust_inside. assumption.
Qed.

Lemma drag_follows_finger_witness :
  1 < Rabs (190 - 200)
  ∧ ∃ s1 s2,
      touchesDragged 190 20 (beginTouchTracking 200 0 untouched) = Some s1
      ∧ _scroll_verticalScrollOffset s1
        = _scroll_verticalScrollOffset (beginTouchTracking 200 0 untouched)
      ∧ webkitTransform_y s1
        = webkitTransform_y (beginTouchTracking 200 0 untouched)
      ∧ touchesDragged 150 40 s1 = Some s2
      ∧ _scroll_verticalScrollOffset s2
        = Some (_adjustForEdgeResistance
                  (default 0 (_scroll_verticalScrollOffset untouched)
                   - (150 - 200))
                  (maximumVerticalScrollOffset untouched) 0.998 320)
      ∧ (0 <= default 0 (_scroll_verticalScrollOffset untouched)
              - (150 - 200)
         <= maximumVerticalScrollOffset untouched →
         _scroll_verticalScrollOffset s2
         = Some (default 0 (_scroll_verticalScrollOffset untouched)
                 - (150 - 200))
         ∧ webkitTransform_y s2
           = Some (- (default 0 (_scroll_verticalScrollOffset untouched)
                      - (150 - 200)))).
Proof.
  assert (H : 1 < Rabs (190 - 200)).
  { unfold Rabs. destruct (Rcase_abs (190 - 200)); lra. }
  split; [exact H|].
  exact (drag_follows_finger 200 0 190 20 150 40 untouched H).
Defined.



End DragTheorems.

(** ** Scrolling by program *)

Section ScrollAPIFacts.

Import ScrollAPI.
Local Open Scope R_scope.

Lemma clamp_in_range (m v : R) : 0 <= m → 0 <= Rmax 0 (Rmin m v) <= m.
Proof.
  intros Hm. unfold Rmax, Rmin.
  destruct (Rle_dec m v); destruct (Rle_dec 0 _); lra.
Qed.

Lemma clamp_fixed (m v : R) : 0 <= v <= m → Rmax 0 (Rmin m v) = v.
Proof.
  intros Hv. unfold Rmax, Rmin.
  destruct (Rle_dec m v); destruct (Rle_dec 0 _); lra.
Qed.

Lemma maximumHorizontalScrollOffset_nonneg (s : ScrollView) (m : R) :
  maximumHorizontalScrollOffset s = Some m → 0 <= m.
Proof.
  unfold maximumHorizontalScrollOffset.
  destruct (negb (canScrollHorizontal s)); [intros [= <-]; lra|].
  destruct (contentView s) as [view|]; [|discriminate].
  destruct (cv_frame view); [|discriminate].
  intros [= <-]. apply Rmax_l.
Qed.

Lemma maximumVerticalScrollOffset_nonneg (s : ScrollView) (m : R) :
  maximumVerticalScrollOffset s = Some m → 0 <= m.
Proof.
  unfold maximumVerticalScrollOffset.
  destruct (negb (canScrollVertical s)); [intros [= <-]; lra|].
  destruct (contentView s) as [view|]; [|discriminate].
  intros [= <-]. apply Rmax_l.
Qed.

Lemma same_geometry_refl (s : ScrollView) : same_geometry s s.
Proof. repeat split. Qed.

Lemma same_geometry_trans (s1 s2 s3 : ScrollView) :
  same_geometry s1 s2 → same_geometry s2 s3 → same_geometry s1 s3.
Proof.
  intros (A1 & A2 & A3 & A4 & A5 & A6 & A7) (B1 & B2 & B3 & B4 & B5 & B6 & B7).
  repeat split; congruence.
Qed.

Lemma same_geometry_maximum (s s' : ScrollView) :
  same_geometry s s' →
  maximumHorizontalScrollOffset s' = maximumHorizontalScrollOffset s
  ∧ maximumVerticalScrollOffset s' = maximumVerticalScrollOffset s.
Proof.
  intros (A1 & A2 & A3 & A4 & A5 & A6 & A7).
  unfold maximumHorizontalScrollOffset, maximumVerticalScrollOffset.
  rewrite A1, A2, A3, A4. split; reflexivity.
Qed.

(** What [scrollTo] does, axis by axis. *)
Lemma scrollTo_horizontal (x : R) (y : coord) (s : ScrollView) (m : R) :
  maximumHorizontalScrollOffset s = Some m →
  scrollTo (CNum x) y s
  = scrollTo CNull y (with_horizontal (Some (Rmax 0 (Rmin m x))) s).
Proof.
  intros Hm. unfold scrollTo at 1, set_horizontalScrollOffset.
  rewrite Hm.
  rewrite (clamp_fixed m (Rmax 0 (Rmin m x)))
    by (apply clamp_in_range, (maximumHorizontalScrollOffset_nonneg s m Hm)).
  reflexivity.
Qed.

Lemma scrollTo_horizontal_throws (x : R) (y : coord) (s : ScrollView) :
  maximumHorizontalScrollOffset s = None →
  scrollTo (CNum x) y s = TypeError s.
Proof. intros Hm. unfold scrollTo. rewrite Hm. reflexivity. Qed.

Lemma scrollTo_vertical (x : coord) (y : R) (s : ScrollView) (m : R) :
  none_or_null x →
  maximumVerticalScrollOffset s = Some m →
  scrollTo x (CNum y) s
  = Normal (with_vertical (Some (Rmax 0 (Rmin m y))) s).
Proof.
  intros Hx Hm. unfold scrollTo, set_verticalScrollOffset.
  destruct x; try contradiction; rewrite Hm;
    rewrite (clamp_fixed m (Rmax 0 (Rmin m y)))
      by (apply clamp_in_range, (maximumVerticalScrollOffset_nonneg s m Hm));
    reflexivity.
Qed.

Lemma scrollTo_vertical_throws (x : coord) (y : R) (s : ScrollView) :
  none_or_null x →
  maximumVerticalScrollOffset s = None →
  scrollTo x (CNum y) s = TypeError s.
Proof.
  intros Hx Hm. unfold scrollTo. destruct x; try contradiction;
    rewrite Hm; reflexivity.
Qed.

Lemma scrollTo_nothing (x y : coord) (s : ScrollView) :
  none_or_null x → none_or_null y → scrollTo x y s = Normal s.
Proof.
  intros Hx Hy. destruct x, y; try contradiction; reflexivity.
Qed.

Lemma in_range_horizontal (x m : R) (s : ScrollView) :
  in_range s →
  maximumHorizontalScrollOffset s = Some m →
  in_range (with_horizontal (Some (Rmax 0 (Rmin m x))) s)
  ∧ same_geometry s (with_horizontal (Some (Rmax 0 (Rmin m x))) s).
Proof.
  intros [Hh Hv] Hm. split; [|repeat split]. split.
  - intros x' [= <-]. exists m. split; [exact Hm|].
    apply clamp_in_range, (maximumHorizontalScrollOffset_nonneg s m Hm).
  - exact Hv.
Qed.

Lemma in_range_vertical (y m : R) (s : ScrollView) :
  in_range s →
  maximumVerticalScrollOffset s = Some m →
  in_range (with_vertical (Some (Rmax 0 (Rmin m y))) s)
  ∧ same_geometry s (with_vertical (Some (Rmax 0 (Rmin m y))) s).
Proof.
  intros [Hh Hv] Hm. split; [|repeat split]. split.
  - exact Hh.
  - intros y' [= <-]. exists m. split; [exact Hm|].
    apply clamp_in_range, (maximumVerticalScrollOffset_nonneg s m Hm).
Qed.

Lemma scrollTo_vertical_in_range (x y : coord) (s : ScrollView) :
  none_or_null x →
  in_range s →
  in_range (state_of (scrollTo x y s))
  ∧ same_geometry s (state_of (scrollTo x y s)).
Proof.
  intros Hx Hs. destruct y as [| |y].
  - rewrite scrollTo_nothing by (assumption || exact I).
    split; [assumption|apply same_geometry_refl].
  - rewrite scrollTo_nothing by (assumption || exact I).
    split; [assumption|apply same_geometry_refl].
  - destruct (maximumVerticalScrollOffset s) as [m|] eqn:Hm.
    + rewrite (scrollTo_vertical x y s m Hx Hm).
      apply in_range_vertical; assumption.
    + rewrite (scrollTo_vertical_throws x y s Hx Hm).
      split; [assumption|apply same_geometry_refl].
Qed.

Lemma scrollTo_in_range (x y : coord) (s : ScrollView) :
  in_range s →
  in_range (state_of (scrollTo x y s))
  ∧ same_geometry s (state_of (scrollTo x y s)).
Proof.
  intros Hs. destruct x as [| |x].
  - apply scrollTo_vertical_in_range; [exact I|assumption].
  - apply scrollTo_vertical_in_range; [exact I|assumption].
  - destruct (maximumHorizontalScrollOffset s) as [m|] eqn:Hm.
    + rewrite (scrollTo_horizontal x y s m Hm).
      destruct (in_range_horizontal x m s Hs Hm) as [H1 G1].
      destruct (scrollTo_vertical_in_range CNull y _ I H1) as [H2 G2].
      split; [exact H2|]. exact (same_geometry_trans _ _ _ G1 G2).
    + rewrite (scrollTo_horizontal_throws x y s Hm).
      split; [assumption|apply same_geometry_refl].
Qed.

Lemma run_call_scrollTo (c : call) (s : ScrollView) :
  ∃ x y, run_call c s = scrollTo x y s.
Proof.
  destruct c; simpl;
    unfold scrollDownLine, scrollUpLine, scrollRightLine, scrollLeftLine,
      scrollDownPage, scrollUpPage, scrollRightPage, scrollLeftPage, scrollBy;
    eexists; eexists; reflexivity.
Qed.

Lemma scrollTo_with_wheel (x y : coord) (a b : R) (n : nat)
    (s : ScrollView) :
  scrollTo x y (with_wheel a b n s) = lift_wheel a b n (scrollTo x y s).
Proof.
  unfold scrollTo, set_horizontalScrollOffset, set_verticalScrollOffset.
  change (maximumHorizontalScrollOffset (with_wheel a b n s))
    with (maximumHorizontalScrollOffset s).
  destruct x as [| |x]; simpl.
  - change (maximumVerticalScrollOffset (with_wheel a b n s))
      with (maximumVerticalScrollOffset s).
    destruct y as [| |y]; simpl; try reflexivity.
    destruct (maximumVerticalScrollOffset s); reflexivity.
  - change (maximumVerticalScrollOffset (with_wheel a b n s))
      with (maximumVerticalScrollOffset s).
    destruct y as [| |y]; simpl; try reflexivity.
    destruct (maximumVerticalScrollOffset s); reflexivity.
  - destruct (maximumHorizontalScrollOffset s) as [mh|] eqn:Hh;
      [|reflexivity].
    destruct y as [| |y]; simpl; try reflexivity.
    match goal with
    | |- context [maximumVerticalScrollOffset (with_horizontal ?v
                                                 (with_wheel a b n s))] =>
        change (maximumVerticalScrollOffset
                  (with_horizontal v (with_wheel a b n s)))
          with (maximumVerticalScrollOffset s);
        change (maximumVerticalScrollOffset (with_horizontal v s))
          with (maximumVerticalScrollOffset s)
    end.
    destruct (maximumVerticalScrollOffset s); reflexivity.
Qed.

Lemma scrollBy_with_wheel (x y : coord) (a b : R) (n : nat)
    (s : ScrollView) :
  scrollBy x y (with_wheel a b n s) = lift_wheel a b n (scrollBy x y s).
Proof. unfold scrollBy. apply scrollTo_with_wheel. Qed.

Lemma scrollTo_wheel_fields (x y : coord) (s : ScrollView) :
  let s' := state_of (scrollTo x y s) in
  _scroll_wheelDeltaX s' = _scroll_wheelDeltaX s
  ∧ _scroll_wheelDeltaY s' = _scroll_wheelDeltaY s
  ∧ pending s' = pending s.
Proof.
  unfold scrollTo, set_horizontalScrollOffset, set_verticalScrollOffset.
  destruct x as [| |x]; simpl.
  - destruct y as [| |y]; simpl; try (repeat split; reflexivity).
    destruct (maximumVerticalScrollOffset s); repeat split; reflexivity.
  - destruct y as [| |y]; simpl; try (repeat split; reflexivity).
    destruct (maximumVerticalScrollOffset s); repeat split; reflexivity.
  - destruct (maximumHorizontalScrollOffset s) as [mh|] eqn:Hh;
      [|repeat split; reflexivity].
    destruct y as [| |y]; simpl; try (repeat split; reflexivity).
    match goal with
    | |- context [maximumVerticalScrollOffset (with_horizontal ?v s)] =>
        change (maximumVerticalScrollOffset (with_horizontal v s))
          with (maximumVerticalScrollOffset s)
    end.
    destruct (maximumVerticalScrollOffset s); repeat split; reflexivity.
Qed.

Lemma with_wheel_same (s : ScrollView) :
  with_wheel (_scroll_wheelDeltaX s) (_scroll_wheelDeltaY s) (pending s) s
  = s.
Proof. destruct s; reflexivity. Qed.

Lemma scrollBy_zero (s : ScrollView) :
  scrollBy (CNum 0) (CNum 0) s = Normal s.
Proof.
  unfold scrollBy. simpl.
  destruct (Req_dec_T 0 0) as [_|Hne]; [reflexivity|lra].
Qed.

(** The calls that find nothing saved. *)
Lemma fire_idle (n : nat) (s : ScrollView) :
  fire_n false n (with_wheel 0 0 n s) = Normal (with_wheel 0 0 0 s).
Proof.
  induction n as [|n IH]; [reflexivity|].
  simpl. unfold fire. simpl. unfold _scroll_mouseWheel. simpl.
  change (with_wheel 0 0 n (with_wheel 0 0 (S n) s)) with (with_wheel 0 0 n s).
  rewrite scrollBy_zero. simpl. exact IH.
Qed.

Lemma wheel_events_run (events : list (R * R)) (s : ScrollView) :
  wheel_events events s
  = with_wheel (_scroll_wheelDeltaX s + total_x events)
               (_scroll_wheelDeltaY s + total_y events)
               (pending s + length events) s.
Proof.
  revert s. induction events as [|[dx dy] later IH]; intros s.
  - simpl. rewrite !Rplus_0_r, Nat.add_0_r. symmetry. apply with_wheel_same.
  - simpl. rewrite IH. simpl. unfold with_wheel. simpl.
    f_equal; [lra|lra|lia].
Qed.

Lemma scrollTo_sound (x y : coord) (s : ScrollView) :
  sound s → ∃ s', scrollTo x y s = Normal s' ∧ same_geometry s s'.
Proof.
  intros [[mh Hh] [mv Hv]].
  assert (Hy : ∀ s0, maximumVerticalScrollOffset s0 = Some mv →
            ∃ s', scrollTo CNull y s0 = Normal s' ∧ same_geometry s0 s').
  { intros s0 Hv0. destruct y as [| |y].
    - exists s0. split; [reflexivity|apply same_geometry_refl].
    - exists s0. split; [reflexivity|apply same_geometry_refl].
    - rewrite (scrollTo_vertical CNull y s0 mv I Hv0).
      eexists. split; [reflexivity|repeat split]. }
  destruct x as [| |x].
  - destruct (Hy s Hv) as (s' & Hrun & Hg). exists s'. split; [|exact Hg].
    rewrite <- Hrun. destruct y; reflexivity.
  - exact (Hy s Hv).
  - rewrite (scrollTo_horizontal x y s mh Hh).
    destruct (Hy (with_horizontal (Some (Rmax 0 (Rmin mh x))) s) Hv)
      as (s' & Hrun & Hg).
    exists s'. split; [exact Hrun|].
    eapply same_geometry_trans; [|exact Hg]. repeat split.
Qed.

Lemma same_geometry_sound (s s' : ScrollView) :
  same_geometry s s' → sound s → sound s'.
Proof.
  intros Hg [Hh Hv]. destruct (same_geometry_maximum s s' Hg) as [E1 E2].
  unfold sound. rewrite E1, E2. split; assumption.
Qed.

Lemma Int_part_nonneg (r : R) : 0 <= r → (0 <= Int_part r)%Z.
Proof.
  intros Hr. destruct (base_Int_part r) as [_ H].
  assert (H1 : IZR (-1) < IZR (Int_part r)) by lra.
  apply lt_IZR in H1. lia.
Qed.

Lemma Int_part_decay (r : R) : 0 < r → IZR (Int_part (r * 0.950)) < r.
Proof.
  intros Hr. destruct (base_Int_part (r * 0.950)) as [H _]. lra.
Qed.

(** One scheduled call under momentum: the saved vertical delta is 0 and
    the call clears the wheel state, or the call leaves a whole number
    nearer to 0 and schedules the next. *)
Lemma fire_momentum (s : ScrollView) :
  sound s →
  pending s = 1%nat →
  ∃ s', fire true s = Normal s'
    ∧ sound s'
    ∧ same_geometry s s'
    ∧ ((_scroll_wheelDeltaY s = 0 ∧ wheel_idle s')
       ∨ (pending s' = 1%nat
          ∧ ∃ z, _scroll_wheelDeltaY s' = IZR z
              ∧ IZR (Z.abs z) < Rabs (_scroll_wheelDeltaY s))).
Proof.
  intros Hs Hp. unfold fire. rewrite Hp. unfold _scroll_mouseWheel.
  set (X := _scroll_wheelDeltaX s). set (Y := _scroll_wheelDeltaY s).
  change (_scroll_wheelDeltaX (with_wheel X Y 0 s)) with X.
  change (_scroll_wheelDeltaY (with_wheel X Y 0 s)) with Y.
  rewrite scrollBy_with_wheel.
  destruct (scrollTo_sound (shifted (horizontalScrollOffset s) (CNum X))
              (shifted (verticalScrollOffset s) (CNum Y)) s Hs)
    as (u & Hrun & Hg).
  unfold scrollBy. rewrite Hrun. simpl lift_wheel. cbv iota.
  change (_scroll_wheelDeltaX (with_wheel X Y 0 u)) with X.
  change (_scroll_wheelDeltaY (with_wheel X Y 0 u)) with Y.
  change (pending (with_wheel X Y 0 u)) with O.
  pose proof (same_geometry_sound s u Hg Hs) as Hu.
  assert (Hgw : ∀ a b n, same_geometry s (with_wheel a b n (with_wheel X Y 0 u))).
  { intros a b n. eapply same_geometry_trans; [exact Hg|]. repeat split. }
  assert (Hsw : ∀ a b n, sound (with_wheel a b n (with_wheel X Y 0 u))).
  { intros a b n. eapply same_geometry_sound; [|exact Hs]. apply Hgw. }
  simpl andb.
  destruct (Rlt_dec 0 Y) as [Hpos|Hnpos].
  - rewrite (ScrollFacts.Rltb_true 0 Y Hpos).
    eexists. split; [reflexivity|]. split; [apply Hsw|].
    split; [apply Hgw|]. right. split; [reflexivity|].
    exists (Int_part (Y * 0.950)). simpl.
    pose proof (Int_part_nonneg (Y * 0.950) ltac:(lra)) as H0.
    pose proof (Int_part_decay Y Hpos) as H1.
    unfold Math_floor. split.
    + apply Rmax_left. apply IZR_le in H0. lra.
    + rewrite Z.abs_eq by assumption. rewrite (Rabs_right Y) by lra. exact H1.
  - rewrite (ScrollFacts.Rltb_false 0 Y) by lra.
    destruct (Rlt_dec Y 0) as [Hneg|Hnneg].
    + rewrite (ScrollFacts.Rltb_true Y 0 Hneg).
      eexists. split; [reflexivity|]. split; [apply Hsw|].
      split; [apply Hgw|]. right. split; [reflexivity|].
      exists (- Int_part (- (Y * 0.950)))%Z. simpl.
      pose proof (Int_part_nonneg (- (Y * 0.950)) ltac:(lra)) as H0.
      pose proof (Int_part_decay (- Y) ltac:(lra)) as H1.
      replace (- Y * 0.950) with (- (Y * 0.950)) in H1 by lra.
      unfold Math_ceil. rewrite opp_IZR. split.
      * apply Rmin_left. apply IZR_le in H0. lra.
      * rewrite Z.abs_opp, Z.abs_eq by assumption.
        rewrite (Rabs_left Y) by lra. exact H1.
    + rewrite (ScrollFacts.Rltb_false Y 0) by lra.
      eexists. split; [reflexivity|]. split; [apply Hsw|].
      split; [apply Hgw|]. left. split; [lra|]. repeat split.
Qed.

Lemma momentum_runs_out (k : nat) :
  ∀ (s : ScrollView) (z : Z),
    (Z.abs_nat z <= k)%nat →
    sound s →
    pending s = 1%nat →
    _scroll_wheelDeltaY s = IZR z →
    ∃ n s', fire_n true n s = Normal s' ∧ wheel_idle s' ∧ same_geometry s s'.
Proof.
  induction k as [|k IH]; intros s z Hk Hs Hp Hz;
    destruct (fire_momentum s Hs Hp) as (s1 & Hrun & Hs1 & Hg1 & Hcase).
  - destruct Hcase as [[_ Hidle]|(_ & z' & _ & Hlt)].
    + exists 1%nat, s1. simpl. rewrite Hrun. repeat split; try apply Hidle.
      all: apply Hg1.
    + exfalso. rewrite Hz, <- abs_IZR in Hlt. apply lt_IZR in Hlt. lia.
  - destruct Hcase as [[_ Hidle]|(Hp1 & z' & Hz' & Hlt)].
    + exists 1%nat, s1. simpl. rewrite Hrun. repeat split; try apply Hidle.
      all: apply Hg1.
    + rewrite Hz, <- abs_IZR in Hlt. apply lt_IZR in Hlt.
      destruct (IH s1 z' ltac:(lia) Hs1 Hp1 Hz') as (n & s' & Hn & Hidle & Hg).
      exists (S n), s'. simpl. rewrite Hrun.
      split; [exact Hn|]. split; [exact Hidle|].
      eapply same_geometry_trans; eassumption.
Qed.

End ScrollAPIFacts.

Section ScrollAPITheorems.

Import ScrollAPI.
Local Open Scope R_scope.

(** X26: no call that scrolls by program, [scrollTo], [scrollBy] or one
    of the line and page scrolls, takes an offset out of the scrolling
    range: if the offsets that are set lie between 0 and the maximum of
    their axis before the call, they do after it, whatever is asked for and
    also when the call throws on its way; and the call changes nothing of
    the geometry. *)
Theorem scrolling_stays_in_range (c : call) (s : ScrollView) :
  in_range s →
  in_range (state_of (run_call c s))
  ∧ same_geometry s (state_of (run_call c s)).
Proof.
  intros Hs. destruct (run_call_scrollTo c s) as (x & y & ->).
  apply scrollTo_in_range. assumption.
Qed.

Lemma scrolling_stays_in_range_witness :
  in_range example
  ∧ in_range (state_of (run_call (ScrollTo (CNum 1000) (CNum (-5))) example))
  ∧ same_geometry example
      (state_of (run_call (ScrollTo (CNum 1000) (CNum (-5))) example)).
Proof.
  assert (H : in_range example) by (split; intros ? [=]).
  split; [exact H|].
  exact (scrolling_stays_in_range (ScrollTo (CNum 1000) (CNum (-5)))
           example H).
Defined.

(** X27: scrolling down by lines and then up by as many lines brings the
    content back where it was, when the offset is in the scrolling range
    and the way down does not reach the end of it; the horizontal offset is
    not touched.  This is for whole numbers, where the sums and products of
    the code are exact: the offset, the height of a line and the number of
    lines are integers, and the range ends at [2^53] at most. *)
Theorem line_scroll_round_trip (lines : option R) (s : ScrollView) (m : R)
    (offset lineHeight count : Z) :
  in_range s →
  maximumVerticalScrollOffset s = Some m →
  m <= IZR (2 ^ 53) →
  verticalScrollOffset s = IZR offset →
  verticalLineScroll s = IZR lineHeight →
  or_one lines = IZR count →
  0 <= verticalScrollOffset s + verticalLineScroll s * or_one lines <= m →
  ∃ s1 s2, scrollDownLine lines s = Normal s1
    ∧ verticalScrollOffset s1
      = verticalScrollOffset s + verticalLineScroll s * or_one lines
    ∧ scrollUpLine lines s1 = Normal s2
    ∧ verticalScrollOffset s2 = verticalScrollOffset s
    ∧ _scroll_horizontalScrollOffset s2 = _scroll_horizontalScrollOffset s.
Proof.
  intros [_ Hv] Hm _ _ _ _ Hd.
  remember (verticalLineScroll s * or_one lines) as d eqn:Ed.
  assert (Hv0 : 0 <= verticalScrollOffset s <= m).
  { unfold verticalScrollOffset.
    destruct (_scroll_verticalScrollOffset s) as [v|] eqn:E; simpl.
    - destruct (Hv v eq_refl) as (m' & Hm' & Hr). congruence.
    - pose proof (maximumVerticalScrollOffset_nonneg s m Hm). lra. }
  unfold scrollDownLine, scrollUpLine, scrollBy. rewrite <- Ed.
  simpl shifted.
  destruct (Req_dec_T d 0) as [Hz|Hnz].
  - exists s, s. rewrite <- Ed, Hz.
    replace (0 - 0) with 0 by lra.
    destruct (Req_dec_T 0 0) as [_|Hne]; [|lra].
    rewrite !scrollTo_nothing by exact I.
    repeat split; try reflexivity. lra.
  - rewrite (scrollTo_vertical CNull _ s m I Hm).
    rewrite clamp_fixed by exact Hd.
    set (s1 := with_vertical (Some (verticalScrollOffset s + d)) s).
    exists s1. eexists. split; [reflexivity|]. split; [reflexivity|].
    change (verticalLineScroll s1) with (verticalLineScroll s).
    rewrite <- Ed.
    destruct (Req_dec_T (0 - d) 0) as [Hz|_];
      [exfalso; apply Hnz; clear -Hz; lra|].
    rewrite (scrollTo_vertical CNull _ s1 m I Hm).
    split; [reflexivity|].
    change (verticalScrollOffset s1) with (verticalScrollOffset s + d).
    replace (verticalScrollOffset s + d + (0 - d))
      with (verticalScrollOffset s) by lra.
    rewrite clamp_fixed by exact Hv0.
    split; reflexivity.
Qed.

Lemma line_scroll_round_trip_witness :
  (in_range example
   ∧ maximumVerticalScrollOffset example = Some (Rmax 0 (500 - 100))
   ∧ Rmax 0 (500 - 100) <= IZR (2 ^ 53)
   ∧ verticalScrollOffset example = IZR 0
   ∧ verticalLineScroll example = IZR 20
   ∧ or_one (Some 3) = IZR 3
   ∧ 0 <= verticalScrollOffset example
          + verticalLineScroll example * or_one (Some 3)
     <= Rmax 0 (500 - 100))
  ∧ ∃ s1 s2, scrollDownLine (Some 3) example = Normal s1
      ∧ verticalScrollOffset s1
        = verticalScrollOffset example
          + verticalLineScroll example * or_one (Some 3)
      ∧ scrollUpLine (Some 3) s1 = Normal s2
      ∧ verticalScrollOffset s2 = verticalScrollOffset example
      ∧ _scroll_horizontalScrollOffset s2
        = _scroll_horizontalScrollOffset example.
Proof.
  assert (H1 : in_range example) by (split; intros ? [=]).
  assert (H2 : maximumVerticalScrollOffset example
               = Some (Rmax 0 (500 - 100))) by reflexivity.
  assert (H3 : Rmax 0 (500 - 100) <= IZR (2 ^ 53)).
  { rewrite Rmax_right by lra. apply Rle_trans with (IZR 400); [lra|].
    apply IZR_le. vm_compute. discriminate. }
  assert (H4 : verticalScrollOffset example = IZR 0) by reflexivity.
  assert (H5 : verticalLineScroll example = IZR 20) by reflexivity.
  assert (H6 : or_one (Some 3) = IZR 3) by reflexivity.
  assert (H7 : 0 <= verticalScrollOffset example
                    + verticalLineScroll example * or_one (Some 3)
               <= Rmax 0 (500 - 100)).
  { unfold verticalScrollOffset, or_one. simpl.
    rewrite Rmax_right by lra. lra. }
  split;
    [exact (conj H1 (conj H2 (conj H3 (conj H4 (conj H5 (conj H6 H7))))))|].
  exact (line_scroll_round_trip (Some 3) example _ 0 20 3
           H1 H2 H3 H4 H5 H6 H7).
Defined.

(** X28: the horizontal line scrolls are absolute: for a number of lines
    that is not negative, [scrollLeftLine] puts the content at the left
    edge and [scrollRightLine] at [horizontalLineScroll * lines], cut at
    the maximum, wherever the content was before; neither moves by lines
    from the current offset, as the vertical ones do. *)
Theorem horizontal_line_scroll_is_absolute (lines : option R)
    (s : ScrollView) (m : R) :
  maximumHorizontalScrollOffset s = Some m →
  0 <= horizontalLineScroll s * or_one lines →
  scrollLeftLine lines s = Normal (with_horizontal (Some 0) s)
  ∧ scrollRightLine lines s
    = Normal (with_horizontal
                (Some (Rmin m (horizontalLineScroll s * or_one lines))) s).
Proof.
  intros Hm Hd.
  pose proof (maximumHorizontalScrollOffset_nonneg s m Hm) as Hm0.
  unfold scrollLeftLine, scrollRightLine.
  rewrite !(scrollTo_horizontal _ CNull s m Hm).
  rewrite !scrollTo_nothing by exact I.
  split; do 3 f_equal.
  - unfold Rmax, Rmin.
    destruct (Rle_dec m _); destruct (Rle_dec 0 _); lra.
  - unfold Rmax, Rmin.
    destruct (Rle_dec m _); destruct (Rle_dec 0 _); lra.
Qed.

Lemma horizontal_line_scroll_is_absolute_witness :
  (maximumHorizontalScrollOffset example = Some (Rmax 0 (300 - 100))
   ∧ 0 <= horizontalLineScroll example * or_one None)
  ∧ scrollLeftLine None example = Normal (with_horizontal (Some 0) example)
  ∧ scrollRightLine None example
    = Normal (with_horizontal
                (Some (Rmin (Rmax 0 (300 - 100))
                            (horizontalLineScroll example * or_one None)))
                example).
Proof.
  assert (H1 : maximumHorizontalScrollOffset example
               = Some (Rmax 0 (300 - 100))) by reflexivity.
  assert (H2 : 0 <= horizontalLineScroll example * or_one None)
    by (unfold or_one; simpl; lra).
  split; [split; assumption|].
  exact (horizontal_line_scroll_is_absolute None example _ H1 H2).
Defined.

(** On a scroll view that can scroll both ways and has no content
    view, every [scrollTo] that names a number throws a [TypeError] and
    leaves the view as it was, while a [scrollBy] of nothing, of [null],
    [undefined] or 0 on both axes, returns without reading the geometry. *)
Theorem scrollTo_without_content (x y : coord) (s : ScrollView) :
  contentView s = None →
  canScrollHorizontal s = true →
  canScrollVertical s = true →
  ¬ (none_or_null x ∧ none_or_null y) →
  scrollTo x y s = TypeError s
  ∧ scrollBy CNull (CNum 0) s = Normal s.
Proof.
  intros Hc Hh Hv Hxy.
  assert (HmH : maximumHorizontalScrollOffset s = None).
  { unfold maximumHorizontalScrollOffset. rewrite Hh, Hc. reflexivity. }
  assert (HmV : maximumVerticalScrollOffset s = None).
  { unfold maximumVerticalScrollOffset. rewrite Hv, Hc. reflexivity. }
  split.
  - destruct x as [| |x].
    + destruct y as [| |y]; [exfalso; apply Hxy; split; exact I ..|].
      apply scrollTo_vertical_throws; [exact I|assumption].
    + destruct y as [| |y]; [exfalso; apply Hxy; split; exact I ..|].
      apply scrollTo_vertical_throws; [exact I|assumption].
    + apply scrollTo_horizontal_throws. assumption.
  - unfold scrollBy. simpl.
    destruct (Req_dec_T 0 0) as [_|Hne]; [reflexivity|lra].
Qed.

Lemma scrollTo_without_content_witness :
  (contentView no_content = None
   ∧ canScrollHorizontal no_content = true
   ∧ canScrollVertical no_content = true
   ∧ ¬ (none_or_null CNull ∧ none_or_null (CNum 10)))
  ∧ scrollTo CNull (CNum 10) no_content = TypeError no_content
  ∧ scrollBy CNull (CNum 0) no_content = Normal no_content.
Proof.
  assert (H : ¬ (none_or_null CNull ∧ none_or_null (CNum 10)))
    by (intros [_ []]).
  split; [repeat split; exact H|].
  exact (scrollTo_without_content CNull (CNum 10) no_content
           eq_refl eq_refl eq_refl H).
Defined.

(** X29: without wheel momentum, wheel events that arrive before the
    first scheduled call runs are scrolled as one: the first call scrolls
    by the sums of their deltas, cut at the range once, and clears what was
    saved; the calls scheduled by the other events find nothing to do. *)
Theorem wheel_events_scroll_once (events : list (R * R))
    (s s' : ScrollView) :
  wheel_idle s →
  scrollBy (CNum (total_x events)) (CNum (total_y events)) s = Normal s' →
  fire_n false (length events) (wheel_events events s) = Normal s'.
Proof.
  intros (Hx & Hy & Hp) Hrun.
  assert (Hs' : with_wheel 0 0 0 s' = s').
  { pose proof (scrollTo_wheel_fields
                  (shifted (horizontalScrollOffset s)
                           (CNum (total_x events)))
                  (shifted (verticalScrollOffset s) (CNum (total_y events)))
                  s) as Hf.
    unfold scrollBy in Hrun. rewrite Hrun in Hf. simpl in Hf.
    destruct Hf as (F1 & F2 & F3).
    rewrite <- (with_wheel_same s') at 2. rewrite F1, F2, F3, Hx, Hy, Hp.
    reflexivity. }
  rewrite wheel_events_run, Hx, Hy, Hp, !Rplus_0_l, Nat.add_0_l.
  destruct events as [|e later].
  - simpl in *. rewrite scrollBy_zero in Hrun. injection Hrun as <-.
    f_equal. exact Hs'.
  - set (X := total_x (e :: later)) in *. set (Y := total_y (e :: later)) in *.
    simpl length. simpl fire_n. unfold fire. simpl pending.
    unfold _scroll_mouseWheel.
    change (with_wheel _ _ (length later)
              (with_wheel X Y (S (length later)) s))
      with (with_wheel X Y (length later) s).
    change (_scroll_wheelDeltaX (with_wheel X Y (length later) s)) with X.
    change (_scroll_wheelDeltaY (with_wheel X Y (length later) s)) with Y.
    rewrite scrollBy_with_wheel, Hrun. simpl.
    change (with_wheel 0 0 (length later)
              (with_wheel X Y (length later) s'))
      with (with_wheel 0 0 (length later) s').
    rewrite fire_idle. f_equal. exact Hs'.
Qed.

Lemma wheel_events_scroll_once_witness :
  (wheel_idle example
   ∧ scrollBy (CNum (total_x [(0, 30); (0, 50)]))
              (CNum (total_y [(0, 30); (0, 50)])) example
     = Normal (state_of
                 (scrollBy (CNum (total_x [(0, 30); (0, 50)]))
                           (CNum (total_y [(0, 30); (0, 50)])) example)))
  ∧ fire_n false (length [(0, 30); (0, 50)])
           (wheel_events [(0, 30); (0, 50)] example)
    = Normal (state_of
                (scrollBy (CNum (total_x [(0, 30); (0, 50)]))
                          (CNum (total_y [(0, 30); (0, 50)])) example)).
Proof.
  assert (H1 : wheel_idle example) by (repeat split).
  assert (H2 : scrollBy (CNum (total_x [(0, 30); (0, 50)]))
                        (CNum (total_y [(0, 30); (0, 50)])) example
               = Normal (state_of
                           (scrollBy (CNum (total_x [(0, 30); (0, 50)]))
                                     (CNum (total_y [(0, 30); (0, 50)]))
                                     example))).
  { unfold scrollBy, scrollTo, shifted. simpl.
    destruct (Req_dec_T (0 + (0 + 0)) 0);
      destruct (Req_dec_T (30 + (50 + 0)) 0); reflexivity. }
  split; [split; assumption|].
  exact (wheel_events_scroll_once [(0, 30); (0, 50)] example _ H1 H2).
Defined.

(** X30: with wheel momentum, the calls that a wheel event sets off come
    to an end: on a view whose geometry can be read, after finitely many
    scheduled calls the saved deltas are 0 again and no call is left
    scheduled, whatever the deltas of the event were. *)
Theorem wheel_momentum_stops (dx dy : R) (s : ScrollView) :
  sound s →
  wheel_idle s →
  ∃ n s', fire_n true n (mouseWheel dx dy s).2 = Normal s'
    ∧ wheel_idle s'
    ∧ same_geometry s s'.
Proof.
  intros Hs (Hx & Hy & Hp).
  set (s0 := (mouseWheel dx dy s).2).
  assert (Hg0 : same_geometry s s0) by (repeat split).
  assert (Hs0 : sound s0) by (eapply same_geometry_sound; eassumption).
  assert (Hp0 : pending s0 = 1%nat) by (simpl; rewrite Hp; reflexivity).
  destruct (fire_momentum s0 Hs0 Hp0) as (s1 & Hrun & Hs1 & Hg1 & Hcase).
  destruct Hcase as [[_ Hidle]|(Hp1 & z & Hz & _)].
  - exists 1%nat, s1. simpl. fold s0. rewrite Hrun.
    split; [reflexivity|]. split; [exact Hidle|].
    exact (same_geometry_trans _ _ _ Hg0 Hg1).
  - destruct (momentum_runs_out (Z.abs_nat z) s1 z (le_n _) Hs1 Hp1 Hz)
      as (n & s' & Hn & Hidle & Hg).
    exists (S n), s'. simpl. fold s0. rewrite Hrun.
    split; [exact Hn|]. split; [exact Hidle|].
    exact (same_geometry_trans _ _ _ Hg0 (same_geometry_trans _ _ _ Hg1 Hg)).
Qed.

Lemma wheel_momentum_stops_witness :
  (sound example ∧ wheel_idle example)
  ∧ ∃ n s', fire_n true n (mouseWheel 0 120 example).2 = Normal s'
      ∧ wheel_idle s'
      ∧ same_geometry example s'.
Proof.
  assert (H1 : sound example) by (split; eexists; reflexivity).
  assert (H2 : wheel_idle example) by (repeat split).
  split; [split; assumption|].
  exact (wheel_momentum_stops 0 120 example H1 H2).
Defined.

End ScrollAPITheorems.

(** ** The main pane and the key pane *)

Section PaneFacts.

Import Panes.

Lemma pop_candidate_accepts (env : PaneEnv) (from_top : list View) (c : View) :
  (pop_candidate env from_top).1 = Obj c →
  isPaneAttached env c = true ∧ acceptsKeyPane env c = true.
Proof.
  induction from_top as [|x l IH]; simpl; [discriminate|].
  destruct (isPaneAttached env x && acceptsKeyPane env x) eqn:E.
  - simpl. intros [= <-]. apply andb_true_iff in E. exact E.
  - exact IH.
Qed.

Lemma pop_candidate_skips (env : PaneEnv) (above below : list View)
    (c : View) :
  Forall (λ a, isPaneAttached env a && acceptsKeyPane env a = false) above →
  isPaneAttached env c && acceptsKeyPane env c = true →
  pop_candidate env (above ++ c :: below) = (Obj c, below).
Proof.
  intros Ha Hc. induction Ha as [|a above Hfail _ IH]; simpl.
  - rewrite Hc. reflexivity.
  - rewrite Hfail. exact IH.
Qed.

Lemma pop_candidate_none (env : PaneEnv) (from_top : list View) :
  Forall (λ a, isPaneAttached env a && acceptsKeyPane env a = false)
         from_top →
  pop_candidate env from_top = (Null, []).
Proof.
  intros Ha. induction Ha as [|a l Hfail _ IH]; simpl; [reflexivity|].
  rewrite Hfail. exact IH.
Qed.

Lemma install_keyPane (env : PaneEnv) (newKeyPane previousKeyPane : ref)
    (stack : list View) (r : Responder) :
  let chosen :=
    if truthy newKeyPane then newKeyPane
    else match mainPane r with
         | Obj m => if acceptsKeyPane env m then Obj m else newKeyPane
         | _ => newKeyPane
         end in
  let r' := install env newKeyPane previousKeyPane stack r in
  keyPane r' = chosen
  ∧ mainPane r' = mainPane r
  ∧ previousKeyPanes r' = stack
  ∧ told r'
    = told r
      ++ match previousKeyPane with
         | Obj p => [WillLoseKeyPaneTo p chosen]
         | _ => []
         end
      ++ match chosen with
         | Obj n => [WillBecomeKeyPaneFrom n previousKeyPane;
                     DidBecomeKeyPaneFrom n previousKeyPane]
         | _ => []
         end
      ++ match previousKeyPane with
         | Obj p => [DidLoseKeyPaneTo p chosen]
         | _ => []
         end.
Proof.
  intros chosen r'. subst r'. unfold install. fold chosen.
  destruct previousKeyPane as [| |p]; destruct chosen as [| |n]; simpl;
    rewrite ?app_nil_r, <- ?app_assoc; repeat split; reflexivity.
Qed.

End PaneFacts.

Section PaneTheorems.

Import Panes.

(** X18: [makeKeyPane] never installs a pane that refuses key focus:
    whatever pane is passed and whatever the stack of previous key panes
    holds, either the call changes nothing at all, or the key pane it
    leaves is [null], or it is a pane that accepts key focus. *)
Theorem key_pane_accepts (env : PaneEnv) (pane : ref) (r : Responder) :
  makeKeyPane env pane r = r
  ∨ keyPane (makeKeyPane env pane r) = Null
  ∨ ∃ p, keyPane (makeKeyPane env pane r) = Obj p
       ∧ acceptsKeyPane env p = true.
Proof.
  assert (Hfall : ∀ previousKeyPane stack found,
            (∀ c, found = Obj c → acceptsKeyPane env c = true) →
            found ≠ Undefined →
            keyPane (install env found previousKeyPane stack r) = Null
            ∨ ∃ p, keyPane (install env found previousKeyPane stack r) = Obj p
                 ∧ acceptsKeyPane env p = true).
  { intros previousKeyPane stack found Hfound Hdef.
    destruct (install_keyPane env found previousKeyPane stack r) as (-> & _).
    destruct found as [| |c]; simpl.
    - congruence.
    - destruct (mainPane r) as [| |m]; try (left; reflexivity).
      destruct (acceptsKeyPane env m) eqn:E; [|left; reflexivity].
      right. exists m. split; [reflexivity|exact E].
    - right. exists c. split; [reflexivity|]. apply Hfound. reflexivity. }
  assert (Hpop : ∀ l, (pop_candidate env l).1 ≠ Undefined).
  { intros l. induction l as [|x l IH]; simpl; [discriminate|].
    destruct (isPaneAttached env x && acceptsKeyPane env x);
      [discriminate|exact IH]. }
  destruct pane as [| |p]; simpl.
  - right. apply Hfall; [|apply Hpop].
    intros c Hc. apply (pop_candidate_accepts env _ c Hc).
  - right. apply Hfall; [|apply Hpop].
    intros c Hc. apply (pop_candidate_accepts env _ c Hc).
  - destruct (acceptsKeyPane env p) eqn:E; simpl; [|left; reflexivity].
    destruct (strict_eq (keyPane r) (Obj p)); [left; reflexivity|].
    right. apply Hfall; [|discriminate].
    intros c [= <-]. exact E.
Qed.

(** X19: making an accepting pane the key pane and then resigning with
    [makeKeyPane(null)] hands the key back: when the former key pane is
    still attached and accepts, it is the key pane again, the stack of
    previous key panes and the main pane are as before, and the two panes
    have been told, in this order, that they will lose and will become,
    did become and did lose, each way. *)
Theorem key_pane_round_trip (env : PaneEnv) (p k : View) (r : Responder) :
  keyPane r = Obj k →
  p ≠ k →
  acceptsKeyPane env p = true →
  acceptsKeyPane env k = true →
  isPaneAttached env k = true →
  let r1 := makeKeyPane env (Obj p) r in
  let r2 := makeKeyPane env Null r1 in
  keyPane r1 = Obj p
  ∧ previousKeyPanes r1 = previousKeyPanes r ++ [k]
  ∧ keyPane r2 = Obj k
  ∧ previousKeyPanes r2 = previousKeyPanes r
  ∧ mainPane r2 = mainPane r
  ∧ told r2
    = told r
      ++ [WillLoseKeyPaneTo k (Obj p); WillBecomeKeyPaneFrom p (Obj k);
          DidBecomeKeyPaneFrom p (Obj k); DidLoseKeyPaneTo k (Obj p);
          WillLoseKeyPaneTo p (Obj k); WillBecomeKeyPaneFrom k (Obj p);
          DidBecomeKeyPaneFrom k (Obj p); DidLoseKeyPaneTo p (Obj k)].
Proof.
  intros Hk Hne Hp Hak Hat r1 r2.
  assert (E1 : r1 = install env (Obj p) (Obj k) (previousKeyPanes r ++ [k]) r).
  { subst r1. unfold makeKeyPane. rewrite Hp, Hk. simpl.
    unfold strict_eq. rewrite bool_decide_eq_false_2 by congruence.
    reflexivity. }
  destruct (install_keyPane env (Obj p) (Obj k) (previousKeyPanes r ++ [k]) r)
    as (K1 & M1 & S1 & T1).
  rewrite <- E1 in K1, M1, S1, T1. simpl in K1, T1.
  assert (E2 : r2 = install env (Obj k) (Obj p) (previousKeyPanes r) r1).
  { subst r2. unfold makeKeyPane. rewrite S1, K1, rev_app_distr. simpl.
    rewrite Hat, Hak. simpl. rewrite rev_involutive. reflexivity. }
  destruct (install_keyPane env (Obj k) (Obj p) (previousKeyPanes r) r1)
    as (K2 & M2 & S2 & T2).
  rewrite <- E2 in K2, M2, S2, T2. simpl in K2, T2.
  repeat split; try assumption.
  - congruence.
  - rewrite T2, T1, <- !app_assoc. reflexivity.
Qed.

Lemma key_pane_round_trip_witness :
  (keyPane (makeKeyPane all_willing (Obj 1%positive) start) = Obj 1%positive
   ∧ 2%positive ≠ 1%positive
   ∧ acceptsKeyPane all_willing 2%positive = true
   ∧ acceptsKeyPane all_willing 1%positive = true
   ∧ isPaneAttached all_willing 1%positive = true)
  ∧ keyPane (makeKeyPane all_willing Null
               (makeKeyPane all_willing (Obj 2%positive)
                  (makeKeyPane all_willing (Obj 1%positive) start)))
    = Obj 1%positive.
Proof.
  split; [repeat split; discriminate|].
  exact (proj1 (proj2 (proj2
           (key_pane_round_trip all_willing 2%positive 1%positive
              (makeKeyPane all_willing (Obj 1%positive) start)
              eq_refl ltac:(discriminate) eq_refl eq_refl eq_refl)))).
Defined.

(** [makeKeyPane(null)] gives the key to the topmost previous key
    pane that is attached and accepts key focus; the panes above it in the
    stack, which are detached or refuse, are dropped from the stack with
    it, and the panes below it stay. *)
Theorem resign_skips_unfit_panes (env : PaneEnv) (pane : ref)
    (below above : list View) (c : View) (r : Responder) :
  truthy pane = false →
  previousKeyPanes r = below ++ c :: above →
  Forall (λ a, isPaneAttached env a && acceptsKeyPane env a = false) above →
  isPaneAttached env c = true →
  acceptsKeyPane env c = true →
  keyPane (makeKeyPane env pane r) = Obj c
  ∧ previousKeyPanes (makeKeyPane env pane r) = below
  ∧ mainPane (makeKeyPane env pane r) = mainPane r.
Proof.
  intros Hpane Hstack Habove Hat Hacc.
  assert (Hpop : pop_candidate env (rev (previousKeyPanes r))
                 = (Obj c, rev below)).
  { rewrite Hstack, rev_app_distr. simpl. rewrite <- app_assoc. simpl.
    apply pop_candidate_skips.
    - apply List.Forall_forall. intros a Ha. apply in_rev in Ha.
      rewrite List.Forall_forall in Habove. apply Habove. exact Ha.
    - rewrite Hat, Hacc. reflexivity. }
  assert (E : makeKeyPane env pane r
              = install env (Obj c) (keyPane r) below r).
  { unfold makeKeyPane. destruct pane; try discriminate;
      rewrite Hpop; simpl; rewrite rev_involutive; reflexivity. }
  rewrite E.
  destruct (install_keyPane env (Obj c) (keyPane r) below r)
    as (K & M & S & _).
  repeat split; assumption.
Qed.

Lemma resign_skips_unfit_panes_witness :
  (truthy Null = false
   ∧ previousKeyPanes (mkResponder Null (Obj 4%positive)
                                   [1%positive; 2%positive; 3%positive] [])
     = [1%positive] ++ 2%positive :: [3%positive]
   ∧ Forall (λ a, isPaneAttached
                    (mkPaneEnv (λ _, true)
                               (λ a, negb (Pos.eqb a 3%positive))) a
                  && acceptsKeyPane
                       (mkPaneEnv (λ _, true)
                                  (λ a, negb (Pos.eqb a 3%positive))) a
                  = false) [3%positive])
  ∧ keyPane (makeKeyPane
               (mkPaneEnv (λ _, true) (λ a, negb (Pos.eqb a 3%positive)))
               Null
               (mkResponder Null (Obj 4%positive)
                            [1%positive; 2%positive; 3%positive] []))
    = Obj 2%positive
  ∧ previousKeyPanes
      (makeKeyPane
         (mkPaneEnv (λ _, true) (λ a, negb (Pos.eqb a 3%positive)))
         Null
         (mkResponder Null (Obj 4%positive)
                      [1%positive; 2%positive; 3%positive] []))
    = [1%positive]
  ∧ mainPane
      (makeKeyPane
         (mkPaneEnv (λ _, true) (λ a, negb (Pos.eqb a 3%positive)))
         Null
         (mkResponder Null (Obj 4%positive)
                      [1%positive; 2%positive; 3%positive] []))
    = mainPane (mkResponder Null (Obj 4%positive)
                            [1%positive; 2%positive; 3%positive] []).
Proof.
  assert (H : Forall (λ a, isPaneAttached
                    (mkPaneEnv (λ _, true)
                               (λ a, negb (Pos.eqb a 3%positive))) a
                  && acceptsKeyPane
                       (mkPaneEnv (λ _, true)
                                  (λ a, negb (Pos.eqb a 3%positive))) a
                  = false) [3%positive]).
  { repeat constructor. }
  split; [repeat split; exact H|].
  exact (resign_skips_unfit_panes
           (mkPaneEnv (λ _, true) (λ a, negb (Pos.eqb a 3%positive)))
           Null [1%positive] [3%positive] 2%positive
           (mkResponder Null (Obj 4%positive)
                        [1%positive; 2%positive; 3%positive] [])
           eq_refl eq_refl H eq_refl eq_refl).
Defined.

(** X20: when the main pane is the key pane, or there is neither, a new
    main pane that accepts key focus takes the key with it: after
    [makeMainPane(pane)] the pane is main and key, the old main pane is on
    top of the stack of previous key panes, and the key is handed over
    before the panes are told of the change of main pane. *)
Theorem new_main_pane_takes_key (env : PaneEnv) (p : View) (r : Responder) :
  keyPane r = mainPane r →
  mainPane r ≠ Obj p →
  acceptsKeyPane env p = true →
  let r' := makeMainPane env (Obj p) r in
  mainPane r' = Obj p
  ∧ keyPane r' = Obj p
  ∧ previousKeyPanes r'
    = previousKeyPanes r
      ++ match mainPane r with
         | Obj m => [m]
         | _ => []
         end
  ∧ told r'
    = told r
      ++ match mainPane r with
         | Obj m => [WillLoseKeyPaneTo m (Obj p)]
         | _ => []
         end
      ++ [WillBecomeKeyPaneFrom p (mainPane r);
          DidBecomeKeyPaneFrom p (mainPane r)]
      ++ match mainPane r with
         | Obj m => [DidLoseKeyPaneTo m (Obj p); BlurMainTo m (Obj p)]
         | _ => []
         end
      ++ [FocusMainFrom p (mainPane r)].
Proof.
  intros Hkey Hne Hacc r'. subst r'. unfold makeMainPane.
  assert (B1 : strict_eq (mainPane r) (Obj p) = false)
    by (unfold strict_eq; apply bool_decide_eq_false_2; assumption).
  assert (B2 : strict_eq (keyPane r) (mainPane r) = true)
    by (unfold strict_eq; apply bool_decide_eq_true_2; assumption).
  rewrite B1, B2.
  assert (E : makeKeyPane env (Obj p) r
              = install env (Obj p) (mainPane r)
                  (previousKeyPanes r
                   ++ match mainPane r with Obj m => [m] | _ => [] end) r).
  { unfold makeKeyPane. rewrite Hacc, Hkey, B1. simpl.
    destruct (mainPane r); rewrite ?app_nil_r; reflexivity. }
  rewrite E.
  destruct (install_keyPane env (Obj p) (mainPane r)
              (previousKeyPanes r
               ++ match mainPane r with Obj m => [m] | _ => [] end) r)
    as (K & M & S & T).
  simpl in K, T.
  set (r1 := install env (Obj p) (mainPane r) _ r) in *.
  clearbody r1.
  destruct (mainPane r) as [| |m]; simpl;
    rewrite ?K, ?S, ?T; simpl; rewrite <- ?app_assoc;
    repeat split; reflexivity.
Qed.

Lemma new_main_pane_takes_key_witness :
  (keyPane start = mainPane start
   ∧ mainPane start ≠ Obj 1%positive
   ∧ acceptsKeyPane all_willing 1%positive = true)
  ∧ mainPane (makeMainPane all_willing (Obj 1%positive) start)
    = Obj 1%positive
  ∧ keyPane (makeMainPane all_willing (Obj 1%positive) start)
    = Obj 1%positive.
Proof.
  split; [repeat split; discriminate|].
  pose proof (new_main_pane_takes_key all_willing 1%positive start
                eq_refl ltac:(discriminate) eq_refl) as H.
  exact (conj (proj1 H) (proj1 (proj2 H))).
Defined.

End PaneTheorems.

(** ** touchstart *)

Section TouchStartFacts.

Context {num : Type}.
Variable env : ViewEnv num.

Local Abbreviation World := (World num).
Local Abbreviation M := (M num).

Lemma only_touch_refl (t : TouchRef) (w : World) : only_touch t w w.
Proof.
  repeat split. exists []. split; [symmetry; apply app_nil_r|].
  apply not_elem_of_nil.
Qed.

Lemma only_touch_trans (t : TouchRef) (w1 w2 w3 : World) :
  only_touch t w1 w2 → only_touch t w2 w3 → only_touch t w1 w3.
Proof.
  intros (A1 & A2 & A3 & A4 & evs1 & A5 & A6)
         (B1 & B2 & B3 & B4 & evs2 & B5 & B6).
  repeat split; try congruence.
  - intros t' Hne. rewrite B1, A1 by assumption. reflexivity.
  - exists (evs1 ++ evs2). split.
    + rewrite B5, A5, app_assoc. reflexivity.
    + intros H. apply elem_of_app in H. destruct H; contradiction.
Qed.

Lemma bind_only {A B} (t : TouchRef) (m : M A) (k : A → M B) (w : World) :
  only_touch t w (m w).2 →
  (∀ a w1, m w = (Ret a, w1) → only_touch t w1 (k a w1).2) →
  only_touch t w (bind m k w).2.
Proof.
  intros Hm Hk. unfold bind.
  destruct (m w) as [[a| |] w1] eqn:E; simpl in *; try exact Hm.
  eapply only_touch_trans; [exact Hm|]. apply Hk. reflexivity.
Qed.

Lemma with_heap_only (t : TouchRef) (f : Touch num → Touch num) (w : World) :
  only_touch t w (with_heap t f w).
Proof.
  repeat split.
  - intros t' Hne. simpl.
    rewrite fn_lookup_insert_ne by congruence. reflexivity.
  - exists []. split; [symmetry; apply app_nil_r|apply not_elem_of_nil].
Qed.

Lemma with_log_only (t : TouchRef) (e : event) (w : World) :
  e ≠ Warned → only_touch t w (with_log e w).
Proof.
  intros He. repeat split. exists [e]. split; [reflexivity|].
  intros H. apply list_elem_of_singleton in H. congruence.
Qed.

Lemma unassignTouch_only (t : TouchRef) (w : World) :
  only_touch t w (unassignTouch t w).2.
Proof.
  destruct (view (heap w t)) as [| |v] eqn:Hview.
  1,2: rewrite unassignTouch_no_view by (rewrite Hview; reflexivity);
       apply only_touch_refl.
  destruct (_touchedViews w !! v) as [e|] eqn:He.
  - pose proof (unassignTouch_settles t w) as [_ Hd].
    assert (Hc : touchViewsCleared (unassignTouch t w).2
                 = touchViewsCleared w).
    { unfold unassignTouch. rewrite bind_gets, Hview, bind_gets, He.
      rewrite bind_modify.
      destruct (_ <? 1); simpl; unfold set_hasTouch, emit;
        rewrite ?bind_assoc, ?bind_modify; reflexivity. }
    destruct (unassignTouch_run t v e w Hview He)
      as (w' & Hrun & _ & Hheap & _ & Hlog & Hreg).
    rewrite Hrun in *. simpl in *.
    repeat split; simpl; try assumption.
    + intros t' Hne. rewrite Hheap.
      rewrite fn_lookup_insert_ne by congruence. reflexivity.
    + eexists. split; [exact Hlog|].
      destruct (_ <? 1); [|apply not_elem_of_nil].
      intros H. apply list_elem_of_singleton in H. discriminate.
  - rewrite (unassignTouch_throws t v w Hview He). apply only_touch_refl.
Qed.

Lemma assignTouch_only (t : TouchRef) (v : View) (w : World) :
  only_touch t w (assignTouch t v w).2.
Proof.
  destruct (assignTouch_run t v w)
    as (w' & Hrun & _ & Hheap & _ & Hlog & Hreg).
  assert (Hdepth : runLoopDepth (assignTouch t v w).2 = runLoopDepth w
                   ∧ touchViewsCleared (assignTouch t v w).2
                     = touchViewsCleared w).
  { unfold assignTouch. rewrite bind_gets.
    destruct (bool_decide (_touchedViews w !! v = None)); simpl;
      unfold set_hasTouch, emit;
      rewrite ?bind_assoc, ?bind_modify; split; reflexivity. }
  rewrite Hrun in *. simpl in *. destruct Hdepth as [Hd Hc].
  repeat split; try assumption.
  - intros t' Hne. rewrite Hheap.
    rewrite fn_lookup_insert_ne by congruence. reflexivity.
  - eexists. split; [exact Hlog|].
    destruct (_touchedViews w !! v); [apply not_elem_of_nil|].
    intros H. apply list_elem_of_singleton in H. discriminate.
Qed.

Lemma notify_only (c : bool) (a : action) (v : View) (t : TouchRef)
    (w : World) :
  only_touch t w (when c (_ <- tryToPerform env a v t ;; ret ()) w).2.
Proof.
  destruct c; simpl; [|apply only_touch_refl].
  unfold bind. pose proof (tryToPerform_state env a v t w) as Hst.
  destruct (tryToPerform env a v t w) as [[b| |] w1]; simpl in *; subst;
    apply with_log_only; discriminate.
Qed.

Lemma pop_responders_only (fuel : nat) (t : TouchRef) (responder : ref)
    (stack : list View) (idx : Z) (last : ref) (w : World) :
  only_touch t w (pop_responders env fuel t responder stack idx last w).2.
Proof.
  revert stack idx last w.
  induction fuel as [|fuel IH]; intros stack idx last w;
    destruct last as [| |l]; simpl; try apply only_touch_refl;
    destruct (strict_eq (Obj l) responder); try apply only_touch_refl.
  rewrite bind_gets.
  apply bind_only; [apply notify_only|].
  intros [] w1 Hw1. rewrite bind_modify.
  eapply only_touch_trans; [|apply IH]. apply with_heap_only.
Qed.

Lemma makeTouchResponder_only (t : TouchRef) (responder : ref)
    (shouldStack : bool) (w : World) :
  only_touch t w (makeTouchResponder env t responder shouldStack w).2.
Proof.
  unfold makeTouchResponder. rewrite bind_gets, bind_gets.
  destruct (strict_eq _ responder); [apply only_touch_refl|].
  apply bind_only.
  { rewrite sendEvent_touchStart_state. apply with_log_only. discriminate. }
  intros r w1 Hw1. rewrite bind_gets.
  destruct (strict_eq _ r); [apply only_touch_refl|].
  apply bind_only; [apply unassignTouch_only|].
  intros [] w2 Hw2.
  destruct (touchResponders (heap w t)) as [stack|]; [|apply only_touch_refl].
  apply bind_only.
  { destruct (negb shouldStack || _).
    - apply pop_responders_only.
    - apply only_touch_refl. }
  intros stack3 w3 Hw3.
  destruct r as [| |v]; try apply only_touch_refl.
  apply bind_only; [apply assignTouch_only|].
  intros [] w4 Hw4. apply with_heap_only.
Qed.

Lemma capture_loop_only (t : TouchRef) (shouldStack : bool)
    (chain : list View) (w : World) :
  only_touch t w (capture_loop env t shouldStack chain w).2.
Proof.
  revert w. induction chain as [|v rest IH]; intros w; simpl.
  - apply only_touch_refl.
  - apply bind_only.
    { rewrite tryToPerform_state. apply with_log_only. discriminate. }
    intros captured w1 Hw1. destruct captured; [|apply IH].
    apply bind_only; [apply makeTouchResponder_only|].
    intros [] w2 Hw2. apply only_touch_refl.
Qed.

Lemma captureTouch_only (fuel : nat) (t : TouchRef) (sp : ref)
    (shouldStack : bool) (w : World) :
  only_touch t w (captureTouch env fuel t sp shouldStack w).2.
Proof.
  unfold captureTouch. rewrite bind_gets.
  destruct (responder_chain env fuel _ sp []) as [chain|];
    [|apply only_touch_refl].
  apply bind_only; [apply capture_loop_only|].
  intros captured w1 Hw1. destruct captured; [apply only_touch_refl|].
  apply makeTouchResponder_only.
Qed.

(** The calls come back: they return or throw within their fuel. *)
Lemma bind_finished {A B} (m : M A) (k : A → M B) (w : World) :
  (m w).1 ≠ OutOfFuel →
  (∀ a w1, m w = (Ret a, w1) → (k a w1).1 ≠ OutOfFuel) →
  (bind m k w).1 ≠ OutOfFuel.
Proof.
  intros Hm Hk. unfold bind.
  destruct (m w) as [[a| |] w1] eqn:E; simpl in *;
    [apply Hk; reflexivity|discriminate|congruence].
Qed.

Lemma notify_finished (c : bool) (a : action) (v : View) (t : TouchRef)
    (w : World) :
  (when c (_ <- tryToPerform env a v t ;; ret ()) w).1 ≠ OutOfFuel.
Proof.
  destruct c; simpl; [|discriminate].
  apply bind_finished; [apply (tryToPerform_settles env a v t w)|].
  intros; discriminate.
Qed.

Lemma pop_responders_finished (t : TouchRef) (responder : ref)
    (stack : list View) :
  ∀ fuel w, (length stack ≤ fuel)%nat →
    (pop_responders env fuel t responder stack (len stack - 1)
                    (at_index stack (len stack - 1)) w).1 ≠ OutOfFuel.
Proof.
  induction stack as [|x pre IH] using rev_ind; intros fuel w Hfuel.
  - destruct fuel; simpl; discriminate.
  - rewrite at_index_top.
    rewrite length_app in Hfuel. simpl in Hfuel.
    destruct fuel as [|fuel]; [lia|]. simpl.
    destruct (strict_eq (Obj x) responder); [discriminate|].
    rewrite bind_gets.
    apply bind_finished; [apply notify_finished|].
    intros [] w1 _. rewrite bind_modify.
    rewrite pop_app_one, len_app_one.
    replace (len pre + 1 - 1 - 1)%Z with (len pre - 1)%Z by lia.
    rewrite at_index_app_l by (unfold len; lia).
    apply IH. lia.
Qed.

Lemma makeTouchResponder_finished (t : TouchRef) (responder : ref)
    (shouldStack : bool) (w : World) :
  (makeTouchResponder env t responder shouldStack w).1 ≠ OutOfFuel.
Proof.
  unfold makeTouchResponder. rewrite bind_gets, bind_gets.
  destruct (strict_eq _ responder); [discriminate|].
  apply bind_finished.
  { unfold sendEvent_touchStart, emit. rewrite bind_modify, bind_get.
    destruct (sendTouchStart env _ t responder); discriminate. }
  intros r w1 _. rewrite bind_gets.
  destruct (strict_eq _ r); [discriminate|].
  apply bind_finished; [apply (unassignTouch_settles t w1)|].
  intros [] w2 _.
  destruct (touchResponders (heap w t)) as [stack|]; [|discriminate].
  apply bind_finished.
  { destruct (negb shouldStack || _); [|discriminate].
    apply pop_responders_finished. lia. }
  intros stack3 w3 _.
  destruct r as [| |v]; try discriminate.
  apply bind_finished.
  { destruct (assignTouch_run t v w3) as (w4 & -> & _). discriminate. }
  intros [] w4 _. discriminate.
Qed.

Lemma capture_loop_finished (t : TouchRef) (shouldStack : bool)
    (chain : list View) (w : World) :
  (capture_loop env t shouldStack chain w).1 ≠ OutOfFuel.
Proof.
  revert w. induction chain as [|v rest IH]; intros w; simpl.
  - discriminate.
  - apply bind_finished; [apply (tryToPerform_settles env _ v t w)|].
    intros captured w1 _. destruct captured; [|apply IH].
    apply bind_finished; [apply makeTouchResponder_finished|].
    intros; discriminate.
Qed.

Lemma captureTouch_finished (fuel : nat) (t : TouchRef) (sp : ref)
    (shouldStack : bool) (w : World) :
  responder_chain env fuel (targetView (heap w t)) sp [] ≠ None →
  (captureTouch env fuel t sp shouldStack w).1 ≠ OutOfFuel.
Proof.
  intros Hchain. unfold captureTouch. rewrite bind_gets.
  destruct (responder_chain env fuel _ sp []) as [chain|]; [|congruence].
  apply bind_finished; [apply capture_loop_finished|].
  intros captured w1 _. destruct captured; [discriminate|].
  apply makeTouchResponder_finished.
Qed.

(** One changed touch of [touchstart]. *)
Lemma start_touch_facts (fuel : nat) (ts : num) (nt : NewTouch (num := num))
    (w : World) :
  responder_chain env fuel (nt_targetView nt) Undefined [] ≠ None →
  let r := start_touch env fuel ts nt w in
  r.1 ≠ OutOfFuel
  ∧ _touches r.2 = <[raw_identifier (nt_touch nt) := nt_entry nt]> (_touches w)
  ∧ (∀ t', t' ≠ nt_entry nt → heap r.2 t' = heap w t')
  ∧ touchViewsCleared r.2 = touchViewsCleared w
  ∧ (∃ evs, log r.2 = log w ++ evs ∧ (Warned ∉ evs))
  ∧ (index_inv w → view (heap w (nt_entry nt)) = Undefined → index_inv r.2).
Proof.
  intros Hchain r. subst r. unfold start_touch.
  rewrite bind_modify, bind_modify.
  set (w0 := with_touches _ (with_heap _ _ w)).
  assert (Htarget : targetView (heap w0 (nt_entry nt)) = nt_targetView nt).
  { subst w0. simpl. rewrite fn_lookup_insert. reflexivity. }
  destruct (captureTouch_only fuel (nt_entry nt) Undefined false w0)
    as (F1 & F2 & _ & F4 & F5).
  split; [apply captureTouch_finished; rewrite Htarget; exact Hchain|].
  split; [rewrite F2; reflexivity|].
  split.
  { intros t' Hne. rewrite F1 by assumption. subst w0. simpl.
    rewrite fn_lookup_insert_ne by congruence. reflexivity. }
  split; [rewrite F4; reflexivity|].
  split; [exact F5|].
  intros Hinv Hfresh. apply captureTouch_keeps_index.
  eapply index_inv_same; [|exact Hinv].
  subst w0. repeat split. intros t'. simpl.
  destruct (decide (t' = nt_entry nt)) as [->|Hne].
  - rewrite fn_lookup_insert, Hfresh. reflexivity.
  - rewrite fn_lookup_insert_ne by congruence. reflexivity.
Qed.

Lemma start_touches_facts (fuel : nat) (ts : num)
    (touches : list (NewTouch (num := num))) :
  ∀ w,
    (∀ nt, nt ∈ touches →
       responder_chain env fuel (nt_targetView nt) Undefined [] ≠ None) →
    let r := start_touches env fuel ts touches w in
    r.1 ≠ OutOfFuel
    ∧ touchViewsCleared r.2 = touchViewsCleared w
    ∧ (∃ evs, log r.2 = log w ++ evs ∧ (Warned ∉ evs))
    ∧ (∃ k, (k ≤ length touches)%nat
          ∧ _touches r.2 = mapped (take k touches) (_touches w)
          ∧ (r.1 = Ret tt → k = length touches)
          ∧ (r.1 = Thrown → (0 < k)%nat))
    ∧ (index_inv w →
       NoDup (map nt_entry touches) →
       (∀ nt, nt ∈ touches → view (heap w (nt_entry nt)) = Undefined) →
       index_inv r.2).
Proof.
  induction touches as [|nt rest IH]; intros w Hchain; simpl.
  - split; [discriminate|]. split; [reflexivity|].
    split; [exists []; split; [symmetry; apply app_nil_r|apply not_elem_of_nil]|].
    split; [exists 0%nat; repeat split; intros; try lia; discriminate|].
    intros; assumption.
  - destruct (start_touch_facts fuel ts nt w (Hchain nt ltac:(left)))
      as (S1 & S2 & S3 & S4 & (evs1 & S5 & S6) & S7).
    unfold bind.
    destruct (start_touch env fuel ts nt w) as [[[]| |] w1] eqn:E;
      simpl in S1, S2, S3, S4, S5, S7; [| |congruence].
    + destruct (IH w1 ltac:(intros nt' Hnt'; apply Hchain; right; exact Hnt'))
        as (I1 & I2 & (evs2 & I3 & I4) & (k & I5 & I6 & I7 & I8) & I9).
      split; [exact I1|]. split; [congruence|].
      split.
      { exists (evs1 ++ evs2). split.
        - rewrite I3, S5, app_assoc. reflexivity.
        - intros H. apply elem_of_app in H. destruct H; contradiction. }
      split.
      { exists (S k). split; [simpl; lia|]. simpl.
        unfold mapped in *. simpl. rewrite I6, S2.
        repeat split; intros H; [rewrite (I7 H); reflexivity|lia]. }
      intros Hinv Hnodup Hfresh.
      apply list.NoDup_cons in Hnodup. destruct Hnodup as [Hnotin Hnodup].
      apply I9; [|exact Hnodup|].
      * apply S7; [exact Hinv|]. apply Hfresh. left.
      * intros nt' Hnt'. rewrite S3.
        -- apply Hfresh. right. exact Hnt'.
        -- intros Heq. apply Hnotin. rewrite <- Heq.
           apply list_elem_of_In, in_map, list_elem_of_In. exact Hnt'.
    + simpl. split; [discriminate|]. split; [exact S4|].
      split; [exists evs1; split; assumption|].
      split.
      { exists 1%nat. split; [simpl; lia|]. simpl.
        unfold mapped. simpl. rewrite S2.
        repeat split; intros H; [discriminate|lia]. }
      intros Hinv Hnodup Hfresh. apply S7; [exact Hinv|].
      apply Hfresh. left.
Qed.

Lemma touchstart_index (fuel : nat) (touches : list (NewTouch (num := num)))
    (timeStamp : num) (w : World) :
  (∀ nt, nt ∈ touches →
     responder_chain env fuel (nt_targetView nt) Undefined [] ≠ None) →
  index_inv w →
  NoDup (map nt_entry touches) →
  (∀ nt, nt ∈ touches → view (heap w (nt_entry nt)) = Undefined) →
  index_inv (touchstart env fuel touches timeStamp w).2.
Proof.
  intros Hchain Hinv Hnodup Hfresh.
  destruct (start_touches_facts fuel timeStamp touches w Hchain)
    as (F1 & _ & _ & _ & F9).
  specialize (F9 Hinv Hnodup Hfresh).
  unfold touchstart, try_catch.
  destruct (start_touches env fuel timeStamp touches w) as [[[]| |] w1] eqn:E;
    simpl in F1, F9; [| |congruence].
  - rewrite (bind_run _ _ w w1 tt E). exact F9.
  - rewrite (bind_thrown _ _ w w1 E).
    unfold emit, RunLoop_end. rewrite !bind_modify. simpl.
    eapply index_inv_same; [|exact F9]. repeat split.
Qed.

(** The first offer of a touch that has no responder yet. *)
Lemma first_offer_run (t : TouchRef) (target a : ref) (w : World) :
  touchResponder (heap w t) = Undefined →
  touchResponders (heap w t) = Some [] →
  nextTouchResponder (heap w t) = Undefined →
  view (heap w t) = Undefined →
  target ≠ Undefined →
  (∀ w0, sendTouchStart env w0 t target = Returns a) →
  ∃ w', makeTouchResponder env t target false w = (Ret tt, w')
    ∧ offered_once a (heap w' t)
    ∧ (∀ nt ts, created nt ts (heap w t) → created nt ts (heap w' t))
    ∧ ∃ evs, log w' = log w ++ SentTouchStart t target :: evs.
Proof.
  intros Hcur Hstack Hnext Hview Hne Hsend.
  unfold makeTouchResponder. rewrite bind_gets, bind_gets, Hcur, Hstack.
  assert (Hs : strict_eq Undefined target = false)
    by (apply bool_decide_eq_false_2; congruence).
  rewrite Hs. unfold sendEvent_touchStart, emit.
  rewrite bind_assoc, bind_modify, bind_assoc, bind_get, Hsend, bind_ret.
  set (w1 := with_log (SentTouchStart t target) w).
  rewrite bind_gets.
  change (touchResponder (heap w1 t)) with (touchResponder (heap w t)).
  rewrite Hcur.
  destruct a as [| |r].
  - exists w1. split; [reflexivity|].
    split; [repeat split; assumption|].
    split; [intros nt ts H; exact H|]. exists []. reflexivity.
  - exists w1. unfold strict_eq.
    rewrite (bool_decide_eq_false_2 (Undefined = Null)) by discriminate.
    rewrite (bind_run _ _ _ _ _ (unassignTouch_no_view t w1
                                   ltac:(simpl; rewrite Hview; reflexivity))).
    simpl. split; [reflexivity|].
    split; [repeat split; assumption|].
    split; [intros nt ts H; exact H|]. exists []. reflexivity.
  - unfold strict_eq.
    rewrite (bool_decide_eq_false_2 (Undefined = Obj r)) by discriminate.
    rewrite (bind_run _ _ _ _ _ (unassignTouch_no_view t w1
                                   ltac:(simpl; rewrite Hview; reflexivity))).
    simpl.
    destruct (assignTouch_run t r w1)
      as (w2 & Hrun2 & _ & Hheap2 & _ & Hlog2 & _).
    rewrite bind_ret.
    rewrite (bind_run _ _ _ _ _ Hrun2).
    eexists. split; [reflexivity|]. simpl. rewrite fn_lookup_insert.
    rewrite Hheap2, fn_lookup_insert. simpl.
    split; [repeat split|].
    split; [intros nt ts H; exact H|].
    eexists. rewrite Hlog2. unfold w1. simpl. rewrite <- app_assoc.
    reflexivity.
Qed.

Lemma first_offer_throws (t : TouchRef) (target : ref) (w : World) :
  touchResponder (heap w t) = Undefined →
  target ≠ Undefined →
  (∀ w0, sendTouchStart env w0 t target = Throws) →
  ∃ w', makeTouchResponder env t target false w = (Thrown, w')
    ∧ heap w' = heap w
    ∧ log w' = log w ++ [SentTouchStart t target].
Proof.
  intros Hcur Hne Hsend.
  unfold makeTouchResponder. rewrite bind_gets, bind_gets, Hcur.
  assert (Hs : strict_eq Undefined target = false)
    by (apply bool_decide_eq_false_2; congruence).
  rewrite Hs. unfold sendEvent_touchStart, emit.
  rewrite bind_assoc, bind_modify, bind_assoc, bind_get, Hsend.
  eexists. repeat split.
Qed.

(** A changed touch that no view captures is offered to its target. *)
Lemma start_touch_offers (fuel : nat) (ts : num) (nt : NewTouch (num := num))
    (w : World) :
  responder_chain env fuel (nt_targetView nt) Undefined [] ≠ None →
  (∀ w0 v, perform env w0 CaptureTouch v (nt_entry nt) = Returns false) →
  ∃ w0, start_touch env fuel ts nt w
        = makeTouchResponder env (nt_entry nt) (nt_targetView nt) false w0
    ∧ heap w0 (nt_entry nt)
      = SC_Touch (raw_identifier (nt_touch nt)) (nt_targetView nt)
                 (raw_pageX (nt_touch nt)) (raw_pageY (nt_touch nt)) ts
    ∧ ∃ evs, log w0 = log w ++ evs.
Proof.
  intros Hchain Hno. unfold start_touch. rewrite bind_modify, bind_modify.
  set (w0 := with_touches _ (with_heap _ _ w)).
  assert (Hobj : heap w0 (nt_entry nt)
                 = SC_Touch (raw_identifier (nt_touch nt)) (nt_targetView nt)
                     (raw_pageX (nt_touch nt)) (raw_pageY (nt_touch nt)) ts).
  { subst w0. simpl. rewrite fn_lookup_insert. reflexivity. }
  destruct (responder_chain env fuel (nt_targetView nt) Undefined [])
    as [chain|] eqn:E; [|congruence].
  destruct (captureTouch_fallback env fuel (nt_entry nt) Undefined false
              chain w0) as (w1 & Hrun & Hlog & Hheap & _).
  { rewrite Hobj. exact E. }
  { intros w' v _. apply Hno. }
  exists w1. rewrite Hrun, Hheap, Hobj. split; [reflexivity|].
  split; [reflexivity|]. eexists. exact Hlog.
Qed.

Lemma start_touch_run (fuel : nat) (ts : num) (nt : NewTouch (num := num))
    (a : ref) (w : World) :
  nt_targetView nt ≠ Undefined →
  responder_chain env fuel (nt_targetView nt) Undefined [] ≠ None →
  (∀ w0 v, perform env w0 CaptureTouch v (nt_entry nt) = Returns false) →
  (∀ w0, sendTouchStart env w0 (nt_entry nt) (nt_targetView nt)
         = Returns a) →
  ∃ w', start_touch env fuel ts nt w = (Ret tt, w')
    ∧ created nt ts (heap w' (nt_entry nt))
    ∧ offered_once a (heap w' (nt_entry nt))
    ∧ ∃ evs, log w' = log w ++ evs
        ∧ SentTouchStart (nt_entry nt) (nt_targetView nt) ∈ evs.
Proof.
  intros Hne Hchain Hno Hsend.
  destruct (start_touch_offers fuel ts nt w Hchain Hno)
    as (w0 & -> & Hobj & evs0 & Hlog0).
  destruct (first_offer_run (nt_entry nt) (nt_targetView nt) a w0)
    as (w' & Hrun & Hoff & Hcre & evs1 & Hlog1); try assumption;
    try (rewrite Hobj; reflexivity).
  exists w'. split; [exact Hrun|].
  split; [apply Hcre; rewrite Hobj; repeat split|].
  split; [exact Hoff|].
  eexists. split; [rewrite Hlog1, Hlog0, <- app_assoc; reflexivity|].
  apply elem_of_app. right. left.
Qed.

Lemma start_touch_throws (fuel : nat) (ts : num) (nt : NewTouch (num := num))
    (w : World) :
  nt_targetView nt ≠ Undefined →
  responder_chain env fuel (nt_targetView nt) Undefined [] ≠ None →
  (∀ w0 v, perform env w0 CaptureTouch v (nt_entry nt) = Returns false) →
  (∀ w0, sendTouchStart env w0 (nt_entry nt) (nt_targetView nt) = Throws) →
  ∃ w', start_touch env fuel ts nt w = (Thrown, w')
    ∧ created nt ts (heap w' (nt_entry nt))
    ∧ offered_once Undefined (heap w' (nt_entry nt))
    ∧ ∃ evs, log w' = log w ++ evs
        ∧ SentTouchStart (nt_entry nt) (nt_targetView nt) ∈ evs.
Proof.
  intros Hne Hchain Hno Hsend.
  destruct (start_touch_offers fuel ts nt w Hchain Hno)
    as (w0 & -> & Hobj & evs0 & Hlog0).
  destruct (first_offer_throws (nt_entry nt) (nt_targetView nt) w0)
    as (w' & Hrun & Hheap & Hlog1); try assumption;
    try (rewrite Hobj; reflexivity).
  exists w'. split; [exact Hrun|]. rewrite Hheap, Hobj.
  split; [repeat split|]. split; [repeat split|].
  eexists. split; [rewrite Hlog1, Hlog0, <- app_assoc; reflexivity|].
  apply elem_of_app. right. left.
Qed.

(** The changed touches in a row, as long as every offer is answered. *)
Lemma start_touches_run (fuel : nat) (ts : num)
    (answer : NewTouch (num := num) → ref)
    (before : list (NewTouch (num := num))) :
  ∀ w,
    NoDup (map nt_entry before) →
    (∀ nt, nt ∈ before →
       nt_targetView nt ≠ Undefined
       ∧ responder_chain env fuel (nt_targetView nt) Undefined [] ≠ None
       ∧ ∀ w0 v, perform env w0 CaptureTouch v (nt_entry nt)
                 = Returns false) →
    (∀ nt w0, nt ∈ before →
       sendTouchStart env w0 (nt_entry nt) (nt_targetView nt)
       = Returns (answer nt)) →
    ∃ w', start_touches env fuel ts before w = (Ret tt, w')
      ∧ _touches w' = mapped before (_touches w)
      ∧ (∀ t, t ∉ map nt_entry before → heap w' t = heap w t)
      ∧ (∀ nt, nt ∈ before →
           created nt ts (heap w' (nt_entry nt))
           ∧ offered_once (answer nt) (heap w' (nt_entry nt)))
      ∧ ∃ evs, log w' = log w ++ evs
          ∧ ∀ nt, nt ∈ before →
              SentTouchStart (nt_entry nt) (nt_targetView nt) ∈ evs.
Proof.
  induction before as [|nt rest IH]; intros w Hnodup Hviews Hsend.
  - exists w. split; [reflexivity|]. split; [reflexivity|].
    split; [reflexivity|].
    split; [intros nt H; apply elem_of_nil in H; contradiction|].
    exists []. split; [symmetry; apply app_nil_r|].
    intros nt H. apply elem_of_nil in H. contradiction.
  - destruct (Hviews nt ltac:(left)) as (Hne & Hchain & Hno).
    destruct (start_touch_run fuel ts nt (answer nt) w Hne Hchain Hno
                (λ w0, Hsend nt w0 ltac:(left)))
      as (w1 & Hrun1 & Hcre1 & Hoff1 & evs1 & Hlog1 & Hsent1).
    destruct (start_touch_facts fuel ts nt w Hchain)
      as (_ & S2 & S3 & _).
    rewrite Hrun1 in S2, S3. simpl in S2, S3.
    simpl in Hnodup. apply list.NoDup_cons in Hnodup.
    destruct Hnodup as [Hnotin Hnodup].
    destruct (IH w1 Hnodup
                (λ nt' H, Hviews nt' ltac:(right; exact H))
                (λ nt' w0 H, Hsend nt' w0 ltac:(right; exact H)))
      as (w' & Hrun & Hreg & Hothers & Heach & evs2 & Hlog2 & Hsent2).
    exists w'. simpl. rewrite (bind_run _ _ _ _ _ Hrun1).
    split; [exact Hrun|].
    split; [rewrite Hreg, S2; reflexivity|].
    split.
    { intros t Ht. apply not_elem_of_cons in Ht. destruct Ht as [Hne' Ht].
      rewrite Hothers by exact Ht. apply S3. exact Hne'. }
    split.
    { intros nt' Hin. apply elem_of_cons in Hin. destruct Hin as [->|Hin].
      + rewrite Hothers by exact Hnotin. split; assumption.
      + apply Heach. exact Hin. }
    exists (evs1 ++ evs2).
    split; [rewrite Hlog2, Hlog1, app_assoc; reflexivity|].
    intros nt' Hin. apply elem_of_app.
    apply elem_of_cons in Hin. destruct Hin as [->|Hin].
    + left. exact Hsent1.
    + right. apply Hsent2. exact Hin.
Qed.

Lemma bind_ext {A B} (m : M A) (k k' : A → M B) (w : World) :
  (∀ a w1, k a w1 = k' a w1) → bind m k w = bind m k' w.
Proof.
  intros H. unfold bind. destruct (m w) as [[a| |] w1]; auto.
Qed.

Lemma start_touches_app (fuel : nat) (ts : num)
    (l1 l2 : list (NewTouch (num := num))) (w : World) :
  start_touches env fuel ts (l1 ++ l2) w
  = (start_touches env fuel ts l1 ;; start_touches env fuel ts l2) w.
Proof.
  revert w. induction l1 as [|nt l1 IH]; intros w; simpl.
  - rewrite bind_ret. reflexivity.
  - rewrite bind_assoc. apply bind_ext. intros [] w1. apply IH.
Qed.

(** Under the invariant, a touch is in the set of its view, and the view
    has [hasTouch]. *)
Lemma index_holds (t : TouchRef) (a : ref) (w : World) :
  index_inv w → offered_once a (heap w t) → held_by a t w.
Proof.
  intros Hinv Hoff. destruct a as [| |r]; simpl; try exact I.
  destruct Hoff as (_ & _ & _ & Hview).
  destruct (inv_assigned w Hinv t r Hview) as [e He].
  split.
  - unfold touchesForView. rewrite He. simpl.
    apply (inv_member w Hinv r e t He). exact Hview.
  - apply (inv_flag w Hinv). rewrite He. eauto.
Qed.

End TouchStartFacts.

(** X11: [touchstart] answers [NO].  For new touches that no view
    captures, it takes the changed touches in order: each one is mapped
    under its identifier, with the position of the touch of the browser
    and the time stamp of the event, and is offered to its target view
    with [touchStart]; the view that the pane answers becomes the
    responder of the touch, the one frame of its stack and its view, with
    the touch in its set and [hasTouch] true, and a touch that nobody
    takes stays without responder.  This goes on until an offer throws:
    that touch stays mapped, without responder, the touches after it are
    not mapped, one warning is logged and [_touchViews] is cleared.  When
    no offer throws, every changed touch is mapped and no warning is
    logged. *)
Theorem touchstart_registers {num : Type} (env : ViewEnv num) (fuel : nat)
    (before rest : list (NewTouch (num := num)))
    (answer : NewTouch (num := num) → ref) (timeStamp : num)
    (w : World num) :
  index_inv w →
  NoDup (map nt_entry (before ++ rest)) →
  (∀ nt, nt ∈ before ++ rest → view (heap w (nt_entry nt)) = Undefined) →
  (∀ nt, nt ∈ before ++ rest →
     nt_targetView nt ≠ Undefined
     ∧ responder_chain env fuel (nt_targetView nt) Undefined [] ≠ None
     ∧ ∀ w0 v, perform env w0 CaptureTouch v (nt_entry nt) = Returns false) →
  (∀ nt w0, nt ∈ before →
     sendTouchStart env w0 (nt_entry nt) (nt_targetView nt)
     = Returns (answer nt)) →
  (∀ nt w0, head rest = Some nt →
     sendTouchStart env w0 (nt_entry nt) (nt_targetView nt) = Throws) →
  ∃ w', touchstart env fuel (before ++ rest) timeStamp w = (Ret false, w')
    ∧ _touches w' = mapped (before ++ take 1 rest) (_touches w)
    ∧ (∀ nt, nt ∈ before →
         SentTouchStart (nt_entry nt) (nt_targetView nt) ∈ new_events w w'
         ∧ created nt timeStamp (heap w' (nt_entry nt))
         ∧ offered_once (answer nt) (heap w' (nt_entry nt))
         ∧ held_by (answer nt) (nt_entry nt) w')
    ∧ (∀ nt, head rest = Some nt →
         SentTouchStart (nt_entry nt) (nt_targetView nt) ∈ new_events w w'
         ∧ created nt timeStamp (heap w' (nt_entry nt))
         ∧ offered_once Undefined (heap w' (nt_entry nt)))
    ∧ match rest with
      | [] => (Warned ∉ new_events w w')
              ∧ touchViewsCleared w' = touchViewsCleared w
      | _ :: _ => (∃ evs, new_events w w' = evs ++ [Warned] ∧ (Warned ∉ evs))
                  ∧ touchViewsCleared w' = true
      end.
Proof.
  intros Hinv Hnodup Hfresh Hviews Hsend Hthrow.
  assert (Hchains : ∀ nt, nt ∈ before ++ rest →
            responder_chain env fuel (nt_targetView nt) Undefined [] ≠ None)
    by (intros nt H; apply (Hviews nt H)).
  destruct (start_touches_facts env fuel timeStamp (before ++ rest) w Hchains)
    as (_ & F2 & (evs & F3 & F4) & _ & F9).
  specialize (F9 Hinv Hnodup Hfresh).
  assert (Hnodup1 : NoDup (map nt_entry before)).
  { rewrite map_app in Hnodup. apply list.NoDup_app in Hnodup.
    apply Hnodup. }
  destruct (start_touches_run env fuel timeStamp answer before w Hnodup1
              (λ nt H, Hviews nt ltac:(apply elem_of_app; left; exact H))
              Hsend)
    as (w1 & Hrun1 & Hreg1 & Hothers1 & Heach1 & evs1 & Hlog1 & Hsent1).
  unfold touchstart, try_catch.
  destruct rest as [|nt after].
  - assert (E : start_touches env fuel timeStamp (before ++ []) w
                = (Ret tt, w1)).
    { rewrite start_touches_app, (bind_run _ _ _ _ _ Hrun1). reflexivity. }
    rewrite E in F2, F3, F9. simpl in F2, F3, F9.
    rewrite (bind_run _ _ _ _ _ E).
    exists w1. split; [reflexivity|].
    rewrite app_nil_r. split; [exact Hreg1|].
    split.
    { intros nt Hin. destruct (Heach1 nt Hin) as [Hc Ho].
      split.
      { unfold new_events. rewrite Hlog1, drop_app_length.
        apply Hsent1. exact Hin. }
      split; [exact Hc|]. split; [exact Ho|].
      apply index_holds; assumption. }
    split; [intros nt [=]|].
    split; [|exact F2].
    unfold new_events. rewrite F3, drop_app_length. exact F4.
  - destruct (Hviews nt ltac:(apply elem_of_app; right; left))
      as (Hne & Hchain & Hno).
    destruct (start_touch_throws env fuel timeStamp nt w1 Hne Hchain Hno
                (λ w0, Hthrow nt w0 eq_refl))
      as (w2 & Hrun2 & Hcre2 & Hoff2 & evs2 & Hlog2 & Hsent2).
    destruct (start_touch_facts env fuel timeStamp nt w1 Hchain)
      as (_ & S2 & S3 & _).
    rewrite Hrun2 in S2, S3. simpl in S2, S3.
    assert (E : start_touches env fuel timeStamp (before ++ nt :: after) w
                = (Thrown, w2)).
    { rewrite start_touches_app, (bind_run _ _ _ _ _ Hrun1).
      simpl start_touches. rewrite (bind_thrown _ _ _ _ Hrun2).
      reflexivity. }
    rewrite E in F2, F3, F9. simpl in F2, F3, F9.
    rewrite (bind_thrown _ _ _ _ E).
    unfold emit, RunLoop_end. rewrite !bind_modify. simpl.
    eexists. split; [reflexivity|]. simpl.
    assert (Hnew : ∀ e, e ∈ evs1 ++ evs2 →
              e ∈ new_events w
                    (with_runLoop (-1)
                       (with_touchViewsCleared (with_log Warned w2)))).
    { intros e He. unfold new_events. simpl.
      rewrite Hlog2, Hlog1, <- !app_assoc, drop_app_length.
      rewrite app_assoc. apply elem_of_app. left. exact He. }
    split.
    { rewrite S2, Hreg1. unfold mapped. rewrite fold_left_app. reflexivity. }
    split.
    { intros nt' Hin. destruct (Heach1 nt' Hin) as [Hc Ho].
      split.
      { apply Hnew. apply elem_of_app. left. apply Hsent1. exact Hin. }
      assert (Hne' : nt_entry nt' ≠ nt_entry nt).
      { intros Heq. rewrite map_app in Hnodup.
        apply list.NoDup_app in Hnodup. destruct Hnodup as (_ & Hdisj & _).
        apply (Hdisj (nt_entry nt')).
        - apply list_elem_of_In, in_map, list_elem_of_In. exact Hin.
        - rewrite Heq. left. }
      rewrite S3 by exact Hne'.
      split; [exact Hc|]. split; [exact Ho|].
      assert (Ho2 : offered_once (answer nt') (heap w2 (nt_entry nt')))
        by (rewrite S3 by exact Hne'; exact Ho).
      pose proof (index_holds (nt_entry nt') (answer nt') w2 F9 Ho2) as Hh.
      destruct (answer nt'); exact Hh. }
    split.
    { intros nt' [= <-].
      split; [apply Hnew, elem_of_app; right; exact Hsent2|].
      split; assumption. }
    split; [|reflexivity].
    exists evs. split; [|exact F4].
    unfold new_events. simpl. rewrite F3, <- app_assoc, drop_app_length.
    reflexivity.
Qed.

Lemma touchstart_registers_witness :
  (index_inv Scenario.fresh
   ∧ NoDup (map nt_entry ([finger_1] ++ [finger_2]))
   ∧ (∀ nt, nt ∈ [finger_1] ++ [finger_2] →
        view (heap Scenario.fresh (nt_entry nt)) = Undefined)
   ∧ (∀ nt, nt ∈ [finger_1] ++ [finger_2] →
        nt_targetView nt ≠ Undefined
        ∧ responder_chain second_throws 3 (nt_targetView nt) Undefined []
          ≠ None
        ∧ ∀ w0 v, perform second_throws w0 CaptureTouch v (nt_entry nt)
                  = Returns false)
   ∧ (∀ nt w0, nt ∈ [finger_1] →
        sendTouchStart second_throws w0 (nt_entry nt) (nt_targetView nt)
        = Returns (nt_targetView nt))
   ∧ (∀ nt w0, head [finger_2] = Some nt →
        sendTouchStart second_throws w0 (nt_entry nt) (nt_targetView nt)
        = Throws))
  ∧ ∃ w', touchstart second_throws 3 ([finger_1] ++ [finger_2]) 5
                     Scenario.fresh = (Ret false, w')
      ∧ _touches w' = mapped ([finger_1] ++ take 1 [finger_2])
                             (_touches Scenario.fresh)
      ∧ SentTouchStart Scenario.t1 (Obj Scenario.B)
        ∈ new_events Scenario.fresh w'
      ∧ offered_once (Obj Scenario.B) (heap w' Scenario.t1)
      ∧ held_by (Obj Scenario.B) Scenario.t1 w'
      ∧ SentTouchStart Scenario.t2 (Obj Scenario.A)
        ∈ new_events Scenario.fresh w'
      ∧ offered_once Undefined (heap w' Scenario.t2)
      ∧ touchViewsCleared w' = true.
Proof.
  assert (H1 : index_inv Scenario.fresh)
    by (apply index_inv_empty; repeat split).
  assert (H2 : NoDup (map nt_entry ([finger_1] ++ [finger_2]))).
  { simpl. apply list.NoDup_cons. split.
    - intros H. apply list_elem_of_singleton in H. discriminate.
    - apply NoDup_singleton. }
  assert (H3 : ∀ nt, nt ∈ [finger_1] ++ [finger_2] →
            view (heap Scenario.fresh (nt_entry nt)) = Undefined)
    by (intros; reflexivity).
  assert (H4 : ∀ nt, nt ∈ [finger_1] ++ [finger_2] →
            nt_targetView nt ≠ Undefined
            ∧ responder_chain second_throws 3 (nt_targetView nt) Undefined []
              ≠ None
            ∧ ∀ w0 v, perform second_throws w0 CaptureTouch v (nt_entry nt)
                      = Returns false).
  { intros nt Hnt. simpl in Hnt. apply elem_of_cons in Hnt.
    destruct Hnt as [->|Hnt];
      [|apply list_elem_of_singleton in Hnt; subst nt];
      (split; [discriminate|]; split; [vm_compute; discriminate|];
       intros; reflexivity). }
  assert (H5 : ∀ nt (w0 : World Z), nt ∈ [finger_1] →
            sendTouchStart second_throws w0 (nt_entry nt) (nt_targetView nt)
            = Returns (nt_targetView nt)).
  { intros nt w0 Hnt. apply list_elem_of_singleton in Hnt. subst nt.
    reflexivity. }
  assert (H6 : ∀ nt (w0 : World Z), head [finger_2] = Some nt →
            sendTouchStart second_throws w0 (nt_entry nt) (nt_targetView nt)
            = Throws).
  { intros nt w0 [= <-]. reflexivity. }
  split; [exact (conj H1 (conj H2 (conj H3 (conj H4 (conj H5 H6)))))|].
  destruct (touchstart_registers second_throws 3 [finger_1] [finger_2]
              nt_targetView 5 Scenario.fresh H1 H2 H3 H4 H5 H6)
    as (w' & Hrun & Hreg & Hbefore & Hrest & _ & Hcleared).
  exists w'. split; [exact Hrun|]. split; [exact Hreg|].
  destruct (Hbefore finger_1 ltac:(left)) as (Hs & _ & Ho & Hh).
  destruct (Hrest finger_2 eq_refl) as (Hs2 & _ & Ho2).
  exact (conj Hs (conj Ho (conj Hh (conj Hs2 (conj Ho2 Hcleared))))).
Defined.

(** X12: [touchstart] keeps the index of views and touches consistent,
    whatever the views answer and also when a handler throws: if the index
    is consistent and the touch objects made for the event are new, the
    index is consistent afterwards, so [hasTouch] is true exactly for the
    views with an entry, an entry holds exactly the touches whose view it
    is, without repetition, and never none, and [touchCount] is their
    number. *)
Theorem touchstart_keeps_index {num : Type} (env : ViewEnv num) (fuel : nat)
    (touches : list (NewTouch (num := num))) (timeStamp : num)
    (w : World num) :
  (∀ nt, nt ∈ touches →
     responder_chain env fuel (nt_targetView nt) Undefined [] ≠ None) →
  index_inv w →
  NoDup (map nt_entry touches) →
  (∀ nt, nt ∈ touches → view (heap w (nt_entry nt)) = Undefined) →
  index_inv (touchstart env fuel touches timeStamp w).2.
Proof.
  intros Hchain Hinv Hnodup Hfresh.
  apply touchstart_index; assumption.
Qed.

Lemma touchstart_keeps_index_witness :
  ((∀ nt, nt ∈ [mkNewTouch (mkRawTouch 1 0 0) (Obj Scenario.B) Scenario.t1] →
      responder_chain Scenario.willing 3 (nt_targetView nt) Undefined []
      ≠ None)
   ∧ index_inv Scenario.fresh
   ∧ NoDup (map nt_entry
                [mkNewTouch (mkRawTouch 1 0 0) (Obj Scenario.B) Scenario.t1])
   ∧ (∀ nt,
        nt ∈ [mkNewTouch (mkRawTouch 1 0 0) (Obj Scenario.B) Scenario.t1] →
        view (heap Scenario.fresh (nt_entry nt)) = Undefined))
  ∧ index_inv
      (touchstart Scenario.willing 3
         [mkNewTouch (mkRawTouch 1 0 0) (Obj Scenario.B) Scenario.t1] 0
         Scenario.fresh).2.
Proof.
  assert (H1 : ∀ nt,
            nt ∈ [mkNewTouch (mkRawTouch 1 0 0) (Obj Scenario.B) Scenario.t1] →
            responder_chain Scenario.willing 3 (nt_targetView nt) Undefined []
            ≠ None).
  { intros nt Hnt. apply list_elem_of_singleton in Hnt. subst nt.
    vm_compute. discriminate. }
  assert (H2 : index_inv Scenario.fresh)
    by (apply index_inv_empty; repeat split).
  assert (H3 : NoDup (map nt_entry
                [mkNewTouch (mkRawTouch 1 0 0) (Obj Scenario.B) Scenario.t1]))
    by (repeat constructor; apply not_elem_of_nil).
  assert (H4 : ∀ nt,
            nt ∈ [mkNewTouch (mkRawTouch 1 0 0) (Obj Scenario.B) Scenario.t1] →
            view (heap Scenario.fresh (nt_entry nt)) = Undefined)
    by (intros; reflexivity).
  split; [split; [exact H1|split; [exact H2|split; [exact H3|exact H4]]]|].
  exact (touchstart_keeps_index Scenario.willing 3
           [mkNewTouch (mkRawTouch 1 0 0) (Obj Scenario.B) Scenario.t1] 0
           Scenario.fresh H1 H2 H3 H4).
Defined.

(** X13: a [touchstart] for an identifier that is still mapped replaces
    the record: the new touch is mapped under the identifier, and the
    touch that was there is in the registry no longer, so no [touchend]
    will find it, while it stays in the set of its view, which keeps
    [hasTouch]. *)
Theorem touchstart_orphans_touch {num : Type} (env : ViewEnv num)
    (fuel : nat) (nt : NewTouch (num := num)) (timeStamp : num)
    (old : TouchRef) (v : View) (w : World num) :
  responder_chain env fuel (nt_targetView nt) Undefined [] ≠ None →
  index_inv w →
  view (heap w (nt_entry nt)) = Undefined →
  (∀ i, _touches w !! i = Some old ↔ i = raw_identifier (nt_touch nt)) →
  view (heap w old) = Obj v →
  let w' := (touchstart env fuel [nt] timeStamp w).2 in
  _touches w' !! raw_identifier (nt_touch nt) = Some (nt_entry nt)
  ∧ (∀ i, _touches w' !! i ≠ Some old)
  ∧ old ∈ default [] (touchesForView v w')
  ∧ hasTouch w' v = true.
Proof.
  intros Hchain Hinv Hfresh Hold Hview w'.
  assert (Hne : old ≠ nt_entry nt) by (intros ->; congruence).
  assert (Hall : ∀ nt', nt' ∈ [nt] →
            responder_chain env fuel (nt_targetView nt') Undefined [] ≠ None).
  { intros nt' H. apply list_elem_of_singleton in H. subst. exact Hchain. }
  assert (Hinv' : index_inv w').
  { apply touchstart_index; try assumption.
    - repeat constructor. apply not_elem_of_nil.
    - intros nt' H. apply list_elem_of_singleton in H. subst. exact Hfresh. }
  destruct (start_touch_facts env fuel timeStamp nt w Hchain)
    as (S1 & S2 & S3 & _).
  assert (Hstate : _touches w'
                   = <[raw_identifier (nt_touch nt) := nt_entry nt]>
                       (_touches w)
                   ∧ heap w' old = heap w old).
  { subst w'. unfold touchstart, try_catch. simpl start_touches.
    destruct (start_touch env fuel timeStamp nt w) as [[[]| |] w1] eqn:E;
      simpl in S1, S2, S3; [| |congruence].
    - rewrite (bind_run _ _ w w1 tt
                 (bind_run _ (λ _, ret tt) w w1 tt E)).
      simpl. split; [exact S2|]. apply S3. exact Hne.
    - rewrite (bind_thrown _ _ w w1
                 (bind_thrown _ (λ _, ret tt) w w1 E)).
      unfold emit, RunLoop_end. rewrite !bind_modify.
      simpl. split; [exact S2|]. apply S3. exact Hne. }
  destruct Hstate as [Hreg Hheap].
  assert (Hview' : view (heap w' old) = Obj v) by (rewrite Hheap; exact Hview).
  destruct (inv_assigned w' Hinv' old v Hview') as [e He].
  repeat split.
  - rewrite Hreg. apply lookup_insert_eq.
  - intros i Hi. rewrite Hreg in Hi.
    destruct (decide (i = raw_identifier (nt_touch nt))) as [->|Hi'].
    + rewrite lookup_insert_eq in Hi. congruence.
    + rewrite lookup_insert_ne in Hi by congruence.
      apply Hold in Hi. contradiction.
  - unfold touchesForView. rewrite He. simpl.
    apply (inv_member w' Hinv' v e old He). exact Hview'.
  - apply (inv_flag w' Hinv'). rewrite He. eexists. reflexivity.
Qed.

Lemma one_down_registry (i : Z) :
  _touches one_down !! i = Some Scenario.t1 ↔ i = 1%Z.
Proof.
  change (_touches one_down)
    with ({[ 1%Z := Scenario.t1; 2%Z := Scenario.t2 ]} : gmap Z TouchRef).
  split.
  - intros H. destruct (decide (i = 1%Z)) as [->|H1]; [reflexivity|].
    rewrite lookup_insert_ne in H by congruence.
    destruct (decide (i = 2%Z)) as [->|H2].
    + rewrite lookup_singleton_eq in H. discriminate.
    + rewrite lookup_singleton_ne in H by congruence. discriminate.
  - intros ->. reflexivity.
Defined.

Lemma touchstart_orphans_touch_witness :
  (responder_chain Scenario.willing 3
     (nt_targetView (mkNewTouch (mkRawTouch 1 5 5) (Obj Scenario.B)
                                3%positive)) Undefined [] ≠ None
   ∧ index_inv one_down
   ∧ view (heap one_down 3%positive) = Undefined
   ∧ (∀ i, _touches one_down !! i = Some Scenario.t1 ↔ i = 1%Z)
   ∧ view (heap one_down Scenario.t1) = Obj Scenario.B)
  ∧ (∀ i, _touches
            (touchstart Scenario.willing 3
               [mkNewTouch (mkRawTouch 1 5 5) (Obj Scenario.B) 3%positive]
               0 one_down).2 !! i ≠ Some Scenario.t1)
  ∧ hasTouch
      (touchstart Scenario.willing 3
         [mkNewTouch (mkRawTouch 1 5 5) (Obj Scenario.B) 3%positive]
         0 one_down).2 Scenario.B = true.
Proof.
  assert (H1 : responder_chain Scenario.willing 3
                 (nt_targetView (mkNewTouch (mkRawTouch 1 5 5)
                                            (Obj Scenario.B) 3%positive))
                 Undefined [] ≠ None) by (vm_compute; discriminate).
  assert (H2 : index_inv one_down)
    by exact (engine_reachable_inv Scenario.willing one_down
                one_down_reachable).
  assert (H3 : view (heap one_down 3%positive) = Undefined) by reflexivity.
  assert (H5 : view (heap one_down Scenario.t1) = Obj Scenario.B)
    by reflexivity.
  split; [split; [exact H1|split; [exact H2|split; [exact H3|
          split; [exact one_down_registry|exact H5]]]]|].
  pose proof (touchstart_orphans_touch Scenario.willing 3
                (mkNewTouch (mkRawTouch 1 5 5) (Obj Scenario.B) 3%positive)
                0 Scenario.t1 Scenario.B one_down
                H1 H2 H3 one_down_registry H5) as H.
  exact (conj (proj1 (proj2 H)) (proj2 (proj2 (proj2 H)))).
Defined.

(** ** touchmove *)

Section TouchMoveFacts.

Context {num : Type}.
Variable touchesDragged : Dragged → World num → reply unit * World num.

Local Abbreviation World := (World num).
Local Abbreviation MoveState := (MoveState (num := num)).

Lemma moved_refl (w : World) : moved w w.
Proof. repeat split. Qed.

Lemma moved_trans (w1 w2 w3 : World) :
  moved w1 w2 → moved w2 w3 → moved w1 w3.
Proof.
  intros (A1 & A2 & A3 & A4 & A5 & A6 & A7)
         (B1 & B2 & B3 & B4 & B5 & B6 & B7).
  repeat split; try congruence;
    destruct (A7 t) as (C1 & C2 & C3 & C4 & C5 & C6);
    destruct (B7 t) as (D1 & D2 & D3 & D4 & D5 & D6); congruence.
Qed.

Lemma with_position_moved (te : TouchRef) (x y ts : num) (w : World) :
  moved w (with_heap te (with_position x y ts) w).
Proof.
  repeat split; simpl;
    (destruct (decide (t = te)) as [->|Hne];
     [rewrite fn_lookup_insert|rewrite fn_lookup_insert_ne by congruence]);
    reflexivity.
Qed.

(** The first loop, touch by touch. *)
Lemma move_touch_moved (evt : TouchEvent (num := num)) (st : MoveState)
    (touch : RawTouch (num := num)) :
  moved (ms_world st) (ms_world (move_touch evt st touch)).
Proof.
  unfold move_touch.
  destruct (_touches (ms_world st) !! raw_identifier touch) as [te|]; simpl;
    [apply with_position_moved|apply moved_refl].
Qed.

Lemma fold_move_moved (evt : TouchEvent (num := num))
    (l : list (RawTouch (num := num))) (st : MoveState) :
  moved (ms_world st) (ms_world (fold_left (move_touch evt) l st)).
Proof.
  revert st. induction l as [|touch l IH]; intros st; simpl.
  - apply moved_refl.
  - eapply moved_trans; [apply move_touch_moved|apply IH].
Qed.

(** The variable [touchEntry] after the loop: the record of the last
    changed touch. *)
Lemma fold_move_last (evt : TouchEvent (num := num))
    (l : list (RawTouch (num := num))) (touch : RawTouch (num := num))
    (st : MoveState) :
  ms_touchEntry (fold_left (move_touch evt) (l ++ [touch]) st)
  = _touches (ms_world st) !! raw_identifier touch.
Proof.
  rewrite fold_left_app. simpl.
  pose proof (fold_move_moved evt l st) as (Hreg & _).
  unfold move_touch at 1. rewrite Hreg.
  destruct (_touches (ms_world st) !! raw_identifier touch) as [te|];
    reflexivity.
Qed.

(** The position of a touch after the loop: that of the last changed
    touch mapped to it. *)
Lemma fold_move_position (evt : TouchEvent (num := num))
    (pre post : list (RawTouch (num := num))) (touch : RawTouch (num := num))
    (te : TouchRef) (st : MoveState) :
  _touches (ms_world st) !! raw_identifier touch = Some te →
  (∀ touch', touch' ∈ post →
     _touches (ms_world st) !! raw_identifier touch' ≠ Some te) →
  let w' := ms_world (fold_left (move_touch evt) (pre ++ touch :: post) st) in
  pageX (heap w' te) = raw_pageX touch
  ∧ pageY (heap w' te) = raw_pageY touch
  ∧ timeStamp (heap w' te) = evt_timeStamp evt.
Proof.
  intros Hte Hpost w'. subst w'. rewrite fold_left_app. simpl.
  pose proof (fold_move_moved evt pre st) as (Hreg & _).
  set (st1 := fold_left (move_touch evt) pre st) in *.
  set (st2 := move_touch evt st1 touch).
  assert (H2 : pageX (heap (ms_world st2) te) = raw_pageX touch
               ∧ pageY (heap (ms_world st2) te) = raw_pageY touch
               ∧ timeStamp (heap (ms_world st2) te) = evt_timeStamp evt
               ∧ _touches (ms_world st2) = _touches (ms_world st)).
  { subst st2. unfold move_touch. rewrite Hreg, Hte. simpl.
    rewrite fn_lookup_insert. repeat split; assumption. }
  clearbody st2. clear st1 Hreg. revert st2 H2.
  induction post as [|touch' post IH]; intros st2 (P1 & P2 & P3 & P4); simpl.
  - repeat split; assumption.
  - apply IH.
    + intros t Ht. apply Hpost. right. exact Ht.
    + unfold move_touch.
      destruct (_touches (ms_world st2) !! raw_identifier touch')
        as [te'|] eqn:E; simpl; [|repeat split; assumption].
      assert (Hne : te ≠ te').
      { intros ->. apply (Hpost touch'); [left|]. rewrite <- P4. exact E. }
      rewrite fn_lookup_insert_ne by congruence.
      repeat split; assumption.
Qed.

(** What the loop writes to the console: a line for every changed touch
    that is not mapped. *)
Lemma fold_move_notes (evt : TouchEvent (num := num))
    (l : list (RawTouch (num := num))) :
  ∀ st : MoveState,
    ms_notes (fold_left (move_touch evt) l st)
    = ms_notes st
      ++ replicate
           (length (List.filter
                      (λ touch, bool_decide (_touches (ms_world st)
                                             !! raw_identifier touch = None))
                      l))
           Console_log.
Proof.
  clear touchesDragged.
  induction l as [|touch l IH]; intros st; simpl.
  - rewrite app_nil_r. reflexivity.
  - rewrite IH.
    pose proof (move_touch_moved evt st touch) as (Hreg & _).
    rewrite Hreg. unfold move_touch at 1.
    destruct (_touches (ms_world st) !! raw_identifier touch) as [te|] eqn:E;
      simpl.
    + reflexivity.
    + rewrite <- app_assoc. reflexivity.
Qed.

(** The [event] field after the loop: set on every touch object that a
    changed touch is mapped to, and as it was on the others. *)
Lemma fold_move_event_fold (evt : TouchEvent (num := num))
    (l : list (RawTouch (num := num))) (te : TouchRef) :
  ∀ st : MoveState,
    ms_event (fold_left (move_touch evt) l st) te
    = if existsb (λ touch, bool_decide (_touches (ms_world st)
                                        !! raw_identifier touch = Some te)) l
      then true else ms_event st te.
Proof.
  clear touchesDragged.
  induction l as [|touch l IH]; intros st; simpl; [reflexivity|].
  rewrite IH.
  pose proof (move_touch_moved evt st touch) as (Hreg & _).
  rewrite Hreg.
  assert (Hstep : ms_event (move_touch evt st touch) te
                  = if bool_decide (_touches (ms_world st)
                                    !! raw_identifier touch = Some te)
                    then true else ms_event st te).
  { unfold move_touch.
    destruct (_touches (ms_world st) !! raw_identifier touch)
      as [te'|] eqn:E; simpl.
    - destruct (decide (te' = te)) as [->|Hne].
      + rewrite fn_lookup_insert, bool_decide_eq_true_2; reflexivity.
      + rewrite fn_lookup_insert_ne by congruence.
        rewrite bool_decide_eq_false_2 by congruence. reflexivity.
    - reflexivity. }
  rewrite Hstep.
  destruct (bool_decide _); destruct (existsb _ l); reflexivity.
Qed.

Lemma fold_move_event (evt : TouchEvent (num := num))
    (l : list (RawTouch (num := num))) (te : TouchRef) (st : MoveState)
    (touch : RawTouch (num := num)) :
  touch ∈ l →
  _touches (ms_world st) !! raw_identifier touch = Some te →
  ms_event (fold_left (move_touch evt) l st) te = true.
Proof.
  intros Hin Hmap. rewrite fold_move_event_fold.
  replace (existsb _ l) with true; [reflexivity|].
  symmetry. apply existsb_exists. exists touch.
  split; [apply list_elem_of_In; exact Hin|].
  apply bool_decide_eq_true_2. exact Hmap.
Qed.

(** [changedViews]: the views entered, and the touches under them. *)
Lemma add_changed_keys (view : View) (te : TouchRef)
    (cv : list (View * list TouchRef)) :
  (add_changed view te cv).*1
  = if bool_decide (view ∈ cv.*1) then cv.*1 else cv.*1 ++ [view].
Proof.
  unfold add_changed. cbv zeta.
  assert (Hmap : ∀ l : list (View * list TouchRef),
            (map (λ entry, if bool_decide (entry.1 = view)
                           then (entry.1, entry.2 ++ [te]) else entry) l).*1
            = l.*1).
  { induction l as [|[v ts] l IH]; [reflexivity|].
    rewrite map_cons, !fmap_cons, IH. simpl.
    destruct (bool_decide (v = view)); reflexivity. }
  rewrite Hmap. destruct (bool_decide (view ∈ cv.*1)); [reflexivity|].
  rewrite fmap_app. reflexivity.
Qed.

Lemma add_changed_NoDup (view : View) (te : TouchRef)
    (cv : list (View * list TouchRef)) :
  NoDup cv.*1 → NoDup (add_changed view te cv).*1.
Proof.
  intros H. rewrite add_changed_keys.
  destruct (bool_decide (view ∈ cv.*1)) eqn:E; [exact H|].
  apply bool_decide_eq_false in E.
  apply list.NoDup_app. split; [exact H|]. split.
  - intros x Hx Hx'. apply list_elem_of_singleton in Hx'. subst.
    contradiction.
  - apply NoDup_singleton.
Qed.

Lemma add_changed_mem (view : View) (te : TouchRef)
    (cv : list (View * list TouchRef)) (v : View) (t : TouchRef) :
  (∃ ts, (v, ts) ∈ add_changed view te cv ∧ t ∈ ts)
  ↔ (∃ ts, (v, ts) ∈ cv ∧ t ∈ ts) ∨ (v = view ∧ t = te).
Proof.
  unfold add_changed. cbv zeta.
  set (f := λ entry : View * list TouchRef,
              if bool_decide (entry.1 = view)
              then (entry.1, entry.2 ++ [te]) else entry).
  set (cv' := if bool_decide (view ∈ cv.*1) then cv else cv ++ [(view, [])]).
  assert (Hcv' : ∀ ts, (v, ts) ∈ cv'
            ↔ (v, ts) ∈ cv ∨ ((view ∉ cv.*1) ∧ v = view ∧ ts = [])).
  { intros ts. subst cv'. destruct (bool_decide (view ∈ cv.*1)) eqn:E.
    - apply bool_decide_eq_true in E. split; [left; assumption|].
      intros [H|[H _]]; [assumption|contradiction].
    - apply bool_decide_eq_false in E. rewrite elem_of_app.
      rewrite list_elem_of_singleton. split.
      + intros [H|[= -> ->]]; [left; assumption|right; repeat split].
        exact E.
      + intros [H|(_ & -> & ->)]; [left; assumption|right; reflexivity]. }
  assert (Hview : ∃ ts, (view, ts) ∈ cv').
  { subst cv'. destruct (bool_decide (view ∈ cv.*1)) eqn:E.
    - apply bool_decide_eq_true in E.
      apply list_elem_of_fmap in E. destruct E as ([v' ts] & -> & H).
      exists ts. exact H.
    - exists []. apply elem_of_app. right. left. }
  split.
  - intros (ts & Hin & Ht).
    apply list_elem_of_In, in_map_iff in Hin.
    destruct Hin as ([v0 ts0] & Hf & Hin0). apply list_elem_of_In in Hin0.
    subst f. simpl in Hf.
    destruct (bool_decide (v0 = view)) eqn:E.
    + apply bool_decide_eq_true in E. injection Hf as <- <-.
      apply elem_of_app in Ht. destruct Ht as [Ht|Ht].
      * apply Hcv' in Hin0. destruct Hin0 as [H|(_ & _ & ->)].
        -- left. exists ts0. split; assumption.
        -- apply elem_of_nil in Ht. contradiction.
      * apply list_elem_of_singleton in Ht. right. split; assumption.
    + injection Hf as <- <-. apply bool_decide_eq_false in E.
      apply Hcv' in Hin0. destruct Hin0 as [H|(_ & Hv & _)];
        [|contradiction].
      left. exists ts0. split; assumption.
  - intros [(ts & Hin & Ht)|[-> ->]].
    + assert (Hin' : (v, ts) ∈ cv') by (apply Hcv'; left; exact Hin).
      exists (f (v, ts)).2. split.
      * replace (v, (f (v, ts)).2) with (f (v, ts)).
        -- apply list_elem_of_In, in_map, list_elem_of_In. exact Hin'.
        -- subst f. simpl. destruct (bool_decide (v = view)); reflexivity.
      * subst f. simpl. destruct (bool_decide (v = view)); simpl;
          [apply elem_of_app; left|]; exact Ht.
    + destruct Hview as (ts & Hin).
      exists (ts ++ [te]). split.
      * replace (view, ts ++ [te]) with (f (view, ts)).
        -- apply list_elem_of_In, in_map, list_elem_of_In. exact Hin.
        -- subst f. simpl. rewrite bool_decide_eq_true_2 by reflexivity.
           reflexivity.
      * apply elem_of_app. right. left.
Qed.

Lemma fold_move_changed (evt : TouchEvent (num := num))
    (l : list (RawTouch (num := num))) :
  ∀ st : MoveState,
    let st' := fold_left (move_touch evt) l st in
    (NoDup (ms_changedViews st).*1 → NoDup (ms_changedViews st').*1)
    ∧ ∀ v te,
        (∃ ts, (v, ts) ∈ ms_changedViews st' ∧ te ∈ ts)
        ↔ ((∃ ts, (v, ts) ∈ ms_changedViews st ∧ te ∈ ts)
           ∨ ∃ touch, touch ∈ l
               ∧ _touches (ms_world st) !! raw_identifier touch = Some te
               ∧ touchResponder (heap (ms_world st) te) = Obj v).
Proof.
  clear touchesDragged.
  induction l as [|touch l IH]; intros st; simpl.
  - split; [tauto|]. intros v te. split; [left; assumption|].
    intros [H|(touch & H & _)]; [assumption|].
    apply elem_of_nil in H. contradiction.
  - destruct (IH (move_touch evt st touch)) as [IH1 IH2].
    pose proof (move_touch_moved evt st touch)
      as (Hreg & _ & _ & _ & _ & _ & Hsame).
    assert (Hresp : ∀ t, touchResponder
                           (heap (ms_world (move_touch evt st touch)) t)
                         = touchResponder (heap (ms_world st) t)).
    { intros t. destruct (Hsame t) as (_ & _ & _ & H & _). exact H. }
    assert (Hstep : (NoDup (ms_changedViews st).*1
                     → NoDup (ms_changedViews (move_touch evt st touch)).*1)
              ∧ ∀ v te,
                  (∃ ts, (v, ts) ∈ ms_changedViews (move_touch evt st touch)
                         ∧ te ∈ ts)
                  ↔ ((∃ ts, (v, ts) ∈ ms_changedViews st ∧ te ∈ ts)
                     ∨ (_touches (ms_world st) !! raw_identifier touch
                        = Some te
                        ∧ touchResponder (heap (ms_world st) te) = Obj v))).
    { unfold move_touch.
      destruct (_touches (ms_world st) !! raw_identifier touch)
        as [te0|] eqn:E; simpl.
      - rewrite fn_lookup_insert. simpl.
        destruct (touchResponder (heap (ms_world st) te0))
          as [| |view] eqn:R; simpl.
        + split; [tauto|]. intros v te. split; [left; assumption|].
          intros [H|[[= <-] H]]; [assumption|congruence].
        + split; [tauto|]. intros v te. split; [left; assumption|].
          intros [H|[[= <-] H]]; [assumption|congruence].
        + split; [apply add_changed_NoDup|].
          intros v te. rewrite add_changed_mem. split.
          * intros [H|[-> ->]]; [left; assumption|right].
            split; [reflexivity|exact R].
          * intros [H|[[= <-] H]]; [left; assumption|right].
            split; [congruence|reflexivity].
      - split; [tauto|]. intros v te. split; [left; assumption|].
        intros [H|[H _]]; [assumption|discriminate]. }
    destruct Hstep as [Hstep1 Hstep2].
    split; [intros H; apply IH1, Hstep1, H|].
    intros v te. rewrite IH2, Hstep2. rewrite Hreg. split.
    + intros [[H|[H1 H2]]|(touch' & H1 & H2 & H3)].
      * left. exact H.
      * right. exists touch. split; [left|]. split; assumption.
      * right. exists touch'. split; [right; exact H1|].
        split; [exact H2|]. rewrite <- Hresp. exact H3.
    + intros [H|(touch' & H1 & H2 & H3)]; [left; left; exact H|].
      apply elem_of_cons in H1. destruct H1 as [->|H1].
      * left. right. split; assumption.
      * right. exists touch'. split; [exact H1|]. split; [exact H2|].
        rewrite Hresp. exact H3.
Qed.

(** Two entries of [changedViews] for one view are one entry. *)
Lemma changedViews_unique (cv : list (View * list TouchRef)) (v : View)
    (ts ts' : list TouchRef) :
  NoDup cv.*1 → (v, ts) ∈ cv → (v, ts') ∈ cv → ts = ts'.
Proof.
  clear touchesDragged.
  induction cv as [|[v0 ts0] cv IH]; intros Hnd H1 H2.
  - apply elem_of_nil in H1. contradiction.
  - rewrite fmap_cons in Hnd. apply list.NoDup_cons in Hnd.
    destruct Hnd as [Hnotin Hnd]. simpl in Hnotin.
    apply elem_of_cons in H1. apply elem_of_cons in H2.
    destruct H1 as [E1|H1], H2 as [E2|H2].
    + congruence.
    + exfalso. apply Hnotin. apply list_elem_of_fmap.
      exists (v, ts'). split; [simpl; congruence|exact H2].
    + exfalso. apply Hnotin. apply list_elem_of_fmap.
      exists (v, ts). split; [simpl; congruence|exact H1].
    + apply IH; assumption.
Qed.

(** The second loop, whatever the views do: the views told are the first
    entries of [changedViews], all of them when the loop comes to its end,
    and each is told with a set of touches that is not empty. *)
Lemma drag_views_told (cv : list (View * list TouchRef)) :
  ∀ w : World,
    ∃ told later,
      (drag_views touchesDragged cv w).1.1 = map Told told
      ∧ cv = map (λ d, (dr_view d, dr_viewChangedTouches d)) told ++ later
      ∧ ((drag_views touchesDragged cv w).1.2 = true → later = [])
      ∧ ∀ d, d ∈ told → dr_viewTouches d ≠ [].
Proof.
  induction cv as [|[v ts] cv IH]; intros w; simpl.
  - exists [], []. repeat split. intros d H.
    apply elem_of_nil in H. contradiction.
  - destruct (touchesForView v w) as [[|first later]|].
    1,3: exists [], ((v, ts) :: cv); simpl; repeat split;
         [discriminate|intros d H; apply elem_of_nil in H; contradiction].
    destruct (touchesDragged (mkDragged v ts (first :: later)) w)
      as [[[]|] w1].
    + destruct (IH w1) as (told & rest & H1 & H2 & H3 & H4).
      destruct (drag_views touchesDragged cv w1) as [[notes completed] w2].
      simpl in *. exists (mkDragged v ts (first :: later) :: told), rest.
      simpl. rewrite H1, H2. repeat split; [exact H3|].
      intros d Hd. apply elem_of_cons in Hd. destruct Hd as [->|Hd].
      * discriminate.
      * apply H4. exact Hd.
    + exists [mkDragged v ts (first :: later)], cv. simpl.
      repeat split; [discriminate|].
      intros d Hd. apply list_elem_of_singleton in Hd. subst d. discriminate.
Qed.

Lemma keeps_positions_refl (w : World) : keeps_positions w w.
Proof. split; [reflexivity|]. intros t. repeat split. Qed.

Lemma keeps_positions_trans (w1 w2 w3 : World) :
  keeps_positions w1 w2 → keeps_positions w2 w3 → keeps_positions w1 w3.
Proof.
  intros [A1 A2] [B1 B2]. split; [congruence|]. intros t.
  destruct (A2 t) as (C1 & C2 & C3). destruct (B2 t) as (D1 & D2 & D3).
  repeat split; congruence.
Qed.

(** The second loop keeps what the views keep. *)
Lemma drag_views_keeps (cv : list (View * list TouchRef)) :
  (∀ d w0, keeps_positions w0 (touchesDragged d w0).2) →
  ∀ w : World, keeps_positions w (drag_views touchesDragged cv w).2.
Proof.
  intros Hkeep. induction cv as [|[v ts] cv IH]; intros w; simpl.
  - apply keeps_positions_refl.
  - destruct (touchesForView v w) as [[|first later]|];
      try apply keeps_positions_refl.
    pose proof (Hkeep (mkDragged v ts (first :: later)) w) as Hk.
    destruct (touchesDragged (mkDragged v ts (first :: later)) w)
      as [[[]|] w1]; simpl in Hk.
    + specialize (IH w1).
      destruct (drag_views touchesDragged cv w1) as [[notes completed] w2].
      simpl in *. eapply keeps_positions_trans; eassumption.
    + exact Hk.
Qed.

End TouchMoveFacts.

(** ** A view that calls back into the root responder *)

(** [makeTouchResponder], which a view may call with a touch while it is
    told of a drag, leaves the registry and the positions of the touches
    alone. *)
Section CallbackFacts.

Context {num : Type}.
Variable env : ViewEnv num.

Local Abbreviation World := (World num).
Local Abbreviation M := (M num).

Lemma bind_keeps {A B} (m : M A) (k : A → M B) (w : World) :
  keeps_positions w (m w).2 →
  (∀ a w1, m w = (Ret a, w1) → keeps_positions w1 (k a w1).2) →
  keeps_positions w (bind m k w).2.
Proof.
  intros Hm Hk. unfold bind.
  destruct (m w) as [[a| |] w1] eqn:E; simpl in *; try exact Hm.
  eapply keeps_positions_trans; [exact Hm|]. apply Hk. reflexivity.
Qed.

Lemma with_heap_keeps (t : TouchRef) (f : Touch num → Touch num) (w : World) :
  (∀ x, pageX (f x) = pageX x ∧ pageY (f x) = pageY x
        ∧ timeStamp (f x) = timeStamp x) →
  keeps_positions w (with_heap t f w).
Proof.
  intros Hf. split; [reflexivity|]. intros t'. simpl.
  destruct (decide (t' = t)) as [->|Hne].
  - rewrite fn_lookup_insert. apply Hf.
  - rewrite fn_lookup_insert_ne by congruence. repeat split.
Qed.

Lemma same_heap_keeps (w w' : World) :
  _touches w' = _touches w → heap w' = heap w → keeps_positions w w'.
Proof.
  intros H1 H2. split; [exact H1|]. intros t. rewrite H2. repeat split.
Qed.

Lemma unassignTouch_keeps (t : TouchRef) (w : World) :
  keeps_positions w (unassignTouch t w).2.
Proof.
  destruct (view (heap w t)) as [| |v] eqn:Hview.
  1,2: rewrite unassignTouch_no_view by (rewrite Hview; reflexivity);
       apply keeps_positions_refl.
  destruct (_touchedViews w !! v) as [e|] eqn:He.
  - destruct (unassignTouch_run t v e w Hview He)
      as (w' & Hrun & _ & Hheap & _ & _ & Hreg).
    rewrite Hrun. simpl. split; [exact Hreg|]. intros t'. rewrite Hheap.
    destruct (decide (t' = t)) as [->|Hne].
    + rewrite fn_lookup_insert. repeat split.
    + rewrite fn_lookup_insert_ne by congruence. repeat split.
  - rewrite (unassignTouch_throws t v w Hview He).
    apply keeps_positions_refl.
Qed.

Lemma assignTouch_keeps (t : TouchRef) (v : View) (w : World) :
  keeps_positions w (assignTouch t v w).2.
Proof.
  destruct (assignTouch_run t v w)
    as (w' & Hrun & _ & Hheap & _ & _ & Hreg).
  rewrite Hrun. simpl. split; [exact Hreg|]. intros t'. rewrite Hheap.
  destruct (decide (t' = t)) as [->|Hne].
  - rewrite fn_lookup_insert. repeat split.
  - rewrite fn_lookup_insert_ne by congruence. repeat split.
Qed.

Lemma notify_keeps (c : bool) (a : action) (v : View) (t : TouchRef)
    (w : World) :
  keeps_positions w (when c (_ <- tryToPerform env a v t ;; ret ()) w).2.
Proof.
  destruct c; simpl; [|apply keeps_positions_refl].
  unfold bind. pose proof (tryToPerform_state env a v t w) as Hst.
  destruct (tryToPerform env a v t w) as [[b| |] w1]; simpl in *; subst;
    apply same_heap_keeps; reflexivity.
Qed.

Lemma pop_responders_keeps (fuel : nat) (t : TouchRef) (responder : ref)
    (stack : list View) (idx : Z) (last : ref) (w : World) :
  keeps_positions w
    (pop_responders env fuel t responder stack idx last w).2.
Proof.
  revert stack idx last w.
  induction fuel as [|fuel IH]; intros stack idx last w;
    destruct last as [| |l]; simpl; try apply keeps_positions_refl;
    destruct (strict_eq (Obj l) responder); try apply keeps_positions_refl.
  rewrite bind_gets.
  apply bind_keeps; [apply notify_keeps|].
  intros [] w1 Hw1. rewrite bind_modify.
  eapply keeps_positions_trans; [|apply IH].
  apply with_heap_keeps. intros x. repeat split.
Qed.

Lemma makeTouchResponder_keeps (t : TouchRef) (responder : ref)
    (shouldStack : bool) (w : World) :
  keeps_positions w (makeTouchResponder env t responder shouldStack w).2.
Proof.
  unfold makeTouchResponder. rewrite bind_gets, bind_gets.
  destruct (strict_eq _ responder); [apply keeps_positions_refl|].
  apply bind_keeps.
  { rewrite sendEvent_touchStart_state. apply same_heap_keeps; reflexivity. }
  intros r w1 Hw1. rewrite bind_gets.
  destruct (strict_eq _ r); [apply keeps_positions_refl|].
  apply bind_keeps; [apply unassignTouch_keeps|].
  intros [] w2 Hw2.
  destruct (touchResponders (heap w t)) as [stack|];
    [|apply keeps_positions_refl].
  apply bind_keeps.
  { destruct (negb shouldStack || _).
    - apply pop_responders_keeps.
    - apply keeps_positions_refl. }
  intros stack3 w3 Hw3.
  destruct r as [| |v]; try apply keeps_positions_refl.
  apply bind_keeps; [apply assignTouch_keeps|].
  intros [] w4 Hw4. apply with_heap_keeps. intros x. repeat split.
Qed.

End CallbackFacts.

Lemma view_gives_back_keeps (d : Dragged) (w : World Z) :
  keeps_positions w (view_gives_back d w).2.
Proof.
  unfold view_gives_back.
  pose proof (makeTouchResponder_keeps Scenario.willing Scenario.t1
                (Obj Scenario.A) false w) as H.
  destruct (makeTouchResponder Scenario.willing Scenario.t1 (Obj Scenario.A)
              false w) as [[[]| |] w']; exact H.
Qed.

(** X14: [touchmove] answers [NO].  A changed touch that is mapped gives
    its position, and the event its time stamp, to the touch object it is
    mapped to, the last changed touch with that identifier deciding.
    With views that leave the registry and the positions alone, whatever
    they do to the responders of the touches, this is what the call
    leaves, and the registry is as it was.  The call puts the event in
    the [event] field of the touch object and leaves it there, unless the
    touch is the last of the changed touches and the call comes to its
    end without a warning: the last loop clears the field of the touch
    object read last, and of no other. *)
Theorem touchmove_moves_touch {num : Type}
    (touchesDragged : Dragged → World num → reply unit * World num)
    (evt : TouchEvent (num := num))
    (pre post : list (RawTouch (num := num))) (touch : RawTouch (num := num))
    (te : TouchRef) (event : TouchRef → bool) (w : World num) :
  changedTouches evt = pre ++ touch :: post →
  _touches w !! raw_identifier touch = Some te →
  (∀ touch', touch' ∈ post → _touches w !! raw_identifier touch' ≠ Some te) →
  (∀ d w0, keeps_positions w0 (touchesDragged d w0).2) →
  let r := touchmove touchesDragged evt event w in
  mv_answer r = false
  ∧ _touches (mv_world r) = _touches w
  ∧ pageX (heap (mv_world r) te) = raw_pageX touch
  ∧ pageY (heap (mv_world r) te) = raw_pageY touch
  ∧ timeStamp (heap (mv_world r) te) = evt_timeStamp evt
  ∧ (mv_event r te = false ↔ (Logger_warn ∉ mv_notes r) ∧ post = []).
Proof.
  intros Hevt Hte Hpost Hkeep r. subst r. unfold touchmove.
  set (st0 := mkMoveState (with_runLoop 1 w) event [] None []).
  pose proof (fold_move_moved evt (changedTouches evt) st0) as (M1 & _).
  pose proof (fold_move_position evt pre post touch te st0 Hte Hpost)
    as (P1 & P2 & P3).
  rewrite <- Hevt in P1, P2, P3.
  pose proof (fold_move_notes evt (changedTouches evt) st0) as Hnotes.
  assert (Hev : ms_event (fold_left (move_touch evt) (changedTouches evt) st0)
                         te = true).
  { apply (fold_move_event evt _ te st0 touch); [|exact Hte].
    rewrite Hevt. apply elem_of_app. right. left. }
  assert (Hentry : ms_touchEntry
                     (fold_left (move_touch evt) (changedTouches evt) st0)
                   = Some te ↔ post = []).
  { rewrite Hevt. destruct post as [|last post _] using rev_ind.
    - rewrite (fold_move_last evt pre touch st0). simpl. tauto.
    - replace (pre ++ touch :: post ++ [last])
        with ((pre ++ touch :: post) ++ [last])
        by (rewrite <- app_assoc; reflexivity).
      rewrite fold_move_last. simpl. split.
      + intros H. exfalso. apply (Hpost last); [|exact H].
        apply elem_of_app. right. left.
      + intros H. apply app_eq_nil in H. destruct H as [_ H]. discriminate. }
  assert (Hnonempty : changedTouches evt ≠ []).
  { rewrite Hevt. intros H. apply app_eq_nil in H. destruct H as [_ H].
    discriminate. }
  set (st := fold_left (move_touch evt) (changedTouches evt) st0) in *.
  destruct (drag_views_told touchesDragged (ms_changedViews st) (ms_world st))
    as (told & later & Htold & _).
  pose proof (drag_views_keeps touchesDragged (ms_changedViews st) Hkeep
                (ms_world st)) as [K1 K2].
  destruct (drag_views touchesDragged (ms_changedViews st) (ms_world st))
    as [[notes completed] w2].
  simpl in Htold, K1, K2, M1, Hnotes.
  destruct (K2 te) as (K3 & K4 & K5).
  assert (Hnw : Logger_warn ∉ ms_notes st ++ notes).
  { rewrite Hnotes, Htold. simpl. intros H. apply elem_of_app in H.
    destruct H as [H|H].
    - apply elem_of_replicate in H. destruct H as [H _]. discriminate.
    - apply list_elem_of_fmap in H. destruct H as (d & H & _). discriminate. }
  assert (Hw : Logger_warn ∈ ms_notes st ++ notes ++ [Logger_warn]).
  { apply elem_of_app. right. apply elem_of_app. right. left. }
  assert (Hfail : ms_event st te = false
                  ↔ (Logger_warn ∉ ms_notes st ++ notes ++ [Logger_warn])
                    ∧ post = []).
  { split; [congruence|]. intros [H _]. contradiction. }
  destruct completed; simpl.
  - destruct (changedTouches evt) as [|x l]; [congruence|].
    destruct (ms_touchEntry st) as [te'|] eqn:E; simpl.
    + do 5 (split; [congruence|]). split.
      * intros H. split; [exact Hnw|].
        destruct (decide (te' = te)) as [->|Hne].
        -- apply Hentry. reflexivity.
        -- rewrite fn_lookup_insert_ne in H by exact Hne. congruence.
      * intros [_ H]. apply Hentry in H. injection H as ->.
        apply fn_lookup_insert.
    + do 5 (split; [congruence|]). exact Hfail.
  - do 5 (split; [congruence|]). exact Hfail.
Qed.

Lemma touchmove_moves_touch_witness :
  (changedTouches drag_three
   = [] ++ mkRawTouch 1 30 40 :: [mkRawTouch 7 1 1; mkRawTouch 2 50 60]
   ∧ _touches two_down !! raw_identifier (mkRawTouch (num := Z) 1 30 40)
     = Some Scenario.t1
   ∧ (∀ touch' : RawTouch (num := Z),
        touch' ∈ [mkRawTouch 7 1 1; mkRawTouch 2 50 60] →
        _touches two_down !! raw_identifier touch' ≠ Some Scenario.t1)
   ∧ (∀ d w0, keeps_positions w0 (view_gives_back d w0).2))
  ∧ mv_answer (touchmove view_gives_back drag_three (λ _, false) two_down)
    = false
  ∧ _touches (mv_world (touchmove view_gives_back drag_three (λ _, false)
                                  two_down))
    = _touches two_down
  ∧ pageX (heap (mv_world (touchmove view_gives_back drag_three (λ _, false)
                                     two_down)) Scenario.t1) = 30%Z
  ∧ pageY (heap (mv_world (touchmove view_gives_back drag_three (λ _, false)
                                     two_down)) Scenario.t1) = 40%Z
  ∧ timeStamp (heap (mv_world (touchmove view_gives_back drag_three
                                         (λ _, false) two_down)) Scenario.t1)
    = 5%Z
  ∧ (mv_event (touchmove view_gives_back drag_three (λ _, false) two_down)
              Scenario.t1 = false
     ↔ (Logger_warn ∉ mv_notes (touchmove view_gives_back drag_three
                                          (λ _, false) two_down))
       ∧ [mkRawTouch (num := Z) 7 1 1; mkRawTouch 2 50 60] = []).
Proof.
  assert (H1 : changedTouches drag_three
               = [] ++ mkRawTouch 1 30 40
                   :: [mkRawTouch 7 1 1; mkRawTouch 2 50 60]) by reflexivity.
  assert (H2 : _touches two_down
               !! raw_identifier (mkRawTouch (num := Z) 1 30 40)
               = Some Scenario.t1) by (vm_compute; reflexivity).
  assert (H3 : ∀ touch' : RawTouch (num := Z),
            touch' ∈ [mkRawTouch 7 1 1; mkRawTouch 2 50 60] →
            _touches two_down !! raw_identifier touch' ≠ Some Scenario.t1).
  { intros touch' H. apply elem_of_cons in H. destruct H as [->|H];
      [|apply list_elem_of_singleton in H; subst touch'];
      vm_compute; discriminate. }
  split; [exact (conj H1 (conj H2 (conj H3 view_gives_back_keeps)))|].
  exact (touchmove_moves_touch view_gives_back drag_three []
           [mkRawTouch 7 1 1; mkRawTouch 2 50 60] (mkRawTouch 1 30 40)
           Scenario.t1 (λ _, false) two_down H1 H2 H3 view_gives_back_keeps).
Defined.

Lemma told_views (told : list Dragged) :
  (map (λ d, (dr_view d, dr_viewChangedTouches d)) told).*1
  = map dr_view told.
Proof.
  induction told as [|d told IH]; [reflexivity|].
  rewrite !map_cons. simpl. f_equal. exact IH.
Qed.

(** X15: whatever the views do when they are told, [touchmove] writes one
    line to the console for every changed touch that is not mapped, then
    tells views, and logs one warning at the end, or none.  No view is
    told twice, however many of its touches changed; a view that is told
    is told with a set of touches that is not empty, and its changed
    touches are the touch objects of the changed touches that were
    mapped and had this view as their responder when [touchmove] was
    called; and when no warning is logged, every responder of a changed
    touch that is mapped has been told. *)
Theorem touchmove_tells_each_view_once {num : Type}
    (touchesDragged : Dragged → World num → reply unit * World num)
    (evt : TouchEvent (num := num)) (event : TouchRef → bool)
    (w : World num) :
  let r := touchmove touchesDragged evt event w in
  ∃ (told : list Dragged) (warned : bool),
    mv_notes r
    = replicate
        (length (List.filter
                   (λ touch, bool_decide (_touches w !! raw_identifier touch
                                          = None))
                   (changedTouches evt)))
        Console_log
      ++ map Told told ++ (if warned then [Logger_warn] else [])
    ∧ NoDup (map dr_view told)
    ∧ (∀ n te, n ∈ told →
         (te ∈ dr_viewChangedTouches n
          ↔ ∃ touch, touch ∈ changedTouches evt
              ∧ _touches w !! raw_identifier touch = Some te
              ∧ touchResponder (heap w te) = Obj (dr_view n)))
    ∧ (∀ n, n ∈ told → dr_viewTouches n ≠ [])
    ∧ (warned = false →
       ∀ touch te v,
         touch ∈ changedTouches evt →
         _touches w !! raw_identifier touch = Some te →
         touchResponder (heap w te) = Obj v →
         ∃ n, n ∈ told ∧ dr_view n = v).
Proof.
  intros r. subst r. unfold touchmove.
  set (st0 := mkMoveState (with_runLoop 1 w) event [] None []).
  pose proof (fold_move_notes evt (changedTouches evt) st0) as Hnotes.
  destruct (fold_move_changed evt (changedTouches evt) st0) as [C1 C2].
  set (st := fold_left (move_touch evt) (changedTouches evt) st0) in *.
  simpl in Hnotes, C1, C2.
  specialize (C1 ltac:(constructor)).
  assert (C3 : ∀ v te,
            (∃ ts, (v, ts) ∈ ms_changedViews st ∧ te ∈ ts)
            ↔ ∃ touch, touch ∈ changedTouches evt
                ∧ _touches w !! raw_identifier touch = Some te
                ∧ touchResponder (heap w te) = Obj v).
  { intros v te. rewrite C2. split; [|intros H; right; exact H].
    intros [(ts & H & _)|H]; [|exact H].
    apply elem_of_nil in H. contradiction. }
  destruct (drag_views_told touchesDragged (ms_changedViews st) (ms_world st))
    as (told & later & Htold & Hcv & Hall & Hsets).
  destruct (drag_views touchesDragged (ms_changedViews st) (ms_world st))
    as [[notes completed] w2].
  simpl in Htold, Hall.
  assert (Hin : ∀ n, n ∈ told →
            (dr_view n, dr_viewChangedTouches n) ∈ ms_changedViews st).
  { intros n Hn. rewrite Hcv. apply elem_of_app. left.
    apply list_elem_of_In.
    apply (in_map (λ d, (dr_view d, dr_viewChangedTouches d))).
    apply list_elem_of_In. exact Hn. }
  assert (Hrest : NoDup (map dr_view told)
            ∧ (∀ n te, n ∈ told →
                 (te ∈ dr_viewChangedTouches n
                  ↔ ∃ touch, touch ∈ changedTouches evt
                      ∧ _touches w !! raw_identifier touch = Some te
                      ∧ touchResponder (heap w te) = Obj (dr_view n)))
            ∧ (∀ n, n ∈ told → dr_viewTouches n ≠ [])).
  { split; [|split; [|exact Hsets]].
    - rewrite Hcv, fmap_app, told_views in C1.
      apply list.NoDup_app in C1. apply C1.
    - intros n te Hn. rewrite <- C3. split.
      + intros Hte. exists (dr_viewChangedTouches n).
        split; [apply Hin; exact Hn|exact Hte].
      + intros (ts & Hts & Hte).
        rewrite (changedViews_unique (ms_changedViews st) (dr_view n)
                   (dr_viewChangedTouches n) ts C1 (Hin n Hn) Hts).
        exact Hte. }
  assert (Hcovered : completed = true →
            ∀ touch te v,
              touch ∈ changedTouches evt →
              _touches w !! raw_identifier touch = Some te →
              touchResponder (heap w te) = Obj v →
              ∃ n, n ∈ told ∧ dr_view n = v).
  { intros Hc touch te v H1 H2 H3.
    destruct (proj2 (C3 v te)) as (ts & Hts & _).
    { exists touch. repeat split; assumption. }
    rewrite Hcv, (Hall Hc), app_nil_r in Hts.
    apply list_elem_of_In, in_map_iff in Hts.
    destruct Hts as (n & Hn & Hin'). exists n.
    split; [apply list_elem_of_In; exact Hin'|]. congruence. }
  set (cleared := if completed then _ else _).
  assert (Hcleared : is_Some cleared → completed = true).
  { subst cleared. destruct completed; [reflexivity|].
    intros [? H]. discriminate. }
  destruct cleared as [event'|]; simpl.
  - exists told, false. rewrite Hnotes, Htold, app_nil_r.
    split; [reflexivity|]. destruct Hrest as (R1 & R2 & R3).
    split; [exact R1|]. split; [exact R2|]. split; [exact R3|].
    intros _. apply Hcovered. apply Hcleared. eauto.
  - exists told, true. rewrite Hnotes, Htold.
    split; [reflexivity|]. destruct Hrest as (R1 & R2 & R3).
    split; [exact R1|]. split; [exact R2|]. split; [exact R3|].
    discriminate.
Qed.

(** The fingers 1 and 2, both on [B], move together with an unknown
    finger, and [B], when it is told, gives the first touch to [A]: one
    line on the console, [B] told once with both touches, no warning; the
    first touch is left with [A] and with the reference to the event. *)
Lemma touchmove_tells_each_view_once_witness :
  (∃ (told : list Dragged) (warned : bool),
     mv_notes (touchmove view_gives_back drag_three (λ _, false) two_down)
     = replicate
         (length (List.filter
                    (λ touch, bool_decide (_touches two_down
                                           !! raw_identifier touch = None))
                    (changedTouches drag_three)))
         Console_log
       ++ map Told told ++ (if warned then [Logger_warn] else [])
     ∧ NoDup (map dr_view told)
     ∧ (∀ n te, n ∈ told →
          (te ∈ dr_viewChangedTouches n
           ↔ ∃ touch, touch ∈ changedTouches drag_three
               ∧ _touches two_down !! raw_identifier touch = Some te
               ∧ touchResponder (heap two_down te) = Obj (dr_view n)))
     ∧ (∀ n, n ∈ told → dr_viewTouches n ≠ [])
     ∧ (warned = false →
        ∀ touch te v,
          touch ∈ changedTouches drag_three →
          _touches two_down !! raw_identifier touch = Some te →
          touchResponder (heap two_down te) = Obj v →
          ∃ n, n ∈ told ∧ dr_view n = v))
  ∧ mv_notes (touchmove view_gives_back drag_three (λ _, false) two_down)
    = [Console_log;
       Told (mkDragged Scenario.B [Scenario.t1; Scenario.t2]
                       [Scenario.t1; Scenario.t2])]
  ∧ touchResponder
      (heap (mv_world (touchmove view_gives_back drag_three (λ _, false)
                                 two_down)) Scenario.t1) = Obj Scenario.A
  ∧ mv_event (touchmove view_gives_back drag_three (λ _, false) two_down)
             Scenario.t1 = true
  ∧ mv_event (touchmove view_gives_back drag_three (λ _, false) two_down)
             Scenario.t2 = false.
Proof.
  split.
  - exact (touchmove_tells_each_view_once view_gives_back drag_three
             (λ _, false) two_down).
  - vm_compute. repeat split.
Defined.

(** After an offer with [shouldStack] that is declined, the touch keeps a
    responder that has lost it in the index: the next [touchmove] for the
    touch finds no touches for that responder, fails on reading the first
    of them, and ends in its catch; the responder is not told. *)
Lemma stacked_decline_breaks_touchmove :
  let w := (makeTouchResponder Scenario.B_declines Scenario.t1
              (Obj Scenario.A) false registered).2 in
  let w' := (makeTouchResponder Scenario.B_declines Scenario.t1
               (Obj Scenario.B) true w).2 in
  let r := touchmove view_idle (mkTouchEvent [mkRawTouch 1 5 5] 9 false)
                     (λ _, false) w' in
  _touches w' !! 1 = Some Scenario.t1
  ∧ touchResponder (heap w' Scenario.t1) = Obj Scenario.A
  ∧ touchesForView Scenario.A w' = None
  ∧ mv_notes r = [Logger_warn].
Proof. vm_compute. repeat split. Qed.
